(** * SPOS: shallow embedding of the four simulations

    The repository holds four independent batch programs:
    - [first.cpp]: a two-pass assembler for a pseudo-machine;
    - [fourth(page replacement).cpp]: FIFO, LRU and Optimal page replacement,
      followed by a two-pass macroprocessor;
    - [third(CPU SCHEDULING).cpp]: FCFS, SJF, Priority and Round Robin.

    Each program is embedded as pure functions over explicit state.  The
    C++ [int] is a 32-bit two's complement integer, [size_t] a 64-bit
    unsigned one; [char] is signed.  Console banners that carry no data are
    left out; diagnostics ([cerr]) and the generated files are kept. *)

From Stdlib Require Import ZArith Lia List String Ascii Bool.
From stdpp Require Import base list strings gmap.

(** ** The C++ library functions the programs call *)
Module Cpp.

Definition TAB : string := String "009" EmptyString.
Definition NL : string := String "010" EmptyString.

(** [int] arithmetic: the value reduced to 32 bits, read as signed. *)
Definition wrap32 (z : Z) : Z := ((z + 2 ^ 31) mod 2 ^ 32 - 2 ^ 31)%Z.

(** An [int] converted to [size_t] (for [size() < capacity] and the like). *)
Definition to_size_t (z : Z) : Z := (z mod 2 ^ 64)%Z.

Definition INT_MAX : Z := (2 ^ 31 - 1)%Z.
Definition INT_MIN : Z := (- 2 ^ 31)%Z.

(** [isspace], [isdigit] and [toupper] of the "C" locale. *)
Definition isspace (c : ascii) : bool :=
  let n := nat_of_ascii c in
  Nat.eqb n 32 || (Nat.leb 9 n && Nat.leb n 13).

Definition isdigit (c : ascii) : bool :=
  let n := nat_of_ascii c in Nat.leb 48 n && Nat.leb n 57.

Definition toupper (c : ascii) : ascii :=
  let n := nat_of_ascii c in
  if Nat.leb 97 n && Nat.leb n 122 then ascii_of_nat (n - 32) else c.

Fixpoint transform (f : ascii -> ascii) (s : string) : string :=
  match s with
  | EmptyString => EmptyString
  | String c s' => String (f c) (transform f s')
  end.

Definition str_empty (s : string) : bool :=
  match s with EmptyString => true | _ => false end.

Fixpoint str_take (n : nat) (s : string) : string :=
  match n, s with
  | S n', String c s' => String c (str_take n' s')
  | _, _ => EmptyString
  end.

Fixpoint str_drop (n : nat) (s : string) : string :=
  match n, s with
  | S n', String _ s' => str_drop n' s'
  | _, _ => s
  end.

(** [s.substr(pos, count)] for [pos <= s.size()]; [count] is a [size_t],
    clipped to what is left of the string. *)
Definition substr (s : string) (pos : nat) (count : Z) : string :=
  str_take (Z.to_nat (Z.min count (Z.of_nat (String.length s - pos))))
           (str_drop pos s).

(** [s.length() - 3] in [size_t] arithmetic. *)
Definition length_minus3 (s : string) : Z :=
  to_size_t (Z.of_nat (String.length s) - 3).

(** [s.rfind(p, 0) == 0]: [p] is a prefix of [s]. *)
Definition starts_with (p s : string) : bool := String.prefix p s.

(** [s.find(pat)]: index of the first occurrence. *)
Fixpoint find_from (pat s : string) (i : nat) : option nat :=
  if String.prefix pat s then Some i
  else match s with
       | EmptyString => None
       | String _ s' => find_from pat s' (S i)
       end.

Definition str_find (pat s : string) : option nat := find_from pat s 0.

(** [s.replace(pos, len, by)] for [pos <= s.size()]. *)
Definition str_replace (s : string) (pos len : nat) (by_ : string) : string :=
  str_take pos s +:+ by_ +:+ str_drop (pos + len) s.

(** The idiom both macro passes use:
    [pos = s.find(pat); if (pos != npos) s.replace(pos, pat.length(), by)]. *)
Definition find_replace (pat by_ s : string) : string :=
  match str_find pat s with
  | Some pos => str_replace s pos (String.length pat) by_
  | None => s
  end.

(** [s.find(needle) != npos]: [needle] occurs in [s]. *)
Definition contains (needle s : string) : bool :=
  match str_find needle s with Some _ => true | None => false end.

(** Digits of [strtol]. *)
Definition digit_val (base : Z) (c : ascii) : option Z :=
  let n := Z.of_nat (nat_of_ascii c) in
  let v := if (48 <=? n)%Z && (n <=? 57)%Z then (n - 48)%Z
           else if (97 <=? n)%Z && (n <=? 122)%Z then (n - 87)%Z
           else if (65 <=? n)%Z && (n <=? 90)%Z then (n - 55)%Z
           else 99%Z in
  if (v <? base)%Z then Some v else None.

Fixpoint parse_digits (base : Z) (s : string) (acc : option Z) : option Z :=
  match s with
  | EmptyString => acc
  | String c s' =>
      match digit_val base c with
      | Some d => parse_digits base s' (Some (default 0%Z acc * base + d)%Z)
      | None => acc
      end
  end.

Fixpoint skip_space (s : string) : string :=
  match s with
  | String c s' => if isspace c then skip_space s' else s
  | EmptyString => s
  end.

Definition skip_0x (s : string) : string :=
  match s with
  | String "0" (String x (String d s')) =>
      if (Ascii.eqb x "x" || Ascii.eqb x "X") && bool_decide (is_Some (digit_val 16 d))
      then String d s' else s
  | _ => s
  end.

(** [std::stoi(s, nullptr, base)]: [None] is a thrown [invalid_argument]
    (no digits) or [out_of_range] (not an [int]). *)
Definition stoi_base (base : Z) (s : string) : option Z :=
  let s1 := skip_space s in
  let '(neg, s2) :=
    match s1 with
    | String "-" r => (true, r)
    | String "+" r => (false, r)
    | _ => (false, s1)
    end in
  let s3 := if (base =? 16)%Z then skip_0x s2 else s2 in
  match parse_digits base s3 None with
  | None => None
  | Some v =>
      let v' := if neg then (- v)%Z else v in
      if (INT_MIN <=? v')%Z && (v' <=? INT_MAX)%Z then Some v' else None
  end.

Definition stoi (s : string) : option Z := stoi_base 10 s.

(** [std::to_string] of a non-negative integer. *)
Definition dec_digit (n : nat) : ascii := ascii_of_nat (48 + n).

Fixpoint to_string_fuel (fuel n : nat) (acc : string) : string :=
  match fuel with
  | O => acc
  | S fuel' =>
      let acc' := String (dec_digit (n mod 10)) acc in
      if Nat.ltb n 10 then acc' else to_string_fuel fuel' (n / 10) acc'
  end.

Definition to_string (n : nat) : string := to_string_fuel (S n) n EmptyString.

(** A [std::map<string, V>]: an association list kept sorted by key, so that
    iteration order is the key order. *)
Definition omap (V : Type) : Type := list (string * V).

Fixpoint omap_lookup {V : Type} (k : string) (m : omap V) : option V :=
  match m with
  | [] => None
  | (k', v) :: m' => if String.eqb k k' then Some v else omap_lookup k m'
  end.

Definition omap_count {V : Type} (k : string) (m : omap V) : bool :=
  bool_decide (is_Some (omap_lookup k m)).

Fixpoint omap_insert {V : Type} (k : string) (v : V) (m : omap V) : omap V :=
  match m with
  | [] => [(k, v)]
  | (k', v') :: m' =>
      match String.compare k k' with
      | Lt => (k, v) :: m
      | Eq => (k, v) :: m'
      | Gt => (k', v') :: omap_insert k v m'
      end
  end.

End Cpp.

(** ** first.cpp: the two-pass assembler *)
Module Assembler.
Import Cpp.

(** Operation Code Table: mnemonic -> (opcode, length). *)
Definition OPTAB : gmap string (string * Z) :=
  list_to_map
    [ ("LDA", ("00", 3%Z)); ("STA", ("0C", 3%Z)); ("ADD", ("18", 3%Z));
      ("JMP", ("30", 3%Z)); ("JLT", ("38", 3%Z)); ("SUB", ("1C", 3%Z)) ].

Record IntermediateLine : Type := mkIL {
  location_counter : string;
  label : string;
  opcode : string;
  operand : string
}.

(** A row of [source_code]: {Label, Opcode, Operand}. *)
Record SourceLine : Type := mkSrc {
  src_label : string;
  src_opcode : string;
  src_operand : string
}.

Definition hex_digit (n : Z) : ascii :=
  nth (Z.to_nat n) (list_ascii_of_string "0123456789ABCDEF") "0"%char.

(** The [k] low hexadecimal digits of [v], most significant first. *)
Fixpoint hex_nibbles (k : nat) (v : Z) : string :=
  match k with
  | O => EmptyString
  | S k' => String (hex_digit ((v / 16 ^ Z.of_nat k') mod 16)%Z) (hex_nibbles k' v)
  end.

(** Leading zeros are not printed, the last digit always is. *)
Fixpoint strip_zeros (s : string) : string :=
  match s with
  | String c r =>
      if Ascii.eqb c "0" && negb (str_empty r) then strip_zeros r else s
  | EmptyString => s
  end.

Definition pad_left (w : nat) (c : ascii) (s : string) : string :=
  string_of_list_ascii (repeat c (w - String.length s)) +:+ s.

(** [toHex]: an [int] printed with [hex << uppercase << setw << setfill('0')];
    a negative value prints as its 32-bit two's complement. *)
Definition toHex (value : Z) (padding : nat) : string :=
  pad_left padding "0" (strip_zeros (hex_nibbles 8 (value mod 2 ^ 32)%Z)).

(** A [char] passed to [toHex(int, int)]: sign-extended. *)
Definition char_to_int (c : ascii) : Z :=
  let n := Z.of_nat (nat_of_ascii c) in
  if (n <? 128)%Z then n else (n - 256)%Z.

Fixpoint chars_to_hex (s : string) : string :=
  match s with
  | EmptyString => EmptyString
  | String c s' => toHex (char_to_int c) 2 +:+ chars_to_hex s'
  end.

Definition first_char (s : string) : ascii :=
  match s with String c _ => c | EmptyString => "000"%char end.

Definition second_char (s : string) : ascii :=
  match s with String _ (String c _) => c | _ => "000"%char end.

(** [hexToByteCode]: the object code of a WORD/BYTE operand. *)
Definition hexToByteCode (operand : string) : string :=
  if str_empty operand then ""
  else
    let upperOperand := transform toupper operand in
    if starts_with "C'" upperOperand then
      chars_to_hex (substr upperOperand 2 (length_minus3 upperOperand))
    else if starts_with "X'" upperOperand then
      substr upperOperand 2 (length_minus3 upperOperand)
    else if isdigit (first_char upperOperand)
            || (Nat.ltb 1 (String.length upperOperand)
                && (Ascii.eqb (first_char upperOperand) "-"
                    || Ascii.eqb (first_char upperOperand) "+")
                && isdigit (second_char upperOperand)) then
      match stoi upperOperand with
      | Some value => toHex value 6
      | None => "ERROR"
      end
    else "".

(** *** Pass I *)

(** The globals [SYMTAB] and [LITTAB], the locals of [pass_one], the
    intermediate file it fills and what it writes to [cerr]. *)
Record pass1_state : Type := mkP1 {
  LC : Z;
  start_address : Z;
  program_name : string;
  SYMTAB : gmap string string;
  LITTAB : omap (string * Z);
  intermediate_file : list IntermediateLine;
  cerr : list string
}.

Definition duplicate_label_message (lbl : string) (lc : Z) : string :=
  "Error: Duplicate label '" +:+ lbl +:+ "' at LC " +:+ toHex lc 4.

(** Step 2 of the loop body: record the label. *)
Definition process_label (st : pass1_state) (lbl : string) : pass1_state :=
  if str_empty lbl then st
  else
    let err := match SYMTAB st !! lbl with
               | Some _ => [duplicate_label_message lbl (LC st)]
               | None => []
               end in
    mkP1 (LC st) (start_address st) (program_name st)
         (<[lbl := toHex (LC st) 4]> (SYMTAB st)) (LITTAB st)
         (intermediate_file st) (cerr st ++ err).

Definition push_intermediate (st : pass1_state) (line : SourceLine) : pass1_state :=
  mkP1 (LC st) (start_address st) (program_name st) (SYMTAB st) (LITTAB st)
       (intermediate_file st ++
          [mkIL (toHex (LC st) 4) (src_label line) (src_opcode line) (src_operand line)])
       (cerr st).

Definition set_LC (st : pass1_state) (lc : Z) : pass1_state :=
  mkP1 lc (start_address st) (program_name st) (SYMTAB st) (LITTAB st)
       (intermediate_file st) (cerr st).

Definition set_LITTAB (st : pass1_state) (lt : omap (string * Z)) : pass1_state :=
  mkP1 (LC st) (start_address st) (program_name st) (SYMTAB st) lt
       (intermediate_file st) (cerr st).

(** Step 4: the location counter after the line; [None] when [stoi] throws. *)
Definition advance_LC (lc : Z) (opc opd : string) : option Z :=
  match OPTAB !! opc with
  | Some (_, len) => Some (wrap32 (lc + len))
  | None =>
      if String.eqb opc "WORD" then Some (wrap32 (lc + 3))
      else if String.eqb opc "RESW" then
        match stoi opd with
        | Some n => Some (wrap32 (lc + 3 * n))
        | None => None
        end
      else if String.eqb opc "RESB" then
        match stoi opd with
        | Some n => Some (wrap32 (lc + n))
        | None => None
        end
      else if String.eqb opc "BYTE" then
        let upperOperand := transform toupper opd in
        if starts_with "C'" upperOperand then
          Some (wrap32 (lc + length_minus3 upperOperand))
        else if starts_with "X'" upperOperand then
          Some (wrap32 (lc + length_minus3 upperOperand / 2))
        else Some lc
      else Some lc
  end.

Definition literal_length (opd : string) : Z :=
  let upperLiteral := transform toupper (str_drop 1 opd) in
  if starts_with "C'" upperLiteral then wrap32 (length_minus3 upperLiteral)
  else if starts_with "X'" upperLiteral then wrap32 (length_minus3 upperLiteral / 2)
  else 3%Z.

(** Step 5: a literal operand enters [LITTAB] with an empty address. *)
Definition register_literal (st : pass1_state) (opd : string) : pass1_state :=
  if starts_with "=" opd then
    if omap_count opd (LITTAB st) then st
    else set_LITTAB st (omap_insert opd (EmptyString, literal_length opd) (LITTAB st))
  else st.

(** Step 6: at END every literal without an address gets the current
    location counter, in the order the table iterates. *)
Fixpoint assign_literals (lt : omap (string * Z)) (lc : Z) : omap (string * Z) * Z :=
  match lt with
  | [] => ([], lc)
  | (k, (addr, len)) :: rest =>
      if str_empty addr then
        let '(rest', lc') := assign_literals rest (wrap32 (lc + len)) in
        ((k, (toHex lc 4, len)) :: rest', lc')
      else
        let '(rest', lc') := assign_literals rest lc in
        ((k, (addr, len)) :: rest', lc')
  end.

Inductive step_result : Type :=
| Continue (st : pass1_state)
| Break (st : pass1_state)
| Throw.

(** The body of the [for] loop of [pass_one] for one source line. *)
Definition pass_one_line (st : pass1_state) (line : SourceLine) : step_result :=
  let opc := src_opcode line in
  let opd := src_operand line in
  if String.eqb opc "START" then
    match (if str_empty opd then Some 0%Z else stoi_base 16 opd) with
    | None => Throw
    | Some a =>
        Continue
          (push_intermediate
             (mkP1 a a (src_label line) (SYMTAB st) (LITTAB st)
                   (intermediate_file st) (cerr st))
             line)
    end
  else
    let st1 := process_label st (src_label line) in
    let st2 := if String.eqb opc "END" then st1 else push_intermediate st1 line in
    match advance_LC (LC st2) opc opd with
    | None => Throw
    | Some lc =>
        let st3 := set_LC st2 lc in
        let st4 := register_literal st3 opd in
        if String.eqb opc "END" then
          let st5 := push_intermediate st4 line in
          let '(lt, lc') := assign_literals (LITTAB st5) (LC st5) in
          Break (set_LC (set_LITTAB st5 lt) lc')
        else Continue st4
    end.

Fixpoint pass_one_loop (src : list SourceLine) (st : pass1_state) : option pass1_state :=
  match src with
  | [] => Some st
  | line :: rest =>
      match pass_one_line st line with
      | Continue st' => pass_one_loop rest st'
      | Break st' => Some st'
      | Throw => None
      end
  end.

Definition pass1_init (symtab : gmap string string) (littab : omap (string * Z))
    (inter : list IntermediateLine) : pass1_state :=
  mkP1 0 0 EmptyString symtab littab inter [].

Definition program_length (st : pass1_state) : Z := wrap32 (LC st - start_address st).

(** [pass_one]: the returned tuple (name, start address, length) together
    with the final state; [None] when a [stoi] exception ends the program. *)
Definition pass_one (source_code : list SourceLine)
    : option (string * string * Z * pass1_state) :=
  match pass_one_loop source_code (pass1_init ∅ [] []) with
  | Some st => Some (program_name st, toHex (start_address st) 4, program_length st, st)
  | None => None
  end.

(** *** Pass II *)

Inductive ObjRecord : Type :=
| HeaderRec (name start len : string)
| TextRec (start len code : string)
| EndRec (start : string).

(** The record as the string pushed on [object_program]. *)
Definition render (r : ObjRecord) : string :=
  match r with
  | HeaderRec name start len => "H" +:+ name +:+ start +:+ len
  | TextRec start len code => "T" +:+ start +:+ len +:+ code
  | EndRec start => "E" +:+ start
  end.

Definition MAX_TEXT_RECORD_LENGTH : nat := 60.

Record pass2_state : Type := mkP2 {
  object_program : list ObjRecord;
  text_record_start_addr : string;
  current_text_record_code : string;
  warnings : list string
}.

Definition unresolved_message (opd : string) : string :=
  "Warning: Symbol/Literal '" +:+ opd +:+ "' not found. Using address 0000.".

Definition text_record (st : pass2_state) : ObjRecord :=
  TextRec (text_record_start_addr st)
          (toHex (Z.of_nat (String.length (current_text_record_code st)) / 2) 2)
          (current_text_record_code st).

(** The operand address of a machine instruction and the warning, if any. *)
Definition resolve_operand (symtab : gmap string string) (littab : omap (string * Z))
    (opd : string) : string * list string :=
  match symtab !! opd with
  | Some a => (a, [])
  | None =>
      match (if starts_with "=" opd then omap_lookup opd littab else None) with
      | Some (a, _) => (a, [])
      | None =>
          if str_empty opd then ("0000", [])
          else ("0000", [unresolved_message opd])
      end
  end.

(** Step 3 of the loop body: add [object_code] to the text record. *)
Definition build_text_record (st : pass2_state) (line : IntermediateLine)
    (object_code : string) : pass2_state :=
  if str_empty object_code then st
  else
    let start := if str_empty (current_text_record_code st)
                 then location_counter line else text_record_start_addr st in
    if Nat.ltb MAX_TEXT_RECORD_LENGTH
         (String.length (current_text_record_code st) + String.length object_code)
    then
      mkP2 (object_program st ++
              [text_record (mkP2 (object_program st) start
                                 (current_text_record_code st) (warnings st))])
           (location_counter line) object_code (warnings st)
    else
      mkP2 (object_program st) start
           (current_text_record_code st +:+ object_code) (warnings st).

Definition add_warnings (st : pass2_state) (w : list string) : pass2_state :=
  mkP2 (object_program st) (text_record_start_addr st)
       (current_text_record_code st) (warnings st ++ w).

(** RESW/RESB: end the current text record. *)
Definition flush_text_record (st : pass2_state) : pass2_state :=
  mkP2 (if str_empty (current_text_record_code st) then object_program st
        else object_program st ++ [text_record st])
       EmptyString EmptyString (warnings st).

(** What the branches of the loop body decide for a line: an object code
    (with the warning printed on the way), the end of the current text
    record, or nothing. *)
Inductive line_action : Type :=
| Emit (object_code : string) (w : list string)
| Flush
| Skip.

Definition line_object_code (symtab : gmap string string) (littab : omap (string * Z))
    (line : IntermediateLine) : line_action :=
  match OPTAB !! opcode line with
  | Some (op_code, _) =>
      let '(address, w) := resolve_operand symtab littab (operand line) in
      Emit (op_code +:+ address) w
  | None =>
      if String.eqb (opcode line) "WORD" || String.eqb (opcode line) "BYTE" then
        Emit (hexToByteCode (operand line)) []
      else if String.eqb (opcode line) "RESW" || String.eqb (opcode line) "RESB" then
        Flush
      else if String.eqb (opcode line) "START" || String.eqb (opcode line) "END" then
        Skip
      else Emit EmptyString []
  end.

(** The body of the [for] loop of [pass_two] for one intermediate line. *)
Definition pass_two_line (symtab : gmap string string) (littab : omap (string * Z))
    (st : pass2_state) (line : IntermediateLine) : pass2_state :=
  match line_object_code symtab littab line with
  | Emit object_code w => build_text_record (add_warnings st w) line object_code
  | Flush => flush_text_record st
  | Skip => st
  end.

(** The object code a line contributes. *)
Definition object_code_of (symtab : gmap string string) (littab : omap (string * Z))
    (line : IntermediateLine) : string :=
  match line_object_code symtab littab line with
  | Emit object_code _ => object_code
  | _ => EmptyString
  end.

Definition header_record (program_name start_addr : string) (program_len : Z) : ObjRecord :=
  let padded_name :=
    if Nat.ltb 6 (String.length program_name) then str_take 6 program_name
    else program_name in
  HeaderRec (padded_name +:+
               string_of_list_ascii (repeat " "%char (6 - String.length padded_name)))
            start_addr (toHex program_len 6).

Definition pass_two_loop (symtab : gmap string string) (littab : omap (string * Z))
    (inter : list IntermediateLine) (st : pass2_state) : pass2_state :=
  fold_left (pass_two_line symtab littab) inter st.

(** [pass_two]: the final state; its [object_program] is what is printed. *)
Definition pass_two (symtab : gmap string string) (littab : omap (string * Z))
    (inter : list IntermediateLine) (program_name start_addr : string)
    (program_len : Z) : pass2_state :=
  let st0 := mkP2 [header_record program_name start_addr program_len]
                  EmptyString EmptyString [] in
  let st1 := pass_two_loop symtab littab inter st0 in
  let st2 := if str_empty (current_text_record_code st1) then st1
             else mkP2 (object_program st1 ++ [text_record st1])
                       (text_record_start_addr st1) (current_text_record_code st1)
                       (warnings st1) in
  mkP2 (object_program st2 ++ [EndRec start_addr])
       (text_record_start_addr st2) (current_text_record_code st2) (warnings st2).

(** The object bytes of the text records of an object program, in order. *)
Fixpoint text_bytes (rs : list ObjRecord) : string :=
  match rs with
  | [] => EmptyString
  | TextRec _ _ code :: rs' => code +:+ text_bytes rs'
  | _ :: rs' => text_bytes rs'
  end.

(** The object codes of the lines of an intermediate file, in order. *)
Fixpoint object_codes (symtab : gmap string string) (littab : omap (string * Z))
    (inter : list IntermediateLine) : string :=
  match inter with
  | [] => EmptyString
  | line :: inter' => object_code_of symtab littab line +:+ object_codes symtab littab inter'
  end.

(** The source line an intermediate line was made from. *)
Definition source_of (il : IntermediateLine) : SourceLine :=
  mkSrc (label il) (opcode il) (operand il).

(** The source lines the loop of [pass_one] reaches: up to the first END. *)
Fixpoint processed_lines (src : list SourceLine) : list SourceLine :=
  match src with
  | [] => []
  | line :: rest =>
      if String.eqb (src_opcode line) "START" then line :: processed_lines rest
      else if String.eqb (src_opcode line) "END" then [line]
      else line :: processed_lines rest
  end.

(** The state a step of Pass I leaves, when it does not throw. *)
Definition step_state (r : step_result) : option pass1_state :=
  match r with
  | Continue st | Break st => Some st
  | Throw => None
  end.

(** The program of [main]. *)
Definition sample_source : list SourceLine :=
  [ mkSrc "COPY" "START" "1000";
    mkSrc "LOOP" "LDA" "TEN";
    mkSrc "" "ADD" "ONE";
    mkSrc "" "JLT" "LOOP";
    mkSrc "" "STA" "RESULT";
    mkSrc "" "LDA" "=C'EOF'";
    mkSrc "TEN" "WORD" "10";
    mkSrc "ONE" "RESW" "1";
    mkSrc "RESULT" "RESB" "3";
    mkSrc "" "END" "" ].

(** The tables and the object program that the EXPECTED OUTPUT comment of
    first.cpp lists for the sample program. *)
Definition expected_symtab : gmap string string :=
  list_to_map
    [ ("LOOP", "1000"); ("ONE", "1012"); ("RESULT", "1015"); ("TEN", "100F") ].

Definition expected_littab : omap (string * Z) := [ ("=C'EOF'", ("1018", 3%Z)) ].

Definition expected_intermediate : list IntermediateLine :=
  [ mkIL "1000" "COPY" "START" "1000";
    mkIL "1000" "LOOP" "LDA" "TEN";
    mkIL "1003" "" "ADD" "ONE";
    mkIL "1006" "" "JLT" "LOOP";
    mkIL "1009" "" "STA" "RESULT";
    mkIL "100C" "" "LDA" "=C'EOF'";
    mkIL "100F" "TEN" "WORD" "10";
    mkIL "1012" "ONE" "RESW" "1";
    mkIL "1015" "RESULT" "RESB" "3";
    mkIL "1018" "" "END" "" ].

Definition expected_pass1_state : pass1_state :=
  mkP1 0x101B 0x1000 "COPY" expected_symtab expected_littab expected_intermediate [].

Definition expected_object_program : list ObjRecord :=
  [ HeaderRec "COPY  " "1000" "00001B";
    TextRec "1000" "12" "00100F1810123810000C101500101800000A";
    EndRec "1000" ].

(** The claim of the specification about labels, for one line processed from
    [st]: a non-empty label is in the symbol table at the current location
    counter afterwards, with a warning if it was there before. *)
Definition label_recorded (st : pass1_state) (line : SourceLine) : Prop :=
  src_label line <> EmptyString ->
  forall st' : pass1_state,
    step_state (pass_one_line st line) = Some st' ->
    SYMTAB st' !! src_label line = Some (toHex (LC st) 4)
    /\ (is_Some (SYMTAB st !! src_label line) ->
        cerr st' = cerr st ++ [duplicate_label_message (src_label line) (LC st)]).

(** [main]: Pass I, then Pass II on its results; the printed object program. *)
Definition main_object_program (source_code : list SourceLine) : option (list string) :=
  match pass_one source_code with
  | Some (name, start, len, st) =>
      Some (map render
              (object_program
                 (pass_two (SYMTAB st) (LITTAB st) (intermediate_file st) name start len)))
  | None => None
  end.

(** *** Shapes of the strings the assembler prints *)

(** A character [toHex] can print. *)
Definition is_hex_digit (c : ascii) : bool :=
  existsb (Ascii.eqb c) (list_ascii_of_string "0123456789ABCDEF").

Fixpoint all_hex (s : string) : bool :=
  match s with
  | EmptyString => true
  | String c s' => is_hex_digit c && all_hex s'
  end.

(** A 7-bit character: as a [char] it is not negative. *)
Definition is_ascii7 (c : ascii) : bool := Nat.ltb (nat_of_ascii c) 128.

Fixpoint all_ascii7 (s : string) : bool :=
  match s with
  | EmptyString => true
  | String c s' => is_ascii7 c && all_ascii7 s'
  end.

(** A text record that holds between 1 and 60 characters of object code and
    states half that many as its length. *)
Definition text_record_ok (r : ObjRecord) : Prop :=
  match r with
  | TextRec _ len code =>
      1 <= String.length code <= MAX_TEXT_RECORD_LENGTH
      /\ len = toHex (Z.of_nat (String.length code) / 2) 2
  | _ => False
  end.

(** The claim of the specification about a duplicate label, for one line
    processed from [st] with the lines [rest] after it: the message is
    printed and the loop goes on from the state the line leaves (or ends
    normally, at END). *)
Definition duplicate_label_reported (st : pass1_state) (line : SourceLine)
    (rest : list SourceLine) : Prop :=
  exists st',
    step_state (pass_one_line st line) = Some st'
    /\ cerr st' = cerr st ++ [duplicate_label_message (src_label line) (LC st)]
    /\ pass_one_loop (line :: rest) st
       = if String.eqb (src_opcode line) "END" then Some st'
         else pass_one_loop rest st'.

(** Steps 3 to 6 of the loop body for a line other than START, from the
    state [st1] the label step leaves. *)
Definition after_label (st1 : pass1_state) (line : SourceLine) : step_result :=
  let opc := src_opcode line in
  let opd := src_operand line in
  let st2 := if String.eqb opc "END" then st1 else push_intermediate st1 line in
  match advance_LC (LC st2) opc opd with
  | None => Throw
  | Some lc =>
      let st3 := set_LC st2 lc in
      let st4 := register_literal st3 opd in
      if String.eqb opc "END" then
        let st5 := push_intermediate st4 line in
        let '(lt, lc') := assign_literals (LITTAB st5) (LC st5) in
        Break (set_LC (set_LITTAB st5 lt) lc')
      else Continue st4
  end.

(** A text record whose length field is [toHex] of half the number of
    characters of its object code. *)
Definition text_record_shape (r : ObjRecord) : Prop :=
  match r with
  | TextRec _ len code => len = toHex (Z.of_nat (String.length code) / 2) 2
  | _ => False
  end.

(** Whether the label step of Pass I enters [k] for the line: the line is
    not a START line and its label is [k]. *)
Definition defines (k : string) (line : SourceLine) : bool :=
  negb (String.eqb (src_opcode line) "START") && String.eqb (src_label line) k.

End Assembler.

(** ** fourth(page replacement).cpp, second program: the two-pass macroprocessor *)
Module Macro.
Import Cpp.

(** MNT entry: where the definition starts in the MDT, and how many formal
    parameters it has.  Both are counts of container elements. *)
Record MNTEntry : Type := mkMNT {
  start_index : nat;
  num_parameters : nat
}.

Record ParsedLine : Type := mkParsed {
  label : string;
  opcode : string;
  operand : string
}.

(** The non-empty fields of [s] between separator characters. *)
Fixpoint fields_from (sep : ascii -> bool) (cur s : string) : list string :=
  match s with
  | EmptyString => if str_empty cur then [] else [cur]
  | String c s' =>
      if sep c then
        if str_empty cur then fields_from sep EmptyString s'
        else cur :: fields_from sep EmptyString s'
      else fields_from sep (cur +:+ String c EmptyString) s'
  end.

(** [tokenize]: the tokens [ss >> token] reads, separated by white space. *)
Definition tokenize (line : string) : list string :=
  fields_from isspace EmptyString line.

(** [parse_line]: label, opcode and operand by token count. *)
Definition parse_line (tokens : list string) : ParsedLine :=
  match tokens with
  | [] => mkParsed "" "" ""
  | [t0] => mkParsed "" t0 ""
  | [t0; t1] => mkParsed "" t0 t1
  | t0 :: t1 :: t2 :: _ => mkParsed t0 t1 t2
  end.

(** [extract_parameters]: [getline(ss, param, ',')], empty fields dropped. *)
Definition extract_parameters (operand_str : string) : list string :=
  fields_from (Ascii.eqb ",") EmptyString operand_str.

Definition placeholder (i : nat) : string := "#" +:+ to_string i.

(** [formal_to_placeholder[formal_params[i]] = "#" + to_string(i)]. *)
Definition build_formal_map (formal_params : list string) : omap string :=
  fold_left (fun m '(i, f) => omap_insert f (placeholder i) m)
            (combine (seq 0 (length formal_params)) formal_params) [].

(** [actual_map["#" + to_string(i)] = actual_params[i]] for [i < n]. *)
Definition build_actual_map (n : nat) (actual_params : list string) : omap string :=
  fold_left (fun m '(i, a) => omap_insert (placeholder i) a m)
            (combine (seq 0 n) actual_params) [].

(** The substitution loop of both passes: for each pair of the map, in key
    order, one find and one replace on the line as rewritten so far. *)
Definition substitute (m : omap string) (line : string) : string :=
  fold_left (fun l '(k, v) => find_replace k v l) m line.

(** *** Pass I *)

Record pass1_state : Type := mkP1 {
  in_macro : bool;
  macro_name : string;
  formal_params : list string;
  formal_to_placeholder : omap string;
  MNT : gmap string MNTEntry;
  MDT : list string;
  MDT_IDX : nat;
  intermediate_file : string
}.

Definition pass1_init (mnt : gmap string MNTEntry) (mdt : list string) (idx : nat)
    : pass1_state :=
  mkP1 false EmptyString [] [] mnt mdt idx EmptyString.

(** The body of the [for] loop of [pass_one] for one source line. *)
Definition pass_one_line (st : pass1_state) (line : string) : pass1_state :=
  let tokens := tokenize line in
  match tokens with
  | [] => st
  | _ =>
      let parsed := parse_line tokens in
      if String.eqb (opcode parsed) "MACRO" then
        let params := extract_parameters (operand parsed) in
        mkP1 true (label parsed) params (build_formal_map params)
             (<[label parsed := mkMNT (MDT_IDX st) (length params)]> (MNT st))
             (MDT st ++ [line]) (S (MDT_IDX st)) (intermediate_file st)
      else if String.eqb (opcode parsed) "MEND" then
        mkP1 false (macro_name st) (formal_params st) (formal_to_placeholder st)
             (MNT st) (MDT st ++ [line]) (S (MDT_IDX st)) (intermediate_file st)
      else if in_macro st then
        mkP1 true (macro_name st) (formal_params st) (formal_to_placeholder st)
             (MNT st) (MDT st ++ [substitute (formal_to_placeholder st) line])
             (S (MDT_IDX st)) (intermediate_file st)
      else
        mkP1 false (macro_name st) (formal_params st) (formal_to_placeholder st)
             (MNT st) (MDT st) (MDT_IDX st)
             (intermediate_file st +:+ line +:+ NL)
  end.

Definition pass_one_from (st : pass1_state) (source_code : list string) : pass1_state :=
  fold_left pass_one_line source_code st.

(** [pass_one] run on the empty global tables. *)
Definition pass_one (source_code : list string) : pass1_state :=
  pass_one_from (pass1_init ∅ [] 0) source_code.

(** *** Pass II *)

(** The lines [getline] reads from the contents of a file. *)
Fixpoint getlines_from (cur s : string) : list string :=
  match s with
  | EmptyString => if str_empty cur then [] else [cur]
  | String c s' =>
      if Ascii.eqb c "010" then cur :: getlines_from EmptyString s'
      else getlines_from (cur +:+ String c EmptyString) s'
  end.

Definition getlines (file : string) : list string := getlines_from EmptyString file.

Definition is_MEND (md_tokens : list string) : bool :=
  match md_tokens with
  | [] => false
  | [t0] => String.eqb t0 "MEND"
  | _ :: t1 :: _ => String.eqb t1 "MEND"
  end.

Definition argument_count_error (opc : string) : string :=
  "**ERROR: Incorrect number of arguments for macro " +:+ opc +:+ "." +:+ NL.

Definition mdt_index_error (opc : string) : string :=
  "**ERROR: MDT indexing error during expansion of " +:+ opc +:+ "." +:+ NL.

(** The [while (true)] loop of an expansion; [mdt_rest] is the MDT from
    [current_mdt_idx] on, so an index past the end is an empty [mdt_rest]. *)
Fixpoint expand (opc : string) (actual_map : omap string) (mdt_rest : list string)
    (output_file : string) : string :=
  match mdt_rest with
  | [] => output_file +:+ mdt_index_error opc
  | md_line :: rest =>
      if is_MEND (tokenize md_line) then output_file
      else expand opc actual_map rest
                  (output_file +:+ substitute actual_map md_line +:+ NL)
  end.

(** The body of the [while (getline ...)] loop of [pass_two] for one line. *)
Definition pass_two_line (mnt : gmap string MNTEntry) (mdt : list string)
    (output_file : string) (line : string) : string :=
  let tokens := tokenize line in
  match tokens with
  | [] => output_file
  | _ =>
      let parsed := parse_line tokens in
      match mnt !! opcode parsed with
      | Some mnt_entry =>
          let actual_params := extract_parameters (operand parsed) in
          if negb (Nat.eqb (length actual_params) (num_parameters mnt_entry)) then
            output_file +:+ argument_count_error (opcode parsed)
          else
            expand (opcode parsed)
                   (build_actual_map (num_parameters mnt_entry) actual_params)
                   (drop (S (start_index mnt_entry)) mdt) output_file
      | None => output_file +:+ line +:+ NL
      end
  end.

Definition pass_two_lines (mnt : gmap string MNTEntry) (mdt : list string)
    (lines : list string) (output_file : string) : string :=
  fold_left (pass_two_line mnt mdt) lines output_file.

(** [pass_two]: the contents of output.txt, from those of intermediate.txt. *)
Definition pass_two (mnt : gmap string MNTEntry) (mdt : list string)
    (intermediate : string) : string :=
  pass_two_lines mnt mdt (getlines intermediate) EmptyString.

(** The lines an expansion writes for the definition lines [ls]. *)
Fixpoint expanded (actual_map : omap string) (ls : list string) : string :=
  match ls with
  | [] => EmptyString
  | l :: ls' => substitute actual_map l +:+ NL +:+ expanded actual_map ls'
  end.

(** Whether a definition is open after a line, given whether one was open
    before it: a MACRO line opens one, a MEND line closes it, a line without
    tokens and any other line leave it as it is. *)
Definition open_step (b : bool) (line : string) : bool :=
  match tokenize line with
  | [] => b
  | tokens =>
      if String.eqb (opcode (parse_line tokens)) "MACRO" then true
      else if String.eqb (opcode (parse_line tokens)) "MEND" then false
      else b
  end.

(** The lines [pre] end inside a macro definition: their last MACRO or MEND
    line is a MACRO line. *)
Definition open_definition (pre : list string) : bool := fold_left open_step pre false.

(** The formal parameters of the last MACRO line of [pre]. *)
Definition formals_step (fs : list string) (line : string) : list string :=
  match tokenize line with
  | [] => fs
  | tokens =>
      if String.eqb (opcode (parse_line tokens)) "MACRO"
      then extract_parameters (operand (parse_line tokens)) else fs
  end.

Definition last_formals (pre : list string) : list string := fold_left formals_step pre [].

(** The claim of the specification for a line read while no definition is
    open: the intermediate file gains the line, unchanged. *)
Definition outside_line_copied (st : pass1_state) (line : string) : Prop :=
  in_macro st = false ->
  intermediate_file (pass_one_line st line) = intermediate_file st +:+ line +:+ NL.

Definition src (lbl opc opd : string) : string := lbl +:+ TAB +:+ opc +:+ TAB +:+ opd.

(** The program of [main]. *)
Definition sample_source : list string :=
  [ src "MAIN" "START" "1000";
    src "LOOP" "LOAD" "X";
    src "CALC" "MACRO" "&A,&B";
    src "&A" "ADD" "&B";
    src "" "SUB" "&B";
    "MEND";
    src "" "STORE" "Y";
    src "INIT" "MACRO" "&X,&Y,&Z";
    src "&X" "LOAD" "&Y";
    src "" "STORE" "&Z";
    "MEND";
    src "" "INIT" "TEMP,ONE,TWO";
    src "" "CALC" "X,Y";
    src "" "CALC" "Y,Z";
    src "X" "RESW" "1";
    src "Y" "RESW" "1";
    src "Z" "RESW" "1";
    src "TEMP" "RESW" "1";
    src "ONE" "WORD" "1";
    src "TWO" "WORD" "2";
    src "" "END" "" ].

(** [main]: Pass I, then Pass II on its tables and the intermediate file. *)
Definition main_output (source_code : list string) : string :=
  let st := pass_one source_code in
  pass_two (MNT st) (MDT st) (intermediate_file st).


(** *** Lines and fields *)

(** No character of [s] is a separator. *)
Fixpoint free_of (sep : ascii -> bool) (s : string) : bool :=
  match s with
  | EmptyString => true
  | String c s' => negb (sep c) && free_of sep s'
  end.

(** A field as [tokenize] and [extract_parameters] produce them: not empty
    and without a separator. *)
Definition is_field (sep : ascii -> bool) (f : string) : Prop :=
  f <> EmptyString /\ free_of sep f = true.

(** The contents of a file written line by line with [<< line << endl]. *)
Fixpoint unlines (ls : list string) : string :=
  match ls with
  | [] => EmptyString
  | l :: ls' => l +:+ NL +:+ unlines ls'
  end.

(** The line has a token: the passes do not skip it. *)
Definition has_tokens (line : string) : bool :=
  match tokenize line with
  | [] => false
  | _ => true
  end.

(** A line that neither opens nor closes a definition. *)
Definition plain_line (line : string) : Prop :=
  opcode (parse_line (tokenize line)) <> "MACRO"
  /\ opcode (parse_line (tokenize line)) <> "MEND".

(** Every MNT entry points at the MACRO line of its macro in the MDT and
    counts the parameters of that line. *)
Definition MNT_points_at_headers (mnt : gmap string MNTEntry) (mdt : list string) : Prop :=
  forall name e,
    mnt !! name = Some e ->
    exists line,
      mdt !! start_index e = Some line
      /\ opcode (parse_line (tokenize line)) = "MACRO"
      /\ label (parse_line (tokenize line)) = name
      /\ num_parameters e
         = length (extract_parameters (operand (parse_line (tokenize line)))).

(** *** Marked lines *)

(** Following the words of the specification: a line cut into pieces of
    plain text and occurrences of formal parameters. *)
Inductive piece : Type :=
| Text (s : string)
| Param (f : string).

Definition piece_text (x : piece) : string :=
  match x with
  | Text s => s
  | Param f => f
  end.

(** The line the pieces make up. *)
Fixpoint source_line (t : list piece) : string :=
  match t with
  | [] => EmptyString
  | x :: t' => piece_text x +:+ source_line t'
  end.

(** A piece with an occurrence replaced by the placeholder of its
    parameter. *)
Definition placeholder_text (m : omap string) (x : piece) : string :=
  match x with
  | Text s => s
  | Param f => match omap_lookup f m with
               | Some v => v
               | None => f
               end
  end.

(** The line with each marked occurrence replaced by the placeholder of its
    parameter. *)
Fixpoint with_placeholders (m : omap string) (t : list piece) : string :=
  match t with
  | [] => EmptyString
  | x :: t' => placeholder_text m x +:+ with_placeholders m t'
  end.

Definition shift (n : nat) (pf : nat * string) : nat * string := (n + fst pf, snd pf).

(** The marked occurrences: position in the line, and parameter. *)
Fixpoint marks (t : list piece) : list (nat * string) :=
  match t with
  | [] => []
  | Text s :: t' => map (shift (String.length s)) (marks t')
  | Param f :: t' => (0, f) :: map (shift (String.length f)) (marks t')
  end.

(** The parameters with a marked occurrence, in the order of the line. *)
Fixpoint params (t : list piece) : list string :=
  match t with
  | [] => []
  | Text _ :: t' => params t'
  | Param f :: t' => f :: params t'
  end.

(** [k] occurs in [s] at position [p]. *)
Definition occurs_at (k : string) (p : nat) (s : string) : bool :=
  String.prefix k (str_drop p s).

Definition marked (t : list piece) (k : string) (p : nat) : bool :=
  existsb (fun pf => Nat.eqb (fst pf) p && String.eqb (snd pf) k) (marks t).

(** Every exact textual occurrence of a key of [m] in the line is a marked
    occurrence of that key. *)
Definition every_occurrence_marked (m : omap string) (t : list piece) : bool :=
  forallb (fun kv =>
             forallb (fun p => implb (occurs_at (fst kv) p (source_line t))
                                     (marked t (fst kv) p))
                     (seq 0 (S (String.length (source_line t)))))
          m.

(** A parameter name that the text of a placeholder, # and digits, can
    neither contain nor run into: it does not start with a digit and has
    no #. *)
Definition inert (k : string) : bool :=
  match k with
  | EmptyString => true
  | String c _ => negb (isdigit c) && free_of (Ascii.eqb "#") k
  end.

(** A marking that leaves nothing open: the parameter names are inert,
    every occurrence of a parameter is marked, and no parameter has two
    marked occurrences. *)
Definition well_marked (m : omap string) (t : list piece) : bool :=
  forallb (fun kv => inert (fst kv)) m
  && bool_decide (NoDup (params t))
  && every_occurrence_marked m t.

(** The claim of the specification for a line read while a definition is
    open (and that neither opens nor closes one): the MDT gains the line with
    every occurrence of each formal parameter replaced by its placeholder,
    however the line is cut into text and occurrences. *)
Definition body_line_rewritten (st : pass1_state) (line : string) : Prop :=
  in_macro st = true ->
  opcode (parse_line (tokenize line)) <> "MACRO" ->
  opcode (parse_line (tokenize line)) <> "MEND" ->
  forall t : list piece,
    source_line t = line ->
    every_occurrence_marked (formal_to_placeholder st) t = true ->
    MDT (pass_one_line st line)
    = MDT st ++ [with_placeholders (formal_to_placeholder st) t].

End Macro.

(** ** fourth(page replacement).cpp, first program: FIFO, LRU and Optimal

    Counters and indices ([faults], [time], [i], [j]) count references, so
    they stay below the length of the reference string and are not reduced
    to 32 bits.  [None] is undefined behaviour: [front()] of an empty queue
    or [frames[0]] of an empty vector. *)
Module PageReplacement.
Import Cpp.

(** What a pass prints for one reference. *)
Inductive output_line : Type :=
| PageFault (p : Z) (frames : list Z)
| NoPageFault (p : Z).

(** [find(frames.begin(), frames.end(), p) != frames.end()]. *)
Definition resident (p : Z) (frames : list Z) : bool := existsb (Z.eqb p) frames.

(** [replace(frames.begin(), frames.end(), victim, p)]. *)
Definition replace (victim p : Z) (frames : list Z) : list Z :=
  map (fun f => if (f =? victim)%Z then p else f) frames.

(** [frames.size() < capacity]: the [int] is converted to [size_t]. *)
Definition has_room (frames : list Z) (capacity : Z) : bool :=
  (Z.of_nat (length frames) <? to_size_t capacity)%Z.

(** *** FIFO *)
Record fifo_state : Type := mkFifo {
  fifo_frames : list Z;
  fifo_q : list Z;
  fifo_faults : nat;
  fifo_out : list output_line
}.

Definition fifo_step (capacity : Z) (st : fifo_state) (p : Z) : option fifo_state :=
  if resident p (fifo_frames st) then
    Some (mkFifo (fifo_frames st) (fifo_q st) (fifo_faults st)
                 (fifo_out st ++ [NoPageFault p]))
  else if has_room (fifo_frames st) capacity then
    let frames := fifo_frames st ++ [p] in
    Some (mkFifo frames (fifo_q st ++ [p]) (S (fifo_faults st))
                 (fifo_out st ++ [PageFault p frames]))
  else
    match fifo_q st with
    | [] => None
    | victim :: q =>
        let frames := replace victim p (fifo_frames st) in
        Some (mkFifo frames (q ++ [p]) (S (fifo_faults st))
                     (fifo_out st ++ [PageFault p frames]))
    end.

(** A [for] loop whose body may be undefined. *)
Fixpoint run_steps {S A : Type} (step : S -> A -> option S) (l : list A) (st : S)
    : option S :=
  match l with
  | [] => Some st
  | a :: l' =>
      match step st a with
      | Some st' => run_steps step l' st'
      | None => None
      end
  end.

Definition fifo_init : fifo_state := mkFifo [] [] 0 [].

Definition fifo (pages : list Z) (capacity : Z) : option fifo_state :=
  run_steps (fifo_step capacity) pages fifo_init.

(** *** LRU *)
Record lru_state : Type := mkLru {
  lru_frames : list Z;
  lastUsed : gmap Z Z;
  lru_faults : nat;
  lru_time : Z;
  lru_out : list output_line
}.

(** [lastUsed[f]]: a missing key reads as the value-initialised 0. *)
Definition last_used (m : gmap Z Z) (f : Z) : Z := default 0%Z (m !! f).

(** The scan for the least recently used frame. *)
Definition lru_scan (m : gmap Z Z) (frames : list Z) (init : Z * Z) : Z * Z :=
  fold_left (fun '(lruPage, minTime) f =>
               if (last_used m f <? minTime)%Z then (f, last_used m f)
               else (lruPage, minTime))
            frames init.

Definition lru_step (capacity : Z) (st : lru_state) (p : Z) : option lru_state :=
  let time := (lru_time st + 1)%Z in
  if resident p (lru_frames st) then
    Some (mkLru (lru_frames st) (<[p := time]> (lastUsed st)) (lru_faults st) time
                (lru_out st ++ [NoPageFault p]))
  else if has_room (lru_frames st) capacity then
    let frames := lru_frames st ++ [p] in
    Some (mkLru frames (<[p := time]> (lastUsed st)) (S (lru_faults st)) time
                (lru_out st ++ [PageFault p frames]))
  else
    match lru_frames st with
    | [] => None
    | f0 :: _ =>
        let lruPage := fst (lru_scan (lastUsed st) (lru_frames st) (f0, INT_MAX)) in
        let frames := replace lruPage p (lru_frames st) in
        Some (mkLru frames (<[p := time]> (lastUsed st)) (S (lru_faults st)) time
                    (lru_out st ++ [PageFault p frames]))
    end.

Definition lru_init : lru_state := mkLru [] ∅ 0 0 [].

Definition lru (pages : list Z) (capacity : Z) : option lru_state :=
  run_steps (lru_step capacity) pages lru_init.

(** *** Optimal *)
Record optimal_state : Type := mkOpt {
  opt_frames : list Z;
  opt_faults : nat;
  opt_out : list output_line
}.

(** The inner [for (j = i + 1; ...)]: the first index from [j] on at which
    [f] is referenced, or [pages.size()]. *)
Fixpoint next_use (rest : list Z) (j : nat) (f : Z) : nat :=
  match rest with
  | [] => j
  | x :: rest' => if (x =? f)%Z then j else next_use rest' (S j) f
  end.

(** The loop over the frames, with its [break]. *)
Fixpoint choose_victim (pages : list Z) (i : nat) (frames : list Z)
    (victim : Z) (farthest : nat) : Z :=
  match frames with
  | [] => victim
  | f :: frames' =>
      let j := next_use (drop (S i) pages) (S i) f in
      if Nat.eqb j (length pages) then f
      else if Nat.ltb farthest j then choose_victim pages i frames' f j
      else choose_victim pages i frames' victim farthest
  end.

Definition optimal_step (pages : list Z) (capacity : Z) (st : optimal_state)
    (ip : nat * Z) : optimal_state :=
  let '(i, p) := ip in
  if resident p (opt_frames st) then
    mkOpt (opt_frames st) (opt_faults st) (opt_out st ++ [NoPageFault p])
  else
    let frames :=
      if has_room (opt_frames st) capacity then opt_frames st ++ [p]
      else replace (choose_victim pages i (opt_frames st) (-1)%Z (S i)) p
                   (opt_frames st) in
    mkOpt frames (S (opt_faults st)) (opt_out st ++ [PageFault p frames]).

Definition optimal_init : optimal_state := mkOpt [] 0 [].

(** The references with their indices: [(i, pages[i])]. *)
Definition indexed (pages : list Z) : list (nat * Z) :=
  combine (seq 0 (length pages)) pages.

Definition optimal (pages : list Z) (capacity : Z) : optimal_state :=
  fold_left (optimal_step pages capacity) (indexed pages) optimal_init.

(** The state before reference number [i]: the state after the first [i]
    references. *)
Definition fifo_before (pages : list Z) (capacity : Z) (i : nat) : option fifo_state :=
  run_steps (fifo_step capacity) (take i pages) fifo_init.

Definition lru_before (pages : list Z) (capacity : Z) (i : nat) : option lru_state :=
  run_steps (lru_step capacity) (take i pages) lru_init.

Definition optimal_before (pages : list Z) (capacity : Z) (i : nat) : optimal_state :=
  fold_left (optimal_step pages capacity) (take i (indexed pages)) optimal_init.

(** Reference number [i] is a fault: the page is not resident when it is
    referenced. *)
Definition fifo_fault_at (pages : list Z) (capacity : Z) (i : nat) : bool :=
  match fifo_before pages capacity i, pages !! i with
  | Some st, Some p => negb (resident p (fifo_frames st))
  | _, _ => false
  end.

Definition lru_fault_at (pages : list Z) (capacity : Z) (i : nat) : bool :=
  match lru_before pages capacity i, pages !! i with
  | Some st, Some p => negb (resident p (lru_frames st))
  | _, _ => false
  end.

Definition optimal_fault_at (pages : list Z) (capacity : Z) (i : nat) : bool :=
  match pages !! i with
  | Some p => negb (resident p (opt_frames (optimal_before pages capacity i)))
  | None => false
  end.

(** The number of [i < n] with [f i]. *)
Fixpoint count_upto (f : nat -> bool) (n : nat) : nat :=
  match n with
  | O => O
  | S n' => count_upto f n' + (if f n' then 1 else 0)
  end.

(** The reference string and capacity of [main]. *)
Definition sample_pages : list Z := [7; 0; 1; 2; 0; 3; 0; 4; 2; 3; 0; 3; 2]%Z.
Definition sample_capacity : Z := 3%Z.


(** *** The history of a run *)

(** The 1-based position of the last reference to [f] in [l], 0 when [l]
    does not refer to [f]. *)
Definition last_ref (l : list Z) (f : Z) : Z :=
  snd (fold_left (fun tr x => ((fst tr + 1)%Z,
                               if (x =? f)%Z then (fst tr + 1)%Z else snd tr))
                 l (0%Z, 0%Z)).

(** The pages of [l], each once, in the order of their first reference. *)
Definition first_refs (l : list Z) : list Z :=
  fold_left (fun acc p => if resident p acc then acc else acc ++ [p]) l [].

(** At reference [i], the index of the next reference to [f], or
    [pages.size()]: the [j] of the inner loop of [optimal]. *)
Definition next_ref (pages : list Z) (i : nat) (f : Z) : nat :=
  next_use (drop (S i) pages) (S i) f.


(** *** What the runs keep *)

(** FIFO: the frames hold no page twice, the queue holds the resident pages,
    and there are no more of them than frames. *)
Definition fifo_inv (capacity : Z) (st : fifo_state) : Prop :=
  NoDup (fifo_frames st)
  /\ fifo_q st ≡ₚ fifo_frames st
  /\ (Z.of_nat (length (fifo_frames st)) <= to_size_t capacity)%Z.

(** LRU after the references [seen]: no page twice, no more pages than
    frames, [time] counts the references and [lastUsed] holds the position
    of the last reference to each page. *)
Definition lru_inv (capacity : Z) (seen : list Z) (st : lru_state) : Prop :=
  NoDup (lru_frames st)
  /\ (Z.of_nat (length (lru_frames st)) <= to_size_t capacity)%Z
  /\ lru_time st = Z.of_nat (length seen)
  /\ (forall f, last_used (lastUsed st) f = last_ref seen f)
  /\ (forall f, f ∈ lru_frames st -> f ∈ seen).


(** Optimal: no page twice and no more pages than frames. *)
Definition optimal_inv (capacity : Z) (st : optimal_state) : Prop :=
  NoDup (opt_frames st)
  /\ (Z.of_nat (length (opt_frames st)) <= to_size_t capacity)%Z.

(** The claim of the specification about the totals: each policy ends its
    run and the count it reports is the number of references that missed. *)
Definition totals_reported (pages : list Z) (capacity : Z) : Prop :=
  (exists st, fifo pages capacity = Some st
              /\ fifo_faults st = count_upto (fifo_fault_at pages capacity) (length pages))
  /\ (exists st, lru pages capacity = Some st
                 /\ lru_faults st = count_upto (lru_fault_at pages capacity) (length pages))
  /\ opt_faults (optimal pages capacity)
     = count_upto (optimal_fault_at pages capacity) (length pages).

End PageReplacement.

(** ** third(CPU SCHEDULING).cpp: SJF and Round Robin

    The clock [t] is an [int] that grows with the data, so its increments
    are reduced to 32 bits.  [done], [n] and the indices count processes.
    A remaining time is only decremented while positive. *)
Module Scheduler.
Import Cpp.

Record Process : Type := mkProc {
  pid : Z;
  at_ : Z;
  bt : Z;
  prio : Z;
  ct : Z;
  tat : Z;
  wt : Z;
  rt : Z
}.

Definition set_rt (x : Process) (v : Z) : Process :=
  mkProc (pid x) (at_ x) (bt x) (prio x) (ct x) (tat x) (wt x) v.

Definition set_ct (x : Process) (v : Z) : Process :=
  mkProc (pid x) (at_ x) (bt x) (prio x) v (tat x) (wt x) (rt x).

(** An initialiser [{pid, AT, BT, Priority}]; the other members are zero. *)
Definition process (pid_ at0 bt0 prio0 : Z) : Process :=
  mkProc pid_ at0 bt0 prio0 0 0 0 0.

(** *** SJF (preemptive) *)

(** The sentinel [mn = 1e9]. *)
Definition SJF_INF : Z := 1000000000%Z.

Record sjf_state : Type := mkSjf {
  sjf_p : list Process;
  sjf_done : nat;
  sjf_t : Z
}.

(** The selection loop: [idx] and [mn] after scanning [ps], whose first
    element has index [i]. *)
Fixpoint sjf_select (ps : list Process) (t : Z) (i : nat) (idx : option nat) (mn : Z)
    : option nat :=
  match ps with
  | [] => idx
  | x :: ps' =>
      if (at_ x <=? t)%Z && (0 <? rt x)%Z && (rt x <? mn)%Z
      then sjf_select ps' t (S i) (Some i) (rt x)
      else sjf_select ps' t (S i) idx mn
  end.

(** One iteration of [while (done < n)].  The selected index is one of the
    list, so the lookup of [p[idx]] always succeeds. *)
Definition sjf_iter (st : sjf_state) : sjf_state :=
  match sjf_select (sjf_p st) (sjf_t st) 0 None SJF_INF with
  | None => mkSjf (sjf_p st) (sjf_done st) (wrap32 (sjf_t st + 1))
  | Some idx =>
      match sjf_p st !! idx with
      | None => st
      | Some x =>
          let x1 := set_rt x (rt x - 1) in
          let t := wrap32 (sjf_t st + 1) in
          if (rt x1 =? 0)%Z then
            mkSjf (<[idx := set_ct x1 t]> (sjf_p st)) (S (sjf_done st)) t
          else mkSjf (<[idx := x1]> (sjf_p st)) (sjf_done st) t
      end
  end.

(** The [while] loop, at most [fuel] iterations; [None]: still running. *)
Fixpoint sjf_loop (fuel : nat) (st : sjf_state) : option sjf_state :=
  if Nat.ltb (sjf_done st) (length (sjf_p st)) then
    match fuel with
    | O => None
    | S fuel' => sjf_loop fuel' (sjf_iter st)
    end
  else Some st.

Definition sjf_init (p : list Process) : sjf_state :=
  mkSjf (map (fun x => set_rt x (bt x)) p) 0 0.

(** [sjf], up to the call of [display]. *)
Definition sjf (fuel : nat) (p : list Process) : option sjf_state :=
  sjf_loop fuel (sjf_init p).

(** *** Round Robin *)

Record rr_state : Type := mkRR {
  rr_p : list Process;
  rr_t : Z;
  ready : list nat;
  rr_rt : list Z;
  vis : list Z;
  rr_done : nat
}.

(** [!vis[j] && p[j].at <= t]. *)
Definition arrived (p : list Process) (t : Z) (vis_ : list Z) (j : nat) : bool :=
  match p !! j with
  | Some x => (vis_ !!! j =? 0)%Z && (at_ x <=? t)%Z
  | None => false
  end.

(** The admission loop, run before the dispatch and after the slice:
    [for (j = 0; j < n; j++) if (!vis[j] && p[j].at <= t) ready.push(j), vis[j] = 1]. *)
Definition enqueue_arrivals (p : list Process) (t : Z) (rv : list nat * list Z)
    : list nat * list Z :=
  fold_left (fun '(rdy, vis_) j =>
               if arrived p t vis_ j then (rdy ++ [j], <[j := 1%Z]> vis_)
               else (rdy, vis_))
            (seq 0 (length p)) rv.

(** One iteration of [while (done < n)]. *)
Definition rr_iter (q : Z) (st : rr_state) : rr_state :=
  let '(ready1, vis1) := enqueue_arrivals (rr_p st) (rr_t st) (ready st, vis st) in
  match ready1 with
  | [] => mkRR (rr_p st) (wrap32 (rr_t st + 1)) ready1 (rr_rt st) vis1 (rr_done st)
  | i :: rest =>
      let exec := Z.min q (rr_rt st !!! i) in
      let rt' := <[i := wrap32 (rr_rt st !!! i - exec)]> (rr_rt st) in
      let t := wrap32 (rr_t st + exec) in
      let '(ready2, vis2) := enqueue_arrivals (rr_p st) t (rest, vis1) in
      if (rt' !!! i =? 0)%Z then
        mkRR (alter (fun x => set_ct x t) i (rr_p st)) t ready2 rt' vis2
             (S (rr_done st))
      else mkRR (rr_p st) t (ready2 ++ [i]) rt' vis2 (rr_done st)
  end.

Fixpoint rr_loop (fuel : nat) (q : Z) (st : rr_state) : option rr_state :=
  if Nat.ltb (rr_done st) (length (rr_p st)) then
    match fuel with
    | O => None
    | S fuel' => rr_loop fuel' q (rr_iter q st)
    end
  else Some st.

Definition rr_init (p : list Process) : rr_state :=
  mkRR p 0 [] (map bt p) (repeat 0%Z (length p)) 0.

(** [roundRobin], up to the call of [display]. *)
Definition roundRobin (fuel : nat) (p : list Process) (q : Z) : option rr_state :=
  rr_loop fuel q (rr_init p).

(** The state after [k] iterations of the loop. *)
Definition rr_after (k : nat) (p : list Process) (q : Z) : rr_state :=
  Nat.iter k (rr_iter q) (rr_init p).

(** The processes an admission loop at time [t] admits: arrived and not
    yet visited, in index order. *)
Definition arrivals (p : list Process) (t : Z) (vis_ : list Z) : list nat :=
  List.filter (arrived p t vis_) (seq 0 (length p)).

Fixpoint index_of (x : nat) (l : list nat) : option nat :=
  match l with
  | [] => None
  | y :: l' => if Nat.eqb x y then Some 0 else S <$> index_of x l'
  end.

(** In the queue [rdy], [a] sits behind [b]. *)
Definition behind (a b : nat) (rdy : list nat) : bool :=
  match index_of b rdy, index_of a rdy with
  | Some ib, Some ia => Nat.ltb ib ia
  | _, _ => false
  end.

(** The claim of the specification about the order of the queue: in every
    iteration that dispatches a process [i] and puts it back, each process
    admitted after the slice sits behind [i]. *)
Definition arrival_behind_requeue (p : list Process) (q : Z) : Prop :=
  forall (k i : nat) (rest : list nat),
    let st := rr_after k p q in
    let rv := enqueue_arrivals (rr_p st) (rr_t st) (ready st, vis st) in
    fst rv = i :: rest ->
    let st' := rr_iter q st in
    (rr_rt st' !!! i =? 0)%Z = false ->
    forall j, In j (arrivals (rr_p st) (rr_t st') (snd rv)) ->
              behind j i (ready st') = true.

(** Sums over a process list. *)
Fixpoint total_burst (p : list Process) : Z :=
  match p with
  | [] => 0%Z
  | x :: p' => (bt x + total_burst p')%Z
  end.

Fixpoint total_remaining (p : list Process) : Z :=
  match p with
  | [] => 0%Z
  | x :: p' => (rt x + total_remaining p')%Z
  end.

(** The latest arrival time, at least 0 (the clock starts at 0). *)
Fixpoint latest_arrival (p : list Process) : Z :=
  match p with
  | [] => 0%Z
  | x :: p' => Z.max (at_ x) (latest_arrival p')
  end.

(** The number of processes with time remaining. *)
Fixpoint unfinished (p : list Process) : nat :=
  match p with
  | [] => 0
  | x :: p' => (if (0 <? rt x)%Z then 1 else 0) + unfinished p'
  end.

(** The test of the selection loop of [sjf] against a bound [mn]. *)
Definition selectable (t mn : Z) (x : Process) : bool :=
  (at_ x <=? t)%Z && (0 <? rt x)%Z && (rt x <? mn)%Z.

(** The invariant of the loop of [sjf] when every burst time is positive and
    below the sentinel: [A] bounds the arrival times and [B] the clock. *)
Definition sjf_inv (A B : Z) (st : sjf_state) : Prop :=
  Forall (fun x => (at_ x <= A)%Z /\ (0 <= rt x < SJF_INF)%Z) (sjf_p st)
  /\ sjf_done st + unfinished (sjf_p st) = length (sjf_p st)
  /\ (0 <= sjf_t st)%Z
  /\ (sjf_t st + total_remaining (sjf_p st) + Z.max 0 (A - sjf_t st) <= B)%Z.

(** The iterations left, at most. *)
Definition sjf_measure (A : Z) (st : sjf_state) : nat :=
  Z.to_nat (total_remaining (sjf_p st) + Z.max 0 (A - sjf_t st)).

(** The process list and quantum of [main]. *)
Definition sample_processes : list Process :=
  [ process 1 0 5 2; process 2 1 3 1; process 3 2 8 3; process 4 3 6 2 ].
Definition sample_quantum : Z := 2%Z.


(** *** FCFS *)

(** The loop of [fcfs] over the sorted vector, from the clock [t]. *)
Fixpoint fcfs_loop (t : Z) (p : list Process) : list Process :=
  match p with
  | [] => []
  | x :: p' =>
      let t1 := Z.max t (at_ x) in
      let t2 := wrap32 (t1 + bt x) in
      set_ct x t2 :: fcfs_loop t2 p'
  end.

(** [fcfs], up to the call of [display].  [std::sort] is not stable: its
    result is some permutation of the vector ordered by arrival time, which
    the function [sort_by_arrival] stands for. *)
Definition fcfs (sort_by_arrival : list Process -> list Process) (p : list Process)
    : list Process :=
  fcfs_loop 0 (sort_by_arrival p).

(** The order [std::sort] leaves: no process is followed by one that
    arrived earlier. *)
Definition sorted_by_arrival (p : list Process) : Prop :=
  forall i x y, p !! i = Some x -> p !! S i = Some y -> (at_ x <= at_ y)%Z.

(** *** What a run of [sjf] keeps *)




(** *** Priority (non-preemptive) *)

(** The sentinel [best = 1e9]. *)
Definition PRIO_INF : Z := 1000000000%Z.

Record prio_state : Type := mkPrio {
  prio_p : list Process;
  prio_t : Z;
  prio_done : nat;
  prio_vis : list Z
}.

(** The selection loop: [idx] after scanning [ps], whose first element has
    index [i], with the candidate [idx] and its priority [best]. *)
Fixpoint prio_select (ps : list Process) (vis_ : list Z) (t : Z) (i : nat)
    (idx : option nat) (best : Z) : option nat :=
  match ps with
  | [] => idx
  | x :: ps' =>
      if (vis_ !!! i =? 0)%Z && (at_ x <=? t)%Z && (prio x <? best)%Z
      then prio_select ps' vis_ t (S i) (Some i) (prio x)
      else prio_select ps' vis_ t (S i) idx best
  end.

(** One iteration of [while (done < p.size())].  The selected index is one
    of the vector, so the lookup of [p[idx]] always succeeds. *)
Definition prio_iter (st : prio_state) : prio_state :=
  match prio_select (prio_p st) (prio_vis st) (prio_t st) 0 None PRIO_INF with
  | None => mkPrio (prio_p st) (wrap32 (prio_t st + 1)) (prio_done st) (prio_vis st)
  | Some idx =>
      match prio_p st !! idx with
      | None => st
      | Some x =>
          let t := wrap32 (prio_t st + bt x) in
          mkPrio (<[idx := set_ct x t]> (prio_p st)) t (S (prio_done st))
                 (<[idx := 1%Z]> (prio_vis st))
      end
  end.

(** The [while] loop, at most [fuel] iterations; [None]: still running. *)
Fixpoint prio_loop (fuel : nat) (st : prio_state) : option prio_state :=
  if Nat.ltb (prio_done st) (length (prio_p st)) then
    match fuel with
    | O => None
    | S fuel' => prio_loop fuel' (prio_iter st)
    end
  else Some st.

(** The state after the sort. *)
Definition prio_init (sorted : list Process) : prio_state :=
  mkPrio sorted 0 0 (repeat 0%Z (length sorted)).

(** [prioritySched], up to the call of [display]; [sort_by_arrival] stands
    for [std::sort], as in [fcfs]. *)
Definition prioritySched (sort_by_arrival : list Process -> list Process)
    (fuel : nat) (p : list Process) : option prio_state :=
  prio_loop fuel (prio_init (sort_by_arrival p)).

(** The process of index [j] can be chosen at the clock [t]: not yet run,
    and arrived. *)
Definition eligible (vis_ : list Z) (t : Z) (j : nat) (y : Process) : Prop :=
  vis_ !!! j = 0%Z /\ (at_ y <= t)%Z.

(** The processes not yet run, and the time they will take. *)
Fixpoint unvisited (vis_ : list Z) : nat :=
  match vis_ with
  | [] => 0
  | v :: vis' => (if (v =? 0)%Z then 1 else 0) + unvisited vis'
  end.

Fixpoint pending (p : list Process) (vis_ : list Z) : Z :=
  match p, vis_ with
  | x :: p', v :: vis' => ((if (v =? 0)%Z then bt x else 0) + pending p' vis')%Z
  | _, _ => 0%Z
  end.

(** The invariant of the loop of [prioritySched] when every priority is
    below the sentinel and no burst time is negative: [A] bounds the arrival
    times and [B] the clock; a process that was run completed not before its
    arrival plus its burst time. *)
Definition prio_inv (A B : Z) (p0 : list Process) (st : prio_state) : Prop :=
  length (prio_vis st) = length (prio_p st)
  /\ prio_done st + unvisited (prio_vis st) = length (prio_p st)
  /\ Forall2 (fun x y => y = set_ct x (ct y)) p0 (prio_p st)
  /\ Forall (fun x => (at_ x <= A)%Z /\ (0 <= bt x)%Z /\ (prio x < PRIO_INF)%Z)
            (prio_p st)
  /\ (0 <= prio_t st)%Z
  /\ (prio_t st + pending (prio_p st) (prio_vis st) + Z.max 0 (A - prio_t st) <= B)%Z
  /\ (forall j y, prio_p st !! j = Some y -> prio_vis st !!! j <> 0%Z ->
                  (at_ y + bt y <= ct y <= prio_t st)%Z).

(** The iterations left, at most. *)
Definition prio_measure (A : Z) (st : prio_state) : nat :=
  unvisited (prio_vis st) + Z.to_nat (Z.max 0 (A - prio_t st)).


(** *** What a run of [roundRobin] keeps *)

Fixpoint total_rt (l : list Z) : Z :=
  match l with
  | [] => 0%Z
  | v :: l' => (v + total_rt l')%Z
  end.

(** The number of processes with time remaining. *)
Fixpoint count_pos (l : list Z) : nat :=
  match l with
  | [] => 0
  | v :: l' => (if (0 <? v)%Z then 1 else 0) + count_pos l'
  end.

(** The queue [rdy] against the vectors [rt] and [vis] at the clock [t],
    for the processes [p0]: the queue holds no index twice, and only
    admitted processes with time remaining; a process not yet admitted has
    its whole burst left; an admitted process arrived early enough for the
    time it has run. *)
Definition rr_queue_ok (p0 : list Process) (t : Z) (rt_ vis_ : list Z)
    (rdy : list nat) : Prop :=
  length rt_ = length p0 /\ length vis_ = length p0
  /\ NoDup rdy
  /\ (forall i, i ∈ rdy -> i < length p0 /\ vis_ !!! i <> 0%Z /\ (0 < rt_ !!! i)%Z)
  /\ (forall j x, p0 !! j = Some x -> vis_ !!! j = 0%Z -> rt_ !!! j = bt x)
  /\ (forall j x, p0 !! j = Some x -> vis_ !!! j <> 0%Z ->
                  (at_ x + (bt x - rt_ !!! j) <= t)%Z).

(** The invariant of the loop of [roundRobin] for a quantum of at least 1
    and burst times of at least 1: [A] bounds the arrival times and [B] the
    clock. *)
Definition rr_inv (A B : Z) (p0 : list Process) (st : rr_state) : Prop :=
  Forall2 (fun x y => y = set_ct x (ct y)) p0 (rr_p st)
  /\ Forall (fun x => (at_ x <= A)%Z /\ (0 < bt x)%Z) p0
  /\ rr_queue_ok p0 (rr_t st) (rr_rt st) (vis st) (ready st)
  /\ (forall j, j < length p0 -> vis st !!! j <> 0%Z -> (0 < rr_rt st !!! j)%Z ->
                j ∈ ready st)
  /\ Forall (fun v => (0 <= v)%Z) (rr_rt st)
  /\ rr_done st + count_pos (rr_rt st) = length p0
  /\ (0 <= rr_t st)%Z
  /\ (rr_t st + total_rt (rr_rt st) + Z.max 0 (A - rr_t st) <= B)%Z
  /\ (forall j y, rr_p st !! j = Some y -> rr_rt st !!! j = 0%Z ->
                  (at_ y + bt y <= ct y <= rr_t st)%Z).

(** The iterations left, at most. *)
Definition rr_measure (A : Z) (st : rr_state) : nat :=
  Z.to_nat (total_rt (rr_rt st) + Z.max 0 (A - rr_t st)).

End Scheduler.

(** * Properties *)

(** ** Strings *)
Section StringFacts.
Import Cpp.

Lemma str_app_cons (x : ascii) (a b : string) :
  String x a +:+ b = String x (a +:+ b).
Proof. reflexivity. Qed.

Lemma str_app_nil_l (a : string) : EmptyString +:+ a = a.
Proof. reflexivity. Qed.

Lemma str_app_assoc (a b c : string) : (a +:+ b) +:+ c = a +:+ (b +:+ c).
Proof.
  induction a as [|x a IH]; [reflexivity |].
  rewrite !str_app_cons. now rewrite IH.
Qed.

Lemma str_app_nil_r (a : string) : a +:+ EmptyString = a.
Proof.
  induction a as [|x a IH]; [reflexivity |].
  rewrite str_app_cons. now rewrite IH.
Qed.

Lemma str_empty_true (s : string) : str_empty s = true -> s = EmptyString.
Proof. destruct s; simpl; congruence. Qed.

Lemma str_empty_false (s : string) : str_empty s = false -> s <> EmptyString.
Proof. destruct s; simpl; congruence. Qed.

Lemma str_eqb_true (a b : string) : String.eqb a b = true -> a = b.
Proof. apply String.eqb_eq. Qed.

Lemma str_eqb_false (a b : string) : String.eqb a b = false -> a <> b.
Proof. apply String.eqb_neq. Qed.

Lemma str_length_app (a b : string) :
  String.length (a +:+ b) = String.length a + String.length b.
Proof.
  induction a as [|c a IH]; [reflexivity |].
  rewrite str_app_cons. cbn [String.length]. now rewrite IH.
Qed.

(** The ordered map. *)
Lemma str_compare_refl (k : string) : String.compare k k = Eq.
Proof.
  pose proof (String.compare_antisym k k) as H.
  destruct (String.compare k k); [reflexivity | discriminate | discriminate].
Qed.

Lemma omap_lookup_insert_eq {V : Type} (k : string) (v : V) (m : omap V) :
  omap_lookup k (omap_insert k v m) = Some v.
Proof.
  induction m as [|[k' v'] m IH]; cbn [omap_insert omap_lookup].
  - now rewrite String.eqb_refl.
  - destruct (String.compare k k') eqn:E; cbn [omap_lookup].
    + now rewrite String.eqb_refl.
    + now rewrite String.eqb_refl.
    + destruct (String.eqb k k') eqn:E2; [| exact IH].
      apply String.eqb_eq in E2. subst k'. rewrite str_compare_refl in E. discriminate.
Qed.

Lemma omap_lookup_insert_ne {V : Type} (k k0 : string) (v : V) (m : omap V) :
  k0 <> k -> omap_lookup k0 (omap_insert k v m) = omap_lookup k0 m.
Proof.
  intros Hne. apply String.eqb_neq in Hne.
  induction m as [|[k' v'] m IH]; cbn [omap_insert omap_lookup].
  - now rewrite Hne.
  - destruct (String.compare k k') eqn:E; cbn [omap_lookup].
    + apply String.compare_eq_iff in E. subst k'. now rewrite Hne.
    + now rewrite Hne.
    + destruct (String.eqb k0 k'); [reflexivity | exact IH].
Qed.

End StringFacts.

(** ** The assembler *)
Section AssemblerFacts.
Import Cpp Assembler.

(** *** The sample program *)

Lemma sample_pass_one :
  pass_one sample_source = Some ("COPY", "1000", 0x1B%Z, expected_pass1_state).
Proof. vm_compute. reflexivity. Qed.

Lemma sample_pass_two :
  object_program
    (pass_two expected_symtab expected_littab expected_intermediate "COPY" "1000" 0x1B%Z)
  = expected_object_program.
Proof. vm_compute. reflexivity. Qed.

(** C1: for the sample program of [main], Pass I leaves LOOP at 1000, TEN at
    100F, ONE at 1012 and RESULT at 1015 in the symbol table (and nothing
    else), gives the literal =C'EOF' the address 1018 and the length 3, and
    the header record of Pass II carries the length 00001B, that is 0x1B. *)
Theorem sample_program_tables :
  exists st : pass1_state,
    pass_one sample_source = Some ("COPY", "1000", 0x1B%Z, st)
    /\ SYMTAB st !! "LOOP" = Some "1000"
    /\ SYMTAB st !! "TEN" = Some "100F"
    /\ SYMTAB st !! "ONE" = Some "1012"
    /\ SYMTAB st !! "RESULT" = Some "1015"
    /\ SYMTAB st
       = list_to_map
           [("LOOP", "1000"); ("TEN", "100F"); ("ONE", "1012"); ("RESULT", "1015")]
    /\ LITTAB st = [("=C'EOF'", ("1018", 3%Z))]
    /\ omap_lookup "=C'EOF'" (LITTAB st) = Some ("1018", 3%Z)
    /\ head (object_program
               (pass_two (SYMTAB st) (LITTAB st) (intermediate_file st)
                         "COPY" "1000" 0x1B%Z))
       = Some (HeaderRec "COPY  " "1000" (toHex 0x1B%Z 6))
    /\ toHex 0x1B%Z 6 = "00001B"
    /\ render (HeaderRec "COPY  " "1000" (toHex 0x1B%Z 6)) = "HCOPY  100000001B".
Proof.
  exists expected_pass1_state.
  split; [exact sample_pass_one |].
  vm_compute. repeat split; reflexivity.
Qed.

(** *** Pass I, line by line *)

Lemma register_literal_SYMTAB st opd : SYMTAB (register_literal st opd) = SYMTAB st.
Proof.
  unfold register_literal.
  destruct (starts_with "=" opd); [| reflexivity].
  destruct (omap_count opd (LITTAB st)); reflexivity.
Qed.

Lemma register_literal_cerr st opd : cerr (register_literal st opd) = cerr st.
Proof.
  unfold register_literal.
  destruct (starts_with "=" opd); [| reflexivity].
  destruct (omap_count opd (LITTAB st)); reflexivity.
Qed.

Lemma register_literal_intermediate st opd :
  intermediate_file (register_literal st opd) = intermediate_file st.
Proof.
  unfold register_literal.
  destruct (starts_with "=" opd); [| reflexivity].
  destruct (omap_count opd (LITTAB st)); reflexivity.
Qed.

Lemma process_label_intermediate st lbl :
  intermediate_file (process_label st lbl) = intermediate_file st.
Proof. unfold process_label. destruct (str_empty lbl); reflexivity. Qed.

Lemma process_label_LC st lbl : LC (process_label st lbl) = LC st.
Proof. unfold process_label. destruct (str_empty lbl); reflexivity. Qed.

Lemma source_of_push st line :
  map source_of (intermediate_file (push_intermediate st line))
  = map source_of (intermediate_file st) ++ [line].
Proof.
  unfold push_intermediate. cbn [intermediate_file].
  rewrite map_app. destruct line; reflexivity.
Qed.

(** A line other than START: the label is handled first, and every later
    step of the body leaves the symbol table and [cerr] alone. *)
Lemma pass_one_line_tables st line st' :
  src_opcode line <> "START" ->
  step_state (pass_one_line st line) = Some st' ->
  SYMTAB st' = SYMTAB (process_label st (src_label line))
  /\ cerr st' = cerr (process_label st (src_label line)).
Proof.
  intros Hs H. apply String.eqb_neq in Hs.
  unfold pass_one_line in H. rewrite Hs in H.
  destruct (advance_LC _ _ _) as [lc|]; [| discriminate].
  destruct (String.eqb (src_opcode line) "END").
  - destruct (assign_literals _ _) as [lt lc'].
    cbn in H. injection H as <-. cbn.
    now rewrite register_literal_SYMTAB, register_literal_cerr.
  - cbn in H. injection H as <-.
    now rewrite register_literal_SYMTAB, register_literal_cerr.
Qed.

(** A line other than START throws only when [stoi] does. *)
Lemma pass_one_line_returns st line :
  src_opcode line <> "START" ->
  step_state (pass_one_line st line) = None ->
  advance_LC (LC st) (src_opcode line) (src_operand line) = None.
Proof.
  intros Hs H. apply String.eqb_neq in Hs.
  unfold pass_one_line in H. rewrite Hs in H.
  assert (HLC : forall s, LC (if String.eqb (src_opcode line) "END"
                              then process_label st (src_label line)
                              else push_intermediate (process_label st (src_label line)) s)
                          = LC st).
  { intros s. destruct (String.eqb (src_opcode line) "END");
      [| unfold push_intermediate; cbn [LC]]; apply process_label_LC. }
  rewrite HLC in H.
  destruct (advance_LC _ _ _) as [lc|]; [| reflexivity].
  destruct (String.eqb (src_opcode line) "END").
  - destruct (assign_literals _ _) as [lt lc']. discriminate.
  - discriminate.
Qed.

Lemma advance_LC_total lc opc opd :
  opc <> "RESW" -> opc <> "RESB" -> is_Some (advance_LC lc opc opd).
Proof.
  intros H1 H2. apply String.eqb_neq in H1, H2.
  unfold advance_LC. rewrite H1, H2.
  destruct (OPTAB !! opc) as [[? ?]|]; [eauto |].
  destruct (String.eqb opc "WORD"); [eauto |].
  destruct (String.eqb opc "BYTE"); [| eauto].
  destruct (starts_with "C'" _); [eauto |].
  destruct (starts_with "X'" _); eauto.
Qed.

(** What a step appends to the intermediate file, and when the loop ends. *)
Lemma pass_one_line_intermediate st line :
  match pass_one_line st line with
  | Continue st' =>
      (String.eqb (src_opcode line) "START" = true
       \/ String.eqb (src_opcode line) "END" = false)
      /\ map source_of (intermediate_file st')
         = map source_of (intermediate_file st) ++ [line]
  | Break st' =>
      String.eqb (src_opcode line) "START" = false
      /\ String.eqb (src_opcode line) "END" = true
      /\ map source_of (intermediate_file st')
         = map source_of (intermediate_file st) ++ [line]
  | Throw => True
  end.
Proof.
  unfold pass_one_line.
  destruct (String.eqb (src_opcode line) "START") eqn:Hs.
  - destruct (if str_empty _ then _ else _); [| exact I].
    split; [now left |]. now rewrite source_of_push.
  - destruct (String.eqb (src_opcode line) "END") eqn:He.
    + destruct (advance_LC _ _ _) as [lc|]; [| exact I].
      destruct (assign_literals _ _) as [lt lc'].
      repeat split.
      change (intermediate_file (set_LC (set_LITTAB ?s lt) lc'))
        with (intermediate_file s).
      rewrite source_of_push. unfold set_LC; cbn [intermediate_file].
      rewrite register_literal_intermediate. cbn [intermediate_file].
      now rewrite process_label_intermediate.
    + destruct (advance_LC _ _ _) as [lc|]; [| exact I].
      split; [now right |].
      rewrite register_literal_intermediate. unfold set_LC; cbn [intermediate_file].
      rewrite source_of_push. now rewrite process_label_intermediate.
Qed.

(** The intermediate file holds the source lines the loop reached and
    nothing else: END processing adds the END line, not the literal pool. *)
Lemma pass_one_loop_intermediate src : forall st st',
  pass_one_loop src st = Some st' ->
  map source_of (intermediate_file st')
  = map source_of (intermediate_file st) ++ processed_lines src.
Proof.
  induction src as [|line rest IH]; intros st st' H.
  - cbn in H. injection H as <-. cbn. now rewrite app_nil_r.
  - cbn [pass_one_loop] in H. cbn [processed_lines].
    pose proof (pass_one_line_intermediate st line) as Hl.
    destruct (pass_one_line st line) as [st1|st1|]; [| | discriminate].
    + destruct Hl as [Hk Hi]. apply IH in H. rewrite H, Hi, <- app_assoc.
      destruct Hk as [-> | ->]; [reflexivity |].
      destruct (String.eqb _ "START"); reflexivity.
    + destruct Hl as (Hs & He & Hi). injection H as <-.
      now rewrite Hs, He.
Qed.

(** *** Pass II, line by line *)

Lemma OPTAB_directives :
  OPTAB !! "RESW" = None /\ OPTAB !! "RESB" = None
  /\ OPTAB !! "START" = None /\ OPTAB !! "END" = None.
Proof. vm_compute. repeat split. Qed.

Lemma text_bytes_app rs1 rs2 :
  text_bytes (rs1 ++ rs2) = text_bytes rs1 +:+ text_bytes rs2.
Proof.
  induction rs1 as [|r rs1 IH]; [reflexivity |].
  destruct r; cbn [app text_bytes]; rewrite IH; [reflexivity | | reflexivity].
  now rewrite str_app_assoc.
Qed.

Lemma build_text_record_bytes st line code :
  let st' := build_text_record st line code in
  text_bytes (object_program st') +:+ current_text_record_code st'
  = (text_bytes (object_program st) +:+ current_text_record_code st) +:+ code.
Proof.
  unfold build_text_record.
  destruct (str_empty code) eqn:Hc.
  - apply str_empty_true in Hc. subst code. cbn. now rewrite str_app_nil_r.
  - destruct (Nat.ltb _ _); cbn.
    + rewrite text_bytes_app. cbn. now rewrite str_app_nil_r.
    + now rewrite str_app_assoc.
Qed.

Lemma pass_two_line_bytes symtab littab st line :
  let st' := pass_two_line symtab littab st line in
  text_bytes (object_program st') +:+ current_text_record_code st'
  = (text_bytes (object_program st) +:+ current_text_record_code st)
    +:+ object_code_of symtab littab line.
Proof.
  unfold pass_two_line, object_code_of.
  destruct (line_object_code symtab littab line) as [code w| |]; cbn zeta.
  - apply (build_text_record_bytes (add_warnings st w)).
  - unfold flush_text_record. rewrite str_app_nil_r.
    destruct (str_empty (current_text_record_code st)) eqn:Hc; cbn.
    + apply str_empty_true in Hc. rewrite Hc. now rewrite !str_app_nil_r.
    + rewrite text_bytes_app. cbn. now rewrite !str_app_nil_r.
  - now rewrite str_app_nil_r.
Qed.

Lemma pass_two_loop_bytes symtab littab inter : forall st,
  let st' := pass_two_loop symtab littab inter st in
  text_bytes (object_program st') +:+ current_text_record_code st'
  = (text_bytes (object_program st) +:+ current_text_record_code st)
    +:+ object_codes symtab littab inter.
Proof.
  induction inter as [|line rest IH]; intros st; cbn zeta.
  - cbn. now rewrite str_app_nil_r.
  - cbn [object_codes]. unfold pass_two_loop. cbn [fold_left].
    fold (pass_two_loop symtab littab rest (pass_two_line symtab littab st line)).
    rewrite IH, pass_two_line_bytes. now rewrite str_app_assoc.
Qed.

(** The object bytes of the whole object program are those of the lines. *)
Lemma pass_two_bytes symtab littab inter name start len :
  text_bytes (object_program (pass_two symtab littab inter name start len))
  = object_codes symtab littab inter.
Proof.
  unfold pass_two.
  set (st0 := mkP2 _ EmptyString EmptyString []).
  pose proof (pass_two_loop_bytes symtab littab inter st0) as H.
  cbn zeta in H. cbn [st0 object_program current_text_record_code] in H.
  set (st1 := pass_two_loop symtab littab inter st0) in *.
  change (text_bytes [header_record name start len]) with EmptyString in H.
  rewrite !str_app_nil_l in H.
  destruct (str_empty (current_text_record_code st1)) eqn:Hc; cbn.
  - apply str_empty_true in Hc. rewrite Hc, str_app_nil_r in H.
    rewrite text_bytes_app. cbn. now rewrite str_app_nil_r.
  - rewrite !text_bytes_app. cbn. now rewrite !str_app_nil_r.
Qed.

Lemma line_object_code_END symtab littab line :
  opcode line = "END" -> line_object_code symtab littab line = Skip.
Proof.
  intros H. unfold line_object_code. rewrite H.
  destruct OPTAB_directives as (_ & _ & _ & ->). reflexivity.
Qed.

(** C9: the object program holds object bytes for the lines of the
    intermediate file only.  The intermediate file of Pass I is the source
    up to END (the literal pool made at END is not added to it), an END line
    contributes no object bytes, and the bytes of all text records are the
    object codes of the intermediate lines.  For the sample program the
    literal =C'EOF' sits at 1018 with data bytes 454F46, and no record of the
    object program holds 454F46 or starts at 1018. *)
Theorem literal_pool_not_in_object_program :
  (forall source name start len st,
      pass_one source = Some (name, start, len, st) ->
      map source_of (intermediate_file st) = processed_lines source)
  /\ (forall symtab littab line,
         opcode line = "END" -> object_code_of symtab littab line = EmptyString)
  /\ (forall symtab littab inter name start len,
         text_bytes (object_program (pass_two symtab littab inter name start len))
         = object_codes symtab littab inter)
  /\ (exists st,
         pass_one sample_source = Some ("COPY", "1000", 0x1B%Z, st)
         /\ omap_lookup "=C'EOF'" (LITTAB st) = Some ("1018", 3%Z)
         /\ hexToByteCode "C'EOF'" = "454F46"
         /\ object_program
              (pass_two (SYMTAB st) (LITTAB st) (intermediate_file st)
                        "COPY" "1000" 0x1B%Z)
            = [ HeaderRec "COPY  " "1000" "00001B";
                TextRec "1000" "12" "00100F1810123810000C101500101800000A";
                EndRec "1000" ]
         /\ forallb (fun r => negb (contains "454F46" (render r)))
                    (object_program
                       (pass_two (SYMTAB st) (LITTAB st) (intermediate_file st)
                                 "COPY" "1000" 0x1B%Z))
            = true).
Proof.
  split; [| split; [| split]].
  - intros source name start len st H. unfold pass_one in H.
    destruct (pass_one_loop source _) as [st1|] eqn:E; [| discriminate].
    injection H as _ _ _ <-.
    apply pass_one_loop_intermediate in E. exact E.
  - intros symtab littab line H. unfold object_code_of.
    now rewrite line_object_code_END.
  - apply pass_two_bytes.
  - exists expected_pass1_state.
    split; [exact sample_pass_one |].
    vm_compute. repeat split; reflexivity.
Qed.

(** C5: in Pass II a RESW or RESB line yields no object code and closes the
    text record in progress, emitting it when it is not empty; a START or END
    line yields no object code and changes nothing; and a line whose object
    code does not fit in the 60 characters (30 bytes) of the record in
    progress closes that record and opens a new one that starts at the
    line's location counter and holds the line's object code. *)
Theorem text_record_boundaries :
  forall (symtab : gmap string string) (littab : omap (string * Z))
         (st : pass2_state) (line : IntermediateLine),
    MAX_TEXT_RECORD_LENGTH = 2 * 30
    /\ (opcode line = "RESW" \/ opcode line = "RESB" ->
        object_code_of symtab littab line = EmptyString
        /\ pass_two_line symtab littab st line
           = mkP2 (if str_empty (current_text_record_code st) then object_program st
                   else object_program st ++
                          [TextRec (text_record_start_addr st)
                             (toHex (Z.of_nat (String.length (current_text_record_code st)) / 2) 2)
                             (current_text_record_code st)])
                  EmptyString EmptyString (warnings st))
    /\ (opcode line = "START" \/ opcode line = "END" ->
        object_code_of symtab littab line = EmptyString
        /\ pass_two_line symtab littab st line = st)
    /\ (forall code w,
           line_object_code symtab littab line = Emit code w ->
           code <> EmptyString ->
           let start := if str_empty (current_text_record_code st)
                        then location_counter line else text_record_start_addr st in
           (MAX_TEXT_RECORD_LENGTH
              < String.length (current_text_record_code st) + String.length code ->
            pass_two_line symtab littab st line
            = mkP2 (object_program st ++
                      [TextRec start
                         (toHex (Z.of_nat (String.length (current_text_record_code st)) / 2) 2)
                         (current_text_record_code st)])
                   (location_counter line) code (warnings st ++ w))
           /\ (String.length (current_text_record_code st) + String.length code
                 <= MAX_TEXT_RECORD_LENGTH ->
               pass_two_line symtab littab st line
               = mkP2 (object_program st) start
                      (current_text_record_code st +:+ code) (warnings st ++ w))).
Proof.
  intros symtab littab st line.
  destruct OPTAB_directives as (Hw & Hb & Hs & He).
  split; [reflexivity |]. split; [| split].
  - intros H.
    assert (Ha : line_object_code symtab littab line = Flush).
    { unfold line_object_code. destruct H as [-> | ->].
      - rewrite Hw. reflexivity.
      - rewrite Hb. reflexivity. }
    unfold object_code_of, pass_two_line. rewrite Ha.
    split; reflexivity.
  - intros H.
    assert (Ha : line_object_code symtab littab line = Skip).
    { unfold line_object_code. destruct H as [-> | ->].
      - rewrite Hs. reflexivity.
      - rewrite He. reflexivity. }
    unfold object_code_of, pass_two_line. rewrite Ha.
    split; reflexivity.
  - intros code w Ha Hc start.
    unfold pass_two_line. rewrite Ha. unfold build_text_record.
    destruct (str_empty code) eqn:Hce.
    { apply str_empty_true in Hce. contradiction. }
    cbn [add_warnings object_program text_record_start_addr
         current_text_record_code warnings text_record].
    split; intros Hlen.
    + apply Nat.ltb_lt in Hlen. rewrite Hlen. reflexivity.
    + assert (Hn : Nat.ltb MAX_TEXT_RECORD_LENGTH
                     (String.length (current_text_record_code st) + String.length code)
                   = false) by (apply Nat.ltb_ge; exact Hlen).
      rewrite Hn. reflexivity.
Qed.

(** The three shapes of line C5 speaks of occur: a record of 60 characters
    in progress, a RESW line, an END line, and a WORD line that overflows. *)
Lemma text_record_boundaries_witness :
  let full := "00100F00100F00100F00100F00100F00100F00100F00100F00100F00100F" in
  let st := mkP2 [] "1000" full [] in
  pass_two_line ∅ [] st (mkIL "101E" "" "RESW" "1")
  = mkP2 [TextRec "1000" "1E" full] "" "" []
  /\ pass_two_line ∅ [] st (mkIL "101E" "" "END" "") = st
  /\ pass_two_line ∅ [] st (mkIL "101E" "" "WORD" "10")
     = mkP2 [TextRec "1000" "1E" full] "101E" "00000A" [].
Proof.
  intros full st.
  pose proof (text_record_boundaries ∅ [] st (mkIL "101E" "" "RESW" "1"))
    as (_ & H1 & _ & _).
  pose proof (text_record_boundaries ∅ [] st (mkIL "101E" "" "END" ""))
    as (_ & _ & H2 & _).
  pose proof (text_record_boundaries ∅ [] st (mkIL "101E" "" "WORD" "10"))
    as (_ & _ & _ & H3).
  split; [| split].
  - destruct H1 as [_ ->]; [now left | reflexivity].
  - destruct H2 as [_ ->]; [now right | reflexivity].
  - destruct (H3 "00000A" []) as [H _]; [reflexivity | discriminate |].
    rewrite H; [reflexivity |]. vm_compute. lia.
Defined.

(** *** Labels *)

(** C7 as stated fails on a START line: its label is the program name and
    never enters the symbol table.  The first line of the sample program has
    the label COPY; the step records nothing, and the symbol table at the end
    of Pass I has no COPY. *)
Lemma start_label_not_recorded :
  ~ label_recorded (pass1_init ∅ [] []) (mkSrc "COPY" "START" "1000")
  /\ (exists st, pass_one sample_source = Some ("COPY", "1000", 0x1B%Z, st)
                 /\ SYMTAB st !! "COPY" = None).
Proof.
  split.
  - intros H.
    destruct (H ltac:(discriminate) _ eq_refl) as [Hl _].
    vm_compute in Hl. discriminate.
  - exists expected_pass1_state. split; [exact sample_pass_one |].
    vm_compute. reflexivity.
Qed.

(** C7, amended: for every line of Pass I other than a START line, the
    body of the loop is the label step followed by the rest of the body.
    The label step enters a non-empty label in the symbol table at the
    current location counter, replacing what was stored for it, and writes a
    warning exactly when the label was already there; the rest of the body
    changes neither the symbol table nor the warnings.  A START line leaves
    both as they were and the loop goes on: its label becomes the program
    name; the only other outcome of a START line is the exception of
    [stoi] on an operand that is not empty and that it rejects in base
    16. *)
Theorem label_recorded_unless_START :
  (forall (st : pass1_state) (line : SourceLine),
      src_opcode line <> "START" ->
      src_label line <> EmptyString ->
      let st1 := process_label st (src_label line) in
      pass_one_line st line = after_label st1 line
      /\ SYMTAB st1 = <[src_label line := toHex (LC st) 4]> (SYMTAB st)
      /\ SYMTAB st1 !! src_label line = Some (toHex (LC st) 4)
      /\ (forall old, SYMTAB st !! src_label line = Some old ->
            cerr st1 = cerr st ++ [duplicate_label_message (src_label line) (LC st)])
      /\ (SYMTAB st !! src_label line = None -> cerr st1 = cerr st)
      /\ (forall st', step_state (pass_one_line st line) = Some st' ->
            SYMTAB st' = SYMTAB st1 /\ cerr st' = cerr st1))
  /\ (forall (st : pass1_state) (line : SourceLine),
         src_opcode line = "START" ->
         match pass_one_line st line with
         | Continue st' =>
             SYMTAB st' = SYMTAB st
             /\ cerr st' = cerr st
             /\ program_name st' = src_label line
         | Break _ => False
         | Throw =>
             src_operand line <> EmptyString
             /\ stoi_base 16 (src_operand line) = None
         end).
Proof.
  split.
  - intros st line Hs Hl st1.
    split; [| split; [| split; [| split; [| split]]]].
    + unfold pass_one_line, after_label.
      apply String.eqb_neq in Hs. now rewrite Hs.
    + unfold st1, process_label.
      destruct (str_empty (src_label line)) eqn:He; [| reflexivity].
      apply str_empty_true in He. contradiction.
    + unfold st1, process_label.
      destruct (str_empty (src_label line)) eqn:He.
      { apply str_empty_true in He. contradiction. }
      cbn [SYMTAB]. apply lookup_insert_eq.
    + intros old Ho. unfold st1, process_label.
      destruct (str_empty (src_label line)) eqn:He.
      { apply str_empty_true in He. contradiction. }
      cbn [cerr]. now rewrite Ho.
    + intros Ho. unfold st1, process_label.
      destruct (str_empty (src_label line)) eqn:He.
      { apply str_empty_true in He. contradiction. }
      cbn [cerr]. rewrite Ho. apply app_nil_r.
    + intros st' H. exact (pass_one_line_tables st line st' Hs H).
  - intros st line Hs.
    apply String.eqb_eq in Hs.
    unfold pass_one_line. rewrite Hs.
    destruct (str_empty (src_operand line)) eqn:E.
    + cbn. repeat split.
    + apply str_empty_false in E.
      destruct (stoi_base 16 (src_operand line)) as [a|]; cbn; repeat split.
      exact E.
Qed.

(** A second definition of LOOP, at 1003: the entry 1000 is replaced.  The
    START line of the sample program: COPY is the program name only. *)
Lemma label_recorded_unless_START_witness :
  (exists st',
      step_state
        (pass_one_line (mkP1 0x1003 0x1000 "COPY" {["LOOP" := "1000"]} [] [] [])
                       (mkSrc "LOOP" "ADD" "ONE")) = Some st'
      /\ SYMTAB st' !! "LOOP" = Some "1003"
      /\ cerr st' = ["Error: Duplicate label 'LOOP' at LC 1003"])
  /\ (exists st',
         step_state (pass_one_line (pass1_init ∅ [] []) (mkSrc "COPY" "START" "1000"))
         = Some st'
         /\ SYMTAB st' = ∅
         /\ program_name st' = "COPY").
Proof.
  destruct label_recorded_unless_START as [HA HB].
  split.
  - set (st := mkP1 0x1003 0x1000 "COPY" {["LOOP" := "1000"]} [] [] []).
    destruct (step_state (pass_one_line st (mkSrc "LOOP" "ADD" "ONE"))) as [st'|] eqn:E;
      [| vm_compute in E; discriminate].
    exists st'. split; [reflexivity |].
    destruct (HA st (mkSrc "LOOP" "ADD" "ONE"))
      as (_ & _ & H1 & H2 & _ & H3); [discriminate | discriminate |].
    destruct (H3 st' E) as [Hs Hc]. rewrite Hs, Hc.
    split; [exact H1 |].
    apply (H2 "1000"). reflexivity.
  - destruct (step_state (pass_one_line (pass1_init ∅ [] []) (mkSrc "COPY" "START" "1000")))
      as [st'|] eqn:E; [| vm_compute in E; discriminate].
    exists st'. split; [reflexivity |].
    pose proof (HB (pass1_init ∅ [] []) (mkSrc "COPY" "START" "1000") eq_refl) as H.
    destruct (pass_one_line (pass1_init ∅ [] []) (mkSrc "COPY" "START" "1000"))
      as [s1|s1|]; [| contradiction | discriminate E].
    cbn [step_state] in E. injection E as <-.
    destruct H as (Hs & _ & Hn).
    split; [exact Hs | exact Hn].
Defined.

(** *** Diagnostics of the assembler *)

Lemma process_label_duplicate st lbl old :
  lbl <> EmptyString ->
  SYMTAB st !! lbl = Some old ->
  cerr (process_label st lbl) = cerr st ++ [duplicate_label_message lbl (LC st)].
Proof.
  intros Hl Ho. unfold process_label.
  destruct (str_empty lbl) eqn:He.
  { apply str_empty_true in He. contradiction. }
  cbn. now rewrite Ho.
Qed.

(** A duplicate label is reported and the line is processed like any other. *)
Lemma duplicate_label_continues st line old :
  src_opcode line <> "START" ->
  src_label line <> EmptyString ->
  SYMTAB st !! src_label line = Some old ->
  match pass_one_line st line with
  | Continue st' | Break st' =>
      cerr st' = cerr st ++ [duplicate_label_message (src_label line) (LC st)]
  | Throw => advance_LC (LC st) (src_opcode line) (src_operand line) = None
  end.
Proof.
  intros Hs Hl Ho.
  pose proof (process_label_duplicate st (src_label line) old Hl Ho) as Hd.
  destruct (pass_one_line st line) as [st'|st'|] eqn:E.
  - destruct (pass_one_line_tables st line st' Hs) as [_ Hc]; [now rewrite E |].
    now rewrite Hc.
  - destruct (pass_one_line_tables st line st' Hs) as [_ Hc]; [now rewrite E |].
    now rewrite Hc.
  - apply pass_one_line_returns; [exact Hs | now rewrite E].
Qed.

(** An operand that is neither a symbol nor a literal of the table. *)
Lemma unresolved_operand_action symtab littab line op len :
  OPTAB !! opcode line = Some (op, len) ->
  symtab !! operand line = None ->
  (starts_with "=" (operand line) = false \/ omap_lookup (operand line) littab = None) ->
  operand line <> EmptyString ->
  line_object_code symtab littab line
  = Emit (op +:+ "0000") [unresolved_message (operand line)].
Proof.
  intros Ho Hs Hl He.
  unfold line_object_code, resolve_operand. rewrite Ho, Hs.
  assert (Hn : (if starts_with "=" (operand line)
                then omap_lookup (operand line) littab else None) = None).
  { destruct Hl as [-> | ->]; [reflexivity |]. now destruct (starts_with _ _). }
  rewrite Hn.
  destruct (str_empty (operand line)) eqn:E; [| reflexivity].
  apply str_empty_true in E. contradiction.
Qed.

End AssemblerFacts.
(** ** The macroprocessor *)
Section MacroFacts.
Import Cpp Macro.

(** *** [find] and [replace] *)

Lemma str_take_drop (n : nat) (s : string) : str_take n s +:+ str_drop n s = s.
Proof.
  revert s. induction n as [|n IH]; intros s; [reflexivity |].
  destruct s as [|c s]; [reflexivity |].
  cbn [str_take str_drop]. rewrite str_app_cons. now rewrite IH.
Qed.

Lemma str_drop_add (n m : nat) (s : string) :
  str_drop (n + m) s = str_drop m (str_drop n s).
Proof.
  revert s. induction n as [|n IH]; intros s; [reflexivity |].
  destruct s as [|c s]; cbn [Nat.add str_drop]; [| apply IH].
  now destruct m.
Qed.

Lemma prefix_split (p s : string) :
  String.prefix p s = true -> s = p +:+ str_drop (String.length p) s.
Proof.
  revert s. induction p as [|c p IH]; intros s H; [reflexivity |].
  destruct s as [|d s]; [discriminate |].
  cbn [String.prefix] in H.
  destruct (ascii_dec c d) as [-> |]; [| discriminate].
  cbn [String.length str_drop]. rewrite str_app_cons. f_equal. now apply IH.
Qed.

Lemma find_from_Some (pat s : string) : forall i n,
  find_from pat s i = Some n ->
  i <= n
  /\ String.prefix pat (str_drop (n - i) s) = true
  /\ (forall j, j < n - i -> String.prefix pat (str_drop j s) = false).
Proof.
  induction s as [|c s IH]; intros i n H; cbn [find_from] in H.
  - destruct (String.prefix pat "") eqn:E; [| discriminate].
    injection H as <-. rewrite Nat.sub_diag.
    split; [lia |]. split; [exact E |]. intros j Hj. lia.
  - destruct (String.prefix pat (String c s)) eqn:E.
    + injection H as <-. rewrite Nat.sub_diag.
      split; [lia |]. split; [exact E |]. intros j Hj. lia.
    + apply IH in H. destruct H as (Hle & Hp & Hlt).
      split; [lia |].
      replace (n - i) with (S (n - S i)) by lia.
      split; [exact Hp |].
      intros [|j] Hj; [exact E |]. apply Hlt. lia.
Qed.

Lemma find_from_None (pat s : string) : forall i,
  find_from pat s i = None -> forall j, String.prefix pat (str_drop j s) = false.
Proof.
  induction s as [|c s IH]; intros i H j; cbn [find_from] in H.
  - destruct (String.prefix pat "") eqn:E; [discriminate |].
    now destruct j.
  - destruct (String.prefix pat (String c s)) eqn:E; [discriminate |].
    destruct j as [|j]; [exact E |]. exact (IH _ H j).
Qed.

(** [find_replace] rewrites the first occurrence of the pattern and no other
    part of the line. *)
Lemma find_replace_first (pat by_ l : string) :
  match str_find pat l with
  | Some n =>
      l = str_take n l +:+ pat +:+ str_drop (n + String.length pat) l
      /\ find_replace pat by_ l
         = str_take n l +:+ by_ +:+ str_drop (n + String.length pat) l
      /\ (forall j, j < n -> String.prefix pat (str_drop j l) = false)
  | None =>
      find_replace pat by_ l = l
      /\ (forall j, String.prefix pat (str_drop j l) = false)
  end.
Proof.
  unfold find_replace, str_replace.
  destruct (str_find pat l) as [n|] eqn:E; unfold str_find in E.
  - apply find_from_Some in E. destruct E as (_ & Hp & Hlt).
    rewrite Nat.sub_0_r in Hp, Hlt.
    split; [| split; [reflexivity | exact Hlt]].
    rewrite str_drop_add, <- (prefix_split _ _ Hp). symmetry. apply str_take_drop.
  - split; [reflexivity |]. exact (find_from_None _ _ _ E).
Qed.

(** The fields [tokenize] and [extract_parameters] return are not empty. *)
Lemma fields_from_nonempty (sep : ascii -> bool) (s : string) : forall cur,
  Forall (fun f => f <> EmptyString) (fields_from sep cur s).
Proof.
  induction s as [|c s IH]; intros cur; cbn [fields_from].
  - destruct (str_empty cur) eqn:E; [constructor |].
    constructor; [now apply str_empty_false | constructor].
  - destruct (sep c); [| apply IH].
    destruct (str_empty cur) eqn:E; [apply IH |].
    constructor; [now apply str_empty_false | apply IH].
Qed.

(** *** Occurrences of a parameter in a line *)

Lemma str_drop_app (a b : string) : str_drop (String.length a) (a +:+ b) = b.
Proof.
  induction a as [|c a IH]; [now destruct b |].
  rewrite str_app_cons. cbn [String.length str_drop]. exact IH.
Qed.

Lemma str_take_app (a b : string) : str_take (String.length a) (a +:+ b) = a.
Proof.
  induction a as [|c a IH]; [now destruct b |].
  rewrite str_app_cons. cbn [String.length str_take]. now rewrite IH.
Qed.

Lemma str_drop_all (s : string) : forall p,
  String.length s <= p -> str_drop p s = EmptyString.
Proof.
  induction s as [|c s IH]; intros p Hp; [now destruct p |].
  destruct p as [|p]; [cbn in Hp; lia |].
  cbn [str_drop]. apply IH. cbn in Hp. lia.
Qed.

Lemma prefix_app_self (k b : string) : String.prefix k (k +:+ b) = true.
Proof.
  induction k as [|c k IH]; [now destruct b |].
  rewrite str_app_cons. cbn [String.prefix].
  destruct (ascii_dec c c); [exact IH | contradiction].
Qed.

Lemma prefix_get (k : string) : forall s,
  String.prefix k s = true
  <-> (forall i, i < String.length k -> String.get i s = String.get i k).
Proof.
  induction k as [|c k IH]; intros s.
  - split; [intros _ i Hi; cbn in Hi; lia | intros _; now destruct s].
  - destruct s as [|d s].
    + split; [discriminate |].
      intros H. specialize (H 0 ltac:(cbn; lia)). discriminate.
    + cbn [String.prefix]. destruct (ascii_dec c d) as [-> | Hne].
      * rewrite IH. split.
        -- intros H [|i] Hi; [reflexivity |]. cbn [String.get]. apply H.
           cbn in Hi. lia.
        -- intros H i Hi. apply (H (S i)). cbn. lia.
      * split; [discriminate |].
        intros H. specialize (H 0 ltac:(cbn; lia)). cbn in H. congruence.
Qed.

Lemma get_drop (p : nat) : forall s i,
  String.get i (str_drop p s) = String.get (p + i) s.
Proof.
  induction p as [|p IH]; intros s i; [reflexivity |].
  destruct s as [|c s]; [reflexivity |].
  cbn [str_drop Nat.add String.get]. apply IH.
Qed.

(** [k] occurs at [p] when the characters from [p] on are those of [k]. *)
Lemma occurs_at_get (k : string) (p : nat) (s : string) :
  occurs_at k p s = true
  <-> (forall i, i < String.length k -> String.get (p + i) s = String.get i k).
Proof.
  unfold occurs_at. rewrite prefix_get.
  split; intros H i Hi; [rewrite <- get_drop | rewrite get_drop]; auto.
Qed.

Lemma get_app_l (a b : string) (i : nat) :
  i < String.length a -> String.get i (a +:+ b) = String.get i a.
Proof. intros H. symmetry. now apply String.append_correct1. Qed.

Lemma get_app_r (a b : string) (i : nat) :
  String.get (String.length a + i) (a +:+ b) = String.get i b.
Proof. rewrite Nat.add_comm. symmetry. apply String.append_correct2. Qed.

Lemma free_of_get (sep : ascii -> bool) (s : string) :
  free_of sep s = true -> forall i c, String.get i s = Some c -> sep c = false.
Proof.
  induction s as [|d s IH]; intros H i c Hg; [discriminate |].
  cbn [free_of] in H. apply andb_prop in H. destruct H as [H1 H2].
  destruct i as [|i]; cbn [String.get] in Hg.
  - injection Hg as <-. now apply negb_true_iff in H1.
  - exact (IH H2 i c Hg).
Qed.

(** *** The text of a placeholder *)

Lemma isdigit_dec_digit (n : nat) : isdigit (dec_digit (n mod 10)) = true.
Proof.
  pose proof (Nat.mod_upper_bound n 10 ltac:(lia)) as H.
  destruct (n mod 10) as [|[|[|[|[|[|[|[|[|[|?]]]]]]]]]]; try reflexivity. lia.
Qed.

Lemma to_string_fuel_digits (fuel : nat) : forall n acc,
  free_of (fun c => negb (isdigit c)) acc = true ->
  free_of (fun c => negb (isdigit c)) (to_string_fuel fuel n acc) = true.
Proof.
  induction fuel as [|fuel IH]; intros n acc H; cbn [to_string_fuel]; [exact H |].
  assert (H' : free_of (fun c => negb (isdigit c)) (String (dec_digit (n mod 10)) acc)
               = true).
  { cbn [free_of]. rewrite isdigit_dec_digit. exact H. }
  destruct (Nat.ltb n 10); [exact H' | now apply IH].
Qed.

(** A placeholder is # followed by decimal digits. *)
Lemma placeholder_get (i : nat) :
  String.get 0 (placeholder i) = Some "#"%char
  /\ 2 <= String.length (placeholder i)
  /\ forall j c, String.get (S j) (placeholder i) = Some c -> isdigit c = true.
Proof.
  unfold placeholder. change ("#" +:+ to_string i) with (String "#" (to_string i)).
  split; [reflexivity |]. split.
  - cbn [String.length]. unfold to_string. cbn [to_string_fuel].
    destruct (Nat.ltb i 10); [cbn; lia |].
    assert (H : forall fuel n acc,
               String.length acc <= String.length (to_string_fuel fuel n acc)).
    { induction fuel as [|fuel IH]; intros n acc; cbn [to_string_fuel]; [lia |].
      destruct (Nat.ltb n 10); [cbn; lia |].
      etransitivity; [| apply IH]. cbn. lia. }
    specialize (H i (i / 10) (String (dec_digit (i mod 10)) EmptyString)).
    cbn [String.length] in H. lia.
  - intros j c Hg. cbn [String.get] in Hg.
    assert (Hd : free_of (fun c => negb (isdigit c)) (to_string i) = true)
      by (apply to_string_fuel_digits; reflexivity).
    pose proof (free_of_get _ _ Hd j c Hg) as Hc. now apply negb_false_iff in Hc.
Qed.

Lemma nonempty_length (k : string) : k <> EmptyString -> 1 <= String.length k.
Proof. destruct k; [contradiction | cbn; lia]. Qed.

(** An occurrence of an inert name in a line lies wholly before or wholly
    after a placeholder of the line. *)
Lemma occurrence_avoids (k a v b : string) (p : nat) :
  k <> EmptyString ->
  inert k = true ->
  (exists i, v = placeholder i) ->
  occurs_at k p (a +:+ v +:+ b) = true ->
  p + String.length k <= String.length a
  \/ String.length a + String.length v <= p.
Proof.
  intros Hne Hk [i ->] Ho. rewrite occurs_at_get in Ho.
  destruct (le_lt_dec (p + String.length k) (String.length a)) as [|H1]; [now left |].
  destruct (le_lt_dec (String.length a + String.length (placeholder i)) p) as [|H2];
    [now right |].
  exfalso.
  destruct (placeholder_get i) as (H0 & Hlen & Hdig).
  destruct k as [|c k]; [contradiction |].
  unfold inert in Hk. apply andb_prop in Hk. destruct Hk as [Hd Hf].
  destruct (le_lt_dec p (String.length a)) as [Hle | Hgt].
  - specialize (Ho (String.length a - p) ltac:(lia)).
    replace (p + (String.length a - p)) with (String.length a + 0) in Ho by lia.
    rewrite get_app_r, get_app_l, H0 in Ho by lia.
    symmetry in Ho. pose proof (free_of_get _ _ Hf _ _ Ho) as Hc. discriminate Hc.
  - specialize (Ho 0 ltac:(cbn; lia)).
    replace (p + 0) with (String.length a + (p - String.length a)) in Ho by lia.
    rewrite get_app_r, get_app_l in Ho by lia.
    change (String.get 0 (String c k)) with (Some c) in Ho.
    destruct (p - String.length a) as [|j] eqn:Ej; [lia |].
    apply Hdig in Ho. rewrite Ho in Hd. discriminate Hd.
Qed.

(** *** Marked lines *)

Lemma source_line_app (t1 t2 : list piece) :
  source_line (t1 ++ t2) = source_line t1 +:+ source_line t2.
Proof.
  induction t1 as [|x t1 IH]; [reflexivity |].
  cbn [app source_line]. now rewrite IH, str_app_assoc.
Qed.

Lemma with_placeholders_app (m : omap string) (t1 t2 : list piece) :
  with_placeholders m (t1 ++ t2) = with_placeholders m t1 +:+ with_placeholders m t2.
Proof.
  induction t1 as [|x t1 IH]; [reflexivity |].
  cbn [app with_placeholders]. now rewrite IH, str_app_assoc.
Qed.

Lemma with_placeholders_nil (t : list piece) : with_placeholders [] t = source_line t.
Proof.
  induction t as [|[s|f] t IH]; [reflexivity | |];
    cbn [with_placeholders source_line placeholder_text piece_text omap_lookup];
    now rewrite IH.
Qed.

Lemma with_placeholders_skip (k v : string) (m : omap string) (t : list piece) :
  ~ In k (params t) -> with_placeholders ((k, v) :: m) t = with_placeholders m t.
Proof.
  induction t as [|[s|f] t IH]; intros H; [reflexivity | |];
    cbn [with_placeholders placeholder_text params] in *.
  - now rewrite IH.
  - rewrite IH by (intros Hin; apply H; now right).
    cbn [omap_lookup]. destruct (String.eqb f k) eqn:E; [| reflexivity].
    apply String.eqb_eq in E. subst. exfalso. apply H. now left.
Qed.

Lemma params_app (t1 t2 : list piece) : params (t1 ++ t2) = params t1 ++ params t2.
Proof.
  induction t1 as [|[s|f] t1 IH]; [reflexivity | |]; cbn [app params]; now rewrite IH.
Qed.

Lemma map_shift_shift (a b : nat) (l : list (nat * string)) :
  map (shift a) (map (shift b) l) = map (shift (a + b)) l.
Proof.
  rewrite List.map_map. apply List.map_ext. intros [p f]. unfold shift. cbn [fst snd].
  f_equal. lia.
Qed.

Lemma map_shift_0 (l : list (nat * string)) : map (shift 0) l = l.
Proof.
  induction l as [|[p f] l IH]; [reflexivity |]. cbn [map]. now rewrite IH.
Qed.

Lemma marks_app (t1 t2 : list piece) :
  marks (t1 ++ t2)
  = marks t1 ++ map (shift (String.length (source_line t1))) (marks t2).
Proof.
  induction t1 as [|[s|f] t1 IH]; cbn [app marks source_line piece_text].
  - cbn [String.length]. now rewrite map_shift_0.
  - now rewrite IH, List.map_app, map_shift_shift, str_length_app.
  - now rewrite IH, List.map_app, map_shift_shift, str_length_app.
Qed.

Lemma in_shift (n p : nat) (f : string) (l : list (nat * string)) :
  In (p, f) (map (shift n) l) <-> exists q, p = n + q /\ In (q, f) l.
Proof.
  rewrite List.in_map_iff. split.
  - intros [[q g] [E H]]. unfold shift in E. cbn [fst snd] in E.
    injection E as <- <-. eauto.
  - intros [q [-> H]]. exists (q, f). auto.
Qed.

Lemma marks_params (t : list piece) : forall p f,
  In (p, f) (marks t) -> In f (params t).
Proof.
  induction t as [|[s|g] t IH]; cbn [marks params]; intros p f H; [contradiction | |].
  - apply in_shift in H. destruct H as (q & _ & H). eauto.
  - destruct H as [E | H]; [injection E as _ <-; now left |].
    apply in_shift in H. destruct H as (q & _ & H). right. eauto.
Qed.

Lemma marks_bound (t : list piece) : forall p f,
  In (p, f) (marks t) -> p + String.length f <= String.length (source_line t).
Proof.
  induction t as [|[s|g] t IH]; cbn [marks source_line piece_text]; intros p f H;
    [contradiction | |]; rewrite str_length_app.
  - apply in_shift in H. destruct H as (q & -> & H). apply IH in H. lia.
  - destruct H as [E | H]; [injection E as <- <-; lia |].
    apply in_shift in H. destruct H as (q & -> & H). apply IH in H. lia.
Qed.

Lemma params_split (t : list piece) (k : string) :
  In k (params t) -> exists t1 t2, t = t1 ++ Param k :: t2.
Proof.
  induction t as [|[s|f] t IH]; cbn [params]; intros H; [contradiction | |].
  - destruct (IH H) as (t1 & t2 & ->). now exists (Text s :: t1), t2.
  - destruct H as [-> | H]; [now exists [], t |].
    destruct (IH H) as (t1 & t2 & ->). now exists (Param f :: t1), t2.
Qed.

(** The loop of Pass I on a marked line: when the names are inert, every
    occurrence of a name is marked and no name is marked twice, one find and
    one replace per name put the placeholders exactly at the marks. *)
Lemma substitute_marked (m : omap string) : forall t : list piece,
  List.Forall (fun kv => fst kv <> EmptyString
                         /\ inert (fst kv) = true
                         /\ exists i, snd kv = placeholder i) m ->
  NoDup (params t) ->
  (forall kv, In kv m ->
     forall p, occurs_at (fst kv) p (source_line t) = true -> In (p, fst kv) (marks t)) ->
  substitute m (source_line t) = with_placeholders m t.
Proof.
  induction m as [|[k v] m IH]; intros t Hm Hnd Ho.
  - now rewrite with_placeholders_nil.
  - inversion Hm as [|? ? (Hne & Hk & Hv) Hm']; subst. cbn [fst snd] in Hne, Hk, Hv.
    unfold substitute. cbn [fold_left].
    fold (substitute m (find_replace k v (source_line t))).
    destruct (in_dec string_dec k (params t)) as [Hin | Hnin].
    + destruct (params_split t k Hin) as (t1 & t2 & ->).
      rewrite params_app in Hnd. cbn [params] in Hnd.
      apply NoDup_app in Hnd. destruct Hnd as (Hnd1 & Hdisj & Hnd2).
      apply NoDup_cons in Hnd2. destruct Hnd2 as [Hk2 Hnd2].
      assert (Hk1 : ~ In k (params t1)).
      { intros H. apply list_elem_of_In in H. apply (Hdisj k H). now left. }
      rewrite list_elem_of_In in Hk2.
      pose proof (nonempty_length k Hne) as Hlk.
      set (S1 := source_line t1) in *. set (S2 := source_line t2) in *.
      assert (Hsrc : source_line (t1 ++ Param k :: t2) = S1 +:+ k +:+ S2)
        by (now rewrite source_line_app).
      assert (Hmarks : marks (t1 ++ Param k :: t2)
                       = marks t1 ++ (String.length S1 + 0, k)
                           :: map (shift (String.length S1 + String.length k)) (marks t2)).
      { rewrite marks_app. cbn [marks map]. now rewrite map_shift_shift. }
      assert (Hfind : find_replace k v (source_line (t1 ++ Param k :: t2))
                      = source_line (t1 ++ Text v :: t2)).
      { rewrite (source_line_app t1 (Text v :: t2)). cbn [source_line piece_text].
        fold S1 S2. unfold find_replace, str_replace.
        destruct (str_find k (source_line (t1 ++ Param k :: t2))) as [n|] eqn:E;
          unfold str_find in E.
        - apply find_from_Some in E. destruct E as (_ & Hp & _).
          rewrite Nat.sub_0_r in Hp.
          pose proof (Ho (k, v) (or_introl eq_refl) n Hp) as Hn. cbn [fst] in Hn.
          rewrite Hmarks in Hn. apply in_app_or in Hn.
          destruct Hn as [Hn | [Hn | Hn]].
          + apply marks_params in Hn. contradiction.
          + injection Hn as <-. rewrite Nat.add_0_r, Hsrc.
            rewrite str_take_app, str_drop_add, str_drop_app, str_drop_app.
            reflexivity.
          + apply in_shift in Hn. destruct Hn as (q & _ & Hn).
            apply marks_params in Hn. contradiction.
        - exfalso. pose proof (find_from_None _ _ _ E (String.length S1)) as Hn.
          rewrite Hsrc, str_drop_app, prefix_app_self in Hn. discriminate Hn. }
      rewrite Hfind, IH.
      * rewrite !with_placeholders_app.
        cbn [with_placeholders placeholder_text omap_lookup].
        rewrite String.eqb_refl.
        now rewrite !with_placeholders_skip by assumption.
      * exact Hm'.
      * rewrite params_app. cbn [params]. apply NoDup_app.
        split; [exact Hnd1 |]. split; [| exact Hnd2].
        intros x Hx Hx2. apply (Hdisj x Hx). now right.
      * intros [k' v'] Hin' p Hp. cbn [fst] in *.
        rewrite List.Forall_forall in Hm'.
        destruct (Hm' (k', v') Hin') as (Hne' & Hk' & _). cbn [fst] in Hne', Hk'.
        pose proof (nonempty_length k' Hne') as Hlk'.
        rewrite source_line_app in Hp. cbn [source_line piece_text] in Hp.
        fold S1 S2 in Hp.
        assert (Hmarks' : marks (t1 ++ Text v :: t2)
                          = marks t1
                              ++ map (shift (String.length S1 + String.length v))
                                     (marks t2)).
        { rewrite marks_app. cbn [marks]. now rewrite map_shift_shift. }
        rewrite Hmarks'.
        pose proof (Ho (k', v') (or_intror Hin')) as Hold. cbn [fst] in Hold.
        rewrite Hsrc, Hmarks in Hold.
        rewrite occurs_at_get in Hp.
        destruct (occurrence_avoids k' S1 v S2 p Hne' Hk' Hv) as [Hl | Hr];
          [now apply occurs_at_get | |].
        -- assert (Hocc : occurs_at k' p (S1 +:+ k +:+ S2) = true).
           { apply occurs_at_get. intros i Hi.
             rewrite <- (Hp i Hi). now rewrite !get_app_l by lia. }
           apply Hold in Hocc. apply in_app_or in Hocc.
           destruct Hocc as [H | [H | H]]; [apply in_or_app; now left | |].
           ++ injection H as H _. lia.
           ++ apply in_shift in H. destruct H as (q & Hq & _). lia.
        -- assert (Hocc : occurs_at k'
                            (String.length S1 + String.length k
                             + (p - (String.length S1 + String.length v)))
                            (S1 +:+ k +:+ S2) = true).
           { apply occurs_at_get. intros i Hi.
             rewrite <- (Hp i Hi).
             replace (p + i)
               with (String.length S1
                     + (String.length v
                        + (p - (String.length S1 + String.length v) + i))) by lia.
             rewrite <- !Nat.add_assoc.
             now rewrite !get_app_r. }
           apply Hold in Hocc. apply in_app_or in Hocc.
           destruct Hocc as [H | [H | H]].
           ++ apply marks_bound in H. fold S1 in H. lia.
           ++ injection H as H _. lia.
           ++ apply in_shift in H. destruct H as (q & Hq & H).
              apply in_or_app. right. apply in_shift. exists q. split; [lia | exact H].
    + assert (Hnone : find_replace k v (source_line t) = source_line t).
      { unfold find_replace.
        destruct (str_find k (source_line t)) as [n|] eqn:E; [| reflexivity].
        exfalso. unfold str_find in E.
        apply find_from_Some in E. destruct E as (_ & Hp & _).
        rewrite Nat.sub_0_r in Hp.
        apply (Ho (k, v) (or_introl eq_refl)) in Hp. apply marks_params in Hp.
        contradiction. }
      rewrite Hnone, with_placeholders_skip by exact Hnin.
      apply IH; [exact Hm' | exact Hnd |].
      intros kv Hin'. apply Ho. now right.
Qed.

(** What the check [well_marked] decides. *)
Lemma well_marked_spec (m : omap string) (t : list piece) :
  List.Forall (fun kv => fst kv <> EmptyString) m ->
  well_marked m t = true ->
  List.Forall (fun kv => inert (fst kv) = true) m
  /\ NoDup (params t)
  /\ (forall kv, In kv m ->
        forall p, occurs_at (fst kv) p (source_line t) = true ->
                  In (p, fst kv) (marks t)).
Proof.
  unfold well_marked, every_occurrence_marked. intros Hne H.
  rewrite List.Forall_forall in Hne.
  apply andb_prop in H. destruct H as [H H3].
  apply andb_prop in H. destruct H as [H1 H2].
  rewrite forallb_forall in H1, H3.
  split; [now apply List.Forall_forall |].
  split; [now apply bool_decide_eq_true in H2 |].
  intros kv Hin p Hp.
  pose proof (nonempty_length _ (Hne kv Hin)) as Hlk.
  assert (Hlt : p <= String.length (source_line t)).
  { destruct (le_lt_dec p (String.length (source_line t))) as [|Hgt]; [assumption |].
    unfold occurs_at in Hp. rewrite str_drop_all in Hp by lia.
    destruct (fst kv); [cbn in Hlk; lia | discriminate Hp]. }
  pose proof (H3 kv Hin) as Hall. rewrite forallb_forall in Hall.
  specialize (Hall p ltac:(apply in_seq; lia)). rewrite Hp in Hall.
  cbn [implb] in Hall. unfold marked in Hall.
  apply existsb_exists in Hall. destruct Hall as ([q f] & Hq & Hc).
  cbn [fst snd] in Hc. apply andb_prop in Hc. destruct Hc as [Hc1 Hc2].
  apply Nat.eqb_eq in Hc1. apply String.eqb_eq in Hc2. now subst.
Qed.

(** The values of the map of formal parameters are placeholders. *)
Lemma omap_insert_Forall {V : Type} (P : string * V -> Prop) (k : string) (v : V)
    (m : omap V) :
  P (k, v) -> List.Forall P m -> List.Forall P (omap_insert k v m).
Proof.
  intros Hk. induction 1 as [|[k' v'] m Hk' Hm IH]; cbn [omap_insert].
  - constructor; [exact Hk | constructor].
  - destruct (String.compare k k').
    + constructor; [exact Hk | exact Hm].
    + constructor; [exact Hk |]. constructor; [exact Hk' | exact Hm].
    + constructor; [exact Hk' | exact IH].
Qed.

Lemma build_formal_map_values (fs : list string) :
  List.Forall (fun kv => exists i, snd kv = placeholder i) (build_formal_map fs).
Proof.
  unfold build_formal_map.
  generalize (combine (seq 0 (length fs)) fs) as pairs.
  assert (Hg : forall (pairs : list (nat * string)) (m : omap string),
             List.Forall (fun kv => exists i, snd kv = placeholder i) m ->
             List.Forall (fun kv => exists i, snd kv = placeholder i)
                    (fold_left (fun m '(i, f) => omap_insert f (placeholder i) m)
                               pairs m)).
  { induction pairs as [|[i f] pairs IH]; intros m Hm; [exact Hm |].
    cbn [fold_left]. apply IH. apply omap_insert_Forall; [| exact Hm].
    cbn [snd]. eauto. }
  intros pairs. apply Hg. constructor.
Qed.

Lemma omap_insert_keys {V : Type} (k : string) (v : V) (m : omap V) :
  k <> EmptyString ->
  Forall (fun kv => fst kv <> EmptyString) m ->
  Forall (fun kv => fst kv <> EmptyString) (omap_insert k v m).
Proof.
  intros Hk. induction 1 as [|[k' v'] m Hk' Hm IH]; cbn [omap_insert].
  - constructor; [exact Hk | constructor].
  - destruct (String.compare k k').
    + constructor; [exact Hk | exact Hm].
    + constructor; [exact Hk |]. constructor; [exact Hk' | exact Hm].
    + constructor; [exact Hk' | exact IH].
Qed.

(** The keys of the map of formal parameters are not empty. *)
Lemma build_formal_map_keys (fs : list string) :
  Forall (fun f => f <> EmptyString) fs ->
  Forall (fun kv => fst kv <> EmptyString) (build_formal_map fs).
Proof.
  intros H. unfold build_formal_map.
  assert (Hg : forall (pairs : list (nat * string)) (m : omap string),
             Forall (fun p => snd p <> EmptyString) pairs ->
             Forall (fun kv => fst kv <> EmptyString) m ->
             Forall (fun kv => fst kv <> EmptyString)
                    (fold_left (fun m '(i, f) => omap_insert f (placeholder i) m)
                               pairs m)).
  { induction pairs as [|[i f] pairs IH]; intros m Hp Hm; [exact Hm |].
    inversion Hp as [|? ? Hf Hr]; subst. cbn [fold_left].
    apply IH; [exact Hr |]. now apply omap_insert_keys. }
  apply Hg; [| constructor].
  generalize 0 as a. induction H as [|f fs Hf _ IH]; intros a; cbn; constructor.
  - exact Hf.
  - apply IH.
Qed.

Lemma last_formals_nonempty (pre : list string) :
  Forall (fun f => f <> EmptyString) (last_formals pre).
Proof.
  unfold last_formals.
  assert (H : forall fs, Forall (fun f => f <> EmptyString) fs ->
                         Forall (fun f => f <> EmptyString)
                                (fold_left formals_step pre fs));
    [| apply H; constructor].
  induction pre as [|l pre IH]; intros fs Hfs; [exact Hfs |].
  cbn [fold_left]. apply IH. unfold formals_step.
  destruct (tokenize l) as [|t ts]; [exact Hfs |].
  destruct (String.eqb _ "MACRO"); [| exact Hfs].
  apply fields_from_nonempty.
Qed.

(** A marked line under the formal parameters of a definition. *)
Lemma substitute_well_marked (fs : list string) (t : list piece) :
  Forall (fun f => f <> EmptyString) fs ->
  well_marked (build_formal_map fs) t = true ->
  substitute (build_formal_map fs) (source_line t)
  = with_placeholders (build_formal_map fs) t.
Proof.
  intros Hfs H.
  pose proof (build_formal_map_keys fs Hfs) as Hne.
  destruct (well_marked_spec _ _ Hne H) as (H1 & H2 & H3).
  apply substitute_marked; [| exact H2 | exact H3].
  pose proof (build_formal_map_values fs) as Hv.
  rewrite List.Forall_forall in H1, Hv, Hne. apply List.Forall_forall.
  intros kv Hin. split; [exact (Hne kv Hin) |].
  split; [exact (H1 kv Hin) | exact (Hv kv Hin)].
Qed.

(** The placeholder of a formal parameter is # and its position, the last
    one when it is listed more than once. *)
Lemma formal_map_fold_absent (f : string) (l : list string) : forall a m,
  (forall j, l !! j <> Some f) ->
  omap_lookup f (fold_left (fun m '(i, g) => omap_insert g (placeholder i) m)
                           (combine (seq a (length l)) l) m)
  = omap_lookup f m.
Proof.
  induction l as [|x l IH]; intros a m H; [reflexivity |].
  cbn [length seq combine fold_left].
  rewrite IH by (intros j; exact (H (S j))).
  apply omap_lookup_insert_ne. intros ->. now apply (H 0).
Qed.

Lemma formal_map_fold_lookup (f : string) (l : list string) : forall i a m,
  l !! i = Some f ->
  (forall j, i < j -> l !! j <> Some f) ->
  omap_lookup f (fold_left (fun m '(i, g) => omap_insert g (placeholder i) m)
                           (combine (seq a (length l)) l) m)
  = Some (placeholder (a + i)).
Proof.
  induction l as [|x l IH]; intros i a m Hi Hlast; [discriminate |].
  cbn [length seq combine fold_left].
  destruct i as [|i].
  - cbn in Hi. injection Hi as ->.
    rewrite formal_map_fold_absent.
    + rewrite Nat.add_0_r. apply omap_lookup_insert_eq.
    + intros j. apply (Hlast (S j)). lia.
  - replace (a + S i) with (S a + i) by lia.
    apply IH; [exact Hi |].
    intros j Hj. apply (Hlast (S j)). lia.
Qed.

Lemma build_formal_map_lookup (fs : list string) (i : nat) (f : string) :
  fs !! i = Some f ->
  (forall j, i < j -> fs !! j <> Some f) ->
  omap_lookup f (build_formal_map fs) = Some (placeholder i).
Proof.
  intros Hi Hlast. unfold build_formal_map.
  exact (formal_map_fold_lookup f fs i 0 [] Hi Hlast).
Qed.

(** *** Pass I *)

Lemma pass_one_snoc (pre : list string) (line : string) :
  pass_one (pre ++ [line]) = pass_one_line (pass_one pre) line.
Proof. unfold pass_one, pass_one_from. now rewrite fold_left_app. Qed.

Lemma in_macro_step (st : pass1_state) (line : string) :
  in_macro (pass_one_line st line) = open_step (in_macro st) line.
Proof.
  unfold pass_one_line, open_step.
  destruct (tokenize line) as [|t ts]; [reflexivity |].
  destruct (String.eqb _ "MACRO"); [reflexivity |].
  destruct (String.eqb _ "MEND"); [reflexivity |].
  destruct (in_macro st) eqn:E; cbn; congruence.
Qed.

Lemma in_macro_from (pre : list string) : forall st,
  in_macro (pass_one_from st pre) = fold_left open_step pre (in_macro st).
Proof.
  induction pre as [|l pre IH]; intros st; [reflexivity |].
  unfold pass_one_from in *. cbn [fold_left]. rewrite IH. now rewrite in_macro_step.
Qed.

(** The flag [in_macro] says that the lines read so far end inside a
    definition. *)
Lemma in_macro_open (pre : list string) :
  in_macro (pass_one pre) = open_definition pre.
Proof. unfold pass_one. now rewrite in_macro_from. Qed.

Lemma formal_map_step (st : pass1_state) (line : string) (fs : list string) :
  formal_to_placeholder st = build_formal_map fs ->
  formal_to_placeholder (pass_one_line st line)
  = build_formal_map (formals_step fs line).
Proof.
  intros H. unfold pass_one_line, formals_step.
  destruct (tokenize line) as [|t ts]; [exact H |].
  destruct (String.eqb _ "MACRO"); [reflexivity |].
  destruct (String.eqb _ "MEND"); [exact H |].
  destruct (in_macro st); exact H.
Qed.

Lemma formal_map_from (pre : list string) : forall st fs,
  formal_to_placeholder st = build_formal_map fs ->
  formal_to_placeholder (pass_one_from st pre)
  = build_formal_map (fold_left formals_step pre fs).
Proof.
  induction pre as [|l pre IH]; intros st fs H; [exact H |].
  unfold pass_one_from in *. cbn [fold_left]. apply IH. now apply formal_map_step.
Qed.

(** The map in use is the one built from the last MACRO line. *)
Lemma formal_map_last (pre : list string) :
  formal_to_placeholder (pass_one pre) = build_formal_map (last_formals pre).
Proof. unfold pass_one, last_formals. now apply formal_map_from. Qed.

(** One line that has tokens and is neither MACRO nor MEND. *)
Lemma pass_one_line_plain (st : pass1_state) (line : string) :
  tokenize line <> [] ->
  opcode (parse_line (tokenize line)) <> "MACRO" ->
  opcode (parse_line (tokenize line)) <> "MEND" ->
  pass_one_line st line
  = if in_macro st then
      mkP1 true (macro_name st) (formal_params st) (formal_to_placeholder st)
           (MNT st) (MDT st ++ [substitute (formal_to_placeholder st) line])
           (S (MDT_IDX st)) (intermediate_file st)
    else
      mkP1 false (macro_name st) (formal_params st) (formal_to_placeholder st)
           (MNT st) (MDT st) (MDT_IDX st) (intermediate_file st +:+ line +:+ NL).
Proof.
  intros Ht Ha He. apply String.eqb_neq in Ha, He.
  unfold pass_one_line.
  destruct (tokenize line) as [|t ts]; [contradiction |].
  now rewrite Ha, He.
Qed.

(** C3 as stated fails on lines the passes treat on their own.  A line
    without tokens is dropped: read inside the definition of CALC it adds
    nothing to the MDT, read outside a definition it is not written to the
    intermediate file.  A MEND line met outside a definition goes to the
    MDT, not to the intermediate file. *)
Lemma blank_and_MEND_lines_not_copied :
  in_macro (pass_one [src "CALC" "MACRO" "&A"]) = true
  /\ MDT (pass_one [src "CALC" "MACRO" "&A"; ""]) = [src "CALC" "MACRO" "&A"]
  /\ ~ body_line_rewritten (pass_one [src "CALC" "MACRO" "&A"]) ""
  /\ in_macro (pass_one []) = false
  /\ intermediate_file (pass_one [""]) = ""
  /\ ~ outside_line_copied (pass_one []) ""
  /\ intermediate_file (pass_one ["MEND"]) = ""
  /\ MDT (pass_one ["MEND"]) = ["MEND"]
  /\ ~ outside_line_copied (pass_one []) "MEND".
Proof.
  split; [reflexivity |]. split; [reflexivity |]. split.
  { intros H. specialize (H eq_refl).
    assert (H1 : opcode (parse_line (tokenize "")) <> "MACRO") by (vm_compute; discriminate).
    assert (H2 : opcode (parse_line (tokenize "")) <> "MEND") by (vm_compute; discriminate).
    specialize (H H1 H2 [] eq_refl eq_refl). vm_compute in H. discriminate H. }
  split; [reflexivity |]. split; [reflexivity |]. split.
  { intros H. specialize (H eq_refl). vm_compute in H. discriminate H. }
  split; [reflexivity |]. split; [reflexivity |].
  intros H. specialize (H eq_refl). vm_compute in H. discriminate H.
Qed.

(** C3, amended: a source line read after the lines [pre].  A line without
    tokens changes nothing.  A MACRO or MEND line is appended to the MDT as
    it is and the intermediate file is unchanged, wherever the line stands.
    Any other line, when [pre] ends inside a definition, adds exactly one
    line to the MDT and leaves the intermediate file unchanged; for every
    way of marking the occurrences of the formal parameters of that
    definition in the line such that every occurrence is marked, no
    parameter is marked twice, and no parameter name starts with a digit or
    contains #, the line added is the source line with each marked
    occurrence replaced by the placeholder of its parameter.  Any other
    line, when [pre] ends outside a definition, is appended unchanged to the
    intermediate file and the MDT is unchanged.  The placeholder of a
    parameter is # followed by its position in the parameter list of the
    last MACRO line, counted from 0 (its last position, when it is listed
    more than once). *)
Theorem pass_one_line_by_line :
  forall (pre : list string) (line : string),
    let st := pass_one pre in
    let st' := pass_one (pre ++ [line]) in
    let formals := build_formal_map (last_formals pre) in
    (tokenize line = [] -> st' = st)
    /\ (tokenize line <> [] ->
        opcode (parse_line (tokenize line)) = "MACRO"
        \/ opcode (parse_line (tokenize line)) = "MEND" ->
        MDT st' = MDT st ++ [line]
        /\ intermediate_file st' = intermediate_file st)
    /\ (tokenize line <> [] ->
        opcode (parse_line (tokenize line)) <> "MACRO" ->
        opcode (parse_line (tokenize line)) <> "MEND" ->
        open_definition pre = true ->
        intermediate_file st' = intermediate_file st
        /\ (exists stored, MDT st' = MDT st ++ [stored])
        /\ (forall t : list piece,
              source_line t = line ->
              well_marked formals t = true ->
              MDT st' = MDT st ++ [with_placeholders formals t]))
    /\ (tokenize line <> [] ->
        opcode (parse_line (tokenize line)) <> "MACRO" ->
        opcode (parse_line (tokenize line)) <> "MEND" ->
        open_definition pre = false ->
        intermediate_file st' = intermediate_file st +:+ line +:+ NL
        /\ MDT st' = MDT st)
    /\ (forall (i : nat) (f : string),
          last_formals pre !! i = Some f ->
          (forall j, i < j -> last_formals pre !! j <> Some f) ->
          omap_lookup f formals = Some (placeholder i)).
Proof.
  intros pre line st st' formals.
  unfold st'. rewrite pass_one_snoc. fold st.
  assert (Hf : formal_to_placeholder st = formals) by apply formal_map_last.
  rewrite <- in_macro_open. fold st.
  split; [| split; [| split; [| split]]].
  - intros Ht. unfold pass_one_line. now rewrite Ht.
  - intros Ht Hopc. unfold pass_one_line.
    destruct (tokenize line) as [|t0 ts]; [contradiction |].
    destruct Hopc as [-> | Hopc]; [split; reflexivity |].
    rewrite Hopc.
    destruct (String.eqb "MEND" "MACRO"); split; reflexivity.
  - intros Ht Ha He Hopen.
    rewrite (pass_one_line_plain st line Ht Ha He), Hopen, Hf.
    cbn [MDT intermediate_file].
    split; [reflexivity |]. split; [eauto |].
    intros t <- Hw. unfold formals in *.
    now rewrite (substitute_well_marked _ t (last_formals_nonempty pre) Hw).
  - intros Ht Ha He Hopen.
    rewrite (pass_one_line_plain st line Ht Ha He), Hopen.
    split; reflexivity.
  - intros i f Hi Hlast. now apply build_formal_map_lookup.
Qed.

(** The sample program: the first body line of CALC, with &A and &B marked;
    the line after the MEND of CALC; that MEND; and a line without tokens
    put after the MACRO line of CALC. *)
Lemma pass_one_line_by_line_witness :
  MDT (pass_one (firstn 4 sample_source))
  = [src "CALC" "MACRO" "&A,&B"; src "#0" "ADD" "#1"]
  /\ intermediate_file (pass_one (firstn 7 sample_source))
     = src "MAIN" "START" "1000" +:+ NL +:+ src "LOOP" "LOAD" "X" +:+ NL
       +:+ src "" "STORE" "Y" +:+ NL
  /\ MDT (pass_one (firstn 6 sample_source))
     = MDT (pass_one (firstn 5 sample_source)) ++ ["MEND"]
  /\ pass_one (firstn 3 sample_source ++ [""]) = pass_one (firstn 3 sample_source)
  /\ omap_lookup "&B" (build_formal_map (last_formals (firstn 3 sample_source)))
     = Some "#1".
Proof.
  split; [| split; [| split; [| split]]].
  - destruct (pass_one_line_by_line (firstn 3 sample_source) (src "&A" "ADD" "&B"))
      as (_ & _ & H & _).
    destruct H as (_ & _ & H);
      [vm_compute; discriminate | vm_compute; discriminate
       | vm_compute; discriminate | reflexivity |].
    specialize (H [Param "&A"; Text (TAB +:+ "ADD" +:+ TAB); Param "&B"]
                  eq_refl eq_refl).
    change (firstn 4 sample_source)
      with (firstn 3 sample_source ++ [src "&A" "ADD" "&B"]).
    rewrite H. vm_compute. reflexivity.
  - destruct (pass_one_line_by_line (firstn 6 sample_source) (src "" "STORE" "Y"))
      as (_ & _ & _ & H & _).
    destruct H as [H _];
      [vm_compute; discriminate | vm_compute; discriminate
       | vm_compute; discriminate | reflexivity |].
    change (firstn 7 sample_source)
      with (firstn 6 sample_source ++ [src "" "STORE" "Y"]).
    rewrite H. vm_compute. reflexivity.
  - destruct (pass_one_line_by_line (firstn 5 sample_source) "MEND")
      as (_ & H & _).
    destruct H as [H _]; [vm_compute; discriminate | now right |].
    exact H.
  - destruct (pass_one_line_by_line (firstn 3 sample_source) "") as (H & _).
    exact (H eq_refl).
  - destruct (pass_one_line_by_line (firstn 3 sample_source) "")
      as (_ & _ & _ & _ & H).
    apply (H 1 "&B"); [reflexivity |].
    intros [|[|j]] Hj; [lia | lia | discriminate].
Defined.

(** *** Pass II *)

(** C4: in the sample program CALC has the formals &A and &B and the body
    "#0 ADD #1" / "SUB #1" in the MDT; the call CALC X,Y maps #0 to X and #1
    to Y, and Pass II writes for it exactly the two lines "X ADD Y" and
    "SUB Y" (fields separated by tabs, as in the source), which are lines 6
    and 7 of output.txt. *)
Theorem CALC_expansion :
  let st := pass_one sample_source in
  MNT st !! "CALC" = Some (mkMNT 0 2)
  /\ extract_parameters "&A,&B" = ["&A"; "&B"]
  /\ firstn 4 (MDT st)
     = [src "CALC" "MACRO" "&A,&B"; src "#0" "ADD" "#1"; src "" "SUB" "#1"; "MEND"]
  /\ build_actual_map 2 (extract_parameters "X,Y") = [("#0", "X"); ("#1", "Y")]
  /\ pass_two_line (MNT st) (MDT st) EmptyString (src "" "CALC" "X,Y")
     = src "X" "ADD" "Y" +:+ NL +:+ src "" "SUB" "Y" +:+ NL
  /\ getlines (pass_two_line (MNT st) (MDT st) EmptyString (src "" "CALC" "X,Y"))
     = [src "X" "ADD" "Y"; src "" "SUB" "Y"]
  /\ map tokenize [src "X" "ADD" "Y"; src "" "SUB" "Y"]
     = [["X"; "ADD"; "Y"]; ["SUB"; "Y"]]
  /\ firstn 2 (skipn 5 (getlines (main_output sample_source)))
     = [src "X" "ADD" "Y"; src "" "SUB" "Y"].
Proof. vm_compute. repeat split; reflexivity. Qed.

(** *** Diagnostics of the macroprocessor *)

Lemma pass_two_line_call (mnt : gmap string MNTEntry) (mdt : list string)
    (out line : string) (e : MNTEntry) :
  tokenize line <> [] ->
  mnt !! opcode (parse_line (tokenize line)) = Some e ->
  pass_two_line mnt mdt out line
  = let opc := opcode (parse_line (tokenize line)) in
    let actual_params := extract_parameters (operand (parse_line (tokenize line))) in
    if negb (Nat.eqb (length actual_params) (num_parameters e)) then
      out +:+ argument_count_error opc
    else expand opc (build_actual_map (num_parameters e) actual_params)
                (drop (S (start_index e)) mdt) out.
Proof.
  intros Ht Hm. unfold pass_two_line.
  destruct (tokenize line) as [|t ts]; [contradiction |].
  now rewrite Hm.
Qed.

(** An expansion that meets no MEND writes every line that is left of the
    MDT, then the index error, and returns. *)
Lemma expand_overrun (opc : string) (amap : omap string) (rest : list string) :
  forall out,
    Forall (fun l => is_MEND (tokenize l) = false) rest ->
    expand opc amap rest out = out +:+ expanded amap rest +:+ mdt_index_error opc.
Proof.
  induction rest as [|l rest IH]; intros out H.
  - reflexivity.
  - inversion H as [|? ? Hl Hr]; subst.
    cbn [expand expanded]. rewrite Hl, IH by exact Hr.
    now rewrite !str_app_assoc.
Qed.

End MacroFacts.
(** ** Page replacement *)
Section PageReplacementFacts.
Import Cpp PageReplacement.

Lemma run_steps_snoc {S A : Type} (step : S -> A -> option S) (l : list A) (a : A) :
  forall st,
    run_steps step (l ++ [a]) st
    = match run_steps step l st with
      | Some st1 => step st1 a
      | None => None
      end.
Proof.
  induction l as [|b l IH]; intros st; cbn [app run_steps].
  - now destruct (step st a).
  - destruct (step st b) as [st1|]; [apply IH | reflexivity].
Qed.

Lemma count_upto_ext (f g : nat -> bool) (n : nat) :
  (forall i, i < n -> f i = g i) -> count_upto f n = count_upto g n.
Proof.
  induction n as [|n IH]; intros H; [reflexivity |].
  cbn [count_upto]. rewrite IH by (intros i Hi; apply H; lia).
  now rewrite (H n) by lia.
Qed.

(** The counting argument, for any policy whose step adds one fault exactly
    on a miss. *)
Section Counting.
Context {S : Type}.
Variable step : S -> Z -> option S.
Variable init : S.
Variable frames : S -> list Z.
Variable faults : S -> nat.
Hypothesis step_counts : forall st p st',
  step st p = Some st' ->
  faults st' = faults st + (if resident p (frames st) then 0 else 1).

Let miss_at (pages : list Z) (i : nat) : bool :=
  match run_steps step (take i pages) init, pages !! i with
  | Some st, Some p => negb (resident p (frames st))
  | _, _ => false
  end.

Lemma faults_are_misses (pages : list Z) : forall st,
  run_steps step pages init = Some st ->
  faults st = faults init + count_upto (miss_at pages) (length pages).
Proof using step_counts.
  induction pages as [|p l IH] using rev_ind; intros st H.
  - cbn in H. injection H as <-. cbn. lia.
  - rewrite run_steps_snoc in H.
    destruct (run_steps step l init) as [st1|] eqn:E; [| discriminate].
    rewrite length_app. cbn [length]. rewrite Nat.add_1_r. cbn [count_upto].
    rewrite (count_upto_ext (miss_at (l ++ [p])) (miss_at l)).
    + rewrite (step_counts _ _ _ H), (IH st1 eq_refl).
      unfold miss_at.
      rewrite take_app_length, E, list_lookup_middle by reflexivity.
      destruct (resident p (frames st1)); cbn; lia.
    + intros i Hi. unfold miss_at.
      rewrite take_app_le by lia. now rewrite lookup_app_l by lia.
Qed.
End Counting.

Lemma fifo_step_counts capacity st p st' :
  fifo_step capacity st p = Some st' ->
  fifo_faults st' = fifo_faults st + (if resident p (fifo_frames st) then 0 else 1).
Proof.
  unfold fifo_step. intros H.
  destruct (resident p (fifo_frames st)).
  - injection H as <-. cbn. lia.
  - destruct (has_room _ _).
    + injection H as <-. cbn. lia.
    + destruct (fifo_q st); [discriminate |]. injection H as <-. cbn. lia.
Qed.

Lemma lru_step_counts capacity st p st' :
  lru_step capacity st p = Some st' ->
  lru_faults st' = lru_faults st + (if resident p (lru_frames st) then 0 else 1).
Proof.
  unfold lru_step. intros H.
  destruct (resident p (lru_frames st)).
  - injection H as <-. cbn. lia.
  - destruct (has_room _ _).
    + injection H as <-. cbn. lia.
    + destruct (lru_frames st); [discriminate |]. injection H as <-. cbn. lia.
Qed.

Lemma optimal_step_counts pages capacity st i p :
  opt_faults (optimal_step pages capacity st (i, p))
  = opt_faults st + (if resident p (opt_frames st) then 0 else 1).
Proof.
  unfold optimal_step. destruct (resident p (opt_frames st)); cbn; lia.
Qed.

(** What is printed for a reference says the same. *)
Lemma fifo_step_prints capacity st p st' :
  fifo_step capacity st p = Some st' ->
  fifo_out st'
  = fifo_out st ++ [if resident p (fifo_frames st) then NoPageFault p
                    else PageFault p (fifo_frames st')].
Proof.
  unfold fifo_step. intros H.
  destruct (resident p (fifo_frames st)).
  - now injection H as <-.
  - destruct (has_room _ _).
    + now injection H as <-.
    + destruct (fifo_q st); [discriminate |]. now injection H as <-.
Qed.

Lemma lru_step_prints capacity st p st' :
  lru_step capacity st p = Some st' ->
  lru_out st'
  = lru_out st ++ [if resident p (lru_frames st) then NoPageFault p
                   else PageFault p (lru_frames st')].
Proof.
  unfold lru_step. intros H.
  destruct (resident p (lru_frames st)).
  - now injection H as <-.
  - destruct (has_room _ _).
    + now injection H as <-.
    + destruct (lru_frames st); [discriminate |]. now injection H as <-.
Qed.

Lemma optimal_step_prints pages capacity st i p :
  let st' := optimal_step pages capacity st (i, p) in
  opt_out st'
  = opt_out st ++ [if resident p (opt_frames st) then NoPageFault p
                   else PageFault p (opt_frames st')].
Proof. unfold optimal_step. now destruct (resident p (opt_frames st)). Qed.

(** *** The runs are defined *)

Lemma to_size_t_pos capacity : to_size_t capacity <> 0%Z -> (1 <= to_size_t capacity)%Z.
Proof.
  unfold to_size_t. intros H.
  pose proof (Z.mod_pos_bound capacity (2 ^ 64) ltac:(lia)). lia.
Qed.

Lemma no_room_nonempty frames capacity :
  to_size_t capacity <> 0%Z -> has_room frames capacity = false -> frames <> [].
Proof.
  intros Hc H ->. apply to_size_t_pos in Hc.
  unfold has_room in H. apply Z.ltb_ge in H. cbn in H. lia.
Qed.

Lemma replace_length victim p frames : length (replace victim p frames) = length frames.
Proof. unfold replace. apply length_map. Qed.

Lemma fifo_defined capacity pages :
  to_size_t capacity <> 0%Z ->
  forall st, length (fifo_q st) = length (fifo_frames st) ->
             is_Some (run_steps (fifo_step capacity) pages st).
Proof.
  intros Hc. induction pages as [|p l IH]; intros st Hq; [cbn; eauto |].
  cbn [run_steps]. unfold fifo_step.
  destruct (resident p (fifo_frames st)); [apply IH; exact Hq |].
  destruct (has_room (fifo_frames st) capacity) eqn:Hr.
  - apply IH. cbn. rewrite !length_app. cbn. lia.
  - pose proof (no_room_nonempty _ _ Hc Hr) as Hne.
    destruct (fifo_q st) as [|victim q] eqn:Eq.
    + destruct (fifo_frames st); [contradiction | discriminate].
    + apply IH. cbn. rewrite length_app, replace_length. cbn in *. lia.
Qed.

Lemma lru_defined capacity pages :
  to_size_t capacity <> 0%Z ->
  forall st, is_Some (run_steps (lru_step capacity) pages st).
Proof.
  intros Hc. induction pages as [|p l IH]; intros st; [cbn; eauto |].
  cbn [run_steps]. unfold lru_step.
  destruct (resident p (lru_frames st)); [apply IH |].
  destruct (has_room (lru_frames st) capacity) eqn:Hr; [apply IH |].
  pose proof (no_room_nonempty _ _ Hc Hr) as Hne.
  destruct (lru_frames st); [contradiction | apply IH].
Qed.

(** *** Optimal as a run *)

Lemma run_steps_total {S A : Type} (f : S -> A -> S) (l : list A) : forall st,
  run_steps (fun s a => Some (f s a)) l st = Some (fold_left f l st).
Proof. induction l as [|a l IH]; intros st; [reflexivity | apply IH]. Qed.

Lemma indexed_length pages : length (indexed pages) = length pages.
Proof. unfold indexed. rewrite length_combine, length_seq. lia. Qed.

Lemma combine_seq_lookup (l : list Z) : forall a i p,
  l !! i = Some p -> combine (seq a (length l)) l !! i = Some (a + i, p).
Proof.
  induction l as [|x l IH]; intros a i p H; [discriminate |].
  destruct i as [|i]; cbn [length seq combine].
  - cbn in H. injection H as <-. now rewrite Nat.add_0_r.
  - change ((x :: l) !! S i) with (l !! i) in H.
    change (((a, x) :: combine (seq (S a) (length l)) l) !! S i)
      with (combine (seq (S a) (length l)) l !! i).
    rewrite (IH (S a) i p H). f_equal. f_equal. lia.
Qed.

Lemma indexed_lookup pages i p :
  pages !! i = Some p -> indexed pages !! i = Some (i, p).
Proof. intros H. unfold indexed. now rewrite (combine_seq_lookup _ 0 i p H). Qed.

Lemma optimal_counts_from pages capacity (l : list (nat * Z)) :
  opt_faults (fold_left (optimal_step pages capacity) l optimal_init)
  = count_upto
      (fun i => match l !! i with
                | Some (_, p) =>
                    negb (resident p
                            (opt_frames (fold_left (optimal_step pages capacity)
                                                   (take i l) optimal_init)))
                | None => false
                end)
      (length l).
Proof.
  induction l as [|[k p] l IH] using rev_ind; [reflexivity |].
  rewrite fold_left_app, length_app. cbn [fold_left length].
  rewrite Nat.add_1_r. cbn [count_upto].
  rewrite optimal_step_counts, IH.
  rewrite take_app_length, list_lookup_middle by reflexivity.
  f_equal.
  - apply count_upto_ext. intros i Hi.
    rewrite take_app_le by lia. now rewrite lookup_app_l by lia.
  - now destruct (resident p _).
Qed.

Lemma optimal_counts pages capacity :
  opt_faults (optimal pages capacity)
  = count_upto (optimal_fault_at pages capacity) (length pages).
Proof.
  unfold optimal. rewrite optimal_counts_from, indexed_length.
  apply count_upto_ext. intros i Hi.
  unfold optimal_fault_at, optimal_before.
  destruct (pages !! i) as [p|] eqn:E.
  - now rewrite (indexed_lookup _ _ _ E).
  - apply lookup_ge_None in E. lia.
Qed.

(** With no frame at all the first reference already makes FIFO read the
    front of an empty queue and LRU read [frames[0]] of an empty vector:
    neither run ends with a total. *)
Lemma no_total_without_frames :
  fifo [1%Z] 0 = None
  /\ lru [1%Z] 0 = None
  /\ ~ totals_reported [1%Z] 0.
Proof.
  split; [reflexivity |]. split; [reflexivity |].
  intros [[st [H _]] _]. vm_compute in H. discriminate H.
Qed.

(** C8, amended: for every reference string and capacity, each of FIFO,
    LRU and Optimal adds one to its fault count exactly when the referenced page is
    not among the frames, and prints "No page fault" otherwise; whenever a
    run ends, the total it reports is the number of references that were
    misses.  For every capacity that, as a [size_t], is not zero, all three
    runs end and report that total; Optimal does so at capacity zero too,
    where FIFO and LRU have no result on a reference string that is not
    empty. *)
Theorem faults_counted_on_misses :
  forall (pages : list Z) (capacity : Z),
    (forall st p st',
        fifo_step capacity st p = Some st' ->
        fifo_faults st' = fifo_faults st + (if resident p (fifo_frames st) then 0 else 1)
        /\ fifo_out st'
           = fifo_out st ++ [if resident p (fifo_frames st) then NoPageFault p
                             else PageFault p (fifo_frames st')])
    /\ (forall st p st',
           lru_step capacity st p = Some st' ->
           lru_faults st' = lru_faults st + (if resident p (lru_frames st) then 0 else 1)
           /\ lru_out st'
              = lru_out st ++ [if resident p (lru_frames st) then NoPageFault p
                               else PageFault p (lru_frames st')])
    /\ (forall st i p,
           let st' := optimal_step pages capacity st (i, p) in
           opt_faults st' = opt_faults st + (if resident p (opt_frames st) then 0 else 1)
           /\ opt_out st'
              = opt_out st ++ [if resident p (opt_frames st) then NoPageFault p
                               else PageFault p (opt_frames st')])
    /\ (forall st, fifo pages capacity = Some st ->
                   fifo_faults st = count_upto (fifo_fault_at pages capacity) (length pages))
    /\ (forall st, lru pages capacity = Some st ->
                   lru_faults st = count_upto (lru_fault_at pages capacity) (length pages))
    /\ opt_faults (optimal pages capacity)
       = count_upto (optimal_fault_at pages capacity) (length pages)
    /\ (to_size_t capacity <> 0%Z -> totals_reported pages capacity)
    /\ (to_size_t capacity = 0%Z -> pages <> [] ->
        fifo pages capacity = None /\ lru pages capacity = None).
Proof.
  intros pages capacity.
  assert (Hfifo : forall st, fifo pages capacity = Some st ->
            fifo_faults st = count_upto (fifo_fault_at pages capacity) (length pages)).
  { intros st H.
    apply (faults_are_misses (fifo_step capacity) fifo_init fifo_frames fifo_faults
             (fifo_step_counts capacity) pages st H). }
  assert (Hlru : forall st, lru pages capacity = Some st ->
            lru_faults st = count_upto (lru_fault_at pages capacity) (length pages)).
  { intros st H.
    apply (faults_are_misses (lru_step capacity) lru_init lru_frames lru_faults
             (lru_step_counts capacity) pages st H). }
  split; [| split; [| split; [| split; [| split; [| split; [| split]]]]]].
  - intros st p st' H. split; [exact (fifo_step_counts capacity st p st' H)
             | exact (fifo_step_prints capacity st p st' H)].
  - intros st p st' H. split; [exact (lru_step_counts capacity st p st' H)
             | exact (lru_step_prints capacity st p st' H)].
  - intros st i p st'. split; [apply optimal_step_counts | apply optimal_step_prints].
  - exact Hfifo.
  - exact Hlru.
  - apply optimal_counts.
  - intros Hc. split; [| split].
    + destruct (fifo_defined capacity pages Hc fifo_init eq_refl) as [st E].
      exists st. split; [exact E | exact (Hfifo st E)].
    + destruct (lru_defined capacity pages Hc lru_init) as [st E].
      exists st. split; [exact E | exact (Hlru st E)].
    + apply optimal_counts.
  - intros Hc Hp. destruct pages as [|p l]; [contradiction |].
    unfold fifo, lru. cbn [run_steps].
    unfold fifo_step, lru_step, has_room. cbn. rewrite Hc. cbn. split; reflexivity.
Qed.

(** The run of [main]: 10, 9 and 7 faults among the 13 references; and the
    same references with no frame. *)
Lemma faults_counted_on_misses_witness :
  to_size_t sample_capacity <> 0%Z
  /\ (exists st, fifo sample_pages sample_capacity = Some st
                 /\ fifo_faults st = 10
                 /\ count_upto (fifo_fault_at sample_pages sample_capacity) 13 = 10)
  /\ (exists st, lru sample_pages sample_capacity = Some st
                 /\ lru_faults st = 9
                 /\ count_upto (lru_fault_at sample_pages sample_capacity) 13 = 9)
  /\ opt_faults (optimal sample_pages sample_capacity) = 7
  /\ count_upto (optimal_fault_at sample_pages sample_capacity) 13 = 7
  /\ fifo sample_pages 0 = None
  /\ lru sample_pages 0 = None.
Proof.
  assert (Hc : to_size_t sample_capacity <> 0%Z) by (vm_compute; discriminate).
  pose proof (faults_counted_on_misses sample_pages 0)
    as (_ & _ & _ & _ & _ & _ & _ & Hz).
  pose proof (faults_counted_on_misses sample_pages sample_capacity)
    as (_ & _ & _ & _ & _ & _ & Hd & _).
  destruct (Hd Hc) as ((sf & Ef & Hcf) & (sl & El & Hcl) & Ho).
  change (length sample_pages) with 13 in Hcf, Hcl, Ho.
  assert (Hnf : fifo_faults sf = 10).
  { clear Hcf. vm_compute in Ef. injection Ef as <-. reflexivity. }
  assert (Hnl : lru_faults sl = 9).
  { clear Hcl. vm_compute in El. injection El as <-. reflexivity. }
  split; [exact Hc |]. split; [| split; [| split; [| split]]].
  - exists sf. split; [exact Ef |]. split; [exact Hnf | congruence].
  - exists sl. split; [exact El |]. split; [exact Hnl | congruence].
  - vm_compute. reflexivity.
  - rewrite <- Ho. vm_compute. reflexivity.
  - apply Hz; [reflexivity | discriminate].
Defined.

End PageReplacementFacts.
(** ** CPU scheduling *)
Section SchedulerFacts.
Import Cpp Scheduler.

(** *** Round Robin *)

Lemma arrived_insert_ne p t vis_ i j (v : Z) :
  i <> j -> arrived p t (<[i := v]> vis_) j = arrived p t vis_ j.
Proof.
  intros H. unfold arrived.
  destruct (p !! j); [| reflexivity].
  now rewrite list_lookup_total_insert_ne.
Qed.

(** The admission loop over the indices [js]: the queue gains the indices
    that had arrived unvisited, in order. *)
Lemma enqueue_fold p t (js : list nat) :
  List.NoDup js ->
  forall rdy vis_,
    fst (fold_left (fun '(rdy, vis_) j =>
                      if arrived p t vis_ j then (rdy ++ [j], <[j := 1%Z]> vis_)
                      else (rdy, vis_))
                   js (rdy, vis_))
    = rdy ++ List.filter (arrived p t vis_) js.
Proof.
  induction js as [|j js IH]; intros Hnd rdy vis_.
  - cbn. now rewrite app_nil_r.
  - apply List.NoDup_cons_iff in Hnd. destruct Hnd as [Hj Hnd].
    cbn [fold_left List.filter].
    destruct (arrived p t vis_ j) eqn:E.
    + rewrite IH by exact Hnd. rewrite <- app_assoc. cbn [app]. f_equal. f_equal.
      apply List.filter_ext_in. intros a Ha.
      apply arrived_insert_ne. intros ->. contradiction.
    + now rewrite IH by exact Hnd.
Qed.

Lemma enqueue_arrivals_queue p t rdy vis_ :
  fst (enqueue_arrivals p t (rdy, vis_)) = rdy ++ arrivals p t vis_.
Proof. unfold enqueue_arrivals, arrivals. apply enqueue_fold. apply List.seq_NoDup. Qed.

(** C2 as stated fails on the process list of [main] with quantum 2.  The
    first iteration dispatches process 0 for the slice [0, 2]; processes 1
    and 2 arrive during it; process 0 is put back, and the queue is then
    1, 2, 0: the arrivals are ahead of the preempted process. *)
Lemma arrivals_ahead_of_requeue :
  ready (rr_after 1 sample_processes sample_quantum) = [1; 2; 0]
  /\ behind 1 0 [1; 2; 0] = false
  /\ ~ arrival_behind_requeue sample_processes sample_quantum.
Proof.
  split; [reflexivity |]. split; [reflexivity |].
  intros H. specialize (H 0 0 [] eq_refl eq_refl 1).
  assert (Hin : In 1 (arrivals (rr_p (rr_after 0 sample_processes sample_quantum))
                        (rr_t (rr_iter sample_quantum
                                 (rr_after 0 sample_processes sample_quantum)))
                        (snd (enqueue_arrivals
                                (rr_p (rr_after 0 sample_processes sample_quantum))
                                (rr_t (rr_after 0 sample_processes sample_quantum))
                                (ready (rr_after 0 sample_processes sample_quantum),
                                 vis (rr_after 0 sample_processes sample_quantum)))))).
  { vm_compute. left. reflexivity. }
  specialize (H Hin). vm_compute in H. discriminate.
Qed.

(** C2, amended: in every iteration of Round Robin the processes that have
    arrived unvisited are put on the queue before the dispatch; when the
    queue is then empty the clock advances by one; otherwise its head [i]
    runs for [min(q, rt[i])], the processes that arrived unvisited by the
    end of the slice are put on the queue right after the slice, and only
    then is [i] put back if it has time remaining: the preempted process
    sits behind the processes that arrived during its slice. *)
Theorem rr_iteration_queue :
  forall (q : Z) (st : rr_state),
    let ready1 := ready st ++ arrivals (rr_p st) (rr_t st) (vis st) in
    let vis1 := snd (enqueue_arrivals (rr_p st) (rr_t st) (ready st, vis st)) in
    fst (enqueue_arrivals (rr_p st) (rr_t st) (ready st, vis st)) = ready1
    /\ match ready1 with
       | [] =>
           ready (rr_iter q st) = []
           /\ rr_t (rr_iter q st) = wrap32 (rr_t st + 1)
       | i :: rest =>
           let exec := Z.min q (rr_rt st !!! i) in
           let t := wrap32 (rr_t st + exec) in
           rr_t (rr_iter q st) = t
           /\ rr_rt (rr_iter q st) = <[i := wrap32 (rr_rt st !!! i - exec)]> (rr_rt st)
           /\ ready (rr_iter q st)
              = rest ++ arrivals (rr_p st) t vis1
                     ++ (if (rr_rt (rr_iter q st) !!! i =? 0)%Z then [] else [i])
       end.
Proof.
  intros q st ready1 vis1.
  pose proof (enqueue_arrivals_queue (rr_p st) (rr_t st) (ready st) (vis st)) as H1.
  split; [exact H1 |].
  unfold rr_iter.
  destruct (enqueue_arrivals (rr_p st) (rr_t st) (ready st, vis st)) as [r1 v1] eqn:E1.
  cbn [fst] in H1. subst vis1. cbn [snd]. fold ready1 in H1. rewrite <- H1.
  destruct r1 as [|i rest]; [split; reflexivity |].
  cbn zeta.
  pose proof (enqueue_arrivals_queue (rr_p st)
                (wrap32 (rr_t st + Z.min q (rr_rt st !!! i))) rest v1) as H2.
  destruct (enqueue_arrivals (rr_p st) _ (rest, v1)) as [r2 v2] eqn:E2.
  cbn [fst] in H2. subst r2.
  destruct ((<[i := wrap32 (rr_rt st !!! i - Z.min q (rr_rt st !!! i))]> (rr_rt st)
             !!! i =? 0)%Z) eqn:E; cbn [rr_t rr_rt ready]; rewrite E.
  - repeat split. now rewrite app_nil_r.
  - repeat split. now rewrite <- app_assoc.
Qed.

(** The first two iterations of the run of [main]. *)
Lemma rr_iteration_queue_witness :
  ready (rr_after 1 sample_processes sample_quantum) = [] ++ [1; 2] ++ [0]
  /\ ready (rr_after 2 sample_processes sample_quantum) = [2; 0] ++ [3] ++ [1].
Proof.
  split.
  - pose proof (rr_iteration_queue sample_quantum (rr_after 0 sample_processes sample_quantum))
      as [_ H].
    vm_compute in H. destruct H as (_ & _ & H). exact H.
  - pose proof (rr_iteration_queue sample_quantum (rr_after 1 sample_processes sample_quantum))
      as [_ H].
    vm_compute in H. destruct H as (_ & _ & H). exact H.
Defined.

(** *** SJF: the selection loop *)

Lemma sjf_select_keeps ps t : forall i k mn,
  exists k', sjf_select ps t i (Some k) mn = Some k'.
Proof.
  induction ps as [|x ps IH]; intros i k mn; cbn [sjf_select]; [eauto |].
  destruct (_ && _); apply IH.
Qed.

Lemma sjf_select_None ps t mn : forall i,
  sjf_select ps t i None mn = None ->
  Forall (fun x => selectable t mn x = false) ps.
Proof.
  induction ps as [|x ps IH]; intros i H; [constructor |].
  cbn [sjf_select] in H. fold (selectable t mn x) in H.
  destruct (selectable t mn x) eqn:E.
  - destruct (sjf_select_keeps ps t (S i) i (rt x)) as [k' Hk]. congruence.
  - constructor; [exact E | exact (IH _ H)].
Qed.

Lemma sjf_select_Some ps t : forall i idx mn k,
  sjf_select ps t i idx mn = Some k ->
  idx = Some k
  \/ exists x, ps !! (k - i) = Some x /\ i <= k /\ (at_ x <= t)%Z /\ (0 < rt x)%Z.
Proof.
  induction ps as [|x ps IH]; intros i idx mn k H; cbn [sjf_select] in H;
    [now left |].
  destruct ((at_ x <=? t)%Z && (0 <? rt x)%Z && (rt x <? mn)%Z) eqn:E.
  - apply IH in H. destruct H as [H | (y & Hy & Hle & Hat & Hrt)].
    + injection H as <-. right. exists x. rewrite Nat.sub_diag.
      apply andb_prop in E. destruct E as [E _].
      apply andb_prop in E. destruct E as [E1 E2].
      apply Z.leb_le in E1. apply Z.ltb_lt in E2. repeat split; [lia | lia | lia].
    + right. exists y. replace (k - i) with (S (k - S i)) by lia.
      repeat split; [exact Hy | lia | lia | lia].
  - apply IH in H. destruct H as [H | (y & Hy & Hle & Hat & Hrt)]; [now left |].
    right. exists y. replace (k - i) with (S (k - S i)) by lia.
    repeat split; [exact Hy | lia | lia | lia].
Qed.

(** One iteration either idles, and then no process is selectable, or runs
    an arrived process with time remaining for one unit. *)
Lemma sjf_iter_cases st :
  (Forall (fun x => selectable (sjf_t st) SJF_INF x = false) (sjf_p st)
   /\ sjf_iter st = mkSjf (sjf_p st) (sjf_done st) (wrap32 (sjf_t st + 1)))
  \/ (exists idx x,
         sjf_p st !! idx = Some x /\ (at_ x <= sjf_t st)%Z /\ (0 < rt x)%Z
         /\ sjf_iter st
            = if (rt x - 1 =? 0)%Z then
                mkSjf (<[idx := set_ct (set_rt x (rt x - 1)) (wrap32 (sjf_t st + 1))]>
                         (sjf_p st))
                      (S (sjf_done st)) (wrap32 (sjf_t st + 1))
              else
                mkSjf (<[idx := set_rt x (rt x - 1)]> (sjf_p st))
                      (sjf_done st) (wrap32 (sjf_t st + 1))).
Proof.
  unfold sjf_iter.
  destruct (sjf_select (sjf_p st) (sjf_t st) 0 None SJF_INF) as [idx|] eqn:E.
  - right. apply sjf_select_Some in E.
    destruct E as [E | (x & Hx & _ & Hat & Hrt)]; [discriminate |].
    rewrite Nat.sub_0_r in Hx. exists idx, x. rewrite Hx.
    repeat split; [exact Hat | exact Hrt].
  - left. split; [| reflexivity]. exact (sjf_select_None _ _ _ _ E).
Qed.

Lemma unfinished_insert p : forall i x y,
  p !! i = Some x ->
  unfinished (<[i := y]> p) + (if (0 <? rt x)%Z then 1 else 0)
  = unfinished p + (if (0 <? rt y)%Z then 1 else 0).
Proof.
  induction p as [|z p IH]; intros i x y H; [discriminate |].
  destruct i as [|i].
  - cbn in H |- *. injection H as ->. destruct (0 <? rt x)%Z, (0 <? rt y)%Z; lia.
  - change ((z :: p) !! S i) with (p !! i) in H.
    change (<[S i := y]> (z :: p)) with (z :: <[i := y]> p).
    cbn [unfinished]. specialize (IH i x y H). revert IH.
    destruct (0 <? rt x)%Z, (0 <? rt y)%Z, (0 <? rt z)%Z; lia.
Qed.

Lemma total_remaining_insert p : forall i x y,
  p !! i = Some x ->
  total_remaining (<[i := y]> p) = (total_remaining p - rt x + rt y)%Z.
Proof.
  induction p as [|z p IH]; intros i x y H; [discriminate |].
  destruct i as [|i].
  - cbn in H |- *. injection H as ->. lia.
  - change ((z :: p) !! S i) with (p !! i) in H.
    change (<[S i := y]> (z :: p)) with (z :: <[i := y]> p).
    cbn [total_remaining]. rewrite (IH i x y H). lia.
Qed.

Lemma unfinished_le_length p : unfinished p <= length p.
Proof. induction p as [|x p IH]; cbn; [lia |]. destruct (0 <? rt x)%Z; lia. Qed.

(** *** SJF: a burst time of zero *)

Lemma sjf_iter_unfinished st :
  sjf_done (sjf_iter st) + unfinished (sjf_p (sjf_iter st))
  = sjf_done st + unfinished (sjf_p st)
  /\ length (sjf_p (sjf_iter st)) = length (sjf_p st).
Proof.
  destruct (sjf_iter_cases st) as [[_ ->] | (idx & x & Hx & _ & Hrt & ->)];
    [split; reflexivity |].
  assert (Hpos : (0 <? rt x)%Z = true) by (apply Z.ltb_lt; lia).
  destruct (rt x - 1 =? 0)%Z eqn:E; cbn [sjf_done sjf_p]; rewrite length_insert;
    (split; [| reflexivity]).
  - pose proof (unfinished_insert _ _ _
                  (set_ct (set_rt x (rt x - 1)) (wrap32 (sjf_t st + 1))) Hx) as H.
    rewrite Hpos in H. cbn [rt set_ct set_rt] in H.
    apply Z.eqb_eq in E. rewrite E in H |- *.
    change (0 <? 0)%Z with false in H. cbv iota in H. lia.
  - pose proof (unfinished_insert _ _ _ (set_rt x (rt x - 1)) Hx) as H.
    rewrite Hpos in H. cbn [rt set_rt] in H.
    apply Z.eqb_neq in E.
    assert (Hp : (0 <? rt x - 1)%Z = true) by (apply Z.ltb_lt; lia).
    rewrite Hp in H. lia.
Qed.

Lemma sjf_loop_starved (fuel : nat) : forall st,
  sjf_done st + unfinished (sjf_p st) < length (sjf_p st) ->
  sjf_loop fuel st = None.
Proof.
  induction fuel as [|fuel IH]; intros st H; cbn [sjf_loop].
  - assert (E : Nat.ltb (sjf_done st) (length (sjf_p st)) = true)
      by (apply Nat.ltb_lt; lia).
    now rewrite E.
  - assert (E : Nat.ltb (sjf_done st) (length (sjf_p st)) = true)
      by (apply Nat.ltb_lt; lia).
    rewrite E. apply IH.
    destruct (sjf_iter_unfinished st) as [-> ->]. exact H.
Qed.

Lemma unfinished_init p :
  Exists (fun x => (bt x <= 0)%Z) p ->
  unfinished (map (fun x => set_rt x (bt x)) p) < length p.
Proof.
  induction 1 as [x p Hx | x p _ IH]; cbn.
  - assert (E : (0 <? bt x)%Z = false) by (apply Z.ltb_ge; lia).
    rewrite E.
    pose proof (unfinished_le_length (map (fun x => set_rt x (bt x)) p)) as H.
    rewrite length_map in H. lia.
  - destruct (0 <? bt x)%Z; lia.
Qed.

Lemma sjf_zero_burst_starves p fuel :
  Exists (fun x => (bt x <= 0)%Z) p -> sjf fuel p = None.
Proof.
  intros H. unfold sjf. apply sjf_loop_starved.
  unfold sjf_init. cbn [sjf_done sjf_p]. rewrite length_map.
  cbn. now apply unfinished_init.
Qed.

(** *** SJF: a burst time at the sentinel *)

Lemma sjf_select_unselectable ps t : forall i,
  Forall (fun x => (SJF_INF <= rt x)%Z) ps ->
  sjf_select ps t i None SJF_INF = None.
Proof.
  induction ps as [|y ps IH]; intros i H; cbn [sjf_select]; [reflexivity |].
  inversion H as [|? ? Hy Hps]; subst.
  assert (E : (rt y <? SJF_INF)%Z = false) by (apply Z.ltb_ge; lia).
  rewrite E, andb_false_r. now apply IH.
Qed.

Lemma sjf_loop_unselectable (fuel : nat) : forall st,
  sjf_done st < length (sjf_p st) ->
  Forall (fun x => (SJF_INF <= rt x)%Z) (sjf_p st) ->
  sjf_loop fuel st = None.
Proof.
  induction fuel as [|fuel IH]; intros st Hd Hr; cbn [sjf_loop];
    pose proof Hd as Hd'; apply Nat.ltb_lt in Hd'; rewrite Hd'; [reflexivity |].
  unfold sjf_iter. rewrite (sjf_select_unselectable _ _ 0 Hr).
  apply IH; assumption.
Qed.

(** *** SJF: termination *)

Lemma wrap32_small (z : Z) : (INT_MIN <= z <= INT_MAX)%Z -> wrap32 z = z.
Proof.
  unfold wrap32, INT_MIN, INT_MAX. intros H.
  rewrite Z.mod_small by lia. lia.
Qed.

Lemma total_remaining_unfinished p :
  Forall (fun x => (0 <= rt x)%Z) p ->
  (Z.of_nat (unfinished p) <= total_remaining p)%Z.
Proof.
  induction 1 as [|x p Hx _ IH]; cbn [unfinished total_remaining]; [lia |].
  destruct (0 <? rt x)%Z eqn:E; [apply Z.ltb_lt in E | apply Z.ltb_ge in E]; lia.
Qed.

Lemma unfinished_exists p :
  0 < unfinished p -> exists x, In x p /\ (0 < rt x)%Z.
Proof.
  induction p as [|x p IH]; cbn [unfinished]; [lia |].
  destruct (0 <? rt x)%Z eqn:E.
  - intros _. exists x. apply Z.ltb_lt in E. split; [now left | exact E].
  - intros H. destruct IH as (y & Hy & Hr); [lia |].
    exists y. split; [now right | exact Hr].
Qed.

Lemma unfinished_none p :
  unfinished p = 0 -> Forall (fun x => (0 <= rt x)%Z) p ->
  Forall (fun x => rt x = 0%Z) p.
Proof.
  induction p as [|x p IH]; intros Hu Hr; [constructor |].
  inversion Hr as [|? ? Hx Hp]; subst. cbn [unfinished] in Hu.
  destruct (0 <? rt x)%Z eqn:E; [lia |]. apply Z.ltb_ge in E.
  constructor; [lia | apply IH; [lia | exact Hp]].
Qed.

Section SjfTermination.
(** [A] bounds the arrival times, [B] the clock. *)
Variables A B : Z.
Hypothesis B_fits : (B <= INT_MAX)%Z.

Let inv := sjf_inv A B.
Let measure := sjf_measure A.

Lemma sjf_inv_nonneg st :
  inv st -> Forall (fun x => (0 <= rt x)%Z) (sjf_p st).
Proof.
  intros (H & _). eapply Forall_impl; [exact H |]. cbn. intros x Hx. lia.
Qed.

Lemma sjf_iter_progress st :
  inv st ->
  sjf_done st < length (sjf_p st) ->
  inv (sjf_iter st)
  /\ measure (sjf_iter st) < measure st
  /\ length (sjf_p (sjf_iter st)) = length (sjf_p st).
Proof using B_fits.
  intros Hinv Hd.
  pose proof (sjf_inv_nonneg st Hinv) as Hnn.
  destruct Hinv as (Hall & Hcount & Ht & Hclock).
  pose proof (total_remaining_unfinished _ Hnn) as Hsum.
  assert (Hun : 0 < unfinished (sjf_p st)) by lia.
  assert (Hw : wrap32 (sjf_t st + 1) = (sjf_t st + 1)%Z).
  { apply wrap32_small. unfold INT_MIN. split; [lia |].
    pose proof (Z.le_max_l 0 (A - sjf_t st)). lia. }
  destruct (sjf_iter_cases st) as [[Hno ->] | (idx & x & Hx & Hat & Hrt & ->)].
  - (* idle: some process with time remaining has not arrived *)
    destruct (unfinished_exists _ Hun) as (y & Hy & Hry).
    apply list_elem_of_In in Hy.
    pose proof (proj1 (Forall_forall _ _) Hall y Hy) as [HyA Hyr].
    pose proof (proj1 (Forall_forall _ _) Hno y Hy) as Hsel.
    unfold selectable in Hsel.
    assert (E2 : (0 <? rt y)%Z = true) by (apply Z.ltb_lt; lia).
    assert (E3 : (rt y <? SJF_INF)%Z = true) by (apply Z.ltb_lt; lia).
    rewrite E2, E3, !andb_true_r in Hsel. apply Z.leb_gt in Hsel.
    rewrite Hw. unfold inv, measure, sjf_inv, sjf_measure. cbn [sjf_p sjf_done sjf_t].
    repeat split; try assumption; lia.
  - (* run: one unit of the selected process *)
    rewrite Hw.
    pose proof (proj1 (Forall_lookup _ _) Hall idx x Hx) as [HxA Hxr].
    assert (Hpos : (0 <? rt x)%Z = true) by (apply Z.ltb_lt; lia).
    destruct (rt x - 1 =? 0)%Z eqn:E.
    + apply Z.eqb_eq in E.
      pose proof (unfinished_insert _ _ _
                    (set_ct (set_rt x (rt x - 1)) (sjf_t st + 1)) Hx) as Hu.
      pose proof (total_remaining_insert _ _ _
                    (set_ct (set_rt x (rt x - 1)) (sjf_t st + 1)) Hx) as Hs.
      rewrite Hpos in Hu. cbn [rt set_ct set_rt] in Hu, Hs.
      assert (E0 : (0 <? rt x - 1)%Z = false) by (apply Z.ltb_ge; lia).
      rewrite E0 in Hu.
      unfold inv, measure, sjf_inv, sjf_measure. cbn [sjf_p sjf_done sjf_t].
      rewrite length_insert.
      repeat split; try lia.
      apply Forall_insert; [exact Hall |].
      cbn [at_ rt set_ct set_rt]. unfold SJF_INF in *. lia.
    + apply Z.eqb_neq in E.
      pose proof (unfinished_insert _ _ _ (set_rt x (rt x - 1)) Hx) as Hu.
      pose proof (total_remaining_insert _ _ _ (set_rt x (rt x - 1)) Hx) as Hs.
      rewrite Hpos in Hu. cbn [rt set_rt] in Hu, Hs.
      assert (E0 : (0 <? rt x - 1)%Z = true) by (apply Z.ltb_lt; lia).
      rewrite E0 in Hu.
      unfold inv, measure, sjf_inv, sjf_measure. cbn [sjf_p sjf_done sjf_t].
      rewrite length_insert.
      repeat split; try lia.
      apply Forall_insert; [exact Hall |].
      cbn [at_ rt set_rt]. unfold SJF_INF in *. lia.
Qed.

(** The loop ends within [sjf_measure] iterations, with every process
    finished. *)
Lemma sjf_loop_terminates (n : nat) : forall st,
  inv st ->
  measure st <= n ->
  exists st',
    sjf_loop n st = Some st'
    /\ sjf_done st' = length (sjf_p st')
    /\ length (sjf_p st') = length (sjf_p st)
    /\ Forall (fun x => rt x = 0%Z) (sjf_p st')
    /\ (0 <= sjf_t st' <= B)%Z.
Proof using B_fits.
  induction n as [|n IH]; intros st Hinv Hm.
  - destruct (Nat.ltb (sjf_done st) (length (sjf_p st))) eqn:E.
    + exfalso. apply Nat.ltb_lt in E.
      destruct (sjf_iter_progress st Hinv E) as (_ & Hlt & _). lia.
    + cbn [sjf_loop]. rewrite E. exists st. apply Nat.ltb_ge in E.
      pose proof (sjf_inv_nonneg st Hinv) as Hnn.
      destruct Hinv as (Hall & Hcount & Ht & Hclock).
      pose proof (total_remaining_unfinished _ Hnn).
      pose proof (Z.le_max_l 0 (A - sjf_t st)).
      repeat split; try lia.
      apply unfinished_none; [lia | exact Hnn].
  - cbn [sjf_loop].
    destruct (Nat.ltb (sjf_done st) (length (sjf_p st))) eqn:E.
    + apply Nat.ltb_lt in E.
      destruct (sjf_iter_progress st Hinv E) as (Hinv' & Hlt & Hlen).
      destruct (IH (sjf_iter st) Hinv' ltac:(lia)) as (st' & H1 & H2 & H3 & H4 & H5).
      exists st'. repeat split; first [assumption | lia | congruence].
    + exists st. apply Nat.ltb_ge in E.
      pose proof (sjf_inv_nonneg st Hinv) as Hnn.
      destruct Hinv as (Hall & Hcount & Ht & Hclock).
      pose proof (total_remaining_unfinished _ Hnn).
      pose proof (Z.le_max_l 0 (A - sjf_t st)).
      repeat split; try lia.
      apply unfinished_none; [lia | exact Hnn].
Qed.
End SjfTermination.

Lemma latest_arrival_nonneg p : (0 <= latest_arrival p)%Z.
Proof. induction p as [|x p IH]; cbn [latest_arrival]; lia. Qed.

Lemma sjf_init_inv p :
  Forall (fun x => (0 < bt x < SJF_INF)%Z) p ->
  sjf_inv (latest_arrival p) (total_burst p + latest_arrival p) (sjf_init p)
  /\ sjf_measure (latest_arrival p) (sjf_init p)
     = Z.to_nat (total_burst p + latest_arrival p).
Proof.
  intros H. unfold sjf_inv, sjf_measure, sjf_init. cbn [sjf_p sjf_done sjf_t].
  pose proof (latest_arrival_nonneg p) as Hl.
  assert (Hs : total_remaining (map (fun x => set_rt x (bt x)) p) = total_burst p).
  { clear. induction p as [|x p IH]; cbn; [reflexivity | now rewrite IH]. }
  assert (Hu : unfinished (map (fun x => set_rt x (bt x)) p) = length p).
  { clear Hl Hs.
    induction H as [|x p Hx _ IH]; cbn [map unfinished length]; [reflexivity |].
    cbn [rt set_rt].
    assert (E : (0 <? bt x)%Z = true) by (apply Z.ltb_lt; lia).
    now rewrite E, IH. }
  rewrite Hs, Hu, length_map, Z.sub_0_r, Z.max_r by exact Hl.
  split; [| reflexivity].
  repeat split; try lia.
  clear Hs Hu Hl. induction H as [|x p Hx _ IH]; cbn [map latest_arrival];
    constructor.
  - cbn [at_ rt set_rt]. lia.
  - eapply Forall_impl; [exact IH |]. cbn. intros y [Hy1 Hy2]. split; lia.
Qed.

(** C10 as stated fails: a single process with the burst time 10^9, which is
    strictly positive, is never selected, because the selection asks for a
    remaining time below the sentinel [mn = 1e9]; the loop never ends. *)
Lemma sjf_long_burst_never_ends :
  let p := [process 1 0 1000000000 0] in
  Forall (fun x => (0 < bt x)%Z) p
  /\ (forall fuel, sjf fuel p = None).
Proof.
  intros p. split.
  - repeat constructor.
  - intros fuel. unfold sjf. apply sjf_loop_unselectable.
    + cbn. lia.
    + repeat constructor. cbn. unfold SJF_INF. lia.
Qed.

(** C10, amended: [sjf] terminates, with every process finished, for every
    process list whose burst times are strictly positive and below the
    sentinel 10^9, as long as the clock (at most the latest arrival plus the
    total burst) stays an [int]; and if some process has the burst time zero
    the loop never ends, whatever the fuel. *)
Theorem sjf_terminates_iff_selectable :
  forall p : list Process,
    (Forall (fun x => (0 < bt x < SJF_INF)%Z) p ->
     (total_burst p + latest_arrival p <= INT_MAX)%Z ->
     exists fuel st,
       sjf fuel p = Some st
       /\ sjf_done st = length p
       /\ length (sjf_p st) = length p
       /\ Forall (fun x => rt x = 0%Z) (sjf_p st)
       /\ (sjf_t st <= total_burst p + latest_arrival p)%Z)
    /\ (Exists (fun x => bt x = 0%Z) p -> forall fuel, sjf fuel p = None).
Proof.
  intros p. split.
  - intros Hb Hfit.
    destruct (sjf_init_inv p Hb) as [Hinv Hm].
    destruct (sjf_loop_terminates _ _ Hfit
                (Z.to_nat (total_burst p + latest_arrival p)) (sjf_init p) Hinv
                ltac:(lia))
      as (st & H1 & H2 & H3 & H4 & H5).
    exists (Z.to_nat (total_burst p + latest_arrival p)), st.
    unfold sjf. unfold sjf_init in H3. cbn [sjf_p] in H3. rewrite length_map in H3.
    repeat split; first [assumption | lia | congruence].
  - intros H fuel. apply sjf_zero_burst_starves.
    eapply Exists_impl; [exact H |]. cbn. intros x ->. lia.
Qed.

(** The process list of [main] ends at time 22; with a zero burst added it
    does not end. *)
Lemma sjf_terminates_iff_selectable_witness :
  (exists fuel st, sjf fuel sample_processes = Some st /\ sjf_done st = 4
                   /\ (sjf_t st <= 25)%Z)
  /\ sjf 1000 (process 5 0 0 1 :: sample_processes) = None.
Proof.
  split.
  - destruct (sjf_terminates_iff_selectable sample_processes) as [H _].
    destruct H as (fuel & st & H1 & H2 & _ & _ & H5).
    + repeat constructor; cbn; unfold SJF_INF; lia.
    + vm_compute. discriminate.
    + exists fuel, st. repeat split; assumption.
  - destruct (sjf_terminates_iff_selectable (process 5 0 0 1 :: sample_processes))
      as [_ H].
    apply H. left. reflexivity.
Defined.

End SchedulerFacts.
(** ** Diagnostics *)
Section Diagnostics.
Import Cpp.

Lemma build_text_record_warnings st line code :
  Assembler.warnings (Assembler.build_text_record st line code) = Assembler.warnings st.
Proof.
  unfold Assembler.build_text_record.
  destruct (str_empty code); [reflexivity |].
  destruct (Nat.ltb _ _); reflexivity.
Qed.

(** A label defined twice, the second time on a RESW line whose operand is
    not a number: the label step finds the duplicate, then [stoi] throws
    and Pass I ends without a result. *)
Lemma duplicate_label_bad_operand_aborts :
  Assembler.SYMTAB
    (Assembler.mkP1 0x1003 0x1000 "COPY" {["BUF" := "1000"]} [] [] [])
    !! "BUF" = Some "1000"
  /\ Assembler.pass_one_line
       (Assembler.mkP1 0x1003 0x1000 "COPY" {["BUF" := "1000"]} [] [] [])
       (Assembler.mkSrc "BUF" "RESW" "TEN") = Assembler.Throw
  /\ ~ Assembler.duplicate_label_reported
         (Assembler.mkP1 0x1003 0x1000 "COPY" {["BUF" := "1000"]} [] [] [])
         (Assembler.mkSrc "BUF" "RESW" "TEN")
         [Assembler.mkSrc "" "END" ""]
  /\ Assembler.pass_one
       [Assembler.mkSrc "COPY" "START" "1000";
        Assembler.mkSrc "BUF" "RESW" "1";
        Assembler.mkSrc "BUF" "RESW" "TEN";
        Assembler.mkSrc "" "END" ""] = None.
Proof.
  split; [reflexivity |]. split; [vm_compute; reflexivity |].
  split; [| vm_compute; reflexivity].
  intros (st' & H & _). vm_compute in H. discriminate H.
Qed.

(** C6, amended: each of the four detected errors leaves a diagnostic and
    the pass goes on with the next line.  A duplicate label in Pass I of
    the assembler (a non-empty label already in the table, on a line other
    than START) adds its message to [cerr] and the line is processed as
    usual (the loop goes on, or ends normally at END), provided the
    location-counter update of the line returns, that is, [stoi] accepts
    the operand of a RESW or RESB line.  An operand of a machine
    instruction that is not empty and is neither a symbol nor a literal of
    the table adds its warning and gets the address 0000.  A macro call
    whose argument count differs from the formal count writes the error
    line to the output and no expansion.  An expansion that runs past the
    end of the MDT writes the lines it expanded, then the error line, and
    returns.  In Pass II of either program the next lines are then
    processed from that state.  When the location-counter update of a line
    with a duplicate label throws, the line is a RESW or RESB line whose
    operand [stoi] rejects, and Pass I ends there without a result. *)
Theorem diagnostics_do_not_abort :
  (forall (st : Assembler.pass1_state) (line : Assembler.SourceLine)
          (old : string) (rest : list Assembler.SourceLine),
      Assembler.src_opcode line <> "START" ->
      Assembler.src_label line <> EmptyString ->
      Assembler.SYMTAB st !! Assembler.src_label line = Some old ->
      is_Some (Assembler.advance_LC (Assembler.LC st) (Assembler.src_opcode line)
                                    (Assembler.src_operand line)) ->
      Assembler.duplicate_label_reported st line rest)
  /\ (forall (symtab : gmap string string) (littab : omap (string * Z))
             (st : Assembler.pass2_state) (line : Assembler.IntermediateLine)
             (op : string) (len : Z) (rest : list Assembler.IntermediateLine),
         Assembler.OPTAB !! Assembler.opcode line = Some (op, len) ->
         symtab !! Assembler.operand line = None ->
         (starts_with "=" (Assembler.operand line) = false
          \/ omap_lookup (Assembler.operand line) littab = None) ->
         Assembler.operand line <> EmptyString ->
         Assembler.object_code_of symtab littab line = op +:+ "0000"
         /\ Assembler.warnings (Assembler.pass_two_line symtab littab st line)
            = Assembler.warnings st
                ++ [Assembler.unresolved_message (Assembler.operand line)]
         /\ Assembler.pass_two_loop symtab littab (line :: rest) st
            = Assembler.pass_two_loop symtab littab rest
                (Assembler.pass_two_line symtab littab st line))
  /\ (forall (mnt : gmap string Macro.MNTEntry) (mdt : list string)
             (out line : string) (e : Macro.MNTEntry) (rest : list string),
         let opc := Macro.opcode (Macro.parse_line (Macro.tokenize line)) in
         let actual :=
           Macro.extract_parameters
             (Macro.operand (Macro.parse_line (Macro.tokenize line))) in
         Macro.tokenize line <> [] ->
         mnt !! opc = Some e ->
         length actual <> Macro.num_parameters e ->
         Macro.pass_two_line mnt mdt out line = out +:+ Macro.argument_count_error opc
         /\ Macro.pass_two_lines mnt mdt (line :: rest) out
            = Macro.pass_two_lines mnt mdt rest
                (out +:+ Macro.argument_count_error opc))
  /\ (forall (mnt : gmap string Macro.MNTEntry) (mdt : list string)
             (out line : string) (e : Macro.MNTEntry) (rest : list string),
         let opc := Macro.opcode (Macro.parse_line (Macro.tokenize line)) in
         let actual :=
           Macro.extract_parameters
             (Macro.operand (Macro.parse_line (Macro.tokenize line))) in
         let body := drop (S (Macro.start_index e)) mdt in
         let written :=
           out +:+ Macro.expanded
                     (Macro.build_actual_map (Macro.num_parameters e) actual) body
               +:+ Macro.mdt_index_error opc in
         Macro.tokenize line <> [] ->
         mnt !! opc = Some e ->
         length actual = Macro.num_parameters e ->
         Forall (fun l => Macro.is_MEND (Macro.tokenize l) = false) body ->
         Macro.pass_two_line mnt mdt out line = written
         /\ Macro.pass_two_lines mnt mdt (line :: rest) out
            = Macro.pass_two_lines mnt mdt rest written)
  /\ (forall (st : Assembler.pass1_state) (line : Assembler.SourceLine)
             (old : string) (rest : list Assembler.SourceLine),
         Assembler.src_opcode line <> "START" ->
         Assembler.src_label line <> EmptyString ->
         Assembler.SYMTAB st !! Assembler.src_label line = Some old ->
         Assembler.advance_LC (Assembler.LC st) (Assembler.src_opcode line)
                              (Assembler.src_operand line) = None ->
         (Assembler.src_opcode line = "RESW" \/ Assembler.src_opcode line = "RESB")
         /\ stoi (Assembler.src_operand line) = None
         /\ Assembler.pass_one_line st line = Assembler.Throw
         /\ Assembler.pass_one_loop (line :: rest) st = None).
Proof.
  split; [| split; [| split; [| split]]].
  - intros st line old rest Hs Hl Ho [lc Hlc].
    unfold Assembler.duplicate_label_reported.
    pose proof (duplicate_label_continues st line old Hs Hl Ho) as Hd.
    pose proof (pass_one_line_intermediate st line) as Hi.
    cbn [Assembler.pass_one_loop].
    destruct (Assembler.pass_one_line st line) as [st'|st'|].
    + exists st'. split; [reflexivity |]. split; [exact Hd |].
      destruct Hi as [[Hk | Hk] _].
      * apply String.eqb_eq in Hk. contradiction.
      * now rewrite Hk.
    + exists st'. split; [reflexivity |]. split; [exact Hd |].
      destruct Hi as (_ & Hk & _). now rewrite Hk.
    + congruence.
  - intros symtab littab st line op len rest Ho Hs Hl He.
    pose proof (unresolved_operand_action symtab littab line op len Ho Hs Hl He) as Ha.
    split; [| split; [| reflexivity]].
    + unfold Assembler.object_code_of. now rewrite Ha.
    + unfold Assembler.pass_two_line. rewrite Ha.
      now rewrite build_text_record_warnings.
  - intros mnt mdt out line e rest opc actual Ht Hm Hn.
    assert (H : Macro.pass_two_line mnt mdt out line
                = out +:+ Macro.argument_count_error opc).
    { rewrite (pass_two_line_call mnt mdt out line e Ht Hm). cbn zeta.
      fold opc actual.
      assert (E : Nat.eqb (length actual) (Macro.num_parameters e) = false)
        by (apply Nat.eqb_neq; exact Hn).
      now rewrite E. }
    split; [exact H |].
    unfold Macro.pass_two_lines. cbn [fold_left]. now rewrite H.
  - intros mnt mdt out line e rest opc actual body written Ht Hm Hn Hb.
    assert (H : Macro.pass_two_line mnt mdt out line = written).
    { rewrite (pass_two_line_call mnt mdt out line e Ht Hm). cbn zeta.
      fold opc actual.
      assert (E : Nat.eqb (length actual) (Macro.num_parameters e) = true)
        by (apply Nat.eqb_eq; exact Hn).
      rewrite E. cbn [negb]. fold body.
      now rewrite (expand_overrun opc _ body out Hb). }
    split; [exact H |].
    unfold Macro.pass_two_lines. cbn [fold_left]. now rewrite H.
  - intros st line old rest Hs Hl Ho Hn.
    assert (Hk : String.eqb (Assembler.src_opcode line) "START" = false)
      by (apply String.eqb_neq; exact Hs).
    assert (Ht : Assembler.pass_one_line st line = Assembler.Throw).
    { unfold Assembler.pass_one_line. rewrite Hk. cbv zeta.
      replace (Assembler.LC
                 (if String.eqb (Assembler.src_opcode line) "END"
                  then Assembler.process_label st (Assembler.src_label line)
                  else Assembler.push_intermediate
                         (Assembler.process_label st (Assembler.src_label line)) line))
        with (Assembler.LC st).
      - now rewrite Hn.
      - unfold Assembler.process_label.
        destruct (str_empty (Assembler.src_label line)),
                 (String.eqb (Assembler.src_opcode line) "END"); reflexivity. }
    split; [| split; [| split; [exact Ht |]]].
    + unfold Assembler.advance_LC in Hn.
      destruct (Assembler.OPTAB !! Assembler.src_opcode line) as [[? ?]|];
        [discriminate |].
      destruct (String.eqb (Assembler.src_opcode line) "WORD"); [discriminate |].
      destruct (String.eqb (Assembler.src_opcode line) "RESW") eqn:Ew;
        [left; now apply String.eqb_eq |].
      destruct (String.eqb (Assembler.src_opcode line) "RESB") eqn:Eb;
        [right; now apply String.eqb_eq |].
      destruct (String.eqb (Assembler.src_opcode line) "BYTE"); [| discriminate].
      destruct (starts_with _ _); [discriminate |].
      destruct (starts_with _ _); discriminate.
    + unfold Assembler.advance_LC in Hn.
      destruct (Assembler.OPTAB !! Assembler.src_opcode line) as [[? ?]|];
        [discriminate |].
      destruct (String.eqb (Assembler.src_opcode line) "WORD"); [discriminate |].
      destruct (String.eqb (Assembler.src_opcode line) "RESW").
      { destruct (stoi (Assembler.src_operand line)); [discriminate | reflexivity]. }
      destruct (String.eqb (Assembler.src_opcode line) "RESB").
      { destruct (stoi (Assembler.src_operand line)); [discriminate | reflexivity]. }
      destruct (String.eqb (Assembler.src_opcode line) "BYTE"); [| discriminate].
      destruct (starts_with _ _); [discriminate |].
      destruct (starts_with _ _); discriminate.
    + cbn [Assembler.pass_one_loop]. now rewrite Ht.
Qed.

(** The four errors on small programs: LOOP defined twice; LDA of an
    undefined symbol; CALC of the sample program called with one argument;
    and a macro M without MEND, called before its definition.  Last, LOOP
    defined again on a RESB line whose operand is not a number. *)
Lemma diagnostics_do_not_abort_witness :
  (exists st,
      Assembler.pass_one_loop
        [Assembler.mkSrc "LOOP" "ADD" "ONE"; Assembler.mkSrc "" "END" ""]
        (Assembler.mkP1 0x1003 0x1000 "COPY" {["LOOP" := "1000"]} [] [] [])
      = Some st
      /\ Assembler.cerr st = ["Error: Duplicate label 'LOOP' at LC 1003"]
      /\ map Assembler.opcode (Assembler.intermediate_file st) = ["ADD"; "END"])
  /\ (let st := Assembler.pass_two ∅ []
                  [Assembler.mkIL "1000" "" "LDA" "MISSING";
                   Assembler.mkIL "1003" "" "ADD" "MISSING"] "COPY" "1000" 6 in
      Assembler.warnings st
      = ["Warning: Symbol/Literal 'MISSING' not found. Using address 0000.";
         "Warning: Symbol/Literal 'MISSING' not found. Using address 0000."]
      /\ map Assembler.render (Assembler.object_program st)
         = ["HCOPY  1000000006"; "T100006000000180000"; "E1000"])
  /\ (let st := Macro.pass_one Macro.sample_source in
      Macro.pass_two_lines (Macro.MNT st) (Macro.MDT st)
        [Macro.src "" "CALC" "X"; Macro.src "" "END" ""] EmptyString
      = "**ERROR: Incorrect number of arguments for macro CALC." +:+ NL
        +:+ Macro.src "" "END" "" +:+ NL)
  /\ Macro.main_output
       [Macro.src "" "M" "X"; Macro.src "" "END" "";
        Macro.src "M" "MACRO" "&A"; Macro.src "" "ADD" "&A"]
     = Macro.src "" "ADD" "X" +:+ NL
       +:+ "**ERROR: MDT indexing error during expansion of M." +:+ NL
       +:+ Macro.src "" "END" "" +:+ NL
  /\ Assembler.pass_one_loop
       [Assembler.mkSrc "LOOP" "RESB" "SIZE"; Assembler.mkSrc "" "END" ""]
       (Assembler.mkP1 0x1003 0x1000 "COPY" {["LOOP" := "1000"]} [] [] [])
     = None.
Proof.
  destruct diagnostics_do_not_abort as (H1 & H2 & H3 & H4 & H5).
  split; [| split; [| split; [| split]]].
  - pose proof (H1 (Assembler.mkP1 0x1003 0x1000 "COPY" {["LOOP" := "1000"]} [] [] [])
                   (Assembler.mkSrc "LOOP" "ADD" "ONE") "1000"
                   [Assembler.mkSrc "" "END" ""]) as H.
    destruct H as (st' & Hs & Hc & Hl);
      [discriminate | discriminate | reflexivity | vm_compute; eauto |].
    rewrite Hl. vm_compute in Hs. injection Hs as <-.
    vm_compute. eexists. repeat split.
  - cbn zeta. unfold Assembler.pass_two.
    fold (Assembler.pass_two_loop ∅ []
            [Assembler.mkIL "1000" "" "LDA" "MISSING";
             Assembler.mkIL "1003" "" "ADD" "MISSING"]).
    destruct (H2 ∅ [] (Assembler.mkP2
                         [Assembler.header_record "COPY" "1000" 6] "" "" [])
                 (Assembler.mkIL "1000" "" "LDA" "MISSING") "00" 3%Z
                 [Assembler.mkIL "1003" "" "ADD" "MISSING"])
      as (_ & _ & Hl);
      [reflexivity | reflexivity | now left | discriminate |].
    rewrite Hl. vm_compute. split; reflexivity.
  - cbn zeta.
    destruct (H3 (Macro.MNT (Macro.pass_one Macro.sample_source))
                 (Macro.MDT (Macro.pass_one Macro.sample_source))
                 EmptyString (Macro.src "" "CALC" "X") (Macro.mkMNT 0 2)
                 [Macro.src "" "END" ""])
      as (_ & Hl);
      [vm_compute; discriminate | vm_compute; reflexivity
       | vm_compute; discriminate |].
    rewrite Hl. vm_compute. reflexivity.
  - unfold Macro.main_output, Macro.pass_two.
    set (st := Macro.pass_one _).
    change (Macro.getlines (Macro.intermediate_file st))
      with [Macro.src "" "M" "X"; Macro.src "" "END" ""].
    destruct (H4 (Macro.MNT st) (Macro.MDT st) EmptyString (Macro.src "" "M" "X")
                 (Macro.mkMNT 0 1) [Macro.src "" "END" ""])
      as (_ & Hl);
      [vm_compute; discriminate | vm_compute; reflexivity | reflexivity
       | vm_compute; repeat constructor |].
    rewrite Hl. vm_compute. reflexivity.
  - apply (H5 (Assembler.mkP1 0x1003 0x1000 "COPY" {["LOOP" := "1000"]} [] [] [])
              (Assembler.mkSrc "LOOP" "RESB" "SIZE") "1000"
              [Assembler.mkSrc "" "END" ""]);
      [discriminate | discriminate | reflexivity | vm_compute; reflexivity].
Defined.

End Diagnostics.
(** ** More on the assembler *)
Section AssemblerMore.
Import Cpp Assembler.

(** *** [toHex] *)

Lemma repeat_string_length (c : ascii) (n : nat) :
  String.length (string_of_list_ascii (repeat c n)) = n.
Proof. induction n as [|n IH]; cbn; [reflexivity | now rewrite IH]. Qed.

Lemma hex_nibbles_length (k : nat) (v : Z) : String.length (hex_nibbles k v) = k.
Proof. induction k as [|k IH]; cbn [hex_nibbles String.length]; [reflexivity | now rewrite IH]. Qed.

Lemma strip_zeros_length_le (s : string) :
  String.length (strip_zeros s) <= String.length s.
Proof.
  induction s as [|c s IH]; [reflexivity |]. cbn [strip_zeros].
  destruct (Ascii.eqb c "0" && negb (str_empty s)); cbn [String.length]; lia.
Qed.

Lemma strip_zeros_length_pos (s : string) :
  s <> EmptyString -> 1 <= String.length (strip_zeros s).
Proof.
  induction s as [|c s IH]; [contradiction |]. intros _. cbn [strip_zeros].
  destruct (Ascii.eqb c "0"); cbn [andb String.length]; [| lia].
  destruct s as [|d s]; cbn [str_empty negb String.length]; [lia |].
  apply IH. discriminate.
Qed.

Lemma pad_left_length (w : nat) (c : ascii) (s : string) :
  String.length (pad_left w c s) = Nat.max w (String.length s).
Proof. unfold pad_left. rewrite str_length_app, repeat_string_length. lia. Qed.

Lemma hex_digit_0 : hex_digit 0 = "0"%char.
Proof. reflexivity. Qed.

(** The top nibbles of a small value are zero and are not printed. *)
Lemma strip_zeros_small (k : nat) (v : Z) :
  1 <= k -> (0 <= v < 16 ^ Z.of_nat k)%Z ->
  forall j, k <= j -> String.length (strip_zeros (hex_nibbles j v)) <= k.
Proof.
  intros Hk Hv. induction j as [|j IH]; intros Hj; [lia |].
  destruct (Nat.eq_dec k (S j)) as [-> | Hne].
  - pose proof (strip_zeros_length_le (hex_nibbles (S j) v)) as H.
    now rewrite hex_nibbles_length in H.
  - cbn [hex_nibbles].
    assert (Hlt : (v < 16 ^ Z.of_nat j)%Z).
    { eapply Z.lt_le_trans; [apply Hv |]. apply Z.pow_le_mono_r; lia. }
    rewrite Z.div_small by lia. change (0 mod 16)%Z with 0%Z. rewrite hex_digit_0.
    cbn [strip_zeros]. change (Ascii.eqb "0" "0") with true.
    destruct j as [|j]; [lia |]. cbn [hex_nibbles str_empty negb andb].
    apply (IH ltac:(lia)).
Qed.

Lemma hex_digit_high (d : Z) : (1 <= d < 16)%Z -> Ascii.eqb (hex_digit d) "0" = false.
Proof.
  intros H. assert (Hn : exists n, d = Z.of_nat (S n) /\ n < 15).
  { exists (Z.to_nat d - 1). lia. }
  destruct Hn as (n & -> & Hn).
  do 15 (destruct n as [|n]; [reflexivity |]). lia.
Qed.

Lemma toHex_length_ge (value : Z) (padding : nat) :
  padding <= String.length (toHex value padding).
Proof. unfold toHex. rewrite pad_left_length. lia. Qed.

Lemma toHex_length_le (value : Z) (padding : nat) :
  String.length (toHex value padding) <= Nat.max padding 8.
Proof.
  unfold toHex. rewrite pad_left_length.
  pose proof (strip_zeros_length_le (hex_nibbles 8 (value mod 2 ^ 32))) as Hle.
  rewrite hex_nibbles_length in Hle. lia.
Qed.

Lemma toHex_length_small (value : Z) (padding : nat) :
  1 <= padding -> (0 <= value < 16 ^ Z.of_nat padding)%Z -> (value < 2 ^ 32)%Z ->
  String.length (toHex value padding) = padding.
Proof.
  intros Hp Hv H32. unfold toHex. rewrite pad_left_length.
  rewrite Z.mod_small by lia.
  destruct (Nat.le_gt_cases padding 8) as [H8 | H8].
  - pose proof (strip_zeros_small padding value Hp Hv 8 H8). lia.
  - pose proof (strip_zeros_length_le (hex_nibbles 8 value)) as H.
    rewrite hex_nibbles_length in H. lia.
Qed.

Lemma toHex_length_negative (value : Z) (padding : nat) :
  (INT_MIN <= value < 0)%Z ->
  String.length (toHex value padding) = Nat.max padding 8.
Proof.
  intros Hv. unfold toHex. rewrite pad_left_length. unfold INT_MIN in Hv.
  assert (Hm : (value mod 2 ^ 32 = value + 2 ^ 32)%Z).
  { symmetry. apply Z.mod_unique with (q := (-1)%Z); lia. }
  rewrite Hm. cbn [hex_nibbles strip_zeros].
  assert (Hd : (8 <= (value + 2 ^ 32) / 16 ^ Z.of_nat 7 < 16)%Z).
  { change (16 ^ Z.of_nat 7)%Z with 268435456%Z. split.
    - apply Z.div_le_lower_bound; lia.
    - apply Z.div_lt_upper_bound; lia. }
  rewrite (Z.mod_small _ 16) by lia.
  rewrite hex_digit_high by lia. cbn [andb String.length]. lia.
Qed.

(** X1: [toHex] prints at least [padding] characters and at most 8 when the
    padding is smaller; exactly [padding] for a value from 0 up to (not
    including) 16^padding; and 8 digits for a negative [int] when the
    padding is at most 8, so that [toHex(-1, 6)] is FFFFFFFF. *)
Theorem toHex_width :
  forall (value : Z) (padding : nat),
    padding <= String.length (toHex value padding)
    /\ String.length (toHex value padding) <= Nat.max padding 8
    /\ (1 <= padding -> (0 <= value < 16 ^ Z.of_nat padding)%Z ->
        (value < 2 ^ 32)%Z ->
        String.length (toHex value padding) = padding)
    /\ ((INT_MIN <= value < 0)%Z ->
        String.length (toHex value padding) = Nat.max padding 8).
Proof.
  intros value padding.
  split; [apply toHex_length_ge |]. split; [apply toHex_length_le |].
  split; [apply toHex_length_small | apply toHex_length_negative].
Qed.

(** The location counters of the sample program, and -1. *)
Lemma toHex_width_witness :
  String.length (toHex 0x100F 4) = 4 /\ String.length (toHex (-1) 6) = 8.
Proof.
  destruct (toHex_width 0x100F 4) as (_ & _ & H1 & _).
  destruct (toHex_width (-1) 6) as (_ & _ & _ & H2).
  split.
  - apply H1; [lia | vm_compute; split; [discriminate | reflexivity] | reflexivity].
  - apply H2. vm_compute. split; [discriminate | reflexivity].
Defined.

(** *** [toHex] read back by [stoi] in base 16 *)

Lemma hex_digit_cases (c : ascii) :
  is_hex_digit c = true ->
  exists d, (0 <= d < 16)%Z /\ c = hex_digit d.
Proof.
  unfold is_hex_digit. intros H. apply existsb_exists in H.
  destruct H as (x & Hin & Hx). apply Ascii.eqb_eq in Hx. subst x.
  cbn in Hin.
  repeat (destruct Hin as [<- | Hin];
          [first [ exists 0%Z; split; [lia | reflexivity]
                 | exists 1%Z; split; [lia | reflexivity]
                 | exists 2%Z; split; [lia | reflexivity]
                 | exists 3%Z; split; [lia | reflexivity]
                 | exists 4%Z; split; [lia | reflexivity]
                 | exists 5%Z; split; [lia | reflexivity]
                 | exists 6%Z; split; [lia | reflexivity]
                 | exists 7%Z; split; [lia | reflexivity]
                 | exists 8%Z; split; [lia | reflexivity]
                 | exists 9%Z; split; [lia | reflexivity]
                 | exists 10%Z; split; [lia | reflexivity]
                 | exists 11%Z; split; [lia | reflexivity]
                 | exists 12%Z; split; [lia | reflexivity]
                 | exists 13%Z; split; [lia | reflexivity]
                 | exists 14%Z; split; [lia | reflexivity]
                 | exists 15%Z; split; [lia | reflexivity] ] |]).
  contradiction.
Qed.

Lemma hex_digit_is_hex (d : Z) : is_hex_digit (hex_digit d) = true.
Proof.
  unfold hex_digit.
  destruct (Z.to_nat d) as [|n]; [reflexivity |].
  do 15 (destruct n as [|n]; [reflexivity |]).
  cbn. now destruct n.
Qed.

Lemma digit_val_hex_digit (d : Z) :
  (0 <= d < 16)%Z -> digit_val 16 (hex_digit d) = Some d.
Proof.
  intros H. assert (Hn : exists n, d = Z.of_nat n /\ n < 16).
  { exists (Z.to_nat d). lia. }
  destruct Hn as (n & -> & Hn).
  do 16 (destruct n as [|n]; [reflexivity |]). lia.
Qed.

Lemma all_hex_nibbles (k : nat) (v : Z) : all_hex (hex_nibbles k v) = true.
Proof.
  induction k as [|k IH]; [reflexivity |].
  cbn [hex_nibbles all_hex]. now rewrite hex_digit_is_hex, IH.
Qed.

Lemma all_hex_strip (s : string) : all_hex s = true -> all_hex (strip_zeros s) = true.
Proof.
  induction s as [|c s IH]; [reflexivity |]. intros H. cbn [strip_zeros].
  destruct (Ascii.eqb c "0" && negb (str_empty s)); [| exact H].
  cbn [all_hex] in H. apply andb_prop in H. now apply IH.
Qed.

Lemma all_hex_app (a b : string) :
  all_hex a = true -> all_hex b = true -> all_hex (a +:+ b) = true.
Proof.
  induction a as [|c a IH]; intros Ha Hb; [exact Hb |].
  rewrite str_app_cons. cbn [all_hex] in *. apply andb_prop in Ha.
  destruct Ha as [-> Ha]. now apply IH.
Qed.

Lemma all_hex_zeros (n : nat) : all_hex (string_of_list_ascii (repeat "0"%char n)) = true.
Proof. induction n as [|n IH]; [reflexivity |]. cbn. exact IH. Qed.

Lemma all_hex_toHex (v : Z) (w : nat) : all_hex (toHex v w) = true.
Proof.
  unfold toHex, pad_left.
  apply all_hex_app; [apply all_hex_zeros |]. apply all_hex_strip, all_hex_nibbles.
Qed.

Lemma toHex_nonempty (v : Z) (w : nat) : toHex v w <> EmptyString.
Proof.
  intros H. apply (f_equal String.length) in H. cbn in H.
  unfold toHex in H. rewrite pad_left_length in H.
  pose proof (strip_zeros_length_pos (hex_nibbles 8 (v mod 2 ^ 32)) ltac:(discriminate)).
  lia.
Qed.

(** The value of a string of digits. *)
Lemma parse_nibbles (k : nat) (v : Z) : forall a,
  (0 <= v)%Z ->
  parse_digits 16 (hex_nibbles k v) (Some a)
  = Some (a * 16 ^ Z.of_nat k + v mod 16 ^ Z.of_nat k)%Z.
Proof.
  induction k as [|k IH]; intros a Hv.
  - cbn. f_equal. rewrite Z.mod_1_r. lia.
  - cbn [hex_nibbles parse_digits].
    assert (Hd : (0 <= (v / 16 ^ Z.of_nat k) mod 16 < 16)%Z)
      by (apply Z.mod_pos_bound; lia).
    rewrite digit_val_hex_digit by exact Hd. cbn [default].
    rewrite IH by exact Hv. f_equal.
    rewrite Nat2Z.inj_succ, Z.pow_succ_r by lia.
    rewrite (Z.mul_comm 16 (16 ^ Z.of_nat k)).
    assert (Hp : (0 < 16 ^ Z.of_nat k)%Z) by (apply Z.pow_pos_nonneg; lia).
    rewrite Z.rem_mul_r by lia. unfold id. ring.
Qed.

Lemma parse_zeros (n : nat) (s : string) :
  parse_digits 16 (string_of_list_ascii (repeat "0"%char n) +:+ s) (Some 0%Z)
  = parse_digits 16 s (Some 0%Z).
Proof.
  induction n as [|n IH]; [reflexivity |].
  cbn [repeat string_of_list_ascii]. rewrite str_app_cons.
  cbn [parse_digits]. change (digit_val 16 "0") with (Some 0%Z). cbn [default].
  exact IH.
Qed.

Lemma parse_strip (s : string) :
  parse_digits 16 (strip_zeros s) (Some 0%Z) = parse_digits 16 s (Some 0%Z).
Proof.
  induction s as [|c s IH]; [reflexivity |]. cbn [strip_zeros].
  destruct (Ascii.eqb c "0") eqn:E; cbn [andb]; [| reflexivity].
  destruct (str_empty s); cbn [negb]; [reflexivity |].
  apply Ascii.eqb_eq in E. subst c. rewrite IH.
  cbn [parse_digits]. change (digit_val 16 "0") with (Some 0%Z). reflexivity.
Qed.

(** A string that starts with a digit of [toHex] has no white space, sign
    or 0x prefix for [stoi] to skip. *)
Lemma stoi_base_hex (s : string) :
  s <> EmptyString -> all_hex s = true ->
  stoi_base 16 s
  = match parse_digits 16 s (Some 0%Z) with
    | Some v => if (INT_MIN <=? v)%Z && (v <=? INT_MAX)%Z then Some v else None
    | None => None
    end.
Proof.
  intros Hne Hh. destruct s as [|c s]; [contradiction |].
  cbn [all_hex] in Hh. apply andb_prop in Hh. destruct Hh as [Hc Hs].
  destruct (hex_digit_cases c Hc) as (d & Hd & ->).
  assert (Hsp : skip_space (String (hex_digit d) s) = String (hex_digit d) s).
  { assert (Hn : exists n, d = Z.of_nat n /\ n < 16) by (exists (Z.to_nat d); lia).
    destruct Hn as (n & -> & Hn).
    do 16 (destruct n as [|n]; [reflexivity |]). lia. }
  assert (Hx : skip_0x (String (hex_digit d) s) = String (hex_digit d) s).
  { destruct s as [|x s]; [| destruct s as [|e s]].
    - assert (Hn : exists n, d = Z.of_nat n /\ n < 16) by (exists (Z.to_nat d); lia).
      destruct Hn as (n & -> & Hn).
      do 16 (destruct n as [|n]; [reflexivity |]). lia.
    - assert (Hn : exists n, d = Z.of_nat n /\ n < 16) by (exists (Z.to_nat d); lia).
      destruct Hn as (n & -> & Hn).
      do 16 (destruct n as [|n]; [reflexivity |]). lia.
    - cbn [all_hex] in Hs. apply andb_prop in Hs. destruct Hs as [Hxh _].
      destruct (hex_digit_cases x Hxh) as (dx & Hdx & ->).
      assert (Hnx : Ascii.eqb (hex_digit dx) "x" || Ascii.eqb (hex_digit dx) "X" = false).
      { assert (Hn : exists n, dx = Z.of_nat n /\ n < 16) by (exists (Z.to_nat dx); lia).
        destruct Hn as (n & -> & Hn).
        do 16 (destruct n as [|n]; [reflexivity |]). lia. }
      assert (Hn : exists n, d = Z.of_nat n /\ n < 16) by (exists (Z.to_nat d); lia).
      destruct Hn as (n & -> & Hn).
      destruct n as [|n].
      + change (hex_digit (Z.of_nat 0)) with "0"%char. unfold skip_0x.
        now rewrite Hnx.
      + do 15 (destruct n as [|n]; [reflexivity |]). lia. }
  assert (Hsign : (match String (hex_digit d) s with
                   | String "-" r => (true, r)
                   | String "+" r => (false, r)
                   | _ => (false, String (hex_digit d) s)
                   end) = (false, String (hex_digit d) s)).
  { assert (Hn : exists n, d = Z.of_nat n /\ n < 16) by (exists (Z.to_nat d); lia).
    destruct Hn as (n & -> & Hn).
    do 16 (destruct n as [|n]; [reflexivity |]). lia. }
  unfold stoi_base. rewrite Hsp, Hsign. change (16 =? 16)%Z with true. cbv iota.
  rewrite Hx.
  assert (Hp : parse_digits 16 (String (hex_digit d) s) None
               = parse_digits 16 (String (hex_digit d) s) (Some 0%Z)).
  { cbn [parse_digits]. now rewrite digit_val_hex_digit by exact Hd. }
  rewrite Hp. now destruct (parse_digits 16 _ (Some 0%Z)).
Qed.

(** X2: what [toHex] prints consists of the characters 0-9 and A-F, and
    [stoi] in base 16 reads a non-negative [int] back from it: the address
    in an intermediate line, or the hexadecimal operand of START, is the
    number it was printed from. *)
Theorem toHex_stoi_roundtrip :
  forall (value : Z) (padding : nat),
    (0 <= value <= INT_MAX)%Z ->
    all_hex (toHex value padding) = true
    /\ stoi_base 16 (toHex value padding) = Some value.
Proof.
  intros value padding Hv. split; [apply all_hex_toHex |].
  rewrite stoi_base_hex by (apply toHex_nonempty || apply all_hex_toHex).
  unfold toHex, pad_left. rewrite parse_zeros, parse_strip.
  unfold INT_MAX in Hv. rewrite (Z.mod_small value) by lia.
  rewrite parse_nibbles by lia.
  change (16 ^ Z.of_nat 8)%Z with (2 ^ 32)%Z.
  rewrite Z.mod_small by lia. rewrite Z.mul_0_l, Z.add_0_l.
  unfold INT_MIN, INT_MAX.
  assert (E1 : (- 2 ^ 31 <=? value)%Z = true) by (apply Z.leb_le; lia).
  assert (E2 : (value <=? 2 ^ 31 - 1)%Z = true) by (apply Z.leb_le; lia).
  now rewrite E1, E2.
Qed.

Lemma toHex_stoi_roundtrip_witness :
  stoi_base 16 (toHex 0x1018 4) = Some 0x1018%Z.
Proof. apply toHex_stoi_roundtrip. vm_compute. split; discriminate. Defined.

(** *** The header record *)

Lemma str_take_length (n : nat) (s : string) :
  String.length (str_take n s) = Nat.min n (String.length s).
Proof.
  revert s. induction n as [|n IH]; intros s; [reflexivity |].
  destruct s as [|c s]; [reflexivity |]. cbn [str_take String.length]. now rewrite IH.
Qed.

(** X3: the name field of the header record always has exactly 6
    characters: a longer program name is cut to its first 6, a shorter one
    is followed by blanks; and for a program length from 0 up to 2^24 the
    whole record has 13 characters more than the start address. *)
Theorem header_record_shape :
  forall (program_name start_addr : string) (program_len : Z),
    exists field,
      header_record program_name start_addr program_len
      = HeaderRec field start_addr (toHex program_len 6)
      /\ String.length field = 6
      /\ (6 <= String.length program_name -> field = str_take 6 program_name)
      /\ (String.length program_name <= 6 ->
          field = program_name +:+
                  string_of_list_ascii
                    (repeat " "%char (6 - String.length program_name)))
      /\ ((0 <= program_len < 2 ^ 24)%Z ->
          String.length (render (header_record program_name start_addr program_len))
          = 13 + String.length start_addr).
Proof.
  intros name start len. unfold header_record.
  set (padded := if Nat.ltb 6 (String.length name) then str_take 6 name else name).
  exists (padded +:+ string_of_list_ascii (repeat " "%char (6 - String.length padded))).
  assert (Hpl : String.length padded = Nat.min 6 (String.length name)).
  { unfold padded. destruct (Nat.ltb 6 (String.length name)) eqn:E.
    - apply str_take_length.
    - apply Nat.ltb_ge in E. lia. }
  assert (Hlen : String.length
                   (padded +:+ string_of_list_ascii
                                 (repeat " "%char (6 - String.length padded))) = 6).
  { rewrite str_length_app, repeat_string_length. lia. }
  split; [reflexivity |]. split; [exact Hlen |]. split; [| split].
  - intros H. unfold padded. destruct (Nat.ltb 6 (String.length name)) eqn:E.
    + rewrite str_take_length.
      replace (6 - Nat.min 6 (String.length name)) with 0 by lia.
      apply str_app_nil_r.
    + apply Nat.ltb_ge in E. assert (Hn : String.length name = 6) by lia.
      rewrite Hn. cbn [Nat.sub repeat string_of_list_ascii].
      rewrite str_app_nil_r. rewrite <- (str_take_drop 6 name) at 1.
      assert (Hd : str_drop 6 name = EmptyString).
      { pose proof (f_equal String.length (str_take_drop 6 name)) as Hl.
        rewrite str_length_app, str_take_length in Hl.
        revert Hl. destruct (str_drop 6 name); [reflexivity |].
        cbn [String.length]. lia. }
      rewrite Hd. apply str_app_nil_r.
  - intros H. unfold padded. destruct (Nat.ltb 6 (String.length name)) eqn:E.
    + apply Nat.ltb_lt in E. lia.
    + reflexivity.
  - intros Hv. cbn [render].
    rewrite (str_length_app "H"), (str_length_app (padded +:+ _)), Hlen,
      (str_length_app start).
    rewrite toHex_length_small; [cbn; lia | lia | | lia].
    change (16 ^ Z.of_nat 6)%Z with (2 ^ 24)%Z. exact Hv.
Qed.

Lemma header_record_shape_witness :
  String.length (render (header_record "ASSEMBLER" "1000" 27)) = 17.
Proof.
  destruct (header_record_shape "ASSEMBLER" "1000" 27) as (f & _ & _ & _ & _ & H).
  apply H. lia.
Defined.

(** *** The records of the object program *)

Lemma build_text_record_inv (st : pass2_state) (line : IntermediateLine)
    (code : string) (hdr : ObjRecord) (texts : list ObjRecord) :
  String.length code <= MAX_TEXT_RECORD_LENGTH ->
  object_program st = hdr :: texts ->
  Forall text_record_ok texts ->
  String.length (current_text_record_code st) <= MAX_TEXT_RECORD_LENGTH ->
  exists texts',
    object_program (build_text_record st line code) = hdr :: texts'
    /\ Forall text_record_ok texts'
    /\ String.length (current_text_record_code (build_text_record st line code))
       <= MAX_TEXT_RECORD_LENGTH.
Proof.
  intros Hc Ho Ht Hl. unfold build_text_record.
  destruct (str_empty code); [exists texts; auto |].
  destruct (Nat.ltb _ _) eqn:E; cbn [object_program current_text_record_code].
  - apply Nat.ltb_lt in E.
    exists (texts ++ [text_record
                        (mkP2 (object_program st)
                              (if str_empty (current_text_record_code st)
                               then location_counter line
                               else text_record_start_addr st)
                              (current_text_record_code st) (warnings st))]).
    rewrite Ho. split; [reflexivity |]. split; [| exact Hc].
    apply Forall_app. split; [exact Ht |]. constructor; [| constructor].
    unfold text_record, text_record_ok. cbn [current_text_record_code text_record_start_addr].
    split; [lia | reflexivity].
  - apply Nat.ltb_ge in E. exists texts. rewrite str_length_app. auto.
Qed.

Lemma pass_two_line_inv symtab littab (st : pass2_state) (line : IntermediateLine)
    (hdr : ObjRecord) (texts : list ObjRecord) :
  String.length (object_code_of symtab littab line) <= MAX_TEXT_RECORD_LENGTH ->
  object_program st = hdr :: texts ->
  Forall text_record_ok texts ->
  String.length (current_text_record_code st) <= MAX_TEXT_RECORD_LENGTH ->
  exists texts',
    object_program (pass_two_line symtab littab st line) = hdr :: texts'
    /\ Forall text_record_ok texts'
    /\ String.length (current_text_record_code (pass_two_line symtab littab st line))
       <= MAX_TEXT_RECORD_LENGTH.
Proof.
  intros Hc Ho Ht Hl. unfold pass_two_line. unfold object_code_of in Hc.
  destruct (line_object_code symtab littab line) as [code w| |].
  - apply (build_text_record_inv (add_warnings st w) line code hdr texts); assumption.
  - unfold flush_text_record. cbn [object_program current_text_record_code].
    destruct (str_empty (current_text_record_code st)) eqn:E.
    + exists texts. cbn. repeat split; [exact Ho | exact Ht | lia].
    + exists (texts ++ [text_record st]). rewrite Ho.
      split; [reflexivity |]. split; [| cbn; lia].
      apply Forall_app. split; [exact Ht |]. constructor; [| constructor].
      unfold text_record, text_record_ok. split; [| reflexivity].
      apply str_empty_false in E.
      destruct (current_text_record_code st); [contradiction | cbn in *; lia].
  - exists texts. auto.
Qed.

Lemma pass_two_records symtab littab (inter : list IntermediateLine)
    (name start : string) (len : Z) :
  Forall (fun line =>
            String.length (object_code_of symtab littab line)
            <= MAX_TEXT_RECORD_LENGTH) inter ->
  exists texts,
    object_program (pass_two symtab littab inter name start len)
    = header_record name start len :: texts ++ [EndRec start]
    /\ Forall text_record_ok texts.
Proof.
  intros Hall. unfold pass_two.
  set (hdr := header_record name start len).
  assert (H : forall st texts,
             object_program st = hdr :: texts ->
             Forall text_record_ok texts ->
             String.length (current_text_record_code st) <= MAX_TEXT_RECORD_LENGTH ->
             exists texts',
               object_program (pass_two_loop symtab littab inter st) = hdr :: texts'
               /\ Forall text_record_ok texts'
               /\ String.length
                    (current_text_record_code (pass_two_loop symtab littab inter st))
                  <= MAX_TEXT_RECORD_LENGTH).
  { induction Hall as [|line inter Hline _ IH]; intros st texts Ho Ht Hl.
    - exists texts. auto.
    - destruct (pass_two_line_inv symtab littab st line hdr texts Hline Ho Ht Hl)
        as (t1 & Ho1 & Ht1 & Hl1).
      unfold pass_two_loop. cbn [fold_left]. exact (IH _ t1 Ho1 Ht1 Hl1). }
  destruct (H (mkP2 [hdr] EmptyString EmptyString []) [])
    as (texts & Ho & Ht & Hl); [reflexivity | constructor | cbn; lia |].
  set (st1 := pass_two_loop symtab littab inter _) in *.
  destruct (str_empty (current_text_record_code st1)) eqn:E;
    cbn [object_program].
  - exists texts. rewrite Ho. split; [reflexivity | exact Ht].
  - exists (texts ++ [text_record st1]). rewrite Ho.
    split; [reflexivity |].
    apply Forall_app. split; [exact Ht |]. constructor; [| constructor].
    unfold text_record, text_record_ok. split; [| reflexivity].
    apply str_empty_false in E.
    destruct (current_text_record_code st1); [contradiction | cbn in *; lia].
Qed.

(** Whatever the lines are, only text records are added after the header,
    each with the length field of its own object code. *)
Lemma text_record_has_shape (st : pass2_state) : text_record_shape (text_record st).
Proof. reflexivity. Qed.

Lemma pass_two_line_shape symtab littab (st : pass2_state) (line : IntermediateLine)
    (hdr : ObjRecord) (texts : list ObjRecord) :
  object_program st = hdr :: texts ->
  Forall text_record_shape texts ->
  exists texts',
    object_program (pass_two_line symtab littab st line) = hdr :: texts'
    /\ Forall text_record_shape texts'.
Proof.
  intros Ho Ht. unfold pass_two_line.
  destruct (line_object_code symtab littab line) as [code w| |].
  - unfold build_text_record.
    destruct (str_empty code); [exists texts; auto |].
    destruct (Nat.ltb _ _); cbn [object_program add_warnings]; [| exists texts; auto].
    eexists. cbn [object_program add_warnings]. rewrite Ho.
    split; [rewrite app_comm_cons; reflexivity |].
    apply Forall_app. split; [exact Ht |].
    constructor; [apply text_record_has_shape | constructor].
  - unfold flush_text_record. cbn [object_program].
    destruct (str_empty (current_text_record_code st)); [exists texts; auto |].
    exists (texts ++ [text_record st]). rewrite Ho. split; [reflexivity |].
    apply Forall_app. split; [exact Ht |].
    constructor; [apply text_record_has_shape | constructor].
  - exists texts. auto.
Qed.

Lemma pass_two_shape symtab littab (inter : list IntermediateLine)
    (name start : string) (len : Z) :
  exists texts,
    object_program (pass_two symtab littab inter name start len)
    = header_record name start len :: texts ++ [EndRec start]
    /\ Forall text_record_shape texts.
Proof.
  unfold pass_two.
  set (hdr := header_record name start len).
  assert (H : forall st texts,
             object_program st = hdr :: texts ->
             Forall text_record_shape texts ->
             exists texts',
               object_program (pass_two_loop symtab littab inter st) = hdr :: texts'
               /\ Forall text_record_shape texts').
  { induction inter as [|line inter IH]; intros st texts Ho Ht.
    - exists texts. auto.
    - destruct (pass_two_line_shape symtab littab st line hdr texts Ho Ht)
        as (t1 & Ho1 & Ht1).
      unfold pass_two_loop. cbn [fold_left]. exact (IH _ t1 Ho1 Ht1). }
  destruct (H (mkP2 [hdr] EmptyString EmptyString []) [])
    as (texts & Ho & Ht); [reflexivity | constructor |].
  set (st1 := pass_two_loop symtab littab inter _) in *.
  destruct (str_empty (current_text_record_code st1)); cbn [object_program].
  - exists texts. rewrite Ho. split; [reflexivity | exact Ht].
  - exists (texts ++ [text_record st1]). rewrite Ho.
    split; [reflexivity |].
    apply Forall_app. split; [exact Ht |].
    constructor; [apply text_record_has_shape | constructor].
Qed.

(** X4: the object program is one header record, then text records, then
    one end record carrying the start address; the length field of every
    text record is [toHex] of half the number of characters of its object
    code.  When no line's object code is longer than 60 characters, every
    text record holds between 1 and 60 characters of object code. *)
Theorem object_program_shape :
  forall (symtab : gmap string string) (littab : omap (string * Z))
         (inter : list IntermediateLine) (program_name start_addr : string)
         (program_len : Z),
    exists texts,
      object_program (pass_two symtab littab inter program_name start_addr program_len)
      = header_record program_name start_addr program_len
          :: texts ++ [EndRec start_addr]
      /\ Forall text_record_shape texts
      /\ (Forall (fun line =>
                    String.length (object_code_of symtab littab line)
                    <= MAX_TEXT_RECORD_LENGTH) inter ->
          Forall text_record_ok texts).
Proof.
  intros symtab littab inter name start len.
  destruct (pass_two_shape symtab littab inter name start len) as (texts & Ho & Ht).
  exists texts. split; [exact Ho |]. split; [exact Ht |].
  intros H60.
  destruct (pass_two_records symtab littab inter name start len H60)
    as (texts' & Ho' & Ht').
  rewrite Ho in Ho'. injection Ho' as Ho'. apply app_inv_tail in Ho'. subst texts'.
  exact Ht'.
Qed.

(** The sample program: one text record, of 36 characters. *)
Lemma object_program_shape_witness :
  exists texts,
    object_program
      (pass_two expected_symtab expected_littab expected_intermediate "COPY" "1000" 27)
    = header_record "COPY" "1000" 27 :: texts ++ [EndRec "1000"]
    /\ Forall text_record_shape texts
    /\ Forall text_record_ok texts.
Proof.
  destruct (object_program_shape expected_symtab expected_littab expected_intermediate
              "COPY" "1000" 27) as (texts & Ho & Hs & Hk).
  exists texts. split; [exact Ho |]. split; [exact Hs |].
  apply Hk.
  repeat constructor; vm_compute; intros H; discriminate H.
Defined.

(** *** Symbols and forward references *)

Lemma pass_one_line_SYMTAB (st st1 : pass1_state) (line : SourceLine) :
  step_state (pass_one_line st line) = Some st1 ->
  SYMTAB st1
  = if String.eqb (src_opcode line) "START" || str_empty (src_label line)
    then SYMTAB st
    else <[src_label line := toHex (LC st) 4]> (SYMTAB st).
Proof.
  intros H. destruct (String.eqb (src_opcode line) "START") eqn:Hs; cbn [orb].
  - unfold pass_one_line in H. rewrite Hs in H.
    destruct (if str_empty _ then _ else _); [| discriminate].
    cbn in H. injection H as <-. reflexivity.
  - apply String.eqb_neq in Hs.
    destruct (pass_one_line_tables st line st1 Hs H) as [-> _].
    unfold process_label. now destruct (str_empty (src_label line)).
Qed.

(** The lines after the last definition of [k] leave its entry alone. *)
Lemma pass_one_loop_keeps (k : string) (src : list SourceLine) : forall st st',
  pass_one_loop src st = Some st' ->
  Forall (fun l => defines k l = false) (processed_lines src) ->
  SYMTAB st' !! k = SYMTAB st !! k.
Proof.
  induction src as [|line rest IH]; intros st st' H Hall.
  - cbn in H. now injection H as <-.
  - cbn [pass_one_loop] in H. cbn [processed_lines] in Hall.
    pose proof (pass_one_line_SYMTAB st) as Hstep.
    pose proof (pass_one_line_intermediate st line) as Hk.
    assert (Hline : forall st1, step_state (pass_one_line st line) = Some st1 ->
              defines k line = false -> SYMTAB st1 !! k = SYMTAB st !! k).
    { intros st1 H1 Hd. rewrite (Hstep st1 line H1). unfold defines in Hd.
      destruct (String.eqb (src_opcode line) "START"); cbn [orb]; [reflexivity |].
      destruct (str_empty (src_label line)); [reflexivity |].
      cbn [negb andb] in Hd. apply String.eqb_neq in Hd.
      now rewrite lookup_insert_ne. }
    destruct (pass_one_line st line) as [st1|st1|]; [| | discriminate].
    + assert (Hall' : Forall (fun l => defines k l = false)
                             (line :: processed_lines rest)).
      { destruct Hk as [[Hs | He] _]; [now rewrite Hs in Hall |].
        rewrite He in Hall. now destruct (String.eqb (src_opcode line) "START"). }
      inversion Hall' as [|? ? Hd Hrest]; subst.
      rewrite (IH st1 st' H Hrest). exact (Hline st1 eq_refl Hd).
    + injection H as <-. destruct Hk as (Hs & He & _). rewrite Hs, He in Hall.
      inversion Hall as [|? ? Hd _]; subst. exact (Hline st1 eq_refl Hd).
Qed.

(** The entry of a label is the location counter before its last
    definition. *)
Lemma pass_one_loop_last_definition (src : list SourceLine) :
  forall st st' pre line post,
    pass_one_loop src st = Some st' ->
    processed_lines src = pre ++ line :: post ->
    src_label line <> EmptyString ->
    defines (src_label line) line = true ->
    Forall (fun l => defines (src_label line) l = false) post ->
    exists st0,
      pass_one_loop pre st = Some st0
      /\ SYMTAB st' !! src_label line = Some (toHex (LC st0) 4).
Proof.
  induction src as [|l0 rest IH]; intros st st' pre line post H Hp Hl Hd Hpost.
  - cbn in Hp. destruct pre; discriminate.
  - cbn [pass_one_loop] in H. cbn [processed_lines] in Hp.
    pose proof (pass_one_line_SYMTAB st) as Hstep.
    pose proof (pass_one_line_intermediate st l0) as Hk.
    destruct pre as [|p0 pre].
    + (* the line is the first one *)
      cbn [app] in Hp. exists st. split; [reflexivity |].
      assert (Hfirst : l0 = line).
      { destruct (String.eqb (src_opcode l0) "START");
          [| destruct (String.eqb (src_opcode l0) "END")]; now injection Hp. }
      subst l0.
      assert (Hnew : forall st1, step_state (pass_one_line st line) = Some st1 ->
                SYMTAB st1 !! src_label line = Some (toHex (LC st) 4)).
      { intros st1 H1. rewrite (Hstep st1 line H1). unfold defines in Hd.
        destruct (String.eqb (src_opcode line) "START"); [discriminate |].
        destruct (str_empty (src_label line)) eqn:E.
        { apply str_empty_true in E. contradiction. }
        cbn [orb]. apply lookup_insert_eq. }
      destruct (pass_one_line st line) as [st1|st1|]; [| | discriminate].
      * assert (Hrest : processed_lines rest = post).
        { destruct Hk as [[Hs | He] _]; [rewrite Hs in Hp; now injection Hp |].
          rewrite He in Hp.
          destruct (String.eqb (src_opcode line) "START"); now injection Hp. }
        rewrite (pass_one_loop_keeps (src_label line) rest st1 st' H)
          by (rewrite Hrest; exact Hpost).
        exact (Hnew st1 eq_refl).
      * injection H as <-. exact (Hnew st1 eq_refl).
    + (* the line comes later *)
      cbn [app] in Hp.
      destruct (pass_one_line st l0) as [st1|st1|] eqn:E0; [| | discriminate].
      * assert (Hrest : p0 = l0 /\ processed_lines rest = pre ++ line :: post).
        { destruct Hk as [[Hs | He] _]; [rewrite Hs in Hp; now injection Hp |].
          rewrite He in Hp.
          destruct (String.eqb (src_opcode l0) "START"); now injection Hp. }
        destruct Hrest as [-> Hrest].
        destruct (IH st1 st' pre line post H Hrest Hl Hd Hpost) as (st0 & H0 & Hs0).
        exists st0. split; [| exact Hs0].
        cbn [pass_one_loop]. now rewrite E0.
      * destruct Hk as (Hs & He & _). rewrite Hs, He in Hp.
        injection Hp as _ Hp. destruct pre; discriminate.
Qed.

(** Every line that defines a label is followed by no, or by a last,
    definition of the same label. *)
Lemma last_definition (k : string) (l : list SourceLine) :
  forall line, In line l -> defines k line = true ->
  exists pre l0 post,
    l = pre ++ l0 :: post
    /\ defines k l0 = true
    /\ Forall (fun l' => defines k l' = false) post.
Proof.
  induction l as [|a l IH]; intros line Hin Hd; [contradiction |].
  destruct (existsb (defines k) l) eqn:E.
  - apply existsb_exists in E. destruct E as (x & Hx & Hdx).
    destruct (IH x Hx Hdx) as (pre & l0 & post & -> & H0 & Hpost).
    exists (a :: pre), l0, post. auto.
  - assert (Hall : Forall (fun l' => defines k l' = false) l).
    { apply List.Forall_forall. intros x Hx.
      destruct (defines k x) eqn:Ex; [| reflexivity].
      assert (existsb (defines k) l = true)
        by (apply existsb_exists; exists x; auto).
      congruence. }
    destruct Hin as [<- | Hin].
    + exists [], a, l. auto.
    + rewrite List.Forall_forall in Hall. rewrite (Hall line Hin) in Hd. discriminate.
Qed.

(** X5: after a Pass I that returns, the symbol table holds for a label the
    location counter Pass I had when it reached the last line defining the
    label (a line other than START that carries it), printed by [toHex]
    with 4 digits of padding; so in Pass II an operand that names the label
    (a forward reference included) gets that address and no warning.  Every
    non-empty label of a processed line other than START has such a last
    defining line. *)
Theorem labels_resolve :
  forall (source : list SourceLine) (name start : string) (len : Z)
         (st : pass1_state),
    pass_one source = Some (name, start, len, st) ->
    (forall (pre : list SourceLine) (line : SourceLine) (post : list SourceLine),
        processed_lines source = pre ++ line :: post ->
        src_label line <> EmptyString ->
        defines (src_label line) line = true ->
        Forall (fun l => defines (src_label line) l = false) post ->
        exists st0,
          pass_one_loop pre (pass1_init ∅ [] []) = Some st0
          /\ SYMTAB st !! src_label line = Some (toHex (LC st0) 4)
          /\ forall littab,
               resolve_operand (SYMTAB st) littab (src_label line)
               = (toHex (LC st0) 4, []))
    /\ (forall line : SourceLine,
           In line (processed_lines source) ->
           src_opcode line <> "START" ->
           src_label line <> EmptyString ->
           exists pre l0 post,
             processed_lines source = pre ++ l0 :: post
             /\ src_opcode l0 <> "START"
             /\ src_label l0 = src_label line
             /\ Forall (fun l => defines (src_label line) l = false) post).
Proof.
  intros source name start len st H. unfold pass_one in H.
  destruct (pass_one_loop source _) as [st1|] eqn:E; [| discriminate].
  injection H as _ _ _ <-.
  split.
  - intros pre line post Hp Hl Hd Hpost.
    destruct (pass_one_loop_last_definition source _ _ pre line post E Hp Hl Hd Hpost)
      as (st0 & H0 & Hs).
    exists st0. split; [exact H0 |]. split; [exact Hs |].
    intros littab. unfold resolve_operand. now rewrite Hs.
  - intros line Hin Hs Hl.
    assert (Hd : defines (src_label line) line = true).
    { unfold defines. apply String.eqb_neq in Hs. rewrite Hs.
      now rewrite String.eqb_refl. }
    destruct (last_definition (src_label line) _ line Hin Hd)
      as (pre & l0 & post & Hp & H0 & Hpost).
    exists pre, l0, post. split; [exact Hp |].
    unfold defines in H0. apply andb_prop in H0. destruct H0 as [Hn He].
    split; [| split; [now apply String.eqb_eq | exact Hpost]].
    intros Hst. rewrite Hst in Hn. discriminate Hn.
Qed.

(** RESULT is used by STA before the line that defines it, which Pass I
    reaches with the location counter at 1015. *)
Lemma labels_resolve_witness :
  exists st0,
    pass_one_loop (firstn 8 sample_source) (pass1_init ∅ [] []) = Some st0
    /\ LC st0 = 0x1015%Z
    /\ SYMTAB expected_pass1_state !! "RESULT" = Some "1015"
    /\ resolve_operand (SYMTAB expected_pass1_state) [] "RESULT" = ("1015", [])
    /\ exists pre l0 post,
         processed_lines sample_source = pre ++ l0 :: post
         /\ src_opcode l0 <> "START"
         /\ src_label l0 = "TEN"
         /\ Forall (fun l => defines "TEN" l = false) post.
Proof.
  destruct (labels_resolve sample_source "COPY" "1000" 27 expected_pass1_state
              sample_pass_one) as [H H'].
  destruct (H (firstn 8 sample_source) (mkSrc "RESULT" "RESB" "3") [mkSrc "" "END" ""])
    as (st0 & H0 & Hs & Hr);
    [reflexivity | discriminate | reflexivity | repeat constructor |].
  exists st0. split; [exact H0 |].
  assert (HLC : LC st0 = 0x1015%Z).
  { clear Hs Hr. vm_compute in H0. injection H0 as <-. reflexivity. }
  rewrite HLC in Hs, Hr.
  split; [exact HLC |]. split; [exact Hs |]. split; [exact (Hr []) |].
  apply (H' (mkSrc "TEN" "WORD" "10")); [vm_compute; tauto | discriminate | discriminate].
Defined.

(** *** Literals *)

Lemma omap_count_true {V : Type} (k : string) (m : omap V) :
  omap_count k m = true <-> exists v, omap_lookup k m = Some v.
Proof.
  unfold omap_count. rewrite bool_decide_eq_true. unfold is_Some. reflexivity.
Qed.

Lemma register_literal_lookup (st : pass1_state) (opd k : string) :
  omap_lookup k (LITTAB (register_literal st opd)) = omap_lookup k (LITTAB st)
  \/ (k = opd /\ omap_lookup k (LITTAB st) = None
      /\ omap_lookup k (LITTAB (register_literal st opd))
         = Some (EmptyString, literal_length opd)).
Proof.
  unfold register_literal.
  destruct (starts_with "=" opd); [| now left].
  destruct (omap_count opd (LITTAB st)) eqn:E; [now left |].
  cbn [set_LITTAB LITTAB].
  destruct (String.eqb_spec k opd) as [-> | Hne].
  - right. split; [reflexivity |]. split; [| apply omap_lookup_insert_eq].
    destruct (omap_lookup opd (LITTAB st)) eqn:El; [| reflexivity].
    assert (Ht : omap_count opd (LITTAB st) = true) by (apply omap_count_true; eauto).
    congruence.
  - left. now apply omap_lookup_insert_ne.
Qed.

Lemma register_literal_registered (st : pass1_state) (opd : string) :
  starts_with "=" opd = true ->
  exists v, omap_lookup opd (LITTAB (register_literal st opd)) = Some v.
Proof.
  intros H. unfold register_literal. rewrite H.
  destruct (omap_count opd (LITTAB st)) eqn:E.
  - now apply omap_count_true.
  - cbn [set_LITTAB LITTAB]. rewrite omap_lookup_insert_eq. eauto.
Qed.

Lemma register_literal_ext (s1 s2 : pass1_state) (opd : string) :
  LITTAB s1 = LITTAB s2 ->
  LITTAB (register_literal s1 opd) = LITTAB (register_literal s2 opd).
Proof.
  intros H. unfold register_literal.
  destruct (starts_with "=" opd); [| exact H].
  replace (omap_count opd (LITTAB s1)) with (omap_count opd (LITTAB s2))
    by (now rewrite H).
  destruct (omap_count opd (LITTAB s2)); [exact H |].
  cbn [set_LITTAB LITTAB]. now rewrite H.
Qed.

Lemma process_label_LITTAB st lbl : LITTAB (process_label st lbl) = LITTAB st.
Proof. unfold process_label. destruct (str_empty lbl); reflexivity. Qed.

(** The literal table after a line: START leaves it alone, any other line
    registers its literal operand, and END then gives out the addresses. *)
Lemma pass_one_line_LITTAB (st : pass1_state) (line : SourceLine) :
  match pass_one_line st line with
  | Continue st1 =>
      LITTAB st1 = if String.eqb (src_opcode line) "START" then LITTAB st
                   else LITTAB (register_literal st (src_operand line))
  | Break st1 =>
      String.eqb (src_opcode line) "START" = false
      /\ exists lc,
          LITTAB st1
          = fst (assign_literals (LITTAB (register_literal st (src_operand line))) lc)
  | Throw => True
  end.
Proof.
  unfold pass_one_line.
  destruct (String.eqb (src_opcode line) "START") eqn:Hs.
  - destruct (if str_empty _ then _ else _); [reflexivity | exact I].
  - destruct (advance_LC _ _ _) as [lc|]; [| exact I].
    set (st2 := if String.eqb (src_opcode line) "END"
                then process_label st (src_label line)
                else push_intermediate (process_label st (src_label line)) line).
    assert (H2 : LITTAB (set_LC st2 lc) = LITTAB st).
    { unfold st2. destruct (String.eqb (src_opcode line) "END");
        cbn [set_LC push_intermediate LITTAB]; apply process_label_LITTAB. }
    pose proof (register_literal_ext _ _ (src_operand line) H2) as Hr.
    destruct (String.eqb (src_opcode line) "END").
    + destruct (assign_literals _ _) as [lt lc'] eqn:Ea.
      split; [reflexivity |]. cbn [set_LC set_LITTAB LITTAB].
      cbn [push_intermediate LITTAB LC] in Ea.
      eexists. rewrite <- Hr. rewrite Ea. reflexivity.
    + exact Hr.
Qed.

Lemma assign_literals_lookup (lt : omap (string * Z)) : forall lc k,
  match omap_lookup k lt with
  | None => omap_lookup k (fst (assign_literals lt lc)) = None
  | Some (a, len) =>
      exists a', omap_lookup k (fst (assign_literals lt lc)) = Some (a', len)
                 /\ a' <> EmptyString /\ (a <> EmptyString -> a' = a)
  end.
Proof.
  induction lt as [|[k0 [a0 len0]] lt IH]; intros lc k; [reflexivity |].
  cbn [assign_literals omap_lookup].
  destruct (str_empty a0) eqn:Ea.
  - specialize (IH (wrap32 (lc + len0)) k).
    destruct (assign_literals lt (wrap32 (lc + len0))) as [rest' lc'].
    cbn [fst omap_lookup] in *.
    destruct (String.eqb k k0); [| exact IH].
    exists (toHex lc 4). split; [reflexivity |]. split; [apply toHex_nonempty |].
    apply str_empty_true in Ea. congruence.
  - specialize (IH lc k).
    destruct (assign_literals lt lc) as [rest' lc'].
    cbn [fst omap_lookup] in *.
    destruct (String.eqb k k0); [| exact IH].
    exists a0. split; [reflexivity |]. split; [now apply str_empty_false | reflexivity].
Qed.

Lemma pass_one_loop_literals (src : list SourceLine) : forall st st',
  pass_one_loop src st = Some st' ->
  Exists (fun l => src_opcode l = "END") src ->
  (forall k v, omap_lookup k (LITTAB st) = Some v ->
               exists a len, omap_lookup k (LITTAB st') = Some (a, len)
                             /\ a <> EmptyString)
  /\ (forall line, In line (processed_lines src) ->
                   src_opcode line <> "START" ->
                   starts_with "=" (src_operand line) = true ->
                   exists a len, omap_lookup (src_operand line) (LITTAB st') = Some (a, len)
                                 /\ a <> EmptyString).
Proof.
  induction src as [|line rest IH]; intros st st' H Hend.
  - inversion Hend.
  - cbn [pass_one_loop] in H. cbn [processed_lines].
    pose proof (pass_one_line_LITTAB st line) as Hl.
    pose proof (pass_one_line_intermediate st line) as Hk.
    destruct (pass_one_line st line) as [st1|st1|]; [| | discriminate].
    + (* the loop goes on: the line is not END *)
      destruct Hk as [Hk _].
      assert (Hrest : Exists (fun l => src_opcode l = "END") rest).
      { inversion Hend as [? ? He | ? ? He]; subst; [| exact He].
        exfalso. rewrite He in Hk. destruct Hk; discriminate. }
      destruct (IH st1 st' H Hrest) as [I1 I2].
      assert (Hkeep : forall k v, omap_lookup k (LITTAB st) = Some v ->
                                  exists v1, omap_lookup k (LITTAB st1) = Some v1).
      { intros k v Hv. rewrite Hl.
        destruct (String.eqb (src_opcode line) "START"); [eauto |].
        destruct (register_literal_lookup st (src_operand line) k)
          as [-> | (_ & Hn & _)]; [eauto | congruence]. }
      split.
      * intros k v Hv. destruct (Hkeep k v Hv) as [v1 Hv1]. exact (I1 k v1 Hv1).
      * intros l Hin Hs Hlit.
        assert (Hcases : l = line \/ In l (processed_lines rest)).
        { destruct (String.eqb (src_opcode line) "START");
            [| destruct (String.eqb (src_opcode line) "END")];
            destruct Hin as [<- | Hin]; auto; contradiction. }
        destruct Hcases as [-> | Hin']; [| exact (I2 l Hin' Hs Hlit)].
        apply String.eqb_neq in Hs. rewrite Hs in Hl.
        destruct (register_literal_registered st (src_operand line) Hlit) as [v Hv].
        rewrite <- Hl in Hv. exact (I1 _ v Hv).
    + (* END: every entry gets an address *)
      destruct Hk as (Hs & He & _). destruct Hl as (_ & lc & Hl).
      injection H as <-. rewrite Hs, He.
      assert (Hall : forall k v,
                 omap_lookup k (LITTAB (register_literal st (src_operand line))) = Some v ->
                 exists a len, omap_lookup k (LITTAB st1) = Some (a, len)
                               /\ a <> EmptyString).
      { intros k [a len] Hv. rewrite Hl.
        pose proof (assign_literals_lookup
                      (LITTAB (register_literal st (src_operand line))) lc k) as Ha.
        rewrite Hv in Ha. destruct Ha as (a' & Ha' & Hne & _). eauto. }
      split.
      * intros k v Hv.
        destruct (register_literal_lookup st (src_operand line) k)
          as [Hsame | (_ & Hn & _)]; [| congruence].
        rewrite <- Hsame in Hv. exact (Hall k v Hv).
      * intros l [<- | []] _ Hlit.
        destruct (register_literal_registered st (src_operand line) Hlit) as [v Hv].
        exact (Hall _ v Hv).
Qed.

Lemma pass_one_loop_no_END (src : list SourceLine) : forall st st',
  pass_one_loop src st = Some st' ->
  Forall (fun l => src_opcode l <> "END") src ->
  forall k a len,
    omap_lookup k (LITTAB st') = Some (a, len) ->
    omap_lookup k (LITTAB st) = Some (a, len) \/ a = EmptyString.
Proof.
  induction src as [|line rest IH]; intros st st' H Hno k a len Hk.
  - cbn in H. injection H as <-. now left.
  - inversion Hno as [|? ? Hline Hrest]; subst.
    cbn [pass_one_loop] in H.
    pose proof (pass_one_line_LITTAB st line) as Hl.
    pose proof (pass_one_line_intermediate st line) as Hi.
    destruct (pass_one_line st line) as [st1|st1|]; [| | discriminate].
    + destruct (IH st1 st' H Hrest k a len Hk) as [H1 | H1]; [| now right].
      rewrite Hl in H1.
      destruct (String.eqb (src_opcode line) "START"); [now left |].
      destruct (register_literal_lookup st (src_operand line) k)
        as [Hsame | (_ & _ & Hnew)].
      * left. congruence.
      * right. congruence.
    + destruct Hi as (_ & He & _). apply String.eqb_eq in He. contradiction.
Qed.

(** X6: when Pass I reaches END, every literal operand of a processed line
    other than START is in the literal table with an address that is not
    empty, so Pass II resolves it without a warning (unless a symbol of the
    same text takes precedence).  When the source has no END line, every
    literal stays without an address, and Pass II then emits for an
    instruction that uses it the opcode alone. *)
Theorem literals_get_addresses_at_END :
  forall (source : list SourceLine) (name start : string) (len : Z)
         (st : pass1_state),
    pass_one source = Some (name, start, len, st) ->
    (Exists (fun l => src_opcode l = "END") source ->
     forall line,
       In line (processed_lines source) ->
       src_opcode line <> "START" ->
       starts_with "=" (src_operand line) = true ->
       exists address n,
         omap_lookup (src_operand line) (LITTAB st) = Some (address, n)
         /\ address <> EmptyString
         /\ (SYMTAB st !! src_operand line = None ->
             resolve_operand (SYMTAB st) (LITTAB st) (src_operand line)
             = (address, [])))
    /\ (Forall (fun l => src_opcode l <> "END") source ->
        forall (il : IntermediateLine) (op : string) (n : Z) (v : string * Z),
          OPTAB !! opcode il = Some (op, n) ->
          SYMTAB st !! operand il = None ->
          starts_with "=" (operand il) = true ->
          omap_lookup (operand il) (LITTAB st) = Some v ->
          fst v = EmptyString
          /\ object_code_of (SYMTAB st) (LITTAB st) il = op).
Proof.
  intros source name start len st H. unfold pass_one in H.
  destruct (pass_one_loop source _) as [st1|] eqn:E; [| discriminate].
  injection H as _ _ _ <-. split.
  - intros Hend line Hin Hs Hlit.
    destruct (pass_one_loop_literals source _ _ E Hend) as [_ H2].
    destruct (H2 line Hin Hs Hlit) as (a & n & Ha & Hne).
    exists a, n. split; [exact Ha |]. split; [exact Hne |].
    intros Hsym. unfold resolve_operand. now rewrite Hsym, Hlit, Ha.
  - intros Hno il op n [a l] Ho Hsym Hlit Hv.
    destruct (pass_one_loop_no_END source _ _ E Hno _ _ _ Hv) as [H0 | ->].
    + cbn in H0. discriminate.
    + split; [reflexivity |].
      unfold object_code_of, line_object_code, resolve_operand.
      rewrite Ho, Hsym, Hlit, Hv. apply str_app_nil_r.
Qed.

(** The sample program, and the same program without its END line. *)
Lemma literals_get_addresses_at_END_witness :
  (exists address n,
      omap_lookup "=C'EOF'" expected_littab = Some (address, n)
      /\ address <> EmptyString)
  /\ (exists st,
         pass_one (firstn 9 sample_source) = Some ("COPY", "1000", 24%Z, st)
         /\ object_code_of (SYMTAB st) (LITTAB st) (mkIL "100C" "" "LDA" "=C'EOF'")
            = "00").
Proof.
  split.
  - destruct (literals_get_addresses_at_END sample_source "COPY" "1000" 27
                expected_pass1_state sample_pass_one) as [H _].
    destruct (H ltac:(repeat (first [left; reflexivity | right]))
                (mkSrc "" "LDA" "=C'EOF'"))
      as (a & n & Ha & Hne & _);
      [vm_compute; tauto | discriminate | reflexivity |].
    exists a, n. split; [exact Ha | exact Hne].
  - destruct (pass_one (firstn 9 sample_source)) as [[[[nm sa] ln] st]|] eqn:E;
      [| vm_compute in E; discriminate].
    assert (Hn : (nm, sa, ln) = ("COPY", "1000", 24%Z)).
    { vm_compute in E. injection E as <- <- <- _. reflexivity. }
    injection Hn as -> -> ->.
    exists st. split; [reflexivity |].
    destruct (literals_get_addresses_at_END (firstn 9 sample_source)
                "COPY" "1000" 24 st E) as [_ H].
    assert (Hv : omap_lookup "=C'EOF'" (LITTAB st) = Some (EmptyString, 3%Z)).
    { vm_compute in E. injection E as <-. reflexivity. }
    assert (Hs : SYMTAB st !! "=C'EOF'" = None).
    { vm_compute in E. injection E as <-. reflexivity. }
    apply (H ltac:(repeat constructor; discriminate)
             (mkIL "100C" "" "LDA" "=C'EOF'") "00" 3%Z (EmptyString, 3%Z));
      [reflexivity | exact Hs | reflexivity | exact Hv].
Defined.

(** *** The size of constants in Pass I and in Pass II *)

Lemma transform_length (f : ascii -> ascii) (s : string) :
  String.length (transform f s) = String.length s.
Proof. induction s as [|c s IH]; cbn; [reflexivity | now rewrite IH]. Qed.

Lemma str_drop_length (n : nat) (s : string) :
  String.length (str_drop n s) = String.length s - n.
Proof.
  revert s. induction n as [|n IH]; intros s; [cbn; lia |].
  destruct s as [|c s]; [reflexivity |]. cbn [str_drop String.length]. now rewrite IH.
Qed.

Lemma toupper_ascii7 (c : ascii) : is_ascii7 c = true -> is_ascii7 (toupper c) = true.
Proof.
  unfold is_ascii7, toupper. intros H. apply Nat.ltb_lt in H.
  destruct (Nat.leb 97 (nat_of_ascii c) && Nat.leb (nat_of_ascii c) 122) eqn:E;
    [| now apply Nat.ltb_lt].
  apply Nat.ltb_lt. rewrite nat_ascii_embedding; lia.
Qed.

Lemma all_ascii7_transform (s : string) :
  all_ascii7 s = true -> all_ascii7 (transform toupper s) = true.
Proof.
  induction s as [|c s IH]; [reflexivity |]. cbn [all_ascii7 transform].
  intros H. apply andb_prop in H. destruct H as [Hc Hs].
  now rewrite toupper_ascii7, IH.
Qed.

Lemma all_ascii7_drop (n : nat) : forall s,
  all_ascii7 s = true -> all_ascii7 (str_drop n s) = true.
Proof.
  induction n as [|n IH]; intros s H; [exact H |].
  destruct s as [|c s]; [reflexivity |]. cbn [str_drop]. apply IH.
  cbn [all_ascii7] in H. apply andb_prop in H. tauto.
Qed.

Lemma all_ascii7_take (n : nat) : forall s,
  all_ascii7 s = true -> all_ascii7 (str_take n s) = true.
Proof.
  induction n as [|n IH]; intros s H; [reflexivity |].
  destruct s as [|c s]; [reflexivity |]. cbn [str_take all_ascii7] in *.
  apply andb_prop in H. destruct H as [-> H]. now apply IH.
Qed.

Lemma chars_to_hex_length (s : string) :
  all_ascii7 s = true -> String.length (chars_to_hex s) = 2 * String.length s.
Proof.
  induction s as [|c s IH]; [reflexivity |]. cbn [all_ascii7 chars_to_hex String.length].
  intros H. apply andb_prop in H. destruct H as [Hc Hs].
  rewrite str_length_app, IH by exact Hs.
  unfold is_ascii7 in Hc. apply Nat.ltb_lt in Hc.
  rewrite toHex_length_small; [lia | lia | |].
  - unfold char_to_int.
    assert (E : (Z.of_nat (nat_of_ascii c) <? 128)%Z = true) by (apply Z.ltb_lt; lia).
    rewrite E. change (16 ^ Z.of_nat 2)%Z with 256%Z. lia.
  - unfold char_to_int.
    assert (E : (Z.of_nat (nat_of_ascii c) <? 128)%Z = true) by (apply Z.ltb_lt; lia).
    rewrite E. lia.
Qed.

Lemma OPTAB_BYTE : OPTAB !! "BYTE" = None /\ OPTAB !! "WORD" = None.
Proof. vm_compute. split; reflexivity. Qed.

Lemma wrap32_add_2_64 (z : Z) : wrap32 (z + 2 ^ 64) = wrap32 z.
Proof.
  unfold wrap32.
  replace (z + 2 ^ 64 + 2 ^ 31)%Z with (z + 2 ^ 31 + 2 ^ 32 * 2 ^ 32)%Z by lia.
  now rewrite Z_mod_plus_full.
Qed.

(** X7: for a BYTE operand whose upper-cased form starts with C' and has at
    least 3 characters, all of them 7-bit, Pass I advances the location
    counter by the length minus 3 and Pass II emits twice as many
    hexadecimal characters: the two passes agree.  For the form X' Pass I
    advances by half of the length minus 3, rounded down, and Pass II emits
    length minus 3 characters, so an odd number of digits emits half a byte
    more than was reserved.  The bare operand C' moves the location counter
    back by one and emits nothing. *)
Theorem byte_constant_sizes :
  forall (lc : Z) (opd : string),
    let n := String.length opd in
    (Z.of_nat n < 2 ^ 64)%Z ->
    (starts_with "C'" (transform toupper opd) = true ->
     (3 <= n -> all_ascii7 opd = true ->
      advance_LC lc "BYTE" opd = Some (wrap32 (lc + (Z.of_nat n - 3)))
      /\ String.length (hexToByteCode opd) = 2 * (n - 3))
     /\ (n = 2 ->
         advance_LC lc "BYTE" opd = Some (wrap32 (lc - 1))
         /\ hexToByteCode opd = EmptyString))
    /\ (starts_with "X'" (transform toupper opd) = true -> 3 <= n ->
        advance_LC lc "BYTE" opd = Some (wrap32 (lc + (Z.of_nat n - 3) / 2))
        /\ String.length (hexToByteCode opd) = n - 3).
Proof.
  intros lc opd n Hfit.
  destruct OPTAB_BYTE as [Hb _].
  set (u := transform toupper opd).
  assert (Hun : String.length u = n) by apply transform_length.
  assert (Hne : 2 <= n -> str_empty opd = false).
  { intros H. unfold n in H. destruct opd; [cbn in H; lia | reflexivity]. }
  assert (Hsub : 3 <= n ->
                 substr u 2 (length_minus3 u) = str_take (n - 3) (str_drop 2 u)).
  { intros H3. unfold substr, length_minus3, to_size_t. rewrite Hun.
    rewrite Z.mod_small by lia. f_equal. lia. }
  assert (Hm3 : 3 <= n -> length_minus3 u = (Z.of_nat n - 3)%Z).
  { intros H3. unfold length_minus3, to_size_t. rewrite Hun.
    apply Z.mod_small. lia. }
  split.
  - intros Hc. split.
    + intros H3 H7. split.
      * unfold advance_LC. rewrite Hb. cbn [String.eqb Ascii.eqb Bool.eqb].
        fold u. rewrite Hc, Hm3 by exact H3. reflexivity.
      * unfold hexToByteCode. rewrite Hne by lia. fold u. rewrite Hc.
        rewrite Hsub by exact H3. rewrite chars_to_hex_length.
        -- rewrite str_take_length, str_drop_length, Hun. lia.
        -- apply all_ascii7_take, all_ascii7_drop, all_ascii7_transform, H7.
    + intros H2. split.
      * unfold advance_LC. rewrite Hb. cbn [String.eqb Ascii.eqb Bool.eqb].
        fold u. rewrite Hc. unfold length_minus3, to_size_t. rewrite Hun, H2.
        change ((Z.of_nat 2 - 3) mod 2 ^ 64)%Z with (-1 + 2 ^ 64)%Z.
        rewrite Z.add_assoc, wrap32_add_2_64. f_equal.
      * unfold hexToByteCode. rewrite Hne by lia. fold u. rewrite Hc.
        unfold substr. rewrite Hun, H2. cbn [Nat.sub Z.of_nat].
        rewrite Z.min_r by (unfold length_minus3, to_size_t;
                            pose proof (Z.mod_pos_bound (Z.of_nat (String.length u) - 3)
                                          (2 ^ 64) ltac:(lia)); lia).
        reflexivity.
  - intros Hx H3.
    assert (Hc : starts_with "C'" u = false).
    { unfold starts_with in *. destruct u as [|c r]; [discriminate |].
      cbn [String.prefix] in Hx |- *.
      destruct (ascii_dec "X" c) as [<- |]; [reflexivity | discriminate]. }
    split.
    + unfold advance_LC. rewrite Hb. cbn [String.eqb Ascii.eqb Bool.eqb].
      fold u. rewrite Hc, Hx, Hm3 by exact H3. reflexivity.
    + unfold hexToByteCode. rewrite Hne by lia. fold u. rewrite Hc, Hx.
      rewrite Hsub by exact H3.
      rewrite str_take_length, str_drop_length, Hun. lia.
Qed.

Lemma byte_constant_sizes_witness :
  advance_LC 0x1000 "BYTE" "C'EOF'" = Some 0x1003%Z
  /\ String.length (hexToByteCode "C'EOF'") = 6
  /\ advance_LC 0x1000 "BYTE" "X'ABC'" = Some 0x1001%Z
  /\ String.length (hexToByteCode "X'ABC'") = 3
  /\ advance_LC 0x1000 "BYTE" "C'" = Some 0xFFF%Z.
Proof.
  destruct (byte_constant_sizes 0x1000 "C'EOF'" ltac:(reflexivity)) as [Hc _].
  destruct (Hc eq_refl) as [H1 _]. destruct (H1 ltac:(cbn; lia) eq_refl) as [Ha Hb].
  destruct (byte_constant_sizes 0x1000 "X'ABC'" ltac:(reflexivity)) as [_ Hx].
  destruct (Hx eq_refl ltac:(cbn; lia)) as [Hc1 Hd].
  destruct (byte_constant_sizes 0x1000 "C'" ltac:(reflexivity)) as [He _].
  destruct (He eq_refl) as [_ H2]. destruct (H2 eq_refl) as [Hf _].
  exact (conj Ha (conj Hb (conj Hc1 (conj Hd Hf)))).
Defined.

(** A value with a non-zero nibble at position [k] prints more than [k]
    digits. *)
Lemma strip_zeros_large (k : nat) (v : Z) : forall j,
  (16 ^ Z.of_nat k <= v < 16 ^ Z.of_nat j)%Z ->
  k < String.length (strip_zeros (hex_nibbles j v)).
Proof.
  induction j as [|j IH]; intros Hv.
  - assert (0 < 16 ^ Z.of_nat k)%Z by (apply Z.pow_pos_nonneg; lia).
    change (16 ^ Z.of_nat 0)%Z with 1%Z in Hv. lia.
  - assert (Hp : (0 < 16 ^ Z.of_nat j)%Z) by (apply Z.pow_pos_nonneg; lia).
    assert (Hk : k < S j).
    { destruct (Nat.lt_ge_cases k (S j)) as [H | H]; [exact H |].
      assert (16 ^ Z.of_nat (S j) <= 16 ^ Z.of_nat k)%Z
        by (apply Z.pow_le_mono_r; lia).
      lia. }
    cbn [hex_nibbles].
    assert (Hd : (0 <= v / 16 ^ Z.of_nat j < 16)%Z).
    { split; [apply Z.div_pos; lia |].
      apply Z.div_lt_upper_bound; [lia |].
      rewrite Nat2Z.inj_succ, Z.pow_succ_r in Hv by lia. lia. }
    rewrite (Z.mod_small _ 16) by exact Hd.
    destruct (Z.eq_dec (v / 16 ^ Z.of_nat j)%Z 0%Z) as [H0 | H0].
    + rewrite H0, hex_digit_0. cbn [strip_zeros].
      change (Ascii.eqb "0" "0") with true.
      assert (Hlt : (v < 16 ^ Z.of_nat j)%Z).
      { apply Z.div_small_iff in H0; lia. }
      destruct j as [|j].
      { change (16 ^ Z.of_nat 0)%Z with 1%Z in Hlt.
        assert (0 < 16 ^ Z.of_nat k)%Z by (apply Z.pow_pos_nonneg; lia). lia. }
      cbn [hex_nibbles str_empty negb andb]. apply IH. lia.
    + cbn [strip_zeros]. rewrite hex_digit_high by lia. cbn [andb String.length].
      rewrite hex_nibbles_length. lia.
Qed.

Lemma stoi_base_range (base : Z) (s : string) (v : Z) :
  stoi_base base s = Some v -> (INT_MIN <= v <= INT_MAX)%Z.
Proof.
  unfold stoi_base.
  destruct (match skip_space s with
            | String "-" r => (true, r)
            | String "+" r => (false, r)
            | _ => (false, skip_space s)
            end) as [neg s2].
  destruct (parse_digits base _ None) as [v0|]; [| discriminate].
  destruct ((INT_MIN <=? _)%Z && (_ <=? INT_MAX)%Z) eqn:E; [| discriminate].
  intros H. injection H as <-.
  apply andb_prop in E. destruct E as [E1 E2].
  apply Z.leb_le in E1, E2. lia.
Qed.

(** X8: a WORD operand that [hexToByteCode] takes for a decimal number (a
    digit first, or a sign and then a digit) and that [stoi] reads as [v]
    becomes [toHex(v, 6)]: 6 characters, three bytes, for [v] from 0 up to
    2^24, but 7 or 8 characters for a larger or a negative [v], although
    Pass I always reserves three bytes for a WORD. *)
Theorem word_constant_sizes :
  forall (lc : Z) (opd : string) (v : Z),
    let u := transform toupper opd in
    isdigit (first_char u)
    || (Nat.ltb 1 (String.length u)
        && (Ascii.eqb (first_char u) "-" || Ascii.eqb (first_char u) "+")
        && isdigit (second_char u)) = true ->
    stoi u = Some v ->
    advance_LC lc "WORD" opd = Some (wrap32 (lc + 3))
    /\ hexToByteCode opd = toHex v 6
    /\ ((0 <= v < 2 ^ 24)%Z -> String.length (hexToByteCode opd) = 6)
    /\ ((v < 0 \/ 2 ^ 24 <= v)%Z -> 6 < String.length (hexToByteCode opd) <= 8).
Proof.
  intros lc opd v u Hd Hv.
  destruct OPTAB_BYTE as [_ Hw].
  assert (Hh : hexToByteCode opd = toHex v 6).
  { unfold hexToByteCode. fold u.
    destruct opd as [|c0 r0].
    { cbn in Hd. discriminate. }
    cbn [str_empty].
    destruct u as [|c r] eqn:Eu; [discriminate |].
    assert (Hc : starts_with "C'" (String c r) = false).
    { unfold starts_with. cbn [String.prefix].
      destruct (ascii_dec "C" c) as [<- |]; [| reflexivity].
      cbn in Hd. discriminate. }
    assert (Hx : starts_with "X'" (String c r) = false).
    { unfold starts_with. cbn [String.prefix].
      destruct (ascii_dec "X" c) as [<- |]; [| reflexivity].
      cbn in Hd. discriminate. }
    rewrite Hc, Hx, Hd, Hv. reflexivity. }
  split; [| split; [exact Hh | split]].
  - unfold advance_LC. rewrite Hw. reflexivity.
  - intros Hr. rewrite Hh. apply toHex_length_small; [lia | | lia].
    change (16 ^ Z.of_nat 6)%Z with (2 ^ 24)%Z. exact Hr.
  - intros Hr. rewrite Hh.
    pose proof (stoi_base_range 10 u v Hv) as Hrange.
    destruct Hr as [Hneg | Hbig].
    + rewrite toHex_length_negative by lia. cbn. lia.
    + pose proof (toHex_length_le v 6) as Hle. split; [| cbn in Hle; lia].
      unfold toHex. rewrite pad_left_length.
      unfold INT_MAX in Hrange. rewrite Z.mod_small by lia.
      pose proof (strip_zeros_large 6 v 8) as Hl.
      change (16 ^ Z.of_nat 6)%Z with (2 ^ 24)%Z in Hl.
      change (16 ^ Z.of_nat 8)%Z with (2 ^ 32)%Z in Hl.
      specialize (Hl ltac:(lia)). lia.
Qed.

Lemma word_constant_sizes_witness :
  hexToByteCode "10" = toHex 10 6
  /\ String.length (hexToByteCode "10") = 6
  /\ 6 < String.length (hexToByteCode "-1") <= 8.
Proof.
  destruct (word_constant_sizes 0 "10" 10 eq_refl eq_refl) as (_ & H1 & H2 & _).
  destruct (word_constant_sizes 0 "-1" (-1) eq_refl eq_refl) as (_ & _ & _ & H3).
  split; [exact H1 |]. split; [apply H2; lia | apply H3; lia].
Defined.

End AssemblerMore.

(** ** Page replacement: what the frames hold *)
Section PageReplacementMore.
Import Cpp PageReplacement.

Lemma resident_elem (p : Z) (frames : list Z) :
  resident p frames = true <-> p ∈ frames.
Proof.
  unfold resident. induction frames as [|f l IH]; cbn [existsb].
  - split; [discriminate | intros H; inversion H].
  - rewrite orb_true_iff, IH, elem_of_cons, Z.eqb_eq. tauto.
Qed.

Lemma not_resident_elem (p : Z) (frames : list Z) :
  resident p frames = false <-> p ∉ frames.
Proof.
  rewrite <- resident_elem. destruct (resident p frames); split; congruence.
Qed.

Lemma replace_notin (victim p : Z) (l : list Z) :
  victim ∉ l -> replace victim p l = l.
Proof.
  unfold replace. induction l as [|f l IH]; intros H; [reflexivity |].
  apply not_elem_of_cons in H. destruct H as [Hf Hl]. cbn [map].
  destruct (Z.eqb_spec f victim) as [-> |]; [contradiction |].
  now rewrite IH.
Qed.

Lemma elem_replace (victim p x : Z) (l : list Z) :
  x ∈ replace victim p l <-> (x = p /\ victim ∈ l) \/ (x ∈ l /\ x <> victim).
Proof.
  unfold replace. induction l as [|f l IH]; cbn [map].
  - split; [intros H; inversion H | intros [[_ H] | [H _]]; inversion H].
  - rewrite elem_of_cons, IH, !elem_of_cons.
    destruct (Z.eqb_spec f victim) as [-> | Hne];
      intuition (subst; auto; congruence).
Qed.

Lemma NoDup_replace (victim p : Z) (l : list Z) :
  NoDup l -> p ∉ l -> NoDup (replace victim p l).
Proof.
  induction l as [|f l IH]; intros Hd Hp; [constructor |].
  apply NoDup_cons in Hd. destruct Hd as [Hf Hd].
  apply not_elem_of_cons in Hp. destruct Hp as [Hpf Hp].
  unfold replace. cbn [map]. fold (replace victim p l).
  destruct (Z.eqb_spec f victim) as [-> | Hne].
  - rewrite replace_notin by exact Hf. apply NoDup_cons. auto.
  - apply NoDup_cons. split; [| auto].
    rewrite elem_replace. intros [[-> _] | [H _]]; [now apply Hpf | contradiction].
Qed.

(** *** FIFO *)

Lemma fifo_step_inv (capacity : Z) (st st' : fifo_state) (p : Z) :
  fifo_inv capacity st ->
  fifo_step capacity st p = Some st' ->
  fifo_inv capacity st'
  /\ p ∈ fifo_frames st'
  /\ (forall f, f ∈ fifo_frames st' -> f = p \/ f ∈ fifo_frames st).
Proof.
  intros (Hd & Hq & Hl). unfold fifo_step.
  destruct (resident p (fifo_frames st)) eqn:Hres.
  { intros H. injection H as <-. unfold fifo_inv. cbn [fifo_frames fifo_q].
    apply resident_elem in Hres. repeat split; auto. }
  apply not_resident_elem in Hres.
  destruct (has_room (fifo_frames st) capacity) eqn:Hroom.
  { intros H. injection H as <-. unfold fifo_inv. cbn [fifo_frames fifo_q].
    unfold has_room in Hroom. apply Z.ltb_lt in Hroom.
    split; [split; [| split] | split].
    - apply NoDup_app. split; [exact Hd |]. split; [| apply NoDup_singleton].
      intros x Hx Hx'. apply list_elem_of_singleton in Hx'. now subst.
    - now rewrite Hq.
    - rewrite length_app. cbn. lia.
    - apply elem_of_app. right. now apply list_elem_of_singleton.
    - intros f Hf. apply elem_of_app in Hf. destruct Hf as [Hf | Hf]; [auto |].
      apply list_elem_of_singleton in Hf. auto. }
  destruct (fifo_q st) as [|victim q] eqn:Eq; [discriminate |].
  intros H. injection H as <-. unfold fifo_inv. cbn [fifo_frames fifo_q].
  assert (Hdq : NoDup (victim :: q)) by now rewrite Hq.
  apply NoDup_cons in Hdq. destruct Hdq as [Hvq Hdq].
  assert (Hv : victim ∈ fifo_frames st).
  { rewrite <- Hq. apply elem_of_cons. auto. }
  assert (Hin : forall x, x ∈ q <-> x ∈ fifo_frames st /\ x <> victim).
  { intros x. rewrite <- Hq, elem_of_cons. split.
    - intros H. split; [auto |]. intros ->. contradiction.
    - intros [[-> | H] Hne]; [contradiction | exact H]. }
  split; [split; [| split] | split].
  - apply NoDup_replace; assumption.
  - apply NoDup_Permutation.
    + apply NoDup_app. split; [exact Hdq |]. split; [| apply NoDup_singleton].
      intros x Hx Hx'. apply list_elem_of_singleton in Hx'. subst x.
      apply Hin in Hx. tauto.
    + apply NoDup_replace; assumption.
    + intros x. rewrite elem_of_app, list_elem_of_singleton, elem_replace, Hin. tauto.
  - now rewrite replace_length.
  - apply elem_replace. auto.
  - intros f Hf. apply elem_replace in Hf. tauto.
Qed.

Lemma fifo_run_inv (capacity : Z) (pages : list Z) :
  to_size_t capacity <> 0%Z ->
  exists st, fifo pages capacity = Some st
             /\ fifo_inv capacity st
             /\ (forall p, last pages = Some p -> p ∈ fifo_frames st)
             /\ (forall f, f ∈ fifo_frames st -> f ∈ pages).
Proof.
  intros Hc. unfold fifo.
  induction pages as [|p l IH] using rev_ind.
  - exists fifo_init. split; [reflexivity |]. split; [| split].
    + split; [constructor | split; [reflexivity |]]. cbn.
      apply to_size_t_pos in Hc. lia.
    + discriminate.
    + intros f Hf. inversion Hf.
  - destruct IH as (st & Hrun & Hinv & _ & Hsub).
    rewrite run_steps_snoc, Hrun.
    destruct (fifo_defined capacity [p] Hc st) as [st' Hst'].
    { destruct Hinv as (_ & Hq & _). now rewrite Hq. }
    cbn [run_steps] in Hst'.
    destruct (fifo_step capacity st p) as [st1|] eqn:E; [| discriminate].
    injection Hst' as <-.
    destruct (fifo_step_inv capacity st st1 p Hinv E) as (Hinv' & Hp & Hfr).
    exists st1. split; [reflexivity |]. split; [exact Hinv' |]. split.
    + intros p' Hl. rewrite last_snoc in Hl. injection Hl as <-. exact Hp.
    + intros f Hf. apply elem_of_app. destruct (Hfr f Hf) as [-> | H].
      * right. now apply list_elem_of_singleton.
      * left. auto.
Qed.

(** X9: with a capacity that is not zero as a [size_t], FIFO ends with
    frames that hold no page twice and no more pages than the capacity, the
    queue holds exactly the resident pages, only referenced pages are
    resident, and the last page referenced is resident. *)
Theorem fifo_frames_invariant :
  forall (pages : list Z) (capacity : Z),
    to_size_t capacity <> 0%Z ->
    exists st, fifo pages capacity = Some st
               /\ NoDup (fifo_frames st)
               /\ fifo_q st ≡ₚ fifo_frames st
               /\ (Z.of_nat (length (fifo_frames st)) <= to_size_t capacity)%Z
               /\ (forall p, last pages = Some p -> p ∈ fifo_frames st)
               /\ (forall f, f ∈ fifo_frames st -> f ∈ pages).
Proof.
  intros pages capacity Hc.
  destruct (fifo_run_inv capacity pages Hc) as (st & Hrun & (Hd & Hq & Hl) & Hp & Hs).
  exists st. auto 10.
Qed.

Lemma fifo_frames_invariant_witness :
  exists st, fifo sample_pages sample_capacity = Some st
             /\ NoDup (fifo_frames st)
             /\ fifo_q st ≡ₚ fifo_frames st
             /\ (Z.of_nat (length (fifo_frames st)) <= 3)%Z
             /\ 2%Z ∈ fifo_frames st.
Proof.
  destruct (fifo_frames_invariant sample_pages sample_capacity)
    as (st & H1 & H2 & H3 & H4 & H5 & _); [vm_compute; discriminate |].
  exists st. repeat split; auto.
Defined.

(** *** LRU *)

Lemma last_ref_fold_fst (f : Z) (l : list Z) : forall t r,
  fst (fold_left (fun tr x => ((fst tr + 1)%Z,
                               if (x =? f)%Z then (fst tr + 1)%Z else snd tr))
                 l (t, r))
  = (t + Z.of_nat (length l))%Z.
Proof.
  induction l as [|x l IH]; intros t r; cbn [fold_left length fst snd]; [lia |].
  rewrite IH. lia.
Qed.

Lemma last_ref_snoc (l : list Z) (x f : Z) :
  last_ref (l ++ [x]) f
  = if (x =? f)%Z then (Z.of_nat (length l) + 1)%Z else last_ref l f.
Proof.
  unfold last_ref. rewrite fold_left_app. cbn [fold_left snd].
  rewrite last_ref_fold_fst. destruct (x =? f)%Z; [lia | reflexivity].
Qed.

Lemma last_ref_bounds (f : Z) (l : list Z) :
  (0 <= last_ref l f <= Z.of_nat (length l))%Z
  /\ (f ∈ l -> (1 <= last_ref l f)%Z).
Proof.
  induction l as [|x l IH] using rev_ind.
  - split; [cbn; lia | intros H; inversion H].
  - rewrite last_ref_snoc, length_app. cbn [length].
    destruct (Z.eqb_spec x f) as [-> | Hne].
    + split; [lia | intros _; lia].
    + split; [lia |]. intros H. apply elem_of_app in H.
      destruct H as [H | H]; [now apply IH |].
      apply list_elem_of_singleton in H. congruence.
Qed.

Lemma last_used_insert (m : gmap Z Z) (p t f : Z) :
  last_used (<[p := t]> m) f = if (p =? f)%Z then t else last_used m f.
Proof.
  unfold last_used. destruct (Z.eqb_spec p f) as [-> | Hne].
  - now rewrite lookup_insert_eq.
  - now rewrite lookup_insert_ne.
Qed.

(** The scan keeps its initial candidate when no frame was used before
    [m0], and otherwise ends on a frame with the least time of use. *)
Lemma lru_scan_spec (m : gmap Z Z) (frames : list Z) : forall f0 m0,
  let r := lru_scan m frames (f0, m0) in
  (fst r = f0 /\ snd r = m0 /\ forall f, f ∈ frames -> (m0 <= last_used m f)%Z)
  \/ (fst r ∈ frames /\ snd r = last_used m (fst r) /\ (snd r < m0)%Z
      /\ forall f, f ∈ frames -> (snd r <= last_used m f)%Z).
Proof.
  unfold lru_scan. induction frames as [|f l IH]; intros f0 m0; cbn [fold_left].
  - left. split; [reflexivity |]. split; [reflexivity |]. intros f H. inversion H.
  - destruct (Z.ltb_spec (last_used m f) m0) as [Hlt | Hge].
    + destruct (IH f (last_used m f)) as [(E1 & E2 & Hall) | (Hin & E2 & Hlt' & Hall)].
      * right. rewrite E1, E2. split; [apply elem_of_cons; auto |].
        split; [reflexivity |]. split; [exact Hlt |].
        intros g Hg. apply elem_of_cons in Hg. destruct Hg as [-> | Hg]; [lia | auto].
      * right. split; [apply elem_of_cons; auto |]. split; [exact E2 |].
        split; [lia |].
        intros g Hg. apply elem_of_cons in Hg. destruct Hg as [-> | Hg]; [lia | auto].
    + destruct (IH f0 m0) as [(E1 & E2 & Hall) | (Hin & E2 & Hlt' & Hall)].
      * left. split; [exact E1 |]. split; [exact E2 |].
        intros g Hg. apply elem_of_cons in Hg. destruct Hg as [-> | Hg]; [lia | auto].
      * right. split; [apply elem_of_cons; auto |]. split; [exact E2 |].
        split; [exact Hlt' |].
        intros g Hg. apply elem_of_cons in Hg. destruct Hg as [-> | Hg]; [lia | auto].
Qed.

(** The page the scan of [lru] ends on is resident, and, while the time
    stays an [int], no resident page was used before it. *)
Lemma lru_victim (m : gmap Z Z) (f0 : Z) (l : list Z) :
  let victim := fst (lru_scan m (f0 :: l) (f0, INT_MAX)) in
  victim ∈ f0 :: l
  /\ ((forall f, f ∈ f0 :: l -> (last_used m f <= INT_MAX)%Z) ->
      forall f, f ∈ f0 :: l -> (last_used m victim <= last_used m f)%Z).
Proof.
  intros victim. subst victim.
  destruct (lru_scan_spec m (f0 :: l) f0 INT_MAX) as [(E1 & E2 & Hall) | (Hin & E2 & _ & Hall)].
  - rewrite E1. split; [apply elem_of_cons; auto |].
    intros Hb f Hf. pose proof (Hall f Hf). pose proof (Hb f0 ltac:(apply elem_of_cons; auto)).
    lia.
  - split; [exact Hin |]. intros _ f Hf. rewrite <- E2. auto.
Qed.

Lemma lru_step_inv (capacity : Z) (seen : list Z) (st st' : lru_state) (p : Z) :
  lru_inv capacity seen st ->
  lru_step capacity st p = Some st' ->
  lru_inv capacity (seen ++ [p]) st' /\ p ∈ lru_frames st'.
Proof.
  intros (Hd & Hl & Ht & Hu & Hs).
  assert (Hu' : forall m, (forall f, last_used m f = last_ref seen f) ->
                forall f, last_used (<[p := (lru_time st + 1)%Z]> m) f
                          = last_ref (seen ++ [p]) f).
  { intros m Hm f. rewrite last_used_insert, last_ref_snoc, Ht, Hm. reflexivity. }
  assert (Ht' : (lru_time st + 1)%Z = Z.of_nat (length (seen ++ [p]))).
  { rewrite length_app. cbn. lia. }
  unfold lru_step.
  destruct (resident p (lru_frames st)) eqn:Hres.
  { intros H. injection H as <-. unfold lru_inv.
    cbn [lru_frames lastUsed lru_time].
    apply resident_elem in Hres.
    split; [| exact Hres]. split; [exact Hd |]. split; [exact Hl |].
    split; [exact Ht' |]. split; [now apply Hu' |].
    intros f Hf. apply elem_of_app. auto. }
  apply not_resident_elem in Hres.
  destruct (has_room (lru_frames st) capacity) eqn:Hroom.
  { intros H. injection H as <-. unfold lru_inv.
    cbn [lru_frames lastUsed lru_time].
    unfold has_room in Hroom. apply Z.ltb_lt in Hroom.
    split; [| apply elem_of_app; right; now apply list_elem_of_singleton].
    split; [| split; [| split; [exact Ht' | split; [now apply Hu' |]]]].
    - apply NoDup_app. split; [exact Hd |]. split; [| apply NoDup_singleton].
      intros x Hx Hx'. apply list_elem_of_singleton in Hx'. now subst.
    - rewrite length_app. cbn. lia.
    - intros f Hf. apply elem_of_app in Hf. apply elem_of_app.
      destruct Hf as [Hf | Hf]; auto. }
  destruct (lru_frames st) as [|f0 l] eqn:Efr; [discriminate |].
  intros H. destruct (lru_victim (lastUsed st) f0 l) as [Hv _].
  set (victim := fst (lru_scan (lastUsed st) (f0 :: l) (f0, INT_MAX))) in *.
  injection H as <-. unfold lru_inv.
  cbn [lru_frames lastUsed lru_time].
  split; [| apply (proj2 (elem_replace victim p p (f0 :: l))); auto].
  split; [| split; [| split; [exact Ht' | split; [now apply Hu' |]]]].
  - exact (NoDup_replace victim p (f0 :: l) Hd Hres).
  - change (Z.of_nat (length (replace victim p (f0 :: l))) <= to_size_t capacity)%Z.
    now rewrite replace_length.
  - intros f Hf. apply (elem_replace victim p f (f0 :: l)) in Hf. apply elem_of_app.
    destruct Hf as [[-> _] | [Hf _]]; [right; now apply list_elem_of_singleton | auto].
Qed.

Lemma lru_init_inv (capacity : Z) : lru_inv capacity [] lru_init.
Proof.
  unfold lru_inv, lru_init. cbn [lru_frames lastUsed lru_time length].
  split; [constructor |]. split.
  { unfold to_size_t. pose proof (Z.mod_pos_bound capacity (2 ^ 64) ltac:(lia)).
    cbn [length]. lia. }
  split; [reflexivity |]. split; [| intros f H; inversion H].
  intros f. unfold last_used. now rewrite lookup_empty.
Qed.

Lemma lru_run_inv (capacity : Z) (pages : list Z) :
  to_size_t capacity <> 0%Z ->
  exists st, run_steps (lru_step capacity) pages lru_init = Some st
             /\ lru_inv capacity pages st
             /\ (forall p, last pages = Some p -> p ∈ lru_frames st).
Proof.
  intros Hc. induction pages as [|p l IH] using rev_ind.
  - exists lru_init. split; [reflexivity |]. split; [apply lru_init_inv | discriminate].
  - destruct IH as (st & Hrun & Hinv & _).
    rewrite run_steps_snoc, Hrun.
    destruct (lru_defined capacity [p] Hc st) as [st' Hst'].
    cbn [run_steps] in Hst'.
    destruct (lru_step capacity st p) as [st1|] eqn:E; [| discriminate].
    destruct (lru_step_inv capacity l st st1 p Hinv E) as [Hinv' Hp].
    exists st1. split; [reflexivity |]. split; [exact Hinv' |].
    intros p' Hl. rewrite last_snoc in Hl. injection Hl as <-. exact Hp.
Qed.

(** X10: with a capacity that is not zero as a [size_t], LRU ends with
    frames that hold no page twice and no more pages than the capacity, only
    referenced pages are resident, the last page referenced is resident,
    [time] is the number of references, and [lastUsed] gives every page the
    position of its last reference (0 for a page never referenced). *)
Theorem lru_frames_invariant :
  forall (pages : list Z) (capacity : Z),
    to_size_t capacity <> 0%Z ->
    exists st, lru pages capacity = Some st
               /\ NoDup (lru_frames st)
               /\ (Z.of_nat (length (lru_frames st)) <= to_size_t capacity)%Z
               /\ (forall f, f ∈ lru_frames st -> f ∈ pages)
               /\ (forall p, last pages = Some p -> p ∈ lru_frames st)
               /\ lru_time st = Z.of_nat (length pages)
               /\ (forall f, last_used (lastUsed st) f = last_ref pages f).
Proof.
  intros pages capacity Hc.
  destruct (lru_run_inv capacity pages Hc) as (st & Hrun & (Hd & Hl & Ht & Hu & Hs) & Hp).
  exists st. auto 10.
Qed.

Lemma lru_frames_invariant_witness :
  exists st, lru sample_pages sample_capacity = Some st
             /\ NoDup (lru_frames st)
             /\ (Z.of_nat (length (lru_frames st)) <= 3)%Z
             /\ 2%Z ∈ lru_frames st
             /\ last_used (lastUsed st) 0 = 11%Z.
Proof.
  destruct (lru_frames_invariant sample_pages sample_capacity)
    as (st & H1 & H2 & H3 & _ & H5 & _ & H7); [vm_compute; discriminate |].
  exists st. split; [exact H1 |]. split; [exact H2 |]. split; [exact H3 |].
  split; [apply H5; reflexivity |]. rewrite H7. reflexivity.
Defined.

(** X11: when LRU replaces a page (a miss with every frame in use, in a
    reference string of at most [INT_MAX] pages), the page replaced is a
    resident one whose last reference is not after that of any other
    resident page; the referenced page takes its place and the victim is
    no longer resident. *)
Theorem lru_evicts_least_recent :
  forall (pages : list Z) (capacity : Z) (i : nat) (p : Z) (st : lru_state),
    to_size_t capacity <> 0%Z ->
    (Z.of_nat (length pages) <= INT_MAX)%Z ->
    lru_before pages capacity i = Some st ->
    pages !! i = Some p ->
    resident p (lru_frames st) = false ->
    has_room (lru_frames st) capacity = false ->
    exists victim st',
      victim ∈ lru_frames st
      /\ (forall f, f ∈ lru_frames st ->
                    (last_ref (take i pages) victim <= last_ref (take i pages) f)%Z)
      /\ lru_before pages capacity (S i) = Some st'
      /\ lru_frames st' = replace victim p (lru_frames st)
      /\ p ∈ lru_frames st'
      /\ victim ∉ lru_frames st'.
Proof.
  intros pages capacity i p st Hc Hlen Hrun Hp Hres Hroom.
  unfold lru_before in *.
  destruct (lru_run_inv capacity (take i pages) Hc) as (st0 & Hrun0 & Hinv & _).
  rewrite Hrun in Hrun0. injection Hrun0 as <-.
  destruct Hinv as (Hd & Hl & Ht & Hu & Hs).
  rewrite (take_S_r pages i p Hp), run_steps_snoc, Hrun.
  unfold lru_step. rewrite Hres, Hroom.
  destruct (lru_frames st) as [|f0 l] eqn:Efr.
  { exfalso. now apply (no_room_nonempty [] capacity Hc Hroom). }
  destruct (lru_victim (lastUsed st) f0 l) as [Hv Hmin].
  set (victim := fst (lru_scan (lastUsed st) (f0 :: l) (f0, INT_MAX))) in *.
  exists victim, (mkLru (replace victim p (f0 :: l))
                        (<[p := (lru_time st + 1)%Z]> (lastUsed st))
                        (S (lru_faults st)) (lru_time st + 1)
                        (lru_out st ++ [PageFault p (replace victim p (f0 :: l))])).
  cbn [lru_frames].
  split; [exact Hv |]. split; [| split; [reflexivity | split; [reflexivity | split]]].
  - intros f Hf. rewrite <- !Hu. apply Hmin; [| exact Hf].
    intros g _. rewrite Hu.
    pose proof (proj1 (last_ref_bounds g (take i pages))) as Hb.
    rewrite length_take in Hb. lia.
  - apply elem_replace. auto.
  - rewrite elem_replace. intros [[E _] | [_ E]]; [| now apply E].
    apply not_resident_elem in Hres. subst victim. rewrite <- E in Hres.
    contradiction.
Qed.

Lemma lru_evicts_least_recent_witness :
  exists victim st',
    victim ∈ [7; 0; 1]%Z
    /\ (forall f, f ∈ [7; 0; 1]%Z ->
                  (last_ref (take 3 sample_pages) victim
                   <= last_ref (take 3 sample_pages) f)%Z)
    /\ lru_before sample_pages sample_capacity 4 = Some st'
    /\ lru_frames st' = replace victim 2 [7; 0; 1]%Z
    /\ 2%Z ∈ lru_frames st'
    /\ victim ∉ lru_frames st'.
Proof.
  destruct (lru_defined sample_capacity (take 3 sample_pages)
              ltac:(vm_compute; discriminate) lru_init) as [st E].
  assert (Efr : lru_frames st = [7; 0; 1]%Z).
  { vm_compute in E. injection E as <-. reflexivity. }
  destruct (lru_evicts_least_recent sample_pages sample_capacity 3 2 st)
    as (victim & st' & H);
    [vm_compute; discriminate | vm_compute; discriminate | exact E | reflexivity
     | rewrite Efr; reflexivity | rewrite Efr; reflexivity |].
  rewrite Efr in H. exists victim, st'. exact H.
Defined.

(** *** Optimal *)

Lemma next_use_bounds (f : Z) (rest : list Z) : forall j,
  j <= next_use rest j f <= j + length rest.
Proof.
  induction rest as [|x rest IH]; intros j; cbn [next_use length]; [lia |].
  destruct (x =? f)%Z; [lia |]. specialize (IH (S j)). lia.
Qed.

Lemma next_ref_bounds (pages : list Z) (i : nat) (f : Z) :
  i < length pages -> S i <= next_ref pages i f <= length pages.
Proof.
  intros Hi. unfold next_ref.
  pose proof (next_use_bounds f (drop (S i) pages) (S i)) as H.
  rewrite length_drop in H. lia.
Qed.

(** A frame whose next reference is the very next one is the page at
    [i + 1]. *)
Lemma next_ref_next (pages : list Z) (i : nat) (f : Z) :
  S i < length pages -> next_ref pages i f = S i -> pages !! S i = Some f.
Proof.
  intros Hi. unfold next_ref.
  destruct (lookup_lt_is_Some_2 pages (S i) Hi) as [x Hx].
  rewrite (drop_S pages x (S i) Hx). cbn [next_use].
  destruct (Z.eqb_spec x f) as [-> | Hne]; [intros _; exact Hx |].
  pose proof (next_use_bounds f (drop (S (S i)) pages) (S (S i))). lia.
Qed.

Lemma next_ref_of_next (pages : list Z) (i : nat) (f : Z) :
  pages !! S i = Some f -> next_ref pages i f = S i.
Proof.
  intros Hx. unfold next_ref. rewrite (drop_S pages f (S i) Hx). cbn [next_use].
  now rewrite Z.eqb_refl.
Qed.

(** The loop over the frames: it stops at the first frame that is never
    referenced again; otherwise it keeps its initial victim when no frame is
    referenced after [farthest], and else ends on a frame referenced last. *)
Lemma choose_victim_spec (pages : list Z) (i : nat) (frames : list Z) :
  forall victim farthest,
    let v := choose_victim pages i frames victim farthest in
    (v ∈ frames /\ next_ref pages i v = length pages)
    \/ ((forall f, f ∈ frames -> next_ref pages i f <> length pages)
        /\ ((v = victim /\ forall f, f ∈ frames -> next_ref pages i f <= farthest)
            \/ (v ∈ frames /\ farthest < next_ref pages i v
                /\ forall f, f ∈ frames -> next_ref pages i f <= next_ref pages i v))).
Proof.
  induction frames as [|f l IH]; intros victim farthest; cbn [choose_victim].
  - right. split; [intros f H; inversion H |]. left.
    split; [reflexivity | intros f H; inversion H].
  - fold (next_ref pages i f).
    destruct (Nat.eqb_spec (next_ref pages i f) (length pages)) as [E | Hne].
    { left. split; [apply elem_of_cons; auto | exact E]. }
    destruct (Nat.ltb_spec farthest (next_ref pages i f)) as [Hlt | Hge].
    + destruct (IH f (next_ref pages i f)) as [[Hin E] | [Hall [[E Hle] | (Hin & Hlt' & Hle)]]].
      * left. split; [apply elem_of_cons; auto | exact E].
      * right. split.
        { intros g Hg. apply elem_of_cons in Hg. destruct Hg as [-> | Hg]; auto. }
        right. cbv zeta. rewrite E. split; [apply elem_of_cons; auto |].
        split; [exact Hlt |].
        intros g Hg. apply elem_of_cons in Hg. destruct Hg as [-> | Hg]; auto.
      * right. split.
        { intros g Hg. apply elem_of_cons in Hg. destruct Hg as [-> | Hg]; auto. }
        right. split; [apply elem_of_cons; auto |]. split; [lia |].
        intros g Hg. apply elem_of_cons in Hg. destruct Hg as [-> | Hg]; [lia | auto].
    + destruct (IH victim farthest) as [[Hin E] | [Hall [[E Hle] | (Hin & Hlt' & Hle)]]].
      * left. split; [apply elem_of_cons; auto | exact E].
      * right. split.
        { intros g Hg. apply elem_of_cons in Hg. destruct Hg as [-> | Hg]; auto. }
        left. split; [exact E |].
        intros g Hg. apply elem_of_cons in Hg. destruct Hg as [-> | Hg]; auto.
      * right. split.
        { intros g Hg. apply elem_of_cons in Hg. destruct Hg as [-> | Hg]; auto. }
        right. split; [apply elem_of_cons; auto |]. split; [exact Hlt' |].
        intros g Hg. apply elem_of_cons in Hg. destruct Hg as [-> | Hg]; [lia | auto].
Qed.

(** With two different pages resident, the victim of [optimal] is a resident
    page and none is referenced again later than it. *)
Lemma optimal_victim (pages : list Z) (i : nat) (frames : list Z) :
  i < length pages -> NoDup frames -> 2 <= length frames ->
  let v := choose_victim pages i frames (-1)%Z (S i) in
  v ∈ frames /\ forall f, f ∈ frames -> next_ref pages i f <= next_ref pages i v.
Proof.
  intros Hi Hd H2 v. subst v.
  destruct (choose_victim_spec pages i frames (-1)%Z (S i))
    as [[Hin E] | [Hall [[E Hle] | (Hin & Hlt & Hle)]]].
  - split; [exact Hin |]. intros f _. rewrite E. now apply next_ref_bounds.
  - exfalso. destruct frames as [|a [|b l]]; cbn [length] in H2; try lia.
    apply NoDup_cons in Hd. destruct Hd as [Hab _].
    assert (Ha : a ∈ a :: b :: l) by (apply elem_of_cons; auto).
    assert (Hb : b ∈ a :: b :: l) by (apply elem_of_cons; right; apply elem_of_cons; auto).
    pose proof (next_ref_bounds pages i a Hi) as Ba.
    pose proof (next_ref_bounds pages i b Hi) as Bb.
    pose proof (Hle a Ha) as La. pose proof (Hle b Hb) as Lb.
    pose proof (Hall a Ha) as Na.
    assert (Hi' : S i < length pages) by lia.
    pose proof (next_ref_next pages i a Hi' ltac:(lia)) as Ea.
    pose proof (next_ref_next pages i b Hi' ltac:(lia)) as Eb.
    rewrite Ea in Eb. injection Eb as ->. apply Hab, elem_of_cons. auto.
  - split; [exact Hin | exact Hle].
Qed.

Lemma optimal_step_inv (pages : list Z) (capacity : Z) (st : optimal_state)
    (i : nat) (p : Z) :
  (2 <= to_size_t capacity)%Z -> i < length pages ->
  optimal_inv capacity st ->
  let st' := optimal_step pages capacity st (i, p) in
  optimal_inv capacity st'
  /\ p ∈ opt_frames st'
  /\ (forall f, f ∈ opt_frames st' -> f = p \/ f ∈ opt_frames st).
Proof.
  intros Hc Hi [Hd Hl] st'. subst st'. unfold optimal_step, optimal_inv.
  destruct (resident p (opt_frames st)) eqn:Hres.
  { cbn [opt_frames]. apply resident_elem in Hres. auto. }
  apply not_resident_elem in Hres. cbn [opt_frames].
  destruct (has_room (opt_frames st) capacity) eqn:Hroom.
  { unfold has_room in Hroom. apply Z.ltb_lt in Hroom.
    split; [split |].
    - apply NoDup_app. split; [exact Hd |]. split; [| apply NoDup_singleton].
      intros x Hx Hx'. apply list_elem_of_singleton in Hx'. now subst.
    - rewrite length_app. cbn. lia.
    - split; [apply elem_of_app; right; now apply list_elem_of_singleton |].
      intros f Hf. apply elem_of_app in Hf. destruct Hf as [Hf | Hf]; [auto |].
      apply list_elem_of_singleton in Hf. auto. }
  unfold has_room in Hroom. apply Z.ltb_ge in Hroom.
  destruct (optimal_victim pages i (opt_frames st) Hi Hd ltac:(lia)) as [Hv _].
  split; [split |].
  - apply NoDup_replace; assumption.
  - now rewrite replace_length.
  - split; [apply elem_replace; auto |].
    intros f Hf. apply elem_replace in Hf. tauto.
Qed.

Lemma optimal_before_S (pages : list Z) (capacity : Z) (i : nat) (p : Z) :
  pages !! i = Some p ->
  optimal_before pages capacity (S i)
  = optimal_step pages capacity (optimal_before pages capacity i) (i, p).
Proof.
  intros Hp. unfold optimal_before.
  rewrite (take_S_r (indexed pages) i (i, p) (indexed_lookup pages i p Hp)).
  now rewrite fold_left_app.
Qed.

Lemma optimal_before_all (pages : list Z) (capacity : Z) :
  optimal_before pages capacity (length pages) = optimal pages capacity.
Proof.
  unfold optimal_before, optimal. rewrite take_ge; [reflexivity |].
  rewrite indexed_length. lia.
Qed.

Lemma optimal_run_inv (pages : list Z) (capacity : Z) :
  (2 <= to_size_t capacity)%Z ->
  forall i, i <= length pages ->
    optimal_inv capacity (optimal_before pages capacity i)
    /\ (forall f, f ∈ opt_frames (optimal_before pages capacity i) -> f ∈ take i pages)
    /\ (forall p, last (take i pages) = Some p ->
                  p ∈ opt_frames (optimal_before pages capacity i)).
Proof.
  intros Hc. induction i as [|i IH]; intros Hi.
  - change (optimal_before pages capacity 0) with optimal_init.
    change (take 0 pages) with (@nil Z).
    split; [| split; [intros f H; inversion H | discriminate]].
    split; [constructor | cbn; lia].
  - destruct (lookup_lt_is_Some_2 pages i ltac:(lia)) as [p Hp].
    destruct (IH ltac:(lia)) as (Hinv & Hsub & _).
    rewrite (optimal_before_S pages capacity i p Hp), (take_S_r pages i p Hp).
    destruct (optimal_step_inv pages capacity (optimal_before pages capacity i) i p
                Hc ltac:(lia) Hinv) as (Hinv' & Hin & Hfr).
    split; [exact Hinv' |]. split.
    + intros f Hf. apply elem_of_app. destruct (Hfr f Hf) as [-> | H].
      * right. now apply list_elem_of_singleton.
      * left. auto.
    + intros p' Hl. rewrite last_snoc in Hl. injection Hl as <-. exact Hin.
Qed.

(** X12: with at least two frames, Optimal ends with frames that hold no
    page twice and no more pages than the capacity, only referenced pages
    are resident, and the last page referenced is resident. *)
Theorem optimal_frames_invariant :
  forall (pages : list Z) (capacity : Z),
    (2 <= to_size_t capacity)%Z ->
    let st := optimal pages capacity in
    NoDup (opt_frames st)
    /\ (Z.of_nat (length (opt_frames st)) <= to_size_t capacity)%Z
    /\ (forall f, f ∈ opt_frames st -> f ∈ pages)
    /\ (forall p, last pages = Some p -> p ∈ opt_frames st).
Proof.
  intros pages capacity Hc st. subst st.
  destruct (optimal_run_inv pages capacity Hc (length pages) ltac:(lia))
    as ([Hd Hl] & Hs & Hp).
  rewrite optimal_before_all in *. rewrite firstn_all in *. auto.
Qed.

Lemma optimal_frames_invariant_witness :
  NoDup (opt_frames (optimal sample_pages sample_capacity))
  /\ 2%Z ∈ opt_frames (optimal sample_pages sample_capacity).
Proof.
  destruct (optimal_frames_invariant sample_pages sample_capacity)
    as (H1 & _ & _ & H4); [vm_compute; discriminate |].
  split; [exact H1 | apply H4; reflexivity].
Defined.

(** X13: when Optimal, with at least two frames, replaces a page (a miss
    with every frame in use), the page replaced is a resident one and no
    resident page is referenced again later than it, a page never referenced
    again counting as referenced at [pages.size()]; the referenced page
    takes its place. *)
Theorem optimal_evicts_farthest :
  forall (pages : list Z) (capacity : Z) (i : nat) (p : Z),
    (2 <= to_size_t capacity)%Z ->
    pages !! i = Some p ->
    let st := optimal_before pages capacity i in
    resident p (opt_frames st) = false ->
    has_room (opt_frames st) capacity = false ->
    exists victim,
      victim ∈ opt_frames st
      /\ (forall f, f ∈ opt_frames st -> next_ref pages i f <= next_ref pages i victim)
      /\ opt_frames (optimal_before pages capacity (S i))
         = replace victim p (opt_frames st)
      /\ p ∈ opt_frames (optimal_before pages capacity (S i))
      /\ victim ∉ opt_frames (optimal_before pages capacity (S i)).
Proof.
  intros pages capacity i p Hc Hp st Hres Hroom.
  assert (Hi : i < length pages) by (apply lookup_lt_is_Some_1; eauto).
  destruct (optimal_run_inv pages capacity Hc i ltac:(lia)) as ([Hd Hl] & _ & _).
  fold st in Hd, Hl.
  assert (H2 : 2 <= length (opt_frames st)).
  { unfold has_room in Hroom. apply Z.ltb_ge in Hroom. lia. }
  destruct (optimal_victim pages i (opt_frames st) Hi Hd H2) as [Hv Hmax].
  set (victim := choose_victim pages i (opt_frames st) (-1)%Z (S i)) in *.
  assert (E : opt_frames (optimal_before pages capacity (S i))
              = replace victim p (opt_frames st)).
  { rewrite (optimal_before_S pages capacity i p Hp). fold st.
    unfold optimal_step. rewrite Hres, Hroom. reflexivity. }
  exists victim. rewrite E.
  split; [exact Hv |]. split; [exact Hmax |]. split; [reflexivity |]. split.
  - apply elem_replace. auto.
  - rewrite elem_replace. intros [[E' _] | [_ E']]; [| now apply E'].
    apply not_resident_elem in Hres. rewrite <- E' in Hres. contradiction.
Qed.

Lemma optimal_evicts_farthest_witness :
  exists victim,
    victim ∈ [7; 0; 1]%Z
    /\ (forall f, f ∈ [7; 0; 1]%Z ->
                  next_ref sample_pages 3 f <= next_ref sample_pages 3 victim)
    /\ opt_frames (optimal_before sample_pages sample_capacity 4)
       = replace victim 2 [7; 0; 1]%Z.
Proof.
  destruct (optimal_evicts_farthest sample_pages sample_capacity 3 2)
    as (victim & H1 & H2 & H3 & _);
    [vm_compute; discriminate | reflexivity | reflexivity | reflexivity |].
  exists victim. split; [exact H1 |]. split; [exact H2 | exact H3].
Defined.

(** X14: with a single frame, Optimal does not load a page whose
    reference is followed at once by a reference to the resident page
    (other than -1): no frame is referenced after [i + 1], the victim stays
    -1 and [replace] finds nothing to replace.  The fault is counted and
    printed with the frames unchanged. *)
Theorem optimal_single_frame_keeps_page :
  forall (pages : list Z) (capacity : Z) (st : optimal_state) (i : nat) (p f : Z),
    to_size_t capacity = 1%Z ->
    opt_frames st = [f] ->
    p <> f -> f <> (-1)%Z ->
    pages !! S i = Some f ->
    optimal_step pages capacity st (i, p)
    = mkOpt [f] (S (opt_faults st)) (opt_out st ++ [PageFault p [f]]).
Proof.
  intros pages capacity st i p f Hc Hfr Hpf Hf Hnext.
  unfold optimal_step. rewrite Hfr.
  assert (Hres : resident p [f] = false).
  { apply not_resident_elem. intros H. apply list_elem_of_singleton in H. contradiction. }
  rewrite Hres. unfold has_room. rewrite Hc. cbn [length Z.of_nat Z.ltb Z.compare Pos.compare Pos.compare_cont].
  cbn [choose_victim]. fold (next_ref pages i f).
  rewrite (next_ref_of_next pages i f Hnext).
  assert (Hlen : S i < length pages) by (apply lookup_lt_is_Some_1; eauto).
  destruct (Nat.eqb_spec (S i) (length pages)) as [E | _]; [lia |].
  rewrite Nat.ltb_irrefl.
  unfold replace. cbn [map].
  destruct (Z.eqb_spec f (-1)) as [E | _]; [contradiction | reflexivity].
Qed.

Lemma optimal_single_frame_keeps_page_witness :
  optimal_step [1; 2; 1]%Z 1 (mkOpt [1%Z] 1 [PageFault 1 [1%Z]]) (1, 2%Z)
  = mkOpt [1%Z] 2 [PageFault 1 [1%Z]; PageFault 2 [1%Z]].
Proof.
  apply (optimal_single_frame_keeps_page [1; 2; 1]%Z 1
           (mkOpt [1%Z] 1 [PageFault 1 [1%Z]]) 1 2%Z 1%Z);
    [reflexivity | reflexivity | discriminate | discriminate | reflexivity].
Defined.

(** *** Enough frames for every page *)

Lemma first_refs_from_length (rest : list Z) : forall acc,
  length acc
  <= length (fold_left (fun acc p => if resident p acc then acc else acc ++ [p])
                       rest acc).
Proof.
  induction rest as [|p rest IH]; intros acc; cbn [fold_left]; [lia |].
  destruct (resident p acc); [apply IH |].
  etransitivity; [| apply IH]. rewrite length_app. cbn. lia.
Qed.

Lemma first_refs_from_elems (rest : list Z) : forall acc,
  NoDup acc ->
  NoDup (fold_left (fun acc p => if resident p acc then acc else acc ++ [p]) rest acc)
  /\ forall x,
       x ∈ fold_left (fun acc p => if resident p acc then acc else acc ++ [p]) rest acc
       <-> x ∈ acc \/ x ∈ rest.
Proof.
  induction rest as [|p rest IH]; intros acc Hd; cbn [fold_left].
  - split; [exact Hd |]. intros x. split; [auto | intros [H | H]; [exact H | inversion H]].
  - destruct (resident p acc) eqn:Hres.
    + destruct (IH acc Hd) as [H1 H2]. split; [exact H1 |].
      intros x. rewrite H2, elem_of_cons. apply resident_elem in Hres.
      split; [tauto |]. intros [H | [-> | H]]; auto.
    + apply not_resident_elem in Hres.
      assert (Hd' : NoDup (acc ++ [p])).
      { apply NoDup_app. split; [exact Hd |]. split; [| apply NoDup_singleton].
        intros x Hx Hx'. apply list_elem_of_singleton in Hx'. now subst. }
      destruct (IH (acc ++ [p]) Hd') as [H1 H2]. split; [exact H1 |].
      intros x. rewrite H2, elem_of_app, list_elem_of_singleton, elem_of_cons. tauto.
Qed.

Lemma fifo_enough (capacity : Z) (rest : list Z) : forall st,
  (Z.of_nat (length (fold_left (fun acc p => if resident p acc then acc else acc ++ [p])
                               rest (fifo_frames st)))
   <= to_size_t capacity)%Z ->
  exists st', run_steps (fifo_step capacity) rest st = Some st'
              /\ fifo_frames st'
                 = fold_left (fun acc p => if resident p acc then acc else acc ++ [p])
                             rest (fifo_frames st)
              /\ fifo_faults st' + length (fifo_frames st)
                 = fifo_faults st + length (fifo_frames st').
Proof.
  induction rest as [|p rest IH]; intros st Hl; cbn [fold_left run_steps] in *.
  - exists st. auto.
  - unfold fifo_step. destruct (resident p (fifo_frames st)) eqn:Hres.
    + destruct (IH (mkFifo (fifo_frames st) (fifo_q st) (fifo_faults st)
                           (fifo_out st ++ [NoPageFault p])) Hl) as (st' & H1 & H2 & H3).
      exists st'. auto.
    + pose proof (first_refs_from_length rest (fifo_frames st ++ [p])) as Hmono.
      rewrite length_app in Hmono. cbn [length] in Hmono.
      assert (Hroom : has_room (fifo_frames st) capacity = true)
        by (unfold has_room; apply Z.ltb_lt; lia).
      rewrite Hroom.
      destruct (IH (mkFifo (fifo_frames st ++ [p]) (fifo_q st ++ [p])
                           (S (fifo_faults st))
                           (fifo_out st ++ [PageFault p (fifo_frames st ++ [p])])) Hl)
        as (st' & H1 & H2 & H3).
      exists st'. split; [exact H1 |]. split; [exact H2 |].
      cbn [fifo_frames fifo_faults] in H3. rewrite length_app in H3. cbn [length] in H3. lia.
Qed.

Lemma lru_enough (capacity : Z) (rest : list Z) : forall st,
  (Z.of_nat (length (fold_left (fun acc p => if resident p acc then acc else acc ++ [p])
                               rest (lru_frames st)))
   <= to_size_t capacity)%Z ->
  exists st', run_steps (lru_step capacity) rest st = Some st'
              /\ lru_frames st'
                 = fold_left (fun acc p => if resident p acc then acc else acc ++ [p])
                             rest (lru_frames st)
              /\ lru_faults st' + length (lru_frames st)
                 = lru_faults st + length (lru_frames st').
Proof.
  induction rest as [|p rest IH]; intros st Hl; cbn [fold_left run_steps] in *.
  - exists st. auto.
  - unfold lru_step. destruct (resident p (lru_frames st)) eqn:Hres.
    + destruct (IH (mkLru (lru_frames st) (<[p := (lru_time st + 1)%Z]> (lastUsed st))
                          (lru_faults st) (lru_time st + 1)
                          (lru_out st ++ [NoPageFault p])) Hl) as (st' & H1 & H2 & H3).
      exists st'. auto.
    + pose proof (first_refs_from_length rest (lru_frames st ++ [p])) as Hmono.
      rewrite length_app in Hmono. cbn [length] in Hmono.
      assert (Hroom : has_room (lru_frames st) capacity = true)
        by (unfold has_room; apply Z.ltb_lt; lia).
      rewrite Hroom.
      destruct (IH (mkLru (lru_frames st ++ [p])
                          (<[p := (lru_time st + 1)%Z]> (lastUsed st))
                          (S (lru_faults st)) (lru_time st + 1)
                          (lru_out st ++ [PageFault p (lru_frames st ++ [p])])) Hl)
        as (st' & H1 & H2 & H3).
      exists st'. split; [exact H1 |]. split; [exact H2 |].
      cbn [lru_frames lru_faults] in H3. rewrite length_app in H3. cbn [length] in H3. lia.
Qed.

Lemma optimal_enough (pages : list Z) (capacity : Z) (rest : list (nat * Z)) :
  forall st,
    (Z.of_nat (length (fold_left (fun acc p => if resident p acc then acc else acc ++ [p])
                                 (map snd rest) (opt_frames st)))
     <= to_size_t capacity)%Z ->
    let st' := fold_left (optimal_step pages capacity) rest st in
    opt_frames st'
    = fold_left (fun acc p => if resident p acc then acc else acc ++ [p])
                (map snd rest) (opt_frames st)
    /\ opt_faults st' + length (opt_frames st)
       = opt_faults st + length (opt_frames st').
Proof.
  induction rest as [|[i p] rest IH]; intros st Hl; cbn [fold_left map snd] in *.
  - auto.
  - unfold optimal_step at 2 4 6. destruct (resident p (opt_frames st)) eqn:Hres.
    + destruct (IH (mkOpt (opt_frames st) (opt_faults st)
                          (opt_out st ++ [NoPageFault p])) Hl) as (H2 & H3).
      auto.
    + pose proof (first_refs_from_length (map snd rest) (opt_frames st ++ [p])) as Hmono.
      rewrite length_app in Hmono. cbn [length] in Hmono.
      assert (Hroom : has_room (opt_frames st) capacity = true)
        by (unfold has_room; apply Z.ltb_lt; lia).
      rewrite Hroom.
      destruct (IH (mkOpt (opt_frames st ++ [p]) (S (opt_faults st))
                          (opt_out st ++ [PageFault p (opt_frames st ++ [p])])) Hl)
        as (H2 & H3).
      split; [exact H2 |].
      cbn [opt_frames opt_faults] in H3. rewrite length_app in H3. cbn [length] in H3. lia.
Qed.

Lemma indexed_pages (pages : list Z) : map snd (indexed pages) = pages.
Proof.
  unfold indexed. generalize 0.
  induction pages as [|p l IH]; intros a; [reflexivity |].
  cbn [length seq combine map snd]. now rewrite IH.
Qed.

(** X15: [first_refs pages] lists every referenced page once.  When the
    capacity, as a [size_t], is at least the number of different pages, none
    of the three passes replaces a page: each ends with exactly these pages
    in its frames, in the order of their first reference, and counts one
    fault for each of them. *)
Theorem enough_frames_no_replacement :
  forall (pages : list Z) (capacity : Z),
    (NoDup (first_refs pages) /\ forall x, x ∈ first_refs pages <-> x ∈ pages)
    /\ ((Z.of_nat (length (first_refs pages)) <= to_size_t capacity)%Z ->
        (exists st, fifo pages capacity = Some st
                    /\ fifo_frames st = first_refs pages
                    /\ fifo_faults st = length (first_refs pages))
        /\ (exists st, lru pages capacity = Some st
                       /\ lru_frames st = first_refs pages
                       /\ lru_faults st = length (first_refs pages))
        /\ opt_frames (optimal pages capacity) = first_refs pages
        /\ opt_faults (optimal pages capacity) = length (first_refs pages)).
Proof.
  intros pages capacity. split.
  - destruct (first_refs_from_elems pages [] (NoDup_nil_2 (A:=Z))) as [H1 H2].
    split; [exact H1 |]. intros x. unfold first_refs. rewrite H2.
    split; [intros [H | H]; [inversion H | exact H] | auto].
  - intros Hl. split; [| split].
    + destruct (fifo_enough capacity pages fifo_init Hl) as (st & H1 & H2 & H3).
      exists st. split; [exact H1 |]. split; [exact H2 |].
      unfold first_refs. change (fifo_frames fifo_init) with (@nil Z) in H2, H3.
      change (fifo_faults fifo_init) with 0 in H3. rewrite H2 in H3.
      cbn [length] in H3. lia.
    + destruct (lru_enough capacity pages lru_init Hl) as (st & H1 & H2 & H3).
      exists st. split; [exact H1 |]. split; [exact H2 |].
      unfold first_refs. change (lru_frames lru_init) with (@nil Z) in H2, H3.
      change (lru_faults lru_init) with 0 in H3. rewrite H2 in H3.
      cbn [length] in H3. lia.
    + pose proof (optimal_enough pages capacity (indexed pages) optimal_init) as H.
      rewrite indexed_pages in H. destruct (H Hl) as [H2 H3].
      fold (optimal pages capacity) in H2, H3.
      change (opt_frames optimal_init) with (@nil Z) in H2, H3.
      change (opt_faults optimal_init) with 0 in H3.
      split; [exact H2 |]. rewrite H2 in H3. unfold first_refs.
      cbn [length] in H3. lia.
Qed.

Lemma enough_frames_no_replacement_witness :
  (exists st, fifo sample_pages 6 = Some st
              /\ fifo_frames st = [7; 0; 1; 2; 3; 4]%Z /\ fifo_faults st = 6)
  /\ opt_frames (optimal sample_pages (-1)) = [7; 0; 1; 2; 3; 4]%Z.
Proof.
  destruct (enough_frames_no_replacement sample_pages 6) as [_ H6].
  destruct (H6 ltac:(vm_compute; discriminate)) as [Hf _].
  destruct (enough_frames_no_replacement sample_pages (-1)) as [_ Hn].
  destruct (Hn ltac:(vm_compute; discriminate)) as (_ & _ & Ho & _).
  split; [exact Hf | exact Ho].
Defined.

End PageReplacementMore.

(** ** The macroprocessor: fields, tables and expansion *)
Section MacroMore.
Import Cpp Macro.

(** *** Splitting into fields *)

Lemma free_of_app (sep : ascii -> bool) (a b : string) :
  free_of sep (a +:+ b) = free_of sep a && free_of sep b.
Proof.
  induction a as [|c a IH]; [reflexivity |].
  rewrite str_app_cons. cbn [free_of]. rewrite IH. now rewrite andb_assoc.
Qed.

Lemma fields_from_free (sep : ascii -> bool) (s : string) : forall cur,
  free_of sep cur = true ->
  Forall (fun f => free_of sep f = true) (fields_from sep cur s).
Proof.
  induction s as [|c s IH]; intros cur Hc; cbn [fields_from].
  - destruct (str_empty cur); repeat constructor. exact Hc.
  - destruct (sep c) eqn:E.
    + destruct (str_empty cur); [now apply IH |].
      constructor; [exact Hc | now apply IH].
    + apply IH. rewrite free_of_app, Hc. cbn [free_of]. now rewrite E.
Qed.

Lemma fields_from_fields (sep : ascii -> bool) (s : string) :
  Forall (is_field sep) (fields_from sep EmptyString s).
Proof.
  pose proof (fields_from_nonempty sep s EmptyString) as H1.
  pose proof (fields_from_free sep s EmptyString eq_refl) as H2.
  rewrite Forall_forall in *. intros f Hf. split; auto.
Qed.

(** Reading a field: its characters are collected up to the separator. *)
Lemma fields_from_field (sep : ascii -> bool) (f : string) : forall cur rest,
  free_of sep f = true ->
  fields_from sep cur (f +:+ rest) = fields_from sep (cur +:+ f) rest.
Proof.
  induction f as [|c f IH]; intros cur rest Hf.
  - now rewrite str_app_nil_r.
  - cbn [free_of] in Hf. apply andb_prop in Hf. destruct Hf as [Hc Hf].
    apply negb_true_iff in Hc.
    rewrite str_app_cons. cbn [fields_from]. rewrite Hc.
    rewrite IH by exact Hf. now rewrite str_app_assoc.
Qed.

Lemma fields_from_concat (sep : ascii -> bool) (c : ascii) (fs : list string) :
  sep c = true ->
  Forall (is_field sep) fs ->
  fields_from sep EmptyString (String.concat (String c EmptyString) fs) = fs.
Proof.
  intros Hc. induction fs as [|f fs IH]; intros H; [reflexivity |].
  inversion H as [|? ? [Hne Hfree] Hfs]; subst.
  assert (He : str_empty f = false) by (destruct f; [contradiction | reflexivity]).
  destruct fs as [|g fs].
  - cbn [String.concat].
    rewrite <- (str_app_nil_r f) at 1.
    rewrite fields_from_field by exact Hfree.
    cbn [fields_from]. rewrite str_app_nil_l, He. reflexivity.
  - change (String.concat (String c EmptyString) (f :: g :: fs))
      with (f +:+ String c EmptyString +:+ String.concat (String c EmptyString) (g :: fs)).
    rewrite fields_from_field by exact Hfree.
    rewrite str_app_nil_l, str_app_cons. cbn [fields_from]. rewrite Hc, He.
    rewrite str_app_nil_l. now rewrite IH.
Qed.

Lemma fields_from_snoc_sep (sep : ascii -> bool) (c : ascii) (s : string) :
  sep c = true ->
  forall cur, fields_from sep cur (s +:+ String c EmptyString) = fields_from sep cur s.
Proof.
  intros Hc. induction s as [|x s IH]; intros cur.
  - cbn [fields_from String.append]. rewrite str_app_nil_l. cbn [fields_from].
    rewrite Hc. now destruct (str_empty cur).
  - rewrite str_app_cons. cbn [fields_from]. destruct (sep x); [| apply IH].
    destruct (str_empty cur); now rewrite IH.
Qed.

(** X16: [tokenize] and [extract_parameters] return fields that are not
    empty and hold no separator (white space, a comma); fields of that kind
    joined by one separator are given back as they were; white space before
    or after a line adds no token. *)
Theorem fields_round_trip :
  (forall line, Forall (is_field isspace) (tokenize line))
  /\ (forall c tokens,
         isspace c = true -> Forall (is_field isspace) tokens ->
         tokenize (String.concat (String c EmptyString) tokens) = tokens)
  /\ (forall c line,
         isspace c = true ->
         tokenize (String c line) = tokenize line
         /\ tokenize (line +:+ String c EmptyString) = tokenize line)
  /\ (forall operand_str,
         Forall (is_field (Ascii.eqb ",")) (extract_parameters operand_str))
  /\ (forall params,
         Forall (is_field (Ascii.eqb ",")) params ->
         extract_parameters (String.concat "," params) = params).
Proof.
  split; [| split; [| split; [| split]]].
  - intros line. apply fields_from_fields.
  - intros c tokens Hc H. now apply fields_from_concat.
  - intros c line Hc. split.
    + unfold tokenize. cbn [fields_from]. now rewrite Hc.
    + now apply fields_from_snoc_sep.
  - intros s. apply fields_from_fields.
  - intros params H. now apply (fields_from_concat (Ascii.eqb ",") ","%char).
Qed.

Lemma fields_round_trip_witness :
  tokenize (String.concat TAB ["LOOP"; "LOAD"; "X"]) = ["LOOP"; "LOAD"; "X"]
  /\ extract_parameters (String.concat "," ["&A"; "&B"]) = ["&A"; "&B"].
Proof.
  destruct fields_round_trip as (_ & Ht & _ & _ & Hp).
  split.
  - apply (Ht "009"%char); [reflexivity |].
    repeat constructor; discriminate.
  - apply Hp. repeat constructor; discriminate.
Defined.

(** *** The MACRO line *)

Lemma tokens_opcode_nonempty (line : string) :
  tokenize line <> [] -> opcode (parse_line (tokenize line)) <> EmptyString.
Proof.
  intros Hne. pose proof (fields_from_nonempty isspace line EmptyString) as H.
  fold (tokenize line) in H.
  destruct (tokenize line) as [|t0 [|t1 [|t2 ts]]]; [contradiction | | |];
    cbn [parse_line opcode]; inversion H as [|? ? H0 H1]; subst; auto;
    inversion H1; subst; auto.
Qed.

(** X17: the name of a macro is the first of at least three tokens.  A line
    of two tokens whose second is MACRO, as [NAME MACRO] for a macro
    without parameters, defines nothing: it is taken for an instruction
    [NAME] and copied, or stored as a body line.  A MACRO line of one or two
    tokens whose first is MACRO defines a macro with the empty name, and
    no line with a token has the empty opcode, so Pass II never looks that
    name up. *)
Theorem macro_name_needs_three_tokens :
  forall (st : pass1_state) (line : string),
    (forall name,
        tokenize line = [name; "MACRO"] -> name <> "MACRO" -> name <> "MEND" ->
        MNT (pass_one_line st line) = MNT st
        /\ in_macro (pass_one_line st line) = in_macro st
        /\ (in_macro st = false ->
            intermediate_file (pass_one_line st line)
            = intermediate_file st +:+ line +:+ NL)
        /\ (in_macro st = true ->
            MDT (pass_one_line st line)
            = MDT st ++ [substitute (formal_to_placeholder st) line]))
    /\ (forall rest,
           tokenize line = "MACRO" :: rest -> length rest <= 1 ->
           MNT (pass_one_line st line)
           = <[EmptyString := mkMNT (MDT_IDX st)
                                (length (extract_parameters (hd EmptyString rest)))]>
               (MNT st))
    /\ (forall name t2 rest,
           tokenize line = name :: "MACRO" :: t2 :: rest ->
           MNT (pass_one_line st line)
           = <[name := mkMNT (MDT_IDX st) (length (extract_parameters t2))]> (MNT st))
    /\ (tokenize line <> [] -> opcode (parse_line (tokenize line)) <> EmptyString).
Proof.
  intros st line. split; [| split; [| split]].
  - intros name Ht Hn1 Hn2.
    assert (Hop : opcode (parse_line (tokenize line)) = name) by now rewrite Ht.
    rewrite (pass_one_line_plain st line); [| rewrite Ht; discriminate
                                            | now rewrite Hop | now rewrite Hop].
    destruct (in_macro st); cbn [MNT in_macro intermediate_file MDT];
      repeat split; auto; discriminate.
  - intros rest Ht Hl. unfold pass_one_line. rewrite Ht.
    destruct rest as [|t1 [|t2 rest]]; [reflexivity | reflexivity |].
    cbn [length] in Hl. lia.
  - intros name t2 rest Ht. unfold pass_one_line. rewrite Ht. reflexivity.
  - apply tokens_opcode_nonempty.
Qed.

Lemma macro_name_needs_three_tokens_witness :
  MNT (pass_one_line (pass1_init ∅ [] 0) "CALC MACRO") = ∅
  /\ intermediate_file (pass_one_line (pass1_init ∅ [] 0) "CALC MACRO")
     = "CALC MACRO" +:+ NL.
Proof.
  destruct (macro_name_needs_three_tokens (pass1_init ∅ [] 0) "CALC MACRO")
    as [H _].
  destruct (H "CALC" eq_refl ltac:(discriminate) ltac:(discriminate))
    as (H1 & _ & H3 & _).
  split; [exact H1 | exact (H3 eq_refl)].
Defined.

(** *** The tables of Pass I *)

Lemma MNT_points_grow (mnt : gmap string MNTEntry) (mdt : list string) (l : string) :
  MNT_points_at_headers mnt mdt -> MNT_points_at_headers mnt (mdt ++ [l]).
Proof.
  intros H name e He. destruct (H name e He) as (line & Hl & Hrest).
  exists line. split; [| exact Hrest].
  now apply lookup_app_l_Some.
Qed.

Lemma macro_line_tables (st : pass1_state) (line : string) :
  MDT_IDX st = length (MDT st) ->
  MNT_points_at_headers (MNT st) (MDT st) ->
  MDT_IDX (pass_one_line st line) = length (MDT (pass_one_line st line))
  /\ MNT_points_at_headers (MNT (pass_one_line st line)) (MDT (pass_one_line st line))
  /\ (exists added, MDT (pass_one_line st line) = MDT st ++ added).
Proof.
  intros Hidx Hpts. unfold pass_one_line.
  destruct (tokenize line) as [|t ts] eqn:Et.
  { split; [exact Hidx |]. split; [exact Hpts |]. exists []. now rewrite app_nil_r. }
  rewrite <- Et.
  destruct (String.eqb (opcode (parse_line (tokenize line))) "MACRO") eqn:Ea.
  { cbn [MDT_IDX MDT MNT]. split; [rewrite length_app; cbn; lia |].
    split; [| now exists [line]].
    intros name e He.
    destruct (decide (label (parse_line (tokenize line)) = name)) as [En | En].
    - rewrite En, lookup_insert_eq in He. injection He as <-.
      cbn [start_index num_parameters]. exists line.
      rewrite Hidx. split; [apply list_lookup_middle; reflexivity |].
      split; [now apply String.eqb_eq |]. split; [exact En | reflexivity].
    - rewrite lookup_insert_ne in He by exact En.
      exact (MNT_points_grow _ _ line Hpts name e He). }
  destruct (String.eqb (opcode (parse_line (tokenize line))) "MEND").
  { cbn [MDT_IDX MDT MNT]. split; [rewrite length_app; cbn; lia |].
    split; [now apply MNT_points_grow | now exists [line]]. }
  destruct (in_macro st).
  - cbn [MDT_IDX MDT MNT]. split; [rewrite length_app; cbn; lia |].
    split; [now apply MNT_points_grow | eauto].
  - cbn [MDT_IDX MDT MNT]. split; [exact Hidx |]. split; [exact Hpts |].
    exists []. now rewrite app_nil_r.
Qed.

Lemma macro_from_tables (source_code : list string) : forall st,
  MDT_IDX st = length (MDT st) ->
  MNT_points_at_headers (MNT st) (MDT st) ->
  MDT_IDX (pass_one_from st source_code) = length (MDT (pass_one_from st source_code))
  /\ MNT_points_at_headers (MNT (pass_one_from st source_code))
                           (MDT (pass_one_from st source_code))
  /\ (exists added, MDT (pass_one_from st source_code) = MDT st ++ added).
Proof.
  unfold pass_one_from.
  induction source_code as [|l ls IH]; intros st Hidx Hpts; cbn [fold_left].
  - split; [exact Hidx |]. split; [exact Hpts |]. exists []. now rewrite app_nil_r.
  - destruct (macro_line_tables st l Hidx Hpts) as (H1 & H2 & [a1 H3]).
    destruct (IH (pass_one_line st l) H1 H2) as (H4 & H5 & [a2 H6]).
    split; [exact H4 |]. split; [exact H5 |].
    exists (a1 ++ a2). rewrite H6, H3. now rewrite app_assoc.
Qed.

(** X18: Pass I keeps its tables together, on any source and from any
    tables that are so: [MDT_IDX] is the size of the MDT, the MDT only
    grows, and every MNT entry gives the index of a MACRO line of the MDT
    whose label is the macro's name and whose operand has as many parameters
    as the entry says. *)
Theorem MNT_entries_point_at_headers :
  forall (source_code : list string) (st : pass1_state),
    MDT_IDX st = length (MDT st) ->
    MNT_points_at_headers (MNT st) (MDT st) ->
    let st' := pass_one_from st source_code in
    MDT_IDX st' = length (MDT st')
    /\ (exists added, MDT st' = MDT st ++ added)
    /\ forall name e,
         MNT st' !! name = Some e ->
         exists line,
           MDT st' !! start_index e = Some line
           /\ opcode (parse_line (tokenize line)) = "MACRO"
           /\ label (parse_line (tokenize line)) = name
           /\ num_parameters e
              = length (extract_parameters (operand (parse_line (tokenize line)))).
Proof.
  intros source_code st Hidx Hpts st'. subst st'.
  destruct (macro_from_tables source_code st Hidx Hpts) as (H1 & H2 & H3).
  split; [exact H1 |]. split; [exact H3 | exact H2].
Qed.

Lemma MNT_entries_point_at_headers_witness :
  MDT_IDX (pass_one sample_source) = length (MDT (pass_one sample_source))
  /\ forall name e,
       MNT (pass_one sample_source) !! name = Some e ->
       exists line,
         MDT (pass_one sample_source) !! start_index e = Some line
         /\ opcode (parse_line (tokenize line)) = "MACRO"
         /\ label (parse_line (tokenize line)) = name
         /\ num_parameters e
            = length (extract_parameters (operand (parse_line (tokenize line)))).
Proof.
  destruct (MNT_entries_point_at_headers sample_source (pass1_init ∅ [] 0))
    as (H1 & _ & H3).
  - reflexivity.
  - intros name e He. cbn [pass1_init MNT] in He. rewrite lookup_empty in He.
    discriminate.
  - split; [exact H1 | exact H3].
Defined.

(** *** A program without macros *)

Lemma getlines_from_line (l : string) : forall cur rest,
  free_of (Ascii.eqb "010") l = true ->
  getlines_from cur (l +:+ NL +:+ rest) = (cur +:+ l) :: getlines_from EmptyString rest.
Proof.
  induction l as [|c l IH]; intros cur rest Hl.
  - rewrite str_app_nil_l, str_app_nil_r. reflexivity.
  - cbn [free_of] in Hl. apply andb_prop in Hl. destruct Hl as [Hc Hl].
    apply negb_true_iff in Hc. rewrite Ascii.eqb_sym in Hc.
    rewrite str_app_cons. cbn [getlines_from]. rewrite Hc.
    rewrite IH by exact Hl. now rewrite str_app_assoc.
Qed.

Lemma getlines_unlines (ls : list string) :
  Forall (fun l => free_of (Ascii.eqb "010") l = true) ls ->
  getlines (unlines ls) = ls.
Proof.
  unfold getlines. induction ls as [|l ls IH]; intros H; [reflexivity |].
  inversion H as [|? ? Hl Hls]; subst. cbn [unlines].
  rewrite getlines_from_line by exact Hl. rewrite str_app_nil_l. now rewrite IH.
Qed.

Lemma pass_two_lines_copy (mnt : gmap string MNTEntry) (mdt : list string)
    (ls : list string) : forall out,
  Forall (fun l => mnt !! opcode (parse_line (tokenize l)) = None) ls ->
  pass_two_lines mnt mdt ls out = out +:+ unlines (List.filter has_tokens ls).
Proof.
  unfold pass_two_lines.
  induction ls as [|l ls IH]; intros out H; cbn [fold_left List.filter unlines].
  - now rewrite str_app_nil_r.
  - inversion H as [|? ? Hl Hls]; subst. rewrite IH by exact Hls.
    unfold pass_two_line, has_tokens.
    destruct (tokenize l) as [|t ts] eqn:Et; [reflexivity |].
    cbv beta iota zeta. rewrite Hl. cbn [unlines]. now rewrite !str_app_assoc.
Qed.

Lemma filter_has_tokens_idem (ls : list string) :
  List.filter has_tokens (List.filter has_tokens ls) = List.filter has_tokens ls.
Proof.
  induction ls as [|l ls IH]; [reflexivity |]. cbn [List.filter].
  destruct (has_tokens l) eqn:E; [| exact IH].
  cbn [List.filter]. now rewrite E, IH.
Qed.

Lemma pass_one_from_plain (source_code : list string) : forall st,
  in_macro st = false ->
  Forall plain_line source_code ->
  let st' := pass_one_from st source_code in
  in_macro st' = false /\ MNT st' = MNT st /\ MDT st' = MDT st
  /\ MDT_IDX st' = MDT_IDX st
  /\ intermediate_file st'
     = intermediate_file st +:+ unlines (List.filter has_tokens source_code).
Proof.
  unfold pass_one_from.
  induction source_code as [|l ls IH]; intros st Hin H;
    cbn [fold_left List.filter unlines].
  - rewrite str_app_nil_r. auto.
  - inversion H as [|? ? [Ha He] Hls]; subst.
    unfold has_tokens.
    destruct (tokenize l) as [|t ts] eqn:Et.
    + assert (E : pass_one_line st l = st) by (unfold pass_one_line; now rewrite Et).
      rewrite E. now apply IH.
    + assert (E : pass_one_line st l
                  = mkP1 false (macro_name st) (formal_params st)
                         (formal_to_placeholder st) (MNT st) (MDT st) (MDT_IDX st)
                         (intermediate_file st +:+ l +:+ NL)).
      { rewrite (pass_one_line_plain st l);
          [now rewrite Hin | | now rewrite Et | now rewrite Et].
        rewrite Et. discriminate. }
      rewrite E.
      destruct (IH (mkP1 false (macro_name st) (formal_params st)
                         (formal_to_placeholder st) (MNT st) (MDT st) (MDT_IDX st)
                         (intermediate_file st +:+ l +:+ NL)) eq_refl Hls)
        as (H1 & H2 & H3 & H4 & H5).
      cbn [in_macro MNT MDT MDT_IDX intermediate_file] in *.
      repeat split; auto. rewrite H5. cbn [unlines]. now rewrite !str_app_assoc.
Qed.

Lemma Forall_filter_bool {A : Type} (P : A -> Prop) (f : A -> bool) (l : list A) :
  Forall P l -> Forall P (List.filter f l).
Proof.
  induction 1 as [|x l Hx Hl IH]; cbn [List.filter]; [constructor |].
  destruct (f x); [constructor; assumption | exact IH].
Qed.

(** X19: a source without a MACRO or MEND line, and without a line feed
    inside a line, leaves the tables empty and comes out as it went in: the
    intermediate file and the output are its lines that have a token, each
    ended by a line feed.  More generally Pass II copies the lines, written
    one per line, whose opcode is no key of the MNT, and drops the lines
    without a token. *)
Theorem macro_free_program_copied :
  (forall source_code,
      Forall plain_line source_code ->
      Forall (fun l => free_of (Ascii.eqb "010") l = true) source_code ->
      MNT (pass_one source_code) = ∅
      /\ MDT (pass_one source_code) = []
      /\ intermediate_file (pass_one source_code)
         = unlines (List.filter has_tokens source_code)
      /\ main_output source_code = unlines (List.filter has_tokens source_code))
  /\ (forall mnt mdt lines,
         Forall (fun l => mnt !! opcode (parse_line (tokenize l)) = None) lines ->
         Forall (fun l => free_of (Ascii.eqb "010") l = true) lines ->
         pass_two mnt mdt (unlines lines) = unlines (List.filter has_tokens lines)).
Proof.
  assert (Hgen : forall mnt mdt lines,
             Forall (fun l => mnt !! opcode (parse_line (tokenize l)) = None) lines ->
             Forall (fun l => free_of (Ascii.eqb "010") l = true) lines ->
             pass_two mnt mdt (unlines lines) = unlines (List.filter has_tokens lines)).
  { intros mnt mdt lines Hm Hn. unfold pass_two.
    rewrite getlines_unlines by exact Hn.
    rewrite pass_two_lines_copy by exact Hm. reflexivity. }
  split; [| exact Hgen].
  intros source_code Hp Hn.
  destruct (pass_one_from_plain source_code (pass1_init ∅ [] 0) eq_refl Hp)
    as (_ & H2 & H3 & _ & H5).
  fold (pass_one source_code) in H2, H3, H5.
  cbn [pass1_init MNT MDT intermediate_file] in H2, H3, H5.
  rewrite str_app_nil_l in H5.
  split; [exact H2 |]. split; [exact H3 |]. split; [exact H5 |].
  unfold main_output. rewrite H2, H3, H5.
  rewrite Hgen.
  - now rewrite filter_has_tokens_idem.
  - apply Forall_forall. intros l _. apply lookup_empty.
  - now apply Forall_filter_bool.
Qed.

Lemma macro_free_program_copied_witness :
  main_output ["COPY" +:+ TAB +:+ "START" +:+ TAB +:+ "0"; "   "; "END"]
  = unlines ["COPY" +:+ TAB +:+ "START" +:+ TAB +:+ "0"; "END"].
Proof.
  destruct macro_free_program_copied as [H _].
  destruct (H ["COPY" +:+ TAB +:+ "START" +:+ TAB +:+ "0"; "   "; "END"])
    as (_ & _ & _ & H4).
  - repeat constructor; vm_compute; discriminate.
  - repeat constructor.
  - exact H4.
Defined.

(** *** Expansion *)

Lemma expand_body (opc : string) (amap : omap string) (mend : string)
    (rest body : list string) : forall out,
  Forall (fun l => is_MEND (tokenize l) = false) body ->
  is_MEND (tokenize mend) = true ->
  expand opc amap (body ++ mend :: rest) out = out +:+ expanded amap body.
Proof.
  induction body as [|l body IH]; intros out Hb Hm.
  - cbn [app expand expanded]. rewrite Hm. now rewrite str_app_nil_r.
  - inversion Hb as [|? ? Hl Hr]; subst.
    cbn [app expand expanded]. rewrite Hl, IH by assumption.
    now rewrite !str_app_assoc.
Qed.

(** X20: a call of a macro of the MNT with the right number of arguments,
    whose definition in the MDT is a header, body lines and a line that
    Pass II takes for MEND, adds to the output exactly the body lines, each
    with the substitution of the actual arguments and a line feed: neither
    the call line, nor its label, nor the header or the MEND line. *)
Theorem call_expands_body :
  forall (mnt : gmap string MNTEntry) (mdt : list string) (out line : string)
         (e : MNTEntry) (body : list string) (mend : string) (rest : list string),
    tokenize line <> [] ->
    mnt !! opcode (parse_line (tokenize line)) = Some e ->
    length (extract_parameters (operand (parse_line (tokenize line))))
    = num_parameters e ->
    drop (S (start_index e)) mdt = body ++ mend :: rest ->
    Forall (fun l => is_MEND (tokenize l) = false) body ->
    is_MEND (tokenize mend) = true ->
    pass_two_line mnt mdt out line
    = out +:+ expanded (build_actual_map
                          (num_parameters e)
                          (extract_parameters (operand (parse_line (tokenize line)))))
                       body.
Proof.
  intros mnt mdt out line e body mend rest Ht Hm Hn Hd Hb He.
  rewrite (pass_two_line_call mnt mdt out line e Ht Hm). cbv zeta.
  rewrite Hn, Nat.eqb_refl. cbn [negb]. rewrite Hd.
  now apply expand_body.
Qed.

Lemma call_expands_body_witness :
  pass_two_line (MNT (pass_one sample_source)) (MDT (pass_one sample_source))
                EmptyString (src "" "CALC" "X,Y")
  = expanded (build_actual_map 2 ["X"; "Y"]) [src "#0" "ADD" "#1"; src "" "SUB" "#1"].
Proof.
  apply (call_expands_body (MNT (pass_one sample_source)) (MDT (pass_one sample_source))
           EmptyString (src "" "CALC" "X,Y") (mkMNT 0 2)
           [src "#0" "ADD" "#1"; src "" "SUB" "#1"] "MEND"
           (drop 4 (MDT (pass_one sample_source)))).
  - vm_compute. discriminate.
  - vm_compute. reflexivity.
  - vm_compute. reflexivity.
  - vm_compute. reflexivity.
  - repeat constructor.
  - reflexivity.
Defined.

(** X21: the two passes do not agree on what a MEND line is.  Pass I
    compares the opcode of [parse_line], Pass II the second token, or the
    only one.  They agree on lines of one token and of three or more, and
    on no line of two tokens unless both or neither is MEND: [MEND X] ends a
    definition in Pass I but not an expansion in Pass II, and a body line
    [X MEND] ends an expansion in Pass II in the middle of the body. *)
Theorem MEND_recognition :
  forall (line : string),
    (length (tokenize line) <> 2 ->
     (is_MEND (tokenize line) = true
      <-> opcode (parse_line (tokenize line)) = "MEND"))
    /\ (forall t0 t1,
           tokenize line = [t0; t1] ->
           (opcode (parse_line (tokenize line)) = "MEND" <-> t0 = "MEND")
           /\ (is_MEND (tokenize line) = true <-> t1 = "MEND")).
Proof.
  intros line. split.
  - intros Hl. destruct (tokenize line) as [|t0 [|t1 [|t2 ts]]];
      cbn [is_MEND parse_line opcode].
    + split; discriminate.
    + apply String.eqb_eq.
    + cbn [length] in Hl. contradiction.
    + apply String.eqb_eq.
  - intros t0 t1 ->. cbn [is_MEND parse_line opcode]. split; [reflexivity |].
    apply String.eqb_eq.
Qed.

Lemma MEND_recognition_witness :
  (opcode (parse_line (tokenize "MEND X")) = "MEND" <-> "MEND" = "MEND")
  /\ (is_MEND (tokenize "MEND X") = true <-> "X" = "MEND").
Proof.
  destruct (MEND_recognition "MEND X") as [_ H].
  exact (H "MEND" "X" eq_refl).
Defined.

(** *** A definition in Pass I *)

Lemma pass_one_from_body (body : list string) : forall st,
  in_macro st = true ->
  Forall (fun l => has_tokens l = true /\ plain_line l) body ->
  let st' := pass_one_from st body in
  in_macro st' = true
  /\ formal_to_placeholder st' = formal_to_placeholder st
  /\ MNT st' = MNT st
  /\ MDT st' = MDT st ++ map (substitute (formal_to_placeholder st)) body
  /\ MDT_IDX st' = MDT_IDX st + length body
  /\ intermediate_file st' = intermediate_file st.
Proof.
  unfold pass_one_from.
  induction body as [|l body IH]; intros st Hin H; cbn [fold_left map length].
  - rewrite app_nil_r, Nat.add_0_r. auto 10.
  - inversion H as [|? ? [Ht [Ha He]] Hb]; subst.
    assert (E : pass_one_line st l
                = mkP1 true (macro_name st) (formal_params st)
                       (formal_to_placeholder st) (MNT st)
                       (MDT st ++ [substitute (formal_to_placeholder st) l])
                       (S (MDT_IDX st)) (intermediate_file st)).
    { rewrite (pass_one_line_plain st l); [now rewrite Hin | | exact Ha | exact He].
      unfold has_tokens in Ht. destruct (tokenize l); [discriminate | discriminate]. }
    rewrite E.
    destruct (IH (mkP1 true (macro_name st) (formal_params st)
                       (formal_to_placeholder st) (MNT st)
                       (MDT st ++ [substitute (formal_to_placeholder st) l])
                       (S (MDT_IDX st)) (intermediate_file st)) eq_refl Hb)
      as (H1 & H2 & H3 & H4 & H5 & H6).
    cbn [in_macro formal_to_placeholder MNT MDT MDT_IDX intermediate_file] in *.
    split; [exact H1 |]. split; [exact H2 |]. split; [exact H3 |].
    split; [rewrite H4; now rewrite <- app_assoc |]. split; [lia | exact H6].
Qed.

(** X22: a definition written as a MACRO line of at least three tokens,
    body lines that have a token and are neither MACRO nor MEND lines, and a
    MEND line is recorded as follows, from any state whose [MDT_IDX] is the
    size of the MDT: the MNT maps the first token to the index of the header
    and the number of parameters, the MDT gains the header as written, each
    body line with the formal parameters substituted, and the MEND line as
    written; nothing reaches the intermediate file and the definition is
    closed. *)
Theorem definition_recorded :
  forall (st0 : pass1_state) (header : string) (body : list string) (mend : string)
         (name t2 : string) (more : list string),
    MDT_IDX st0 = length (MDT st0) ->
    tokenize header = name :: "MACRO" :: t2 :: more ->
    Forall (fun l => has_tokens l = true /\ plain_line l) body ->
    opcode (parse_line (tokenize mend)) = "MEND" ->
    let params := extract_parameters t2 in
    let st := pass_one_from st0 (header :: body ++ [mend]) in
    MNT st = <[name := mkMNT (length (MDT st0)) (length params)]> (MNT st0)
    /\ MDT st
       = MDT st0 ++ header :: map (substitute (build_formal_map params)) body ++ [mend]
    /\ MDT_IDX st = length (MDT st)
    /\ in_macro st = false
    /\ intermediate_file st = intermediate_file st0.
Proof.
  intros st0 header body mend name t2 more Hidx Hh Hb Hm params st. subst st.
  unfold pass_one_from. cbn [fold_left]. rewrite fold_left_app. cbn [fold_left].
  assert (E1 : pass_one_line st0 header
               = mkP1 true name params (build_formal_map params)
                      (<[name := mkMNT (MDT_IDX st0) (length params)]> (MNT st0))
                      (MDT st0 ++ [header]) (S (MDT_IDX st0)) (intermediate_file st0)).
  { unfold pass_one_line. rewrite Hh. reflexivity. }
  rewrite E1.
  destruct (pass_one_from_body body
              (mkP1 true name params (build_formal_map params)
                    (<[name := mkMNT (MDT_IDX st0) (length params)]> (MNT st0))
                    (MDT st0 ++ [header]) (S (MDT_IDX st0)) (intermediate_file st0))
              eq_refl Hb) as (H1 & H2 & H3 & H4 & H5 & H6).
  unfold pass_one_from in H1, H2, H3, H4, H5, H6.
  cbn [in_macro formal_to_placeholder MNT MDT MDT_IDX intermediate_file]
    in H1, H2, H3, H4, H5, H6.
  set (st1 := fold_left pass_one_line body _) in *.
  assert (Htok : tokenize mend <> []).
  { intros E. rewrite E in Hm. discriminate. }
  assert (E2 : pass_one_line st1 mend
               = mkP1 false (macro_name st1) (formal_params st1)
                      (formal_to_placeholder st1) (MNT st1) (MDT st1 ++ [mend])
                      (S (MDT_IDX st1)) (intermediate_file st1)).
  { unfold pass_one_line. destruct (tokenize mend) as [|t ts]; [contradiction |].
    rewrite Hm. reflexivity. }
  rewrite E2. cbn [in_macro MNT MDT MDT_IDX intermediate_file].
  rewrite H3, H4, H5, H6, Hidx.
  split; [reflexivity |]. split; [now rewrite <- !app_assoc |].
  split; [| auto].
  rewrite !length_app, length_map. cbn [length]. lia.
Qed.

Lemma definition_recorded_witness :
  MDT (pass_one_from (pass1_init ∅ [] 0)
         [src "CALC" "MACRO" "&A,&B"; src "&A" "ADD" "&B"; src "" "SUB" "&B"; "MEND"])
  = [src "CALC" "MACRO" "&A,&B"; src "#0" "ADD" "#1"; src "" "SUB" "#1"; "MEND"].
Proof.
  destruct (definition_recorded (pass1_init ∅ [] 0) (src "CALC" "MACRO" "&A,&B")
              [src "&A" "ADD" "&B"; src "" "SUB" "&B"] "MEND" "CALC" "&A,&B" [])
    as (_ & H2 & _).
  - reflexivity.
  - reflexivity.
  - repeat constructor; vm_compute; discriminate.
  - reflexivity.
  - exact H2.
Defined.

End MacroMore.

(** ** The schedulers: what is run, and when *)
Section SchedulerMore.
Import Cpp Scheduler.

(** *** The selection of SJF *)

(** The scan from an index [i] with a candidate [idx] and its bound [mn]:
    either no process of [ps] passes the test and the candidate stays, or the
    result is a process of [ps] below [mn] with the least remaining time
    among the arrived processes with time remaining, the first of them. *)
Lemma sjf_select_least (t : Z) (ps : list Process) : forall i idx mn k,
  sjf_select ps t i idx mn = Some k ->
  (idx = Some k /\ Forall (fun y => selectable t mn y = false) ps)
  \/ (exists x,
         ps !! (k - i) = Some x /\ i <= k /\ selectable t mn x = true
         /\ forall j y, ps !! j = Some y -> (at_ y <= t)%Z -> (0 < rt y)%Z ->
                        (rt x <= rt y)%Z /\ (rt y = rt x -> k - i <= j)).
Proof.
  induction ps as [|x ps IH]; intros i idx mn k H; cbn [sjf_select] in H.
  - left. split; [exact H | constructor].
  - fold (selectable t mn x) in H. destruct (selectable t mn x) eqn:E.
    + right. apply IH in H.
      destruct H as [[Hk Hall] | (x' & Hx' & Hle & Hsel & Hmin)].
      * injection Hk as <-. exists x. rewrite Nat.sub_diag.
        split; [reflexivity |]. split; [lia |]. split; [exact E |].
        intros j y Hy Hat Hrt. destruct j as [|j].
        { injection Hy as <-. split; lia. }
        change ((x :: ps) !! S j) with (ps !! j) in Hy.
        rewrite Forall_forall in Hall.
        assert (Hin : y ∈ ps) by (eapply list_elem_of_lookup_2; exact Hy).
        pose proof (Hall y Hin) as Hn. unfold selectable in Hn.
        apply Z.leb_le in Hat. apply Z.ltb_lt in Hrt. rewrite Hat, Hrt in Hn.
        cbn [andb] in Hn. apply Z.ltb_ge in Hn. split; lia.
      * exists x'. replace (k - i) with (S (k - S i)) by lia.
        split; [exact Hx' |]. split; [lia |].
        unfold selectable in Hsel, E |- *.
        apply andb_prop in Hsel. destruct Hsel as [Hsel Hlt].
        apply andb_prop in E. destruct E as [E Hlt'].
        apply Z.ltb_lt in Hlt, Hlt'.
        split.
        { rewrite Hsel. cbn [andb]. apply Z.ltb_lt. lia. }
        intros j y Hy Hat Hrt. destruct j as [|j].
        { injection Hy as <-. split; lia. }
        change ((x :: ps) !! S j) with (ps !! j) in Hy.
        destruct (Hmin j y Hy Hat Hrt) as [H1 H2]. split; [exact H1 | lia].
    + apply IH in H.
      destruct H as [[Hk Hall] | (x' & Hx' & Hle & Hsel & Hmin)].
      * left. split; [exact Hk |]. constructor; assumption.
      * right. exists x'. replace (k - i) with (S (k - S i)) by lia.
        split; [exact Hx' |]. split; [lia |]. split; [exact Hsel |].
        intros j y Hy Hat Hrt. destruct j as [|j].
        { injection Hy as <-. unfold selectable in Hsel, E.
          apply andb_prop in Hsel. destruct Hsel as [_ Hlt].
          apply Z.ltb_lt in Hlt.
          apply Z.leb_le in Hat. apply Z.ltb_lt in Hrt. rewrite Hat, Hrt in E.
          cbn [andb] in E. apply Z.ltb_ge in E. split; lia. }
        change ((x :: ps) !! S j) with (ps !! j) in Hy.
        destruct (Hmin j y Hy Hat Hrt) as [H1 H2]. split; [exact H1 | lia].
Qed.

(** X23: the selection of [sjf] at the clock [t] yields the index of an
    arrived process with time remaining, below the sentinel 10^9, whose
    remaining time is the least among all arrived processes with time
    remaining, and the lowest such index; it yields none exactly when no
    process has arrived with a remaining time between 1 and 10^9 - 1. *)
Theorem sjf_selects_shortest_remaining :
  forall (ps : list Process) (t : Z),
    match sjf_select ps t 0 None SJF_INF with
    | Some k =>
        exists x,
          ps !! k = Some x /\ (at_ x <= t)%Z /\ (0 < rt x < SJF_INF)%Z
          /\ forall j y, ps !! j = Some y -> (at_ y <= t)%Z -> (0 < rt y)%Z ->
                         (rt x <= rt y)%Z /\ (rt y = rt x -> k <= j)
    | None =>
        Forall (fun y => ~ ((at_ y <= t)%Z /\ (0 < rt y < SJF_INF)%Z)) ps
    end.
Proof.
  intros ps t.
  destruct (sjf_select ps t 0 None SJF_INF) as [k|] eqn:E.
  - apply sjf_select_least in E.
    destruct E as [[E _] | (x & Hx & _ & Hsel & Hmin)]; [discriminate |].
    rewrite Nat.sub_0_r in Hx, Hmin. exists x. split; [exact Hx |].
    unfold selectable in Hsel.
    apply andb_prop in Hsel. destruct Hsel as [Hsel H3].
    apply andb_prop in Hsel. destruct Hsel as [H1 H2].
    apply Z.leb_le in H1. apply Z.ltb_lt in H2, H3.
    split; [exact H1 |]. split; [lia | exact Hmin].
  - apply sjf_select_None in E.
    eapply Forall_impl; [exact E |]. cbn. intros y Hy [H1 [H2 H3]].
    unfold selectable in Hy.
    apply Z.leb_le in H1. apply Z.ltb_lt in H2, H3. rewrite H1, H2, H3 in Hy.
    discriminate.
Qed.

(** *** The schedule of SJF *)








(** *** FCFS *)

Lemma total_burst_perm (p q : list Process) : p ≡ₚ q -> total_burst p = total_burst q.
Proof. induction 1; cbn [total_burst]; lia. Qed.

Lemma latest_arrival_perm (p q : list Process) :
  p ≡ₚ q -> latest_arrival p = latest_arrival q.
Proof. induction 1; cbn [latest_arrival]; lia. Qed.

Lemma total_burst_nonneg (p : list Process) :
  Forall (fun x => (0 <= bt x)%Z) p -> (0 <= total_burst p)%Z.
Proof. induction 1; cbn [total_burst]; lia. Qed.

(** The loop from a clock [t]: only [ct] changes; each process starts at its
    arrival or when the one before completes, whichever is later. *)
Lemma fcfs_loop_spec (p : list Process) : forall t,
  (0 <= t)%Z ->
  Forall (fun x => (0 <= bt x)%Z) p ->
  (Z.max t (latest_arrival p) + total_burst p <= INT_MAX)%Z ->
  Forall2 (fun x y => y = set_ct x (ct y)) p (fcfs_loop t p)
  /\ (forall y, fcfs_loop t p !! 0 = Some y -> ct y = (Z.max t (at_ y) + bt y)%Z)
  /\ (forall i y z,
         fcfs_loop t p !! i = Some y -> fcfs_loop t p !! S i = Some z ->
         ct z = (Z.max (ct y) (at_ z) + bt z)%Z)
  /\ Forall (fun y => (Z.max t (at_ y) + bt y <= ct y
                       <= Z.max t (latest_arrival p) + total_burst p)%Z)
            (fcfs_loop t p).
Proof.
  induction p as [|x p IH]; intros t Ht Hb Hfit; cbn [fcfs_loop].
  - split; [constructor |]. split; [discriminate |]. split; [discriminate | constructor].
  - inversion Hb as [|? ? Hx Hp]; subst.
    cbn [latest_arrival total_burst] in Hfit.
    pose proof (total_burst_nonneg p Hp) as Hs.
    pose proof (latest_arrival_nonneg p) as Ha.
    assert (Hw : wrap32 (Z.max t (at_ x) + bt x) = (Z.max t (at_ x) + bt x)%Z).
    { apply wrap32_small. unfold INT_MIN. lia. }
    rewrite Hw.
    destruct (IH (Z.max t (at_ x) + bt x)%Z ltac:(lia) Hp ltac:(lia))
      as (H1 & H2 & H3 & H4).
    split; [| split; [| split]].
    + constructor; [reflexivity | exact H1].
    + intros y Hy. injection Hy as <-. reflexivity.
    + intros i y z Hy Hz. destruct i as [|i].
      * injection Hy as <-. cbn [ct set_ct].
        change ((set_ct x (Z.max t (at_ x) + bt x)
                 :: fcfs_loop (Z.max t (at_ x) + bt x) p) !! 1)
          with (fcfs_loop (Z.max t (at_ x) + bt x) p !! 0) in Hz.
        exact (H2 z Hz).
      * exact (H3 i y z Hy Hz).
    + constructor.
      * cbn [ct at_ bt set_ct latest_arrival total_burst]. lia.
      * eapply Forall_impl; [exact H4 |]. cbn [latest_arrival total_burst].
        intros y Hy. cbn beta in Hy |- *. lia.
Qed.

(** X25: FCFS, whatever order the sort leaves among equal arrival times,
    changes only the completion times of the sorted vector.  For burst times
    that are not negative and a clock that stays an [int], the first process
    starts at its arrival (or at 0), each later one at its arrival or at the
    completion of the one before it, whichever is later, and runs for its
    burst time: processes are served in the order of their arrival, one at a
    time, and none completes before its arrival plus its burst. *)
Theorem fcfs_schedule :
  forall (sort_by_arrival : list Process -> list Process) (p : list Process),
    sort_by_arrival p ≡ₚ p ->
    sorted_by_arrival (sort_by_arrival p) ->
    Forall (fun x => (0 <= bt x)%Z) p ->
    (latest_arrival p + total_burst p <= INT_MAX)%Z ->
    let r := fcfs sort_by_arrival p in
    Forall2 (fun x y => y = set_ct x (ct y)) (sort_by_arrival p) r
    /\ (forall y, r !! 0 = Some y -> ct y = (Z.max 0 (at_ y) + bt y)%Z)
    /\ (forall i y z,
           r !! i = Some y -> r !! S i = Some z ->
           (at_ y <= at_ z)%Z /\ ct z = (Z.max (ct y) (at_ z) + bt z)%Z)
    /\ Forall (fun y => (at_ y + bt y <= ct y <= latest_arrival p + total_burst p)%Z) r.
Proof.
  intros sort p Hperm Hsorted Hb Hfit r. subst r. unfold fcfs.
  pose proof (latest_arrival_nonneg (sort p)) as Ha.
  assert (Hb' : Forall (fun x => (0 <= bt x)%Z) (sort p)) by now rewrite Hperm.
  rewrite <- (latest_arrival_perm _ _ Hperm), <- (total_burst_perm _ _ Hperm) in *.
  destruct (fcfs_loop_spec (sort p) 0 ltac:(lia) Hb' ltac:(lia)) as (H1 & H2 & H3 & H4).
  split; [exact H1 |]. split; [exact H2 |]. split.
  - intros i y z Hy Hz. split; [| exact (H3 i y z Hy Hz)].
    destruct (Forall2_lookup_r _ _ _ _ _ H1 Hy) as (x & Hx & Ex).
    destruct (Forall2_lookup_r _ _ _ _ _ H1 Hz) as (x' & Hx' & Ex').
    pose proof (Hsorted i x x' Hx Hx') as Hle.
    rewrite Ex, Ex'. cbn [at_ set_ct]. exact Hle.
  - eapply Forall_impl; [exact H4 |]. intros y Hy. cbn beta in Hy |- *. lia.
Qed.

Lemma fcfs_schedule_witness :
  map ct (fcfs id sample_processes) = [5; 8; 16; 22]%Z
  /\ Forall (fun y => (at_ y + bt y <= ct y <= 25)%Z) (fcfs id sample_processes).
Proof.
  destruct (fcfs_schedule id sample_processes) as (_ & _ & _ & H4).
  - reflexivity.
  - intros i x y Hx Hy.
    destruct i as [|[|[|[|i]]]]; cbn in Hx, Hy; try discriminate;
      injection Hx as <-; injection Hy as <-; cbn; lia.
  - repeat constructor; cbn; lia.
  - vm_compute. discriminate.
  - split; [reflexivity | exact H4].
Defined.

(** *** The selection of Priority *)

(** The scan from an index [i] with a candidate [idx] and its priority
    [best]: either no eligible process of [ps] is below [best] and the
    candidate stays, or the result is an eligible process below [best] with
    the least priority value among the eligible ones, the first of them. *)
Lemma prio_select_spec (vis_ : list Z) (t : Z) (ps : list Process) :
  forall i idx best,
    (prio_select ps vis_ t i idx best = idx
     /\ forall j y, ps !! j = Some y -> eligible vis_ t (i + j) y ->
                    (best <= prio y)%Z)
    \/ (exists k x,
           prio_select ps vis_ t i idx best = Some k
           /\ ps !! (k - i) = Some x /\ i <= k
           /\ eligible vis_ t k x /\ (prio x < best)%Z
           /\ forall j y, ps !! j = Some y -> eligible vis_ t (i + j) y ->
                          (prio x <= prio y)%Z /\ (prio y = prio x -> k <= i + j)).
Proof.
  induction ps as [|x ps IH]; intros i idx best; cbn [prio_select].
  - left. split; [reflexivity | intros j y H; discriminate].
  - destruct ((vis_ !!! i =? 0)%Z && (at_ x <=? t)%Z && (prio x <? best)%Z) eqn:E.
    + apply andb_prop in E. destruct E as [E E3].
      apply andb_prop in E. destruct E as [E1 E2].
      apply Z.eqb_eq in E1. apply Z.leb_le in E2. apply Z.ltb_lt in E3.
      right.
      destruct (IH (S i) (Some i) (prio x))
        as [[Hr Hall] | (k & x' & Hr & Hx' & Hle & Hel & Hlt & Hmin)].
      * exists i, x. split; [exact Hr |]. rewrite Nat.sub_diag.
        split; [reflexivity |]. split; [lia |]. split; [split; assumption |].
        split; [exact E3 |].
        intros j y Hy Hel. destruct j as [|j].
        { injection Hy as <-. split; [lia | intros; lia]. }
        change ((x :: ps) !! S j) with (ps !! j) in Hy.
        replace (i + S j) with (S i + j) in Hel by lia.
        pose proof (Hall j y Hy Hel). split; [lia | intros; lia].
      * exists k, x'. split; [exact Hr |].
        replace (k - i) with (S (k - S i)) by lia.
        split; [exact Hx' |]. split; [lia |]. split; [exact Hel |]. split; [lia |].
        intros j y Hy Hel'. destruct j as [|j].
        { injection Hy as <-. split; [lia | intros; lia]. }
        change ((x :: ps) !! S j) with (ps !! j) in Hy.
        replace (i + S j) with (S i + j) in Hel' by lia.
        destruct (Hmin j y Hy Hel') as [H1 H2]. split; [exact H1 | intros; lia].
    + assert (Hx : eligible vis_ t i x -> (best <= prio x)%Z).
      { intros [Hv Ha]. apply Z.eqb_eq in Hv. apply Z.leb_le in Ha.
        rewrite Hv, Ha in E. cbn [andb] in E. now apply Z.ltb_ge in E. }
      destruct (IH (S i) idx best)
        as [[Hr Hall] | (k & x' & Hr & Hx' & Hle & Hel & Hlt & Hmin)].
      * left. split; [exact Hr |].
        intros j y Hy Hel. destruct j as [|j].
        { injection Hy as <-. rewrite Nat.add_0_r in Hel. auto. }
        change ((x :: ps) !! S j) with (ps !! j) in Hy.
        replace (i + S j) with (S i + j) in Hel by lia. exact (Hall j y Hy Hel).
      * right. exists k, x'. split; [exact Hr |].
        replace (k - i) with (S (k - S i)) by lia.
        split; [exact Hx' |]. split; [lia |]. split; [exact Hel |].
        split; [exact Hlt |].
        intros j y Hy Hel'. destruct j as [|j].
        { injection Hy as <-. rewrite Nat.add_0_r in Hel'.
          pose proof (Hx Hel'). split; [lia | intros; lia]. }
        change ((x :: ps) !! S j) with (ps !! j) in Hy.
        replace (i + S j) with (S i + j) in Hel' by lia.
        destruct (Hmin j y Hy Hel') as [H1 H2]. split; [exact H1 | intros; lia].
Qed.

(** One iteration either idles, and then no eligible process has a priority
    below the sentinel, or runs the eligible process of least priority
    value to its end. *)
Lemma prio_iter_cases (st : prio_state) :
  ((forall j y, prio_p st !! j = Some y ->
                eligible (prio_vis st) (prio_t st) j y -> (PRIO_INF <= prio y)%Z)
   /\ prio_iter st
      = mkPrio (prio_p st) (wrap32 (prio_t st + 1)) (prio_done st) (prio_vis st))
  \/ (exists idx x,
         prio_p st !! idx = Some x
         /\ eligible (prio_vis st) (prio_t st) idx x
         /\ (prio x < PRIO_INF)%Z
         /\ (forall j y, prio_p st !! j = Some y ->
                         eligible (prio_vis st) (prio_t st) j y ->
                         (prio x <= prio y)%Z /\ (prio y = prio x -> idx <= j))
         /\ prio_iter st
            = mkPrio (<[idx := set_ct x (wrap32 (prio_t st + bt x))]> (prio_p st))
                     (wrap32 (prio_t st + bt x)) (S (prio_done st))
                     (<[idx := 1%Z]> (prio_vis st))).
Proof.
  unfold prio_iter.
  destruct (prio_select_spec (prio_vis st) (prio_t st) (prio_p st) 0 None PRIO_INF)
    as [[Hr Hall] | (k & x & Hr & Hx & _ & Hel & Hlt & Hmin)].
  - left. rewrite Hr. split; [exact Hall | reflexivity].
  - right. rewrite Nat.sub_0_r in Hx. exists k, x. rewrite Hr, Hx.
    split; [reflexivity |]. split; [exact Hel |]. split; [exact Hlt |].
    split; [exact Hmin | reflexivity].
Qed.

(** X26: the selection of [prioritySched] at the clock [t] yields the
    index of a process that has arrived and was not run yet, with a priority
    value below the sentinel 10^9 that is the least among such processes,
    and the lowest such index; it yields none exactly when every process
    that has arrived and was not run has a priority value of 10^9 or more. *)
Theorem priority_selects_least_value :
  forall (ps : list Process) (vis_ : list Z) (t : Z),
    length vis_ = length ps ->
    match prio_select ps vis_ t 0 None PRIO_INF with
    | Some k =>
        exists x,
          ps !! k = Some x /\ vis_ !!! k = 0%Z /\ (at_ x <= t)%Z
          /\ (prio x < PRIO_INF)%Z
          /\ forall j y, ps !! j = Some y -> vis_ !!! j = 0%Z -> (at_ y <= t)%Z ->
                         (prio x <= prio y)%Z /\ (prio y = prio x -> k <= j)
    | None =>
        forall j y, ps !! j = Some y -> vis_ !!! j = 0%Z -> (at_ y <= t)%Z ->
                    (PRIO_INF <= prio y)%Z
    end.
Proof.
  intros ps vis_ t _.
  destruct (prio_select_spec vis_ t ps 0 None PRIO_INF)
    as [[Hr Hall] | (k & x & Hr & Hx & _ & [Hv Ha] & Hlt & Hmin)].
  - rewrite Hr. intros j y Hy Hv Ha. apply (Hall j y Hy). split; assumption.
  - rewrite Hr. rewrite Nat.sub_0_r in Hx. exists x.
    split; [exact Hx |]. split; [exact Hv |]. split; [exact Ha |].
    split; [exact Hlt |].
    intros j y Hy Hvj Haj. apply (Hmin j y Hy). split; assumption.
Qed.

(** At the clock 5 of the run of [main], with process 1 run, process 2 (of
    priority 1) is chosen. *)
Lemma priority_selects_least_value_witness :
  exists x,
    sample_processes !! 1 = Some x /\ prio x = 1%Z
    /\ forall j y, sample_processes !! j = Some y -> [1; 0; 0; 0]%Z !!! j = 0%Z ->
                   (at_ y <= 5)%Z -> (prio x <= prio y)%Z.
Proof.
  pose proof (priority_selects_least_value sample_processes [1; 0; 0; 0]%Z 5 eq_refl)
    as H.
  change (prio_select sample_processes [1; 0; 0; 0]%Z 5 0 None PRIO_INF)
    with (Some 1) in H.
  destruct H as (x & Hx & _ & _ & _ & Hmin).
  exists x. split; [exact Hx |]. split.
  - injection Hx as <-. reflexivity.
  - intros j y Hy Hv Ha. exact (proj1 (Hmin j y Hy Hv Ha)).
Defined.

(** *** The run of Priority *)

Lemma unvisited_insert (vis_ : list Z) : forall i v,
  vis_ !! i = Some v ->
  unvisited (<[i := 1%Z]> vis_) + (if (v =? 0)%Z then 1 else 0) = unvisited vis_.
Proof.
  induction vis_ as [|w vis_ IH]; intros i v H; [discriminate |].
  destruct i as [|i].
  - injection H as ->. change (<[0 := 1%Z]> (v :: vis_)) with (1%Z :: vis_).
    cbn [unvisited]. change (1 =? 0)%Z with false. cbv iota. lia.
  - change ((w :: vis_) !! S i) with (vis_ !! i) in H.
    change (<[S i := 1%Z]> (w :: vis_)) with (w :: <[i := 1%Z]> vis_).
    cbn [unvisited]. specialize (IH i v H). lia.
Qed.

Lemma pending_insert (p : list Process) : forall vis_ i x v c,
  p !! i = Some x -> vis_ !! i = Some v ->
  pending (<[i := set_ct x c]> p) (<[i := 1%Z]> vis_)
  = (pending p vis_ - (if (v =? 0)%Z then bt x else 0))%Z.
Proof.
  induction p as [|z p IH]; intros vis_ i x v c Hp Hv; [discriminate |].
  destruct vis_ as [|w vis_]; [discriminate |].
  destruct i as [|i].
  - injection Hp as ->. injection Hv as ->.
    change (<[0 := set_ct x c]> (x :: p)) with (set_ct x c :: p).
    change (<[0 := 1%Z]> (v :: vis_)) with (1%Z :: vis_).
    cbn [pending bt set_ct]. change (1 =? 0)%Z with false. cbv iota. lia.
  - change ((z :: p) !! S i) with (p !! i) in Hp.
    change ((w :: vis_) !! S i) with (vis_ !! i) in Hv.
    change (<[S i := set_ct x c]> (z :: p)) with (z :: <[i := set_ct x c]> p).
    change (<[S i := 1%Z]> (w :: vis_)) with (w :: <[i := 1%Z]> vis_).
    cbn [pending]. rewrite (IH vis_ i x v c Hp Hv). lia.
Qed.

Lemma pending_nonneg (p : list Process) : forall vis_,
  Forall (fun x => (0 <= bt x)%Z) p -> (0 <= pending p vis_)%Z.
Proof.
  induction p as [|x p IH]; intros vis_ H; [cbn; lia |].
  inversion H as [|? ? Hx Hp]; subst.
  destruct vis_ as [|v vis_]; cbn [pending]; [lia |].
  specialize (IH vis_ Hp). destruct (v =? 0)%Z; lia.
Qed.

Lemma unvisited_exists (vis_ : list Z) :
  0 < unvisited vis_ -> exists j, vis_ !! j = Some 0%Z.
Proof.
  induction vis_ as [|v vis_ IH]; cbn [unvisited]; [lia |].
  destruct (Z.eqb_spec v 0) as [-> | Hne].
  - intros _. now exists 0.
  - intros H. destruct IH as [j Hj]; [lia |]. now exists (S j).
Qed.

Lemma unvisited_pos (vis_ : list Z) : forall j,
  vis_ !! j = Some 0%Z -> 0 < unvisited vis_.
Proof.
  induction vis_ as [|v vis_ IH]; intros j H; [discriminate |].
  destruct j as [|j].
  - injection H as ->. cbn. lia.
  - change ((v :: vis_) !! S j) with (vis_ !! j) in H.
    cbn [unvisited]. specialize (IH j H). lia.
Qed.

Lemma unvisited_repeat (n : nat) : unvisited (repeat 0%Z n) = n.
Proof. induction n as [|n IH]; cbn; [reflexivity | now rewrite IH]. Qed.

Lemma pending_repeat (p : list Process) :
  pending p (repeat 0%Z (length p)) = total_burst p.
Proof. induction p as [|x p IH]; cbn; [reflexivity | now rewrite IH]. Qed.

Lemma lookup_total_repeat (n : nat) : forall j, j < n -> repeat 0%Z n !!! j = 0%Z.
Proof.
  induction n as [|n IH]; intros j Hj; [lia |].
  destruct j as [|j]; [reflexivity |]. apply IH. lia.
Qed.

Lemma latest_arrival_bound (p : list Process) :
  Forall (fun x => (at_ x <= latest_arrival p)%Z) p.
Proof.
  induction p as [|x p IH]; cbn [latest_arrival]; constructor; [lia |].
  eapply Forall_impl; [exact IH |]. cbn. intros y Hy. lia.
Qed.

Lemma set_ct_same (x : Process) : x = set_ct x (ct x).
Proof. now destruct x. Qed.

Lemma prio_iter_progress (A B : Z) (p0 : list Process) (st : prio_state) :
  (B <= INT_MAX)%Z ->
  prio_inv A B p0 st ->
  prio_done st < length (prio_p st) ->
  prio_inv A B p0 (prio_iter st)
  /\ prio_measure A (prio_iter st) < prio_measure A st.
Proof.
  intros HB (Hlen & Hcount & Hrel & Hall & Ht & Hclock & Hct) Hd.
  assert (Hbt : Forall (fun x => (0 <= bt x)%Z) (prio_p st)).
  { eapply Forall_impl; [exact Hall |]. cbn. intros x Hx. lia. }
  pose proof (pending_nonneg _ (prio_vis st) Hbt) as Hpend.
  destruct (prio_iter_cases st)
    as [[Hno ->] | (idx & x & Hx & [Hv Ha] & Hlt & _ & ->)].
  - (* idle: a process that was not run has not arrived *)
    destruct (unvisited_exists (prio_vis st) ltac:(lia)) as [j Hj].
    assert (Hjl : j < length (prio_p st)).
    { rewrite <- Hlen. apply lookup_lt_is_Some_1. eauto. }
    destruct (lookup_lt_is_Some_2 _ _ Hjl) as [y Hy].
    pose proof (proj1 (Forall_lookup _ _) Hall j y Hy) as (HyA & _ & Hyp).
    assert (Hlate : (prio_t st < at_ y)%Z).
    { destruct (Z.lt_ge_cases (prio_t st) (at_ y)) as [H | H]; [exact H |].
      pose proof (Hno j y Hy ltac:(split; [now apply list_lookup_total_correct | lia])).
      lia. }
    assert (Hw : wrap32 (prio_t st + 1) = (prio_t st + 1)%Z).
    { apply wrap32_small. unfold INT_MIN. lia. }
    rewrite Hw. unfold prio_inv, prio_measure.
    cbn [prio_p prio_t prio_done prio_vis].
    split; [| lia].
    split; [exact Hlen |]. split; [exact Hcount |]. split; [exact Hrel |].
    split; [exact Hall |]. split; [lia |]. split; [lia |].
    intros k z Hz Hk. specialize (Hct k z Hz Hk). lia.
  - (* run: the selected process, to its end *)
    pose proof (proj1 (Forall_lookup _ _) Hall idx x Hx) as (HxA & Hxb & _).
    assert (Hil : idx < length (prio_p st)) by (apply lookup_lt_is_Some_1; eauto).
    assert (Hvi : prio_vis st !! idx = Some 0%Z).
    { rewrite <- Hv. apply list_lookup_lookup_total_lt. lia. }
    set (p' := <[idx := set_ct x (wrap32 (prio_t st + bt x))]> (prio_p st)).
    pose proof (unvisited_insert _ _ _ Hvi) as Hu.
    pose proof (pending_insert _ _ _ _ _ (wrap32 (prio_t st + bt x)) Hx Hvi) as Hp.
    fold p' in Hp. change (0 =? 0)%Z with true in Hu, Hp. cbv iota in Hu, Hp.
    assert (Hall' : Forall (fun x => (at_ x <= A)%Z /\ (0 <= bt x)%Z
                                     /\ (prio x < PRIO_INF)%Z) p').
    { apply Forall_insert; [exact Hall |]. cbn [at_ bt prio set_ct].
      exact (proj1 (Forall_lookup _ _) Hall idx x Hx). }
    assert (Hbt' : Forall (fun x => (0 <= bt x)%Z) p').
    { eapply Forall_impl; [exact Hall' |]. cbn. intros z Hz. lia. }
    pose proof (pending_nonneg _ (<[idx := 1%Z]> (prio_vis st)) Hbt') as Hpend'.
    assert (Hw : wrap32 (prio_t st + bt x) = (prio_t st + bt x)%Z).
    { apply wrap32_small. unfold INT_MIN. lia. }
    unfold prio_inv, prio_measure. cbn [prio_p prio_t prio_done prio_vis].
    fold p'. rewrite Hw in *.
    split; [| lia].
    split; [unfold p'; now rewrite !length_insert |].
    split; [unfold p'; rewrite length_insert; lia |].
    split; [| split; [exact Hall' | split; [lia | split; [lia |]]]].
    + apply Forall2_same_length_lookup. split.
      { unfold p'. rewrite length_insert. eapply Forall2_length. exact Hrel. }
      intros i a b Hi Hb. unfold p' in Hb.
      destruct (decide (idx = i)) as [<- | Hne].
      * rewrite list_lookup_insert_eq in Hb by exact Hil. injection Hb as <-.
        pose proof (Forall2_lookup_lr _ _ _ _ _ _ Hrel Hi Hx) as Ex.
        rewrite Ex. reflexivity.
      * rewrite list_lookup_insert_ne in Hb by exact Hne.
        exact (Forall2_lookup_lr _ _ _ _ _ _ Hrel Hi Hb).
    + intros k z Hz Hk. unfold p' in Hz.
      destruct (decide (idx = k)) as [<- | Hne].
      * rewrite list_lookup_insert_eq in Hz by exact Hil. injection Hz as <-.
        cbn [at_ bt ct set_ct]. lia.
      * rewrite list_lookup_insert_ne in Hz by exact Hne.
        rewrite list_lookup_total_insert_ne in Hk by exact Hne.
        specialize (Hct k z Hz Hk). lia.
Qed.

Lemma prio_loop_keeps (A B : Z) (p0 : list Process) (fuel : nat) :
  (B <= INT_MAX)%Z ->
  forall st st',
    prio_inv A B p0 st ->
    prio_loop fuel st = Some st' ->
    prio_inv A B p0 st' /\ unvisited (prio_vis st') = 0.
Proof.
  intros HB. induction fuel as [|fuel IH]; intros st st' Hinv Hrun;
    cbn [prio_loop] in Hrun;
    destruct (Nat.ltb (prio_done st) (length (prio_p st))) eqn:E;
    try discriminate.
  - injection Hrun as <-. apply Nat.ltb_ge in E.
    split; [exact Hinv |]. destruct Hinv as (_ & Hcount & _). lia.
  - apply Nat.ltb_lt in E.
    destruct (prio_iter_progress A B p0 st HB Hinv E) as [Hinv' _].
    exact (IH _ _ Hinv' Hrun).
  - injection Hrun as <-. apply Nat.ltb_ge in E.
    split; [exact Hinv |]. destruct Hinv as (_ & Hcount & _). lia.
Qed.

Lemma prio_loop_terminates (A B : Z) (p0 : list Process) (n : nat) :
  (B <= INT_MAX)%Z ->
  forall st,
    prio_inv A B p0 st ->
    prio_measure A st <= n ->
    exists st', prio_loop n st = Some st'.
Proof.
  intros HB. induction n as [|n IH]; intros st Hinv Hm; cbn [prio_loop];
    destruct (Nat.ltb (prio_done st) (length (prio_p st))) eqn:E; eauto.
  - exfalso. apply Nat.ltb_lt in E.
    destruct (prio_iter_progress A B p0 st HB Hinv E) as [_ Hlt]. lia.
  - apply Nat.ltb_lt in E.
    destruct (prio_iter_progress A B p0 st HB Hinv E) as [Hinv' Hlt].
    apply IH; [exact Hinv' | lia].
Qed.

Lemma prio_init_inv (p : list Process) :
  Forall (fun x => (0 <= bt x)%Z /\ (prio x < PRIO_INF)%Z) p ->
  prio_inv (latest_arrival p) (total_burst p + latest_arrival p) p (prio_init p).
Proof.
  intros H. unfold prio_inv, prio_init. cbn [prio_p prio_t prio_done prio_vis].
  pose proof (latest_arrival_nonneg p) as Hl.
  rewrite repeat_length, unvisited_repeat, pending_repeat.
  split; [reflexivity |]. split; [reflexivity |]. split.
  { clear. induction p as [|x p IH]; constructor; [apply set_ct_same | exact IH]. }
  split.
  { pose proof (latest_arrival_bound p) as Hb.
    rewrite Forall_forall in *. intros x Hx. specialize (H x Hx). specialize (Hb x Hx).
    cbn beta in *. lia. }
  split; [lia |]. split; [lia |].
  intros j y Hy Hj. rewrite lookup_total_repeat in Hj; [contradiction |].
  apply lookup_lt_is_Some_1. eauto.
Qed.

(** X27: for priority values below 10^9 and burst times that are not
    negative, with a clock that stays an [int], [prioritySched] returns, and
    whenever it returns the vector is the sorted one with only the
    completion times changed: every process was run, and completed not
    before its arrival plus its burst time and not after the latest arrival
    plus the total burst. *)
Theorem priority_schedule :
  forall (sort_by_arrival : list Process -> list Process) (p : list Process),
    sort_by_arrival p ≡ₚ p ->
    Forall (fun x => (0 <= bt x)%Z /\ (prio x < PRIO_INF)%Z) p ->
    (total_burst p + latest_arrival p <= INT_MAX)%Z ->
    (exists fuel st, prioritySched sort_by_arrival fuel p = Some st)
    /\ forall fuel st,
         prioritySched sort_by_arrival fuel p = Some st ->
         prio_done st = length p
         /\ Forall2 (fun x y =>
                       y = set_ct x (ct y)
                       /\ (at_ x + bt x <= ct y
                           <= total_burst p + latest_arrival p)%Z)
                    (sort_by_arrival p) (prio_p st).
Proof.
  intros sort p Hperm Hp Hfit.
  assert (Hp' : Forall (fun x => (0 <= bt x)%Z /\ (prio x < PRIO_INF)%Z) (sort p))
    by now rewrite Hperm.
  pose proof (prio_init_inv (sort p) Hp') as Hinv.
  rewrite (latest_arrival_perm _ _ Hperm), (total_burst_perm _ _ Hperm) in Hinv.
  unfold prioritySched. split.
  - exists (prio_measure (latest_arrival p) (prio_init (sort p))).
    apply (prio_loop_terminates _ _ (sort p) _ Hfit _ Hinv). lia.
  - intros fuel st Hrun.
    destruct (prio_loop_keeps _ _ (sort p) fuel Hfit _ _ Hinv Hrun)
      as [(Hlen & Hcount & Hrel & Hall & Ht & Hclock & Hct) Hun].
    assert (Hbt : Forall (fun x => (0 <= bt x)%Z) (prio_p st)).
    { eapply Forall_impl; [exact Hall |]. cbn. intros x Hx. lia. }
    pose proof (pending_nonneg _ (prio_vis st) Hbt) as Hpend.
    split.
    { rewrite <- (Permutation_length Hperm), (Forall2_length _ _ _ Hrel). lia. }
    apply Forall2_same_length_lookup. split; [eapply Forall2_length; exact Hrel |].
    intros i x y Hx Hy. pose proof (Forall2_lookup_lr _ _ _ _ _ _ Hrel Hx Hy) as E.
    split; [exact E |].
    assert (Hv : prio_vis st !!! i <> 0%Z).
    { intros Hv.
      assert (Hi : i < length (prio_vis st))
        by (rewrite Hlen; apply lookup_lt_is_Some_1; eauto).
      pose proof (list_lookup_lookup_total_lt _ _ Hi) as Hl. rewrite Hv in Hl.
      pose proof (unvisited_pos _ _ Hl). lia. }
    specialize (Hct i y Hy Hv). rewrite E in Hct. cbn [at_ bt ct set_ct] in Hct.
    lia.
Qed.

Lemma priority_schedule_witness :
  exists fuel st,
    prioritySched id fuel sample_processes = Some st
    /\ Forall2 (fun x y => y = set_ct x (ct y) /\ (at_ x + bt x <= ct y <= 25)%Z)
               sample_processes (prio_p st).
Proof.
  destruct (priority_schedule id sample_processes) as [(fuel & st & Hrun) Hall].
  - reflexivity.
  - repeat constructor; cbn; unfold PRIO_INF; lia.
  - vm_compute. discriminate.
  - exists fuel, st. split; [exact Hrun |].
    exact (proj2 (Hall fuel st Hrun)).
Defined.

(** *** Priority: a process that is never chosen *)

Lemma prio_loop_starved (i : nat) (fuel : nat) : forall st,
  length (prio_vis st) = length (prio_p st) ->
  prio_done st + unvisited (prio_vis st) = length (prio_p st) ->
  (exists x, prio_p st !! i = Some x /\ (PRIO_INF <= prio x)%Z) ->
  prio_vis st !!! i = 0%Z ->
  prio_loop fuel st = None.
Proof.
  induction fuel as [|fuel IH]; intros st Hlen Hcount (x & Hx & Hp) Hv.
  - assert (Hi : i < length (prio_vis st))
      by (rewrite Hlen; apply lookup_lt_is_Some_1; eauto).
    pose proof (list_lookup_lookup_total_lt _ _ Hi) as Hl. rewrite Hv in Hl.
    pose proof (unvisited_pos _ _ Hl).
    cbn [prio_loop].
    assert (E : Nat.ltb (prio_done st) (length (prio_p st)) = true)
      by (apply Nat.ltb_lt; lia).
    now rewrite E.
  - assert (Hi : i < length (prio_vis st))
      by (rewrite Hlen; apply lookup_lt_is_Some_1; eauto).
    pose proof (list_lookup_lookup_total_lt _ _ Hi) as Hl. rewrite Hv in Hl.
    pose proof (unvisited_pos _ _ Hl).
    cbn [prio_loop].
    assert (E : Nat.ltb (prio_done st) (length (prio_p st)) = true)
      by (apply Nat.ltb_lt; lia).
    rewrite E.
    destruct (prio_iter_cases st)
      as [[_ ->] | (idx & y & Hy & [Hvy _] & Hlt & _ & ->)].
    + apply IH; cbn [prio_p prio_vis prio_done]; eauto.
    + assert (Hne : idx <> i).
      { intros ->. rewrite Hx in Hy. injection Hy as <-. lia. }
      assert (Hil : idx < length (prio_p st)) by (apply lookup_lt_is_Some_1; eauto).
      assert (Hvi : prio_vis st !! idx = Some 0%Z).
      { rewrite <- Hvy. apply list_lookup_lookup_total_lt. lia. }
      pose proof (unvisited_insert _ _ _ Hvi) as Hu.
      change (0 =? 0)%Z with true in Hu. cbv iota in Hu.
      apply IH; cbn [prio_p prio_vis prio_done].
      * now rewrite !length_insert.
      * rewrite length_insert. lia.
      * exists x. split; [| exact Hp]. now rewrite list_lookup_insert_ne.
      * now rewrite list_lookup_total_insert_ne.
Qed.

(** X28: if some process has a priority value of 10^9 or more, the loop
    of [prioritySched] never ends, whatever the fuel: the selection asks for
    a value below the sentinel [best = 1e9], so that process is never run
    and [done] never reaches the number of processes. *)
Theorem priority_sentinel_starves :
  forall (sort_by_arrival : list Process -> list Process) (p : list Process),
    sort_by_arrival p ≡ₚ p ->
    Exists (fun x => (PRIO_INF <= prio x)%Z) p ->
    forall fuel, prioritySched sort_by_arrival fuel p = None.
Proof.
  intros sort p Hperm Hex fuel. rewrite <- Hperm in Hex.
  apply Exists_exists in Hex. destruct Hex as (x & Hin & Hp).
  apply list_elem_of_lookup_1 in Hin. destruct Hin as [i Hi].
  unfold prioritySched, prio_init.
  apply (prio_loop_starved i); cbn [prio_p prio_vis prio_done].
  - apply repeat_length.
  - now rewrite unvisited_repeat.
  - eauto.
  - apply lookup_total_repeat. apply lookup_lt_is_Some_1. eauto.
Qed.

Lemma priority_sentinel_starves_witness :
  prioritySched id 1000 [process 1 0 5 1000000000] = None.
Proof.
  apply (priority_sentinel_starves id [process 1 0 5 1000000000]).
  - reflexivity.
  - constructor. cbn. unfold PRIO_INF. lia.
Defined.

(** *** Round Robin: the admission loop *)

Lemma arrived_lt (p : list Process) (t : Z) (vis_ : list Z) (j : nat) :
  arrived p t vis_ j = true ->
  exists x, p !! j = Some x /\ vis_ !!! j = 0%Z /\ (at_ x <= t)%Z.
Proof.
  unfold arrived. destruct (p !! j) as [x|]; [| discriminate].
  intros H. apply andb_prop in H. destruct H as [H1 H2].
  apply Z.eqb_eq in H1. apply Z.leb_le in H2. eauto.
Qed.

Lemma arrived_false (p : list Process) (t : Z) (vis_ : list Z) (j : nat) (x : Process) :
  p !! j = Some x -> arrived p t vis_ j = false ->
  vis_ !!! j <> 0%Z \/ (t < at_ x)%Z.
Proof.
  unfold arrived. intros ->. intros H. apply andb_false_iff in H.
  destruct H as [H | H]; [left; now apply Z.eqb_neq | right; now apply Z.leb_gt].
Qed.

Lemma arrivals_elem (p : list Process) (t : Z) (vis_ : list Z) (j : nat) :
  j ∈ arrivals p t vis_ <-> arrived p t vis_ j = true.
Proof.
  unfold arrivals. rewrite list_elem_of_In, List.filter_In, List.in_seq. split.
  - tauto.
  - intros H. split; [| exact H].
    destruct (arrived_lt _ _ _ _ H) as (x & Hx & _).
    apply lookup_lt_Some in Hx. lia.
Qed.

Lemma arrivals_NoDup (p : list Process) (t : Z) (vis_ : list Z) :
  NoDup (arrivals p t vis_).
Proof. unfold arrivals. apply NoDup_ListNoDup, List.NoDup_filter, List.seq_NoDup. Qed.

(** The visited flags after the admission loop over the indices [js]. *)
Lemma enqueue_fold_vis (p : list Process) (t : Z) (js : list nat) :
  List.NoDup js ->
  forall rdy vis_,
    (forall j, In j js -> j < length vis_) ->
    let r := fold_left (fun '(rdy, vis_) j =>
                          if arrived p t vis_ j then (rdy ++ [j], <[j := 1%Z]> vis_)
                          else (rdy, vis_))
                       js (rdy, vis_) in
    length (snd r) = length vis_
    /\ forall j,
         snd r !!! j = if existsb (Nat.eqb j) js && arrived p t vis_ j
                       then 1%Z else vis_ !!! j.
Proof.
  induction js as [|j0 js IH]; intros Hnd rdy vis_ Hlt.
  - cbn. auto.
  - apply List.NoDup_cons_iff in Hnd. destruct Hnd as [Hj0 Hnd].
    assert (Hj0' : existsb (Nat.eqb j0) js = false).
    { destruct (existsb (Nat.eqb j0) js) eqn:E; [| reflexivity].
      apply List.existsb_exists in E. destruct E as (k & Hk & Ek).
      apply Nat.eqb_eq in Ek. subst k. contradiction. }
    cbn [fold_left existsb].
    destruct (arrived p t vis_ j0) eqn:E.
    + destruct (IH Hnd (rdy ++ [j0]) (<[j0 := 1%Z]> vis_)) as [H1 H2].
      { intros j Hj. rewrite length_insert. apply Hlt. now right. }
      cbv zeta in H1, H2 |- *. split; [now rewrite H1, length_insert |].
      intros j. rewrite H2.
      destruct (Nat.eqb_spec j j0) as [-> | Hne].
      * rewrite Hj0', E. cbn [andb orb].
        apply list_lookup_total_insert_eq. apply Hlt. now left.
      * cbn [orb]. rewrite arrived_insert_ne by congruence.
        rewrite list_lookup_total_insert_ne by congruence. reflexivity.
    + destruct (IH Hnd rdy vis_) as [H1 H2].
      { intros j Hj. apply Hlt. now right. }
      cbv zeta in H1, H2 |- *. split; [exact H1 |].
      intros j. rewrite H2.
      destruct (Nat.eqb_spec j j0) as [-> | Hne]; [| reflexivity].
      rewrite Hj0', E. reflexivity.
Qed.

Lemma enqueue_arrivals_vis (p : list Process) (t : Z) (rdy : list nat) (vis_ : list Z) :
  length vis_ = length p ->
  length (snd (enqueue_arrivals p t (rdy, vis_))) = length vis_
  /\ forall j,
       snd (enqueue_arrivals p t (rdy, vis_)) !!! j
       = if arrived p t vis_ j then 1%Z else vis_ !!! j.
Proof.
  intros Hlen. unfold enqueue_arrivals.
  destruct (enqueue_fold_vis p t (seq 0 (length p)) (List.seq_NoDup _ _) rdy vis_)
    as [H1 H2].
  { intros j Hj. apply List.in_seq in Hj. lia. }
  split; [exact H1 |]. intros j. rewrite H2.
  destruct (arrived p t vis_ j) eqn:E; [| now rewrite andb_false_r].
  destruct (arrived_lt _ _ _ _ E) as (x & Hx & _). apply lookup_lt_Some in Hx.
  assert (Hex : existsb (Nat.eqb j) (seq 0 (length p)) = true).
  { apply List.existsb_exists. exists j. split; [apply List.in_seq; lia |].
    apply Nat.eqb_refl. }
  now rewrite Hex.
Qed.

Lemma arrived_same_arrival (p0 p : list Process) (t : Z) (vis_ : list Z) (j : nat) :
  Forall2 (fun x y => y = set_ct x (ct y)) p0 p ->
  arrived p t vis_ j = arrived p0 t vis_ j.
Proof.
  intros Hrel. unfold arrived.
  destruct (p !! j) as [y|] eqn:Ey.
  - destruct (Forall2_lookup_r _ _ _ _ _ Hrel Ey) as (x & -> & ->). reflexivity.
  - destruct (p0 !! j) as [x|] eqn:Ex; [| reflexivity].
    destruct (Forall2_lookup_l _ _ _ _ _ Hrel Ex) as (y & Hy & _). congruence.
Qed.

(** The admission loop at the clock [t] keeps the queue in order. *)
Lemma enqueue_keeps (p0 p : list Process) (t : Z) (rt_ vis_ : list Z) (rdy : list nat) :
  Forall2 (fun x y => y = set_ct x (ct y)) p0 p ->
  Forall (fun x => (0 < bt x)%Z) p0 ->
  rr_queue_ok p0 t rt_ vis_ rdy ->
  let r := enqueue_arrivals p t (rdy, vis_) in
  rr_queue_ok p0 t rt_ (snd r) (fst r)
  /\ fst r = rdy ++ arrivals p t vis_
  /\ (forall j, vis_ !!! j <> 0%Z -> snd r !!! j <> 0%Z)
  /\ (forall j, snd r !!! j <> 0%Z -> vis_ !!! j <> 0%Z \/ j ∈ arrivals p t vis_)
  /\ (forall j x, p0 !! j = Some x -> snd r !!! j = 0%Z -> (t < at_ x)%Z).
Proof.
  intros Hrel Hpos (Hlr & Hlv & Hnd & Hd & Hf & Hh) r. subst r.
  pose proof (Forall2_length _ _ _ Hrel) as Hlp.
  destruct (enqueue_arrivals_vis p t rdy vis_ ltac:(lia)) as [Hl1 Hv1].
  pose proof (enqueue_arrivals_queue p t rdy vis_) as Hq.
  set (r := enqueue_arrivals p t (rdy, vis_)) in *.
  assert (Harr : forall j, arrived p t vis_ j = true ->
                           exists x, p0 !! j = Some x /\ vis_ !!! j = 0%Z
                                     /\ (at_ x <= t)%Z).
  { intros j E. rewrite (arrived_same_arrival p0 p t vis_ j Hrel) in E.
    now apply arrived_lt. }
  split; [| split; [exact Hq | split; [| split]]].
  - split; [exact Hlr |]. split; [lia |]. split; [| split; [| split]].
    + rewrite Hq. apply NoDup_app. split; [exact Hnd |].
      split; [| apply arrivals_NoDup].
      intros i Hi Hi'. apply arrivals_elem in Hi'.
      destruct (Harr i Hi') as (_ & _ & Hv & _).
      destruct (Hd i Hi) as (_ & Hv' & _). contradiction.
    + intros i Hi. rewrite Hq in Hi. apply elem_of_app in Hi.
      rewrite Hv1. destruct Hi as [Hi | Hi].
      * destruct (Hd i Hi) as (H1 & H2 & H3).
        split; [exact H1 |]. split; [| exact H3].
        destruct (arrived p t vis_ i); [discriminate | exact H2].
      * apply arrivals_elem in Hi. rewrite Hi.
        destruct (Harr i Hi) as (x & Hx & Hv & _).
        split; [apply lookup_lt_Some in Hx; exact Hx |]. split; [discriminate |].
        rewrite (Hf i x Hx Hv).
        exact (proj1 (Forall_lookup _ _) Hpos i x Hx).
    + intros j x Hx Hv. rewrite Hv1 in Hv.
      destruct (arrived p t vis_ j); [discriminate |]. now apply Hf.
    + intros j x Hx Hv. rewrite Hv1 in Hv.
      destruct (arrived p t vis_ j) eqn:E.
      * destruct (Harr j E) as (x' & Hx' & Hv' & Ha).
        rewrite Hx in Hx'. injection Hx' as <-.
        rewrite (Hf j x Hx Hv'). lia.
      * now apply Hh.
  - intros j Hv. rewrite Hv1.
    destruct (arrived p t vis_ j); [discriminate | exact Hv].
  - intros j Hv. rewrite Hv1 in Hv.
    destruct (arrived p t vis_ j) eqn:E.
    + right. now apply arrivals_elem.
    + left. exact Hv.
  - intros j x Hx Hv. rewrite Hv1 in Hv.
    destruct (arrived p t vis_ j) eqn:E; [discriminate |].
    rewrite (arrived_same_arrival p0 p t vis_ j Hrel) in E.
    destruct (arrived_false _ _ _ _ _ Hx E) as [H | H]; [contradiction | exact H].
Qed.

(** *** Round Robin: one iteration *)

Lemma total_rt_insert (l : list Z) : forall i v w,
  l !! i = Some v -> total_rt (<[i := w]> l) = (total_rt l - v + w)%Z.
Proof.
  induction l as [|z l IH]; intros i v w H; [discriminate |].
  destruct i as [|i].
  - injection H as ->. change (<[0 := w]> (v :: l)) with (w :: l).
    cbn [total_rt]. lia.
  - change ((z :: l) !! S i) with (l !! i) in H.
    change (<[S i := w]> (z :: l)) with (z :: <[i := w]> l).
    cbn [total_rt]. rewrite (IH i v w H). lia.
Qed.

Lemma count_pos_insert (l : list Z) : forall i v w,
  l !! i = Some v ->
  count_pos (<[i := w]> l) + (if (0 <? v)%Z then 1 else 0)
  = count_pos l + (if (0 <? w)%Z then 1 else 0).
Proof.
  induction l as [|z l IH]; intros i v w H; [discriminate |].
  destruct i as [|i].
  - injection H as ->. change (<[0 := w]> (v :: l)) with (w :: l).
    cbn [count_pos]. lia.
  - change ((z :: l) !! S i) with (l !! i) in H.
    change (<[S i := w]> (z :: l)) with (z :: <[i := w]> l).
    cbn [count_pos]. specialize (IH i v w H). lia.
Qed.

Lemma count_pos_exists (l : list Z) :
  0 < count_pos l -> exists j v, l !! j = Some v /\ (0 < v)%Z.
Proof.
  induction l as [|z l IH]; cbn [count_pos]; [lia |].
  destruct (Z.ltb_spec 0 z) as [Hz | Hz].
  - intros _. exists 0, z. auto.
  - intros H. destruct IH as (j & v & Hj & Hv); [lia |]. exists (S j), v. auto.
Qed.

Lemma count_pos_none (l : list Z) :
  count_pos l = 0 -> Forall (fun v => (0 <= v)%Z) l -> Forall (fun v => v = 0%Z) l.
Proof.
  induction l as [|z l IH]; intros Hc Hn; [constructor |].
  inversion Hn as [|? ? Hz Hl]; subst. cbn [count_pos] in Hc.
  destruct (Z.ltb_spec 0 z) as [H | H]; [lia |].
  constructor; [lia | apply IH; [lia | exact Hl]].
Qed.

Lemma total_rt_bound (l : list Z) :
  Forall (fun v => (0 <= v)%Z) l ->
  (0 <= total_rt l)%Z /\ forall i v, l !! i = Some v -> (v <= total_rt l)%Z.
Proof.
  induction 1 as [|z l Hz _ [IH1 IH2]]; cbn [total_rt].
  - split; [lia | intros i v H; discriminate].
  - split; [lia |]. intros i v H. destruct i as [|i].
    + injection H as ->. lia.
    + change ((z :: l) !! S i) with (l !! i) in H. specialize (IH2 i v H). lia.
Qed.

Lemma rr_queue_ok_later (p0 : list Process) (t t' : Z) (rt_ vis_ : list Z)
    (rdy : list nat) :
  (t <= t')%Z -> rr_queue_ok p0 t rt_ vis_ rdy -> rr_queue_ok p0 t' rt_ vis_ rdy.
Proof.
  intros Hle (H1 & H2 & H3 & H4 & H5 & H6).
  split; [exact H1 |]. split; [exact H2 |]. split; [exact H3 |].
  split; [exact H4 |]. split; [exact H5 |].
  intros j x Hx Hv. specialize (H6 j x Hx Hv). lia.
Qed.

(** The iteration, with the two admission loops named. *)
Lemma rr_iter_eq (q : Z) (st : rr_state) :
  let r1 := enqueue_arrivals (rr_p st) (rr_t st) (ready st, vis st) in
  match fst r1 with
  | [] =>
      rr_iter q st
      = mkRR (rr_p st) (wrap32 (rr_t st + 1)) [] (rr_rt st) (snd r1) (rr_done st)
  | i :: rest =>
      let exec := Z.min q (rr_rt st !!! i) in
      let rt' := <[i := wrap32 (rr_rt st !!! i - exec)]> (rr_rt st) in
      let t := wrap32 (rr_t st + exec) in
      let r2 := enqueue_arrivals (rr_p st) t (rest, snd r1) in
      rr_iter q st
      = if (rt' !!! i =? 0)%Z then
          mkRR (alter (fun x => set_ct x t) i (rr_p st)) t (fst r2) rt' (snd r2)
               (S (rr_done st))
        else mkRR (rr_p st) t (fst r2 ++ [i]) rt' (snd r2) (rr_done st)
  end.
Proof.
  unfold rr_iter.
  destruct (enqueue_arrivals (rr_p st) (rr_t st) (ready st, vis st)) as [r1 v1].
  cbn [fst snd]. destruct r1 as [|i rest]; [reflexivity |].
  cbv zeta.
  destruct (enqueue_arrivals (rr_p st) _ (rest, v1)) as [r2 v2].
  reflexivity.
Qed.

Lemma rr_iter_progress (q A B : Z) (p0 : list Process) (st : rr_state) :
  (1 <= q)%Z -> (B <= INT_MAX)%Z ->
  rr_inv A B p0 st ->
  rr_done st < length p0 ->
  rr_inv A B p0 (rr_iter q st) /\ rr_measure A (rr_iter q st) < rr_measure A st.
Proof.
  intros Hq HB (Hrel & Hall & Hok & He & Hnn & Hcount & Ht & Hclock & Hct) Hd.
  assert (Hpos : Forall (fun x => (0 < bt x)%Z) p0).
  { eapply Forall_impl; [exact Hall |]. cbn. intros x Hx. lia. }
  destruct (total_rt_bound _ Hnn) as [Htot Hle].
  destruct (enqueue_keeps p0 (rr_p st) (rr_t st) (rr_rt st) (vis st) (ready st)
              Hrel Hpos Hok) as (Hok1 & Hq1 & Hmono1 & Hnew1 & Hlate1).
  pose proof (rr_iter_eq q st) as Eq. cbv zeta in Eq.
  set (r1 := enqueue_arrivals (rr_p st) (rr_t st) (ready st, vis st)) in *.
  assert (He1 : forall j, j < length p0 -> snd r1 !!! j <> 0%Z ->
                          (0 < rr_rt st !!! j)%Z -> j ∈ fst r1).
  { intros j Hj Hv Hr. rewrite Hq1. apply elem_of_app.
    destruct (Hnew1 j Hv) as [H | H]; [left; now apply He | right; exact H]. }
  destruct Hok1 as (Hlr & Hlv1 & Hnd1 & Hd1 & Hf1 & Hh1).
  destruct (fst r1) as [|i rest] eqn:Er1.
  - (* the queue is empty: a process with time remaining has not arrived *)
    rewrite Eq.
    destruct (count_pos_exists (rr_rt st) ltac:(lia)) as (j & v & Hj & Hv).
    assert (Hjl : j < length p0) by (rewrite <- Hlr; eapply lookup_lt_Some; exact Hj).
    destruct (lookup_lt_is_Some_2 _ _ Hjl) as [x Hx].
    pose proof (list_lookup_total_correct _ _ _ Hj) as Hjt.
    assert (Hv0 : snd r1 !!! j = 0%Z).
    { destruct (Z.eq_dec (snd r1 !!! j) 0%Z) as [H | H]; [exact H |].
      pose proof (He1 j Hjl H ltac:(lia)) as Hin. inversion Hin. }
    pose proof (Hlate1 j x Hx Hv0) as Hlate.
    pose proof (proj1 (Forall_lookup _ _) Hall j x Hx) as [HxA _].
    assert (Hw : wrap32 (rr_t st + 1) = (rr_t st + 1)%Z).
    { apply wrap32_small. unfold INT_MIN. lia. }
    rewrite Hw. unfold rr_inv, rr_measure.
    cbn [rr_p rr_t ready rr_rt vis rr_done].
    split; [| lia].
    split; [exact Hrel |]. split; [exact Hall |]. split.
    { apply (rr_queue_ok_later p0 (rr_t st)); [lia |].
      split; [exact Hlr |]. split; [exact Hlv1 |]. auto. }
    split.
    { intros k Hk Hvk Hrk. exact (He1 k Hk Hvk Hrk). }
    split; [exact Hnn |]. split; [exact Hcount |]. split; [lia |]. split; [lia |].
    intros k y Hy Hr. specialize (Hct k y Hy Hr). lia.
  - (* the head of the queue runs for a slice *)
    destruct (Hd1 i ltac:(apply elem_of_cons; auto)) as (Hil & Hvi & Hri).
    assert (Hirt : rr_rt st !! i = Some (rr_rt st !!! i)).
    { apply list_lookup_lookup_total_lt. lia. }
    pose proof (Hle i _ Hirt) as Hrle.
    set (r := rr_rt st !!! i) in *.
    set (exec := Z.min q r) in *.
    assert (Hex : (1 <= exec <= r)%Z) by (unfold exec; lia).
    assert (Hw1 : wrap32 (r - exec) = (r - exec)%Z).
    { apply wrap32_small. unfold INT_MIN. lia. }
    assert (Hw2 : wrap32 (rr_t st + exec) = (rr_t st + exec)%Z).
    { apply wrap32_small. unfold INT_MIN. lia. }
    rewrite Hw1, Hw2 in Eq.
    set (t' := (rr_t st + exec)%Z) in *.
    set (rt' := <[i := (r - exec)%Z]> (rr_rt st)) in *.
    assert (Hrt'i : rt' !!! i = (r - exec)%Z).
    { unfold rt'. apply list_lookup_total_insert_eq. lia. }
    assert (Hrt'ne : forall j, j <> i -> rt' !!! j = rr_rt st !!! j).
    { intros j Hj. unfold rt'. apply list_lookup_total_insert_ne. congruence. }
    apply NoDup_cons in Hnd1. destruct Hnd1 as [Hirest Hndrest].
    destruct (lookup_lt_is_Some_2 _ _ Hil) as [xi Hxi].
    assert (Hok' : rr_queue_ok p0 t' rt' (snd r1) rest).
    { split; [unfold rt'; now rewrite length_insert |]. split; [exact Hlv1 |].
      split; [exact Hndrest |]. split; [| split].
      - intros k Hk.
        destruct (Hd1 k ltac:(apply elem_of_cons; auto)) as (H1 & H2 & H3).
        split; [exact H1 |]. split; [exact H2 |].
        rewrite Hrt'ne; [exact H3 |]. intros ->. contradiction.
      - intros j x Hx Hv. rewrite Hrt'ne; [now apply Hf1 |].
        intros ->. contradiction.
      - intros j x Hx Hv. destruct (decide (j = i)) as [-> | Hne].
        + rewrite Hrt'i. specialize (Hh1 i x Hx Hv). fold r in Hh1. unfold t'. lia.
        + rewrite Hrt'ne by exact Hne. specialize (Hh1 j x Hx Hv). unfold t'. lia. }
    destruct (enqueue_keeps p0 (rr_p st) t' rt' (snd r1) rest Hrel Hpos Hok')
      as (Hok2 & Hq2 & Hmono2 & Hnew2 & Hlate2).
    set (r2 := enqueue_arrivals (rr_p st) t' (rest, snd r1)) in *.
    assert (He2 : forall j, j < length p0 -> j <> i -> snd r2 !!! j <> 0%Z ->
                            (0 < rt' !!! j)%Z -> j ∈ fst r2).
    { intros j Hj Hne Hv Hr. rewrite Hq2. apply elem_of_app.
      destruct (Hnew2 j Hv) as [H | H]; [left | right; exact H].
      rewrite Hrt'ne in Hr by exact Hne.
      pose proof (He1 j Hj H Hr) as Hin. apply elem_of_cons in Hin.
      destruct Hin as [-> | Hin]; [contradiction | exact Hin]. }
    assert (Hnn' : Forall (fun v => (0 <= v)%Z) rt').
    { unfold rt'. apply Forall_insert; [exact Hnn | lia]. }
    pose proof (total_rt_insert _ _ _ (r - exec)%Z Hirt) as Htot'.
    pose proof (count_pos_insert _ _ _ (r - exec)%Z Hirt) as Hcnt'.
    fold rt' in Htot', Hcnt'. fold r in Htot', Hcnt'.
    assert (Hrpos : (0 <? r)%Z = true) by (apply Z.ltb_lt; lia).
    rewrite Hrpos in Hcnt'.
    rewrite Eq, Hrt'i.
    destruct (Z.eqb_spec (r - exec) 0%Z) as [E0 | E0].
    + (* the process completes *)
      rewrite E0 in Hcnt'. change (0 <? 0)%Z with false in Hcnt'. cbv iota in Hcnt'.
      unfold rr_inv, rr_measure. cbn [rr_p rr_t ready rr_rt vis rr_done].
      split; [| lia].
      split.
      { apply Forall2_alter_r; [exact Hrel |].
        intros x y _ _ ->. reflexivity. }
      split; [exact Hall |]. split; [exact Hok2 |]. split.
      { intros j Hj Hv Hr. destruct (decide (j = i)) as [-> | Hne].
        - rewrite Hrt'i in Hr. lia.
        - now apply He2. }
      split; [exact Hnn' |]. split; [lia |]. split; [unfold t'; lia |].
      split; [unfold t'; lia |].
      intros j y Hy Hr. destruct (decide (j = i)) as [-> | Hne].
      * rewrite list_lookup_alter_eq in Hy.
        destruct (rr_p st !! i) as [yi|] eqn:Eyi; [| discriminate].
        cbn in Hy. injection Hy as <-. cbn [at_ bt ct set_ct].
        pose proof (Forall2_lookup_lr _ _ _ _ _ _ Hrel Hxi Eyi) as Exy.
        rewrite Exy. cbn [at_ bt set_ct].
        specialize (Hh1 i xi Hxi Hvi). fold r in Hh1. unfold t'. lia.
      * rewrite list_lookup_alter_ne in Hy by congruence.
        rewrite Hrt'ne in Hr by exact Hne.
        specialize (Hct j y Hy Hr). unfold t'. lia.
    + (* the process goes back to the queue *)
      assert (Hp' : (0 <? r - exec)%Z = true) by (apply Z.ltb_lt; lia).
      rewrite Hp' in Hcnt'.
      unfold rr_inv, rr_measure. cbn [rr_p rr_t ready rr_rt vis rr_done].
      split; [| lia].
      split; [exact Hrel |]. split; [exact Hall |].
      destruct Hok2 as (K1 & K2 & K3 & K4 & K5 & K6).
      split.
      { split; [exact K1 |]. split; [exact K2 |]. split; [| split; [| split]].
        - apply NoDup_app. split; [exact K3 |]. split; [| apply NoDup_singleton].
          intros k Hk Hk'. apply list_elem_of_singleton in Hk'. subst k.
          rewrite Hq2 in Hk. apply elem_of_app in Hk.
          destruct Hk as [Hk | Hk]; [contradiction |].
          apply arrivals_elem in Hk.
          destruct (arrived_lt _ _ _ _ Hk) as (_ & _ & Hv & _). contradiction.
        - intros k Hk. apply elem_of_app in Hk. destruct Hk as [Hk | Hk].
          + now apply K4.
          + apply list_elem_of_singleton in Hk. subst k.
            split; [exact Hil |]. split; [now apply Hmono2 |].
            rewrite Hrt'i. lia.
        - exact K5.
        - exact K6. }
      split.
      { intros j Hj Hv Hr. apply elem_of_app.
        destruct (decide (j = i)) as [-> | Hne].
        - right. now apply list_elem_of_singleton.
        - left. now apply He2. }
      split; [exact Hnn' |]. split; [lia |]. split; [unfold t'; lia |].
      split; [unfold t'; lia |].
      intros j y Hy Hr. destruct (decide (j = i)) as [-> | Hne].
      * rewrite Hrt'i in Hr. lia.
      * rewrite Hrt'ne in Hr by exact Hne.
        specialize (Hct j y Hy Hr). unfold t'. lia.
Qed.

(** *** Round Robin: the run *)

Lemma rr_loop_keeps (q A B : Z) (p0 : list Process) (fuel : nat) :
  (1 <= q)%Z -> (B <= INT_MAX)%Z ->
  forall st st',
    rr_inv A B p0 st ->
    rr_loop fuel q st = Some st' ->
    rr_inv A B p0 st' /\ count_pos (rr_rt st') = 0.
Proof.
  intros Hq HB. induction fuel as [|fuel IH]; intros st st' Hinv Hrun;
    cbn [rr_loop] in Hrun;
    destruct (Nat.ltb (rr_done st) (length (rr_p st))) eqn:E;
    try discriminate.
  - injection Hrun as <-. apply Nat.ltb_ge in E. split; [exact Hinv |].
    destruct Hinv as (Hrel & _ & _ & _ & _ & Hcount & _).
    rewrite <- (Forall2_length _ _ _ Hrel) in E. lia.
  - apply Nat.ltb_lt in E.
    assert (Hd : rr_done st < length p0).
    { destruct Hinv as (Hrel & _). now rewrite (Forall2_length _ _ _ Hrel). }
    destruct (rr_iter_progress q A B p0 st Hq HB Hinv Hd) as [Hinv' _].
    exact (IH _ _ Hinv' Hrun).
  - injection Hrun as <-. apply Nat.ltb_ge in E. split; [exact Hinv |].
    destruct Hinv as (Hrel & _ & _ & _ & _ & Hcount & _).
    rewrite <- (Forall2_length _ _ _ Hrel) in E. lia.
Qed.

Lemma rr_loop_terminates (q A B : Z) (p0 : list Process) (n : nat) :
  (1 <= q)%Z -> (B <= INT_MAX)%Z ->
  forall st,
    rr_inv A B p0 st ->
    rr_measure A st <= n ->
    exists st', rr_loop n q st = Some st'.
Proof.
  intros Hq HB. induction n as [|n IH]; intros st Hinv Hm; cbn [rr_loop];
    destruct (Nat.ltb (rr_done st) (length (rr_p st))) eqn:E; eauto.
  - exfalso. apply Nat.ltb_lt in E.
    assert (Hd : rr_done st < length p0).
    { destruct Hinv as (Hrel & _). now rewrite (Forall2_length _ _ _ Hrel). }
    destruct (rr_iter_progress q A B p0 st Hq HB Hinv Hd) as [_ Hlt]. lia.
  - apply Nat.ltb_lt in E.
    assert (Hd : rr_done st < length p0).
    { destruct Hinv as (Hrel & _). now rewrite (Forall2_length _ _ _ Hrel). }
    destruct (rr_iter_progress q A B p0 st Hq HB Hinv Hd) as [Hinv' Hlt].
    apply IH; [exact Hinv' | lia].
Qed.

Lemma total_rt_bursts (p : list Process) : total_rt (map bt p) = total_burst p.
Proof. induction p as [|x p IH]; cbn; [reflexivity | now rewrite IH]. Qed.

Lemma count_pos_bursts (p : list Process) :
  Forall (fun x => (0 < bt x)%Z) p -> count_pos (map bt p) = length p.
Proof.
  induction 1 as [|x p Hx _ IH]; cbn [map count_pos length]; [reflexivity |].
  assert (E : (0 <? bt x)%Z = true) by (apply Z.ltb_lt; lia).
  now rewrite E, IH.
Qed.

Lemma lookup_total_bursts (p : list Process) (j : nat) (x : Process) :
  p !! j = Some x -> map bt p !!! j = bt x.
Proof.
  intros H. apply list_lookup_total_correct.
  change (map bt p) with (bt <$> p). now rewrite list_lookup_fmap, H.
Qed.

Lemma rr_init_inv (p : list Process) :
  Forall (fun x => (0 < bt x)%Z) p ->
  rr_inv (latest_arrival p) (total_burst p + latest_arrival p) p (rr_init p).
Proof.
  intros H. unfold rr_inv, rr_init. cbn [rr_p rr_t ready rr_rt vis rr_done].
  pose proof (latest_arrival_nonneg p) as Hl.
  assert (Hv : forall j x, p !! j = Some x -> repeat 0%Z (length p) !!! j = 0%Z).
  { intros j x Hx. apply lookup_total_repeat. eapply lookup_lt_Some. exact Hx. }
  split.
  { clear. induction p as [|x p IH]; constructor; [apply set_ct_same | exact IH]. }
  split.
  { pose proof (latest_arrival_bound p) as Hb.
    rewrite Forall_forall in *. intros x Hx. specialize (H x Hx). specialize (Hb x Hx).
    cbn beta in *. lia. }
  split.
  { split; [apply length_map |]. split; [apply repeat_length |].
    split; [constructor |]. split; [| split].
    - intros i Hi. inversion Hi.
    - intros j x Hx _. now apply lookup_total_bursts.
    - intros j x Hx Hj. rewrite (Hv j x Hx) in Hj. contradiction. }
  split.
  { intros j Hj Hvj. destruct (lookup_lt_is_Some_2 _ _ Hj) as [x Hx].
    rewrite (Hv j x Hx) in Hvj. contradiction. }
  split.
  { clear - H. induction H as [|x p Hx _ IH]; cbn [map]; constructor; [lia | exact IH]. }
  split; [now rewrite count_pos_bursts |]. split; [lia |].
  split; [rewrite total_rt_bursts; lia |].
  intros j y Hy Hr. rewrite (lookup_total_bursts p j y Hy) in Hr.
  pose proof (proj1 (Forall_lookup _ _) H j y Hy). cbn beta in *. lia.
Qed.

(** X29: for a quantum of at least 1 and burst times of at least 1, with a
    clock that stays an [int], [roundRobin] returns, and whenever it returns
    every process is finished: no time remains, [done] is the number of
    processes, the vector is the one given with only the completion times
    changed, and each completion time is at least the arrival plus the burst
    and at most the latest arrival plus the total burst. *)
Theorem round_robin_terminates :
  forall (p : list Process) (q : Z),
    (1 <= q)%Z ->
    Forall (fun x => (0 < bt x)%Z) p ->
    (total_burst p + latest_arrival p <= INT_MAX)%Z ->
    (exists fuel st, roundRobin fuel p q = Some st)
    /\ forall fuel st,
         roundRobin fuel p q = Some st ->
         rr_done st = length p
         /\ Forall (fun v => v = 0%Z) (rr_rt st)
         /\ Forall2 (fun x y =>
                       y = set_ct x (ct y)
                       /\ (at_ x + bt x <= ct y
                           <= total_burst p + latest_arrival p)%Z)
                    p (rr_p st).
Proof.
  intros p q Hq Hb Hfit.
  pose proof (rr_init_inv p Hb) as Hinv.
  unfold roundRobin. split.
  - exists (rr_measure (latest_arrival p) (rr_init p)).
    apply (rr_loop_terminates q _ _ p _ Hq Hfit _ Hinv). lia.
  - intros fuel st Hrun.
    destruct (rr_loop_keeps q _ _ p fuel Hq Hfit _ _ Hinv Hrun)
      as [(Hrel & Hall & Hok & He & Hnn & Hcount & Ht & Hclock & Hct) Hzero].
    pose proof (count_pos_none _ Hzero Hnn) as Hz.
    destruct (total_rt_bound _ Hnn) as [Htot _].
    destruct Hok as (Hlr & _).
    split; [lia |]. split; [exact Hz |].
    apply Forall2_same_length_lookup. split; [eapply Forall2_length; exact Hrel |].
    intros i x y Hx Hy. pose proof (Forall2_lookup_lr _ _ _ _ _ _ Hrel Hx Hy) as E.
    split; [exact E |].
    assert (Hi : i < length (rr_rt st)).
    { rewrite Hlr. eapply lookup_lt_Some. exact Hx. }
    pose proof (list_lookup_lookup_total_lt _ _ Hi) as Hl.
    pose proof (proj1 (Forall_lookup _ _) Hz i _ Hl) as Hr. cbn beta in Hr.
    specialize (Hct i y Hy Hr). rewrite E in Hct. cbn [at_ bt ct set_ct] in Hct.
    lia.
Qed.

Lemma round_robin_terminates_witness :
  exists fuel st,
    roundRobin fuel sample_processes sample_quantum = Some st
    /\ rr_done st = 4
    /\ Forall2 (fun x y => y = set_ct x (ct y) /\ (at_ x + bt x <= ct y <= 25)%Z)
               sample_processes (rr_p st).
Proof.
  destruct (round_robin_terminates sample_processes sample_quantum)
    as [(fuel & st & Hrun) Hall].
  - unfold sample_quantum. lia.
  - repeat constructor.
  - vm_compute. discriminate.
  - exists fuel, st. destruct (Hall fuel st Hrun) as (H1 & _ & H3).
    split; [exact Hrun |]. split; [exact H1 | exact H3].
Defined.

(** *** Round Robin: the quantum 0 *)

Lemma rr_loop_quantum_zero (p0 : list Process) (fuel : nat) : forall st,
  p0 <> [] ->
  Forall (fun x => (0 < bt x <= INT_MAX)%Z) p0 ->
  rr_p st = p0 -> rr_rt st = map bt p0 -> rr_done st = 0 ->
  (forall i, i ∈ ready st -> i < length p0) ->
  rr_loop fuel 0 st = None.
Proof.
  induction fuel as [|fuel IH]; intros st Hne Hb Hp Hrt Hdone Hready;
    cbn [rr_loop]; rewrite Hp, Hdone;
    (assert (E : Nat.ltb 0 (length p0) = true)
       by (apply Nat.ltb_lt; destruct p0; [contradiction | cbn; lia]));
    rewrite E; [reflexivity |].
  pose proof (rr_iter_eq 0 st) as Eq. cbv zeta in Eq.
  pose proof (enqueue_arrivals_queue (rr_p st) (rr_t st) (ready st) (vis st)) as Hq1.
  set (r1 := enqueue_arrivals (rr_p st) (rr_t st) (ready st, vis st)) in *.
  assert (H1 : forall i, i ∈ fst r1 -> i < length p0).
  { intros i Hi. rewrite Hq1 in Hi. apply elem_of_app in Hi.
    destruct Hi as [Hi | Hi]; [now apply Hready |].
    apply arrivals_elem in Hi. destruct (arrived_lt _ _ _ _ Hi) as (x & Hx & _).
    rewrite Hp in Hx. eapply lookup_lt_Some. exact Hx. }
  destruct (fst r1) as [|i rest] eqn:Er1.
  - rewrite Eq. apply IH; cbn [rr_p rr_rt rr_done ready]; auto.
  - assert (Hi : i < length p0) by (apply H1, elem_of_cons; auto).
    destruct (lookup_lt_is_Some_2 _ _ Hi) as [x Hx].
    pose proof (proj1 (Forall_lookup _ _) Hb i x Hx) as Hbx. cbn beta in Hbx.
    assert (Hr : rr_rt st !!! i = bt x).
    { rewrite Hrt. now apply lookup_total_bursts. }
    rewrite Hr in Eq.
    assert (Hmin : Z.min 0 (bt x) = 0%Z) by lia.
    rewrite Hmin, Z.sub_0_r, Z.add_0_r in Eq.
    assert (Hw : wrap32 (bt x) = bt x).
    { apply wrap32_small. unfold INT_MIN. lia. }
    rewrite Hw in Eq.
    assert (Hid : <[i := bt x]> (rr_rt st) = rr_rt st).
    { apply list_insert_id. rewrite Hrt.
      change (map bt p0) with (bt <$> p0). now rewrite list_lookup_fmap, Hx. }
    rewrite Hid, Hr in Eq.
    assert (E0 : (bt x =? 0)%Z = false) by (apply Z.eqb_neq; lia).
    rewrite E0 in Eq. rewrite Eq.
    pose proof (enqueue_arrivals_queue (rr_p st) (wrap32 (rr_t st)) rest (snd r1))
      as Hq2.
    apply IH; cbn [rr_p rr_rt rr_done ready]; auto.
    intros k Hk. apply elem_of_app in Hk. destruct Hk as [Hk | Hk].
    + rewrite Hq2 in Hk. apply elem_of_app in Hk.
      destruct Hk as [Hk | Hk]; [apply H1, elem_of_cons; auto |].
      apply arrivals_elem in Hk. destruct (arrived_lt _ _ _ _ Hk) as (y & Hy & _).
      rewrite Hp in Hy. eapply lookup_lt_Some. exact Hy.
    + apply list_elem_of_singleton in Hk. now subst k.
Qed.

(** X30: with the quantum 0 the loop of [roundRobin] never ends, whatever
    the fuel, for any processes with burst times of at least 1: a slice of
    [min(0, rt)] runs nothing, so no remaining time changes, every
    dispatched process goes back to the queue and [done] stays 0. *)
Theorem round_robin_quantum_zero :
  forall (p : list Process),
    p <> [] ->
    Forall (fun x => (0 < bt x <= INT_MAX)%Z) p ->
    forall fuel, roundRobin fuel p 0 = None.
Proof.
  intros p Hne Hb fuel. unfold roundRobin, rr_init.
  apply (rr_loop_quantum_zero p); cbn [rr_p rr_rt rr_done ready]; auto.
  intros i Hi. inversion Hi.
Qed.

Lemma round_robin_quantum_zero_witness :
  roundRobin 1000 sample_processes 0 = None.
Proof.
  apply (round_robin_quantum_zero sample_processes).
  - discriminate.
  - repeat constructor; cbn; unfold INT_MAX; lia.
Defined.

End SchedulerMore.
